(** * dvdbackup: block copier, gap plan, gap refresher, chapter extractor and
      feature guesser of [src/dvdbackup.c], as a shallow embedding.

    C [int] and [size_t] values are integers in [Z]; unsigned [size_t]
    arithmetic carries its reduction modulo 2^64, and signed [int]
    arithmetic on sector numbers and block counts carries the two's
    complement reduction.  C arrays are lists read with [arr_get] and
    updated in place with [arr_set]; files are lists of bytes and file names
    are strings.  The disc drive and the kernel are an explicit environment
    threaded through every call that reaches them. *)

From Stdlib Require Import ZArith List Bool Lia.
From Stdlib.Strings Require Import Byte.
From stdpp Require Import base list gmap strings pretty.
Import ListNotations.

Local Open Scope Z_scope.

(** ** Machine integers *)

Definition SIZE_MAX : Z := 2 ^ 64 - 1.
Definition INT_MAX : Z := 2 ^ 31 - 1.
Definition INT_MIN : Z := - 2 ^ 31.

(** Result of an unsigned [size_t] operation. *)
Definition size_t_wrap (x : Z) : Z := x mod 2 ^ 64.

(** Result of a signed [int] operation on a two's complement machine. *)
Definition int_wrap (x : Z) : Z := (x + 2 ^ 31) mod 2 ^ 32 - 2 ^ 31.

Definition is_size_t (x : Z) : Prop := 0 <= x <= SIZE_MAX.
Definition is_int (x : Z) : Prop := INT_MIN <= x <= INT_MAX.

(** ** Constants of the source *)

Definition BUFFER_SIZE : Z := 512.
Definition MAX_VOB_SIZE : Z := 524288.
Definition GAP_SAMPLE_TARGET : Z := 32.
Definition DVD_SEC_SIZ : Z := 2048.

(** Modelled from the spec: [DVD_VIDEO_LB_LEN] comes from the disc library's
    header, which is not part of the sources; the spec fixes the logical
    block at 2048 bytes. *)
Definition DVD_VIDEO_LB_LEN : Z := 2048.

(** Modelled from the spec: [read_error_strategy_t] is declared in
    [dvdbackup.h], which is not part of the sources; the spec lists the
    strategies ABORT, SKIP_BLOCK and SKIP_MULTIBLOCK. *)
Inductive read_error_strategy_t : Set :=
| STRATEGY_ABORT
| STRATEGY_SKIP_BLOCK
| STRATEGY_SKIP_MULTIBLOCK.

(** Modelled from the spec: [gap_strategy_t] is declared in [dvdbackup.h],
    which is not part of the sources; the spec lists the orderings FORWARD,
    REVERSE, OUTSIDE_IN and RANDOM. *)
Inductive gap_strategy_t : Set :=
| GAP_STRATEGY_FORWARD
| GAP_STRATEGY_REVERSE
| GAP_STRATEGY_OUTSIDE_IN
| GAP_STRATEGY_RANDOM.

(** ** Arrays and counted loops *)

(** [a[i]] for an [int] or [size_t] array. *)
Definition arr_get (a : list Z) (i : Z) : Z := default 0 (a !! Z.to_nat i).

(** [a[i] = v]. *)
Definition arr_set (a : list Z) (i : Z) (v : Z) : list Z := <[Z.to_nat i := v]> a.

(** [for (i = lo; i < hi; i++) s = body i s], unrolled [fuel] times. *)
Fixpoint for_loop {S : Type} (fuel : nat) (i hi : Z) (body : Z -> S -> S) (s : S) : S :=
  match fuel with
  | O => s
  | Datatypes.S fuel' =>
      if i <? hi then for_loop fuel' (i + 1) hi body (body i s) else s
  end.

Definition for_range {S : Type} (lo hi : Z) (body : Z -> S -> S) (s : S) : S :=
  for_loop (Z.to_nat (hi - lo)) lo hi body s.

(** ** Chapter extractor: sorting and end-sector alignment *)

Definition swap_pair (sector title : list Z) (i j : Z) : list Z * list Z :=
  let temp_sector := arr_get sector i in
  let temp_title := arr_get title i in
  let sector1 := arr_set sector i (arr_get sector j) in
  let title1 := arr_set title i (arr_get title j) in
  (arr_set sector1 j temp_sector, arr_set title1 j temp_title).

Definition bsort_min_to_max (sector title : list Z) (size : Z) : list Z * list Z :=
  for_range 0 size (fun i st =>
    for_range 0 size (fun j st =>
      let '(sector, title) := st in
      if arr_get sector i <? arr_get sector j
      then swap_pair sector title i j
      else (sector, title)) st) (sector, title).

Definition bsort_max_to_min (sector title : list Z) (size : Z) : list Z * list Z :=
  for_range 0 size (fun i st =>
    for_range 0 size (fun j st =>
      let '(sector, title) := st in
      if arr_get sector i >? arr_get sector j
      then swap_pair sector title i j
      else (sector, title)) st) (sector, title).

Definition align_end_sector (cell_start_sector cell_end_sector : list Z) (size : Z) : list Z :=
  for_range 0 (size - 1) (fun i cell_end_sector =>
    if arr_get cell_end_sector i >=? arr_get cell_start_sector (i + 1)
    then arr_set cell_end_sector i (int_wrap (arr_get cell_start_sector (i + 1) - 1))
    else cell_end_sector) cell_end_sector.

(** The sort and the alignment as [DVDMirrorChapters] chains them on the
    collected cells. *)
Definition sorted_aligned_cells (cell_start_sector cell_end_sector : list Z) (size : Z)
  : list Z * list Z :=
  let '(starts, ends) := bsort_min_to_max cell_start_sector cell_end_sector size in
  (starts, align_end_sector starts ends size).

(** ** Feature guesser: chapter rank of the candidate *)

(** [for (i = 0; (i < titles) && (i < 4); i++)
       if (candidate == title_set_chapter_array[i]) { found_chapter = i + 1; break; }] *)
Fixpoint found_chapter_loop (fuel : nat) (i titles candidate : Z)
    (title_set_chapter_array : list Z) (found_chapter : Z) : Z :=
  match fuel with
  | O => found_chapter
  | Datatypes.S fuel' =>
      if (i <? titles) && (i <? 4) then
        if candidate =? arr_get title_set_chapter_array i then i + 1
        else found_chapter_loop fuel' (i + 1) titles candidate title_set_chapter_array found_chapter
      else found_chapter
  end.

(** The rank computed before the first decision ([found_chapter=6]). *)
Definition found_chapter_first (titles candidate : Z) (title_set_chapter_array : list Z) : Z :=
  found_chapter_loop 4 0 titles candidate title_set_chapter_array 6.

(** The rank computed in the fall-through re-test ([found_chapter=5]), where
    the candidate has been reset to [title_set_size_array[0]]. *)
Definition found_chapter_fallthrough (titles : Z)
    (title_set_size_array title_set_chapter_array : list Z) : Z :=
  let candidate := arr_get title_set_size_array 0 in
  found_chapter_loop 4 0 titles candidate title_set_chapter_array 5.

(** The spec's chapter rank: the 1-based position of the candidate among the
    top four entries of the ranking, [not_found] when it is not there. *)
Definition chapter_rank_spec (not_found candidate : Z) (ranking : list Z) : Z :=
  match list_find (fun t => t = candidate) (take 4 ranking) with
  | Some (i, _) => Z.of_nat i + 1
  | None => not_found
  end.

(** ** Loops that can leave early *)

(** What one iteration of a [while] or [for] body does next. *)
Inductive ctl (St R : Type) : Type :=
| Next (s : St)     (* go round again *)
| Break (s : St)    (* the loop condition is false, or [break] *)
| Ret (r : R).      (* [return] from the enclosing function *)

Arguments Next {St R} s.
Arguments Break {St R} s.
Arguments Ret {St R} r.

(** [while] loop run for at most [fuel] iterations; [None] when the fuel does
    not reach the loop's exit. *)
Fixpoint while_loop {St R : Type} (fuel : nat) (body : St -> option (ctl St R)) (s : St)
  : option (St + R) :=
  match fuel with
  | O => None
  | S fuel' =>
      match body s with
      | None => None
      | Some (Next s') => while_loop fuel' body s'
      | Some (Break s') => Some (inl s')
      | Some (Ret r) => Some (inr r)
      end
  end.

(** [for (i = ...; i < hi; i++)] whose body may [return]. *)
Fixpoint for_loop_ret {St R : Type} (fuel : nat) (i hi : Z)
    (body : Z -> St -> option (St + R)) (s : St) : option (St + R) :=
  match fuel with
  | O => Some (inl s)
  | S fuel' =>
      if i <? hi then
        match body i s with
        | None => None
        | Some (inl s') => for_loop_ret fuel' (i + 1) hi body s'
        | Some (inr r) => Some (inr r)
        end
      else Some (inl s)
  end.

Definition for_range_ret {St R : Type} (lo hi : Z)
    (body : Z -> St -> option (St + R)) (s : St) : option (St + R) :=
  for_loop_ret (Z.to_nat (hi - lo)) lo hi body s.

(** ** Bytes, buffers and files *)

Definition zeros (n : Z) : list byte := replicate (Z.to_nat n) x00.

(** [buffer_is_blank(buffer, length)]: the scan stops at the first byte that
    is not [0x00]. *)
Fixpoint buffer_is_blank_loop (buffer : list byte) : bool :=
  match buffer with
  | [] => true
  | b :: rest => if Byte.eqb b x00 then buffer_is_blank_loop rest else false
  end.

Definition buffer_is_blank (buffer : list byte) (length : Z) : bool :=
  buffer_is_blank_loop (take (Z.to_nat length) buffer).

(** [memcmp(a, b, n)] on the first [n] bytes of both buffers. *)
Fixpoint memcmp_loop (a b : list byte) : Z :=
  match a, b with
  | x :: a', y :: b' =>
      if Byte.eqb x y then memcmp_loop a' b'
      else if (Byte.to_N x <? Byte.to_N y)%N then -1 else 1
  | _, _ => 0
  end.

Definition memcmp (a b : list byte) (n : Z) : Z :=
  memcmp_loop (take (Z.to_nat n) a) (take (Z.to_nat n) b).

(** Contents of a regular file after [data] is stored at byte offset [off]:
    a store past the end leaves a hole of zero bytes, and a store of no
    bytes leaves the file as it is. *)
Definition write_at (file : list byte) (off : Z) (data : list byte) : list byte :=
  match data with
  | [] => file
  | _ =>
      take (Z.to_nat off) file ++ replicate (Z.to_nat off - length file)%nat x00
        ++ data ++ drop (Z.to_nat off + length data)%nat file
  end.

(** Bytes a regular file delivers to a read of [count] bytes at [off]. *)
Definition read_at (file : list byte) (count off : Z) : list byte :=
  take (Z.to_nat count) (drop (Z.to_nat off) file).

(** Contents of a regular file after [ftruncate(fd, len)]. *)
Definition truncate_to (file : list byte) (len : Z) : list byte :=
  take (Z.to_nat len) file ++ replicate (Z.to_nat len - length file)%nat x00.

(** ** The drive and the kernel *)

(** What lies outside the program: the disc library and the kernel decide
    from their own state [Env] what a call returns.
    - [DVDReadBlocks env offset block_count] gives the value returned and the
      bytes stored in the caller's buffer;
    - [sys_write env n] gives the value [write] or [pwrite] returns to a
      request of [n] bytes: the number of bytes stored, or a negative error;
    - [sys_fault env] tells whether [fstat], [pread], [open] or [ftruncate]
      fails;
    - [alloc_fault env] tells whether [malloc] or [realloc] returns [NULL];
    - [c_srand] and [c_rand] are the C library's generator. *)
Record platform (Env : Type) : Type := Platform {
  DVDReadBlocks : Env -> Z -> Z -> Z * list byte * Env;
  sys_write : Env -> Z -> Z * Env;
  sys_fault : Env -> bool * Env;
  alloc_fault : Env -> bool * Env;
  c_srand : Env -> Z -> Env;
  c_rand : Env -> Z * Env
}.

Arguments Platform {Env} _ _ _ _ _ _.
Arguments DVDReadBlocks {Env} _ _ _ _.
Arguments sys_write {Env} _ _ _.
Arguments sys_fault {Env} _ _.
Arguments alloc_fault {Env} _ _.
Arguments c_srand {Env} _ _ _.
Arguments c_rand {Env} _ _.

(** An open output file together with the environment: its contents, the
    offset of the descriptor, and the [pwrite] calls issued so far as
    (byte offset, byte count), newest first. *)
Record world (Env : Type) : Type := World {
  w_env : Env;
  w_file : list byte;
  w_pos : Z;
  w_writes : list (Z * Z)
}.

Arguments World {Env} _ _ _ _.
Arguments w_env {Env} _.
Arguments w_file {Env} _.
Arguments w_pos {Env} _.
Arguments w_writes {Env} _.

Definition with_env {Env : Type} (w : world Env) (e : Env) : world Env :=
  World e (w_file w) (w_pos w) (w_writes w).

(** ** Gap plan *)

Record gap_range_t : Set := GapRange {
  start_block : Z;
  block_count : Z
}.

(** [ranges] holds [plan->ranges[0 .. plan->count - 1]]. *)
Record gap_plan_t : Set := GapPlan {
  ranges : list gap_range_t;
  capacity : Z
}.

Definition plan_count (plan : gap_plan_t) : Z := Z.of_nat (length (ranges plan)).

(** The plan [{0}] both callers start from. *)
Definition empty_plan : gap_plan_t := GapPlan [] 0.

(** [plan->ranges[plan->count - 1] = r]. *)
Definition set_last_range (plan : gap_plan_t) (r : gap_range_t) : gap_plan_t :=
  GapPlan (<[pred (length (ranges plan)) := r]> (ranges plan)) (capacity plan).

Fixpoint gap_plan_contains_from (rs : list gap_range_t) (block : Z) : bool :=
  match rs with
  | [] => false
  | range :: rest =>
      if block <? start_block range then false
      else if block <? size_t_wrap (start_block range + block_count range) then true
      else gap_plan_contains_from rest block
  end.

Definition gap_plan_contains (plan : gap_plan_t) (block : Z) : bool :=
  gap_plan_contains_from (ranges plan) block.

(** The process-wide flags the copy functions consult. *)
Record globals : Set := Globals {
  fill_gaps : bool;
  gap_strategy : gap_strategy_t;
  gap_random_seed : Z;
  gap_random_seed_set : bool
}.

Record gap_fill_segment_t : Set := GapSegment {
  seg_start_block : Z;
  seg_block_count : Z
}.

(** The figures [gap_print_report] prints at the end of a refresh. *)
Record gap_report : Set := GapReport {
  blank_before : Z;
  truncated_before : Z;
  blank_after : Z;
  truncated_after : Z;
  filled_blocks : Z
}.

Section Program.

Context {Env : Type} (P : platform Env).

(** *** System calls on the output file *)

(** [pwrite(fd, data, length data, off)]. *)
Definition do_pwrite (w : world Env) (data : list byte) (off : Z) : Z * world Env :=
  let n := Z.of_nat (length data) in
  let '(r, e') := sys_write P (w_env w) n in
  let file' := if r >? 0 then write_at (w_file w) off (take (Z.to_nat r) data) else w_file w in
  (r, World e' file' (w_pos w) ((off, n) :: w_writes w)).

(** [write(fd, data, length data)] at the descriptor's offset. *)
Definition do_write (w : world Env) (data : list byte) : Z * world Env :=
  let n := Z.of_nat (length data) in
  let '(r, e') := sys_write P (w_env w) n in
  if r >? 0
  then (r, World e' (write_at (w_file w) (w_pos w) (take (Z.to_nat r) data))
                (w_pos w + Z.of_nat (length (take (Z.to_nat r) data))) (w_writes w))
  else (r, World e' (w_file w) (w_pos w) (w_writes w)).

(** [pread(fd, buffer, count, off)]: the value returned and the bytes read. *)
Definition do_pread (w : world Env) (count off : Z) : Z * list byte * world Env :=
  let '(fail, e') := sys_fault P (w_env w) in
  if fail then (-1, [], with_env w e')
  else let buffer := read_at (w_file w) count off in
       (Z.of_nat (length buffer), buffer, with_env w e').

(** *** [gap_plan_add] *)

Definition gap_plan_add (e : Env) (plan : gap_plan_t) (start count : Z)
  : Z * gap_plan_t * Env :=
  if count =? 0 then (0, plan, e)
  else
    let coalesced :=
      match last (ranges plan) with
      | Some last_range =>
          let last_end := size_t_wrap (start_block last_range + block_count last_range) in
          if start <=? last_end then
            let new_end := size_t_wrap (start + count) in
            if new_end >? last_end
            then Some (set_last_range plan
                         (GapRange (start_block last_range)
                                   (size_t_wrap (new_end - start_block last_range))))
            else Some plan
          else None
      | None => None
      end in
    match coalesced with
    | Some plan' => (0, plan', e)
    | None =>
        if plan_count plan =? capacity plan then
          let new_capacity :=
            if capacity plan =? 0 then 8 else size_t_wrap (capacity plan * 2) in
          let new_capacity :=
            if new_capacity <? size_t_wrap (plan_count plan + 1)
            then size_t_wrap (plan_count plan + 1) else new_capacity in
          let '(fail, e') := alloc_fault P e in
          if fail then (-1, plan, e')
          else (0, GapPlan (ranges plan ++ [GapRange start count]) new_capacity, e')
        else (0, GapPlan (ranges plan ++ [GapRange start count]) (capacity plan), e)
    end.

(** *** [scan_existing_file_for_gaps] *)

Record scan_state : Type := ScanState {
  ss_plan : gap_plan_t;
  ss_blank_blocks : Z;
  ss_pending_start : Z;
  ss_env : Env
}.

(** What the scan hands back: the return value, the plan, and the three
    output parameters, which the callers read only after a return of 0. *)
Record scan_result : Type := ScanResult {
  scan_ret : Z;
  scan_plan : gap_plan_t;
  scan_blank_blocks : Z;
  scan_full_blocks : Z;
  scan_existing_bytes : Z;
  scan_env : Env
}.

(** Body of the inner [for] over the blocks of one chunk; it returns the
    environment when [gap_plan_add] fails. *)
Definition scan_block (processed : Z) (buffer : list byte) (i : Z) (st : scan_state)
  : option (scan_state + Env) :=
  let block_index := size_t_wrap (processed + i) in
  let block_ptr := drop (Z.to_nat (i * DVD_VIDEO_LB_LEN)) buffer in
  if buffer_is_blank block_ptr DVD_VIDEO_LB_LEN then
    if ss_pending_start st =? SIZE_MAX
    then Some (inl (ScanState (ss_plan st) (ss_blank_blocks st) block_index (ss_env st)))
    else Some (inl st)
  else if negb (ss_pending_start st =? SIZE_MAX) then
    let run := size_t_wrap (block_index - ss_pending_start st) in
    let '(rc, plan', e') := gap_plan_add (ss_env st) (ss_plan st) (ss_pending_start st) run in
    if negb (rc =? 0) then Some (inr e')
    else Some (inl (ScanState plan' (size_t_wrap (ss_blank_blocks st + run)) SIZE_MAX e'))
  else Some (inl st).

(** Body of the [while (processed < scan_blocks)] loop. *)
Definition scan_chunk (file : list byte) (scan_blocks : Z) (s : Z * scan_state)
  : option (ctl (Z * scan_state) Env) :=
  let '(processed, st) := s in
  if processed <? scan_blocks then
    let chunk_blocks := size_t_wrap (scan_blocks - processed) in
    let chunk_blocks := if chunk_blocks >? BUFFER_SIZE then BUFFER_SIZE else chunk_blocks in
    let '(fail, e1) := sys_fault P (ss_env st) in
    if fail then Some (Ret e1)
    else
      let buffer := read_at file (size_t_wrap (chunk_blocks * DVD_VIDEO_LB_LEN))
                            (processed * DVD_VIDEO_LB_LEN) in
      let bytes := Z.of_nat (length buffer) in
      let have_blocks := bytes / DVD_VIDEO_LB_LEN in
      let st1 := ScanState (ss_plan st) (ss_blank_blocks st) (ss_pending_start st) e1 in
      if have_blocks =? 0 then Some (Break (processed, st1))
      else
        let chunk_blocks := if have_blocks <? chunk_blocks then have_blocks else chunk_blocks in
        match for_range_ret 0 chunk_blocks (scan_block processed buffer) st1 with
        | None => None
        | Some (inr e) => Some (Ret e)
        | Some (inl st') => Some (Next (size_t_wrap (processed + chunk_blocks), st'))
        end
  else Some (Break s).

Definition scan_existing_file_for_gaps (e : Env) (file : list byte) (expected_blocks : Z)
    (plan : gap_plan_t) : option scan_result :=
  let '(fail, e0) := sys_fault P e in
  if fail then Some (ScanResult (-1) plan 0 0 0 e0)
  else
    let existing_bytes := Z.of_nat (length file) in
    let full_blocks := size_t_wrap (existing_bytes / DVD_VIDEO_LB_LEN) in
    let scan_blocks := if full_blocks >? expected_blocks then expected_blocks else full_blocks in
    let '(fail, e1) := if scan_blocks >? 0 then alloc_fault P e0 else (false, e0) in
    if fail then Some (ScanResult (-1) plan 0 0 existing_bytes e1)
    else
      match while_loop (S (Z.to_nat scan_blocks)) (scan_chunk file scan_blocks)
                       (0, ScanState plan 0 SIZE_MAX e1) with
      | None => None
      | Some (inr e2) => Some (ScanResult (-1) plan 0 0 existing_bytes e2)
      | Some (inl (processed, st)) =>
          if negb (ss_pending_start st =? SIZE_MAX) then
            let run := size_t_wrap (scan_blocks - ss_pending_start st) in
            let '(rc, plan', e3) :=
              gap_plan_add (ss_env st) (ss_plan st) (ss_pending_start st) run in
            if negb (rc =? 0) then Some (ScanResult (-1) plan' 0 0 existing_bytes e3)
            else Some (ScanResult 0 plan' (size_t_wrap (ss_blank_blocks st + run))
                                  full_blocks existing_bytes e3)
          else Some (ScanResult 0 (ss_plan st) (ss_blank_blocks st)
                                full_blocks existing_bytes (ss_env st))
      end.

(** *** [gap_collect_samples] *)

(** [while (forward < available_blocks && gap_plan_contains(plan, forward)) forward++;] *)
Definition sample_walk_forward (plan : gap_plan_t) (available_blocks forward : Z) : option Z :=
  match while_loop (S (Z.to_nat (available_blocks - forward)))
          (fun forward : Z =>
             Some (if (forward <? available_blocks) && gap_plan_contains plan forward
                   then Next (size_t_wrap (forward + 1))
                   else @Break Z Empty_set forward))
          forward with
  | Some (inl forward') => Some forward'
  | _ => None
  end.

(** [while (backward > 0 && gap_plan_contains(plan, backward)) backward--;] *)
Definition sample_walk_backward (plan : gap_plan_t) (backward : Z) : option Z :=
  match while_loop (S (Z.to_nat backward))
          (fun backward : Z =>
             Some (if (backward >? 0) && gap_plan_contains plan backward
                   then Next (size_t_wrap (backward - 1))
                   else @Break Z Empty_set backward))
          backward with
  | Some (inl backward') => Some backward'
  | _ => None
  end.

(** The candidate sample [i] starts from. *)
Definition sample_candidate (available_blocks target i : Z) : Z :=
  size_t_wrap (size_t_wrap (size_t_wrap (i + 1) * available_blocks) / size_t_wrap (target + 1)).

(** Body of the [for] over the samples; [samples] holds
    [samples[0 .. count - 1]]. *)
Definition sample_step (plan : gap_plan_t) (available_blocks target : Z)
    (i : Z) (samples : list Z) : option (list Z + Empty_set) :=
  let candidate := sample_candidate available_blocks target i in
  let forward := candidate in
  let candidate :=
    if candidate >=? available_blocks then size_t_wrap (available_blocks - 1) else candidate in
  match sample_walk_forward plan available_blocks forward with
  | None => None
  | Some forward =>
      let chosen :=
        if forward >=? available_blocks then
          match sample_walk_backward plan candidate with
          | None => None
          | Some backward =>
              if gap_plan_contains plan backward then Some None   (* continue *)
              else Some (Some backward)
          end
        else Some (Some forward) in
      match chosen with
      | None => None
      | Some None => Some (inl samples)
      | Some (Some forward) =>
          if (Z.of_nat (length samples) >? 0)
             && (default 0 (last samples) =? forward)
          then Some (inl samples)
          else Some (inl (samples ++ [forward]))
      end
  end.

Definition gap_collect_samples (plan : gap_plan_t) (available_blocks desired : Z)
  : option (list Z) :=
  if (available_blocks =? 0) || (desired =? 0) then Some []
  else
    let target := if available_blocks <? desired then available_blocks else desired in
    match for_range_ret 0 target (sample_step plan available_blocks target) [] with
    | Some (inl samples) => Some samples
    | _ => None
    end.

(** *** [gap_verify_samples] *)

Fixpoint gap_verify_samples (w : world Env) (dvd_offset : Z) (samples : list Z)
  : Z * world Env :=
  match samples with
  | [] => (0, w)
  | block :: rest =>
      let '(got, dvd_block, e1) :=
        DVDReadBlocks P (w_env w) (int_wrap (dvd_offset + int_wrap block)) 1 in
      if negb (got =? 1) then (1, with_env w e1)
      else
        let '(read_bytes, file_block, w2) :=
          do_pread (with_env w e1) DVD_VIDEO_LB_LEN (block * DVD_VIDEO_LB_LEN) in
        if negb (read_bytes =? DVD_VIDEO_LB_LEN) then (1, w2)
        else if negb (memcmp dvd_block file_block DVD_VIDEO_LB_LEN =? 0) then (1, w2)
        else gap_verify_samples w2 dvd_offset rest
  end.

(** *** [gap_process_segment] *)

(** Loop state: [cursor], the file, and [*filled_blocks_out]. *)
Definition segment_state : Type := Z * world Env * Z.

Definition gap_process_chunk (errorstrat : read_error_strategy_t)
    (dvd_offset segment_start block_count : Z) (s : segment_state)
  : option (ctl segment_state (Z * world Env * Z)) :=
  let '(cursor, w, filled) := s in
  if cursor <? block_count then
    let chunk := size_t_wrap (block_count - cursor) in
    let chunk := if chunk >? BUFFER_SIZE then BUFFER_SIZE else chunk in
    let read_block := size_t_wrap (segment_start + cursor) in
    let '(blocks_read, buffer, e1) :=
      DVDReadBlocks P (w_env w) (int_wrap (dvd_offset + int_wrap read_block)) (int_wrap chunk) in
    let w1 := with_env w e1 in
    let usable_blocks :=
      if blocks_read =? int_wrap chunk then chunk
      else if blocks_read >? 0 then size_t_wrap blocks_read
      else 0 in
    let written :=
      if usable_blocks >? 0 then
        let '(written, w2) :=
          do_pwrite w1 (take (Z.to_nat (size_t_wrap (usable_blocks * DVD_VIDEO_LB_LEN))) buffer)
                    (read_block * DVD_VIDEO_LB_LEN) in
        if negb (written =? size_t_wrap (usable_blocks * DVD_VIDEO_LB_LEN))
        then inr (1, w2, filled)
        else inl (w2, size_t_wrap (filled + usable_blocks))
      else inl (w1, filled) in
    match written with
    | inr r => Some (Ret r)
    | inl (w2, filled2) =>
        if usable_blocks <? chunk then
          let remaining := size_t_wrap (block_count - size_t_wrap (cursor + usable_blocks)) in
          if remaining =? 0 then Some (Next (block_count, w2, filled2))
          else
            let skip :=
              match errorstrat with
              | STRATEGY_ABORT => None
              | STRATEGY_SKIP_BLOCK => Some 1
              | STRATEGY_SKIP_MULTIBLOCK =>
                  let unread := size_t_wrap (chunk - usable_blocks) in
                  Some (if unread =? 0 then 1 else unread)
              end in
            match skip with
            | None => Some (Ret (1, w2, filled2))
            | Some skip_blocks =>
                let skip_blocks := if skip_blocks >? remaining then remaining else skip_blocks in
                Some (Next (size_t_wrap (size_t_wrap (cursor + usable_blocks) + skip_blocks),
                            w2, filled2))
            end
        else Some (Next (size_t_wrap (cursor + chunk), w2, filled2))
    end
  else Some (Break s).

(** Returns the value of [gap_process_segment], the file and
    [*filled_blocks_out]. *)
Definition gap_process_segment (errorstrat : read_error_strategy_t)
    (dvd_offset segment_start block_count : Z) (w : world Env) (filled : Z)
  : option (Z * world Env * Z) :=
  match while_loop (S (Z.to_nat block_count))
          (gap_process_chunk errorstrat dvd_offset segment_start block_count)
          (0, w, filled) with
  | None => None
  | Some (inr r) => Some r
  | Some (inl (_, w', filled')) => Some (0, w', filled')
  end.

(** *** [gap_fill_from_plan] *)

(** [segments[i]] and [segments[i] = v]. *)
Definition seg_get (segments : list gap_fill_segment_t) (i : Z) : gap_fill_segment_t :=
  default (GapSegment 0 0) (segments !! Z.to_nat i).

Definition seg_set (segments : list gap_fill_segment_t) (i : Z) (v : gap_fill_segment_t)
  : list gap_fill_segment_t :=
  <[Z.to_nat i := v]> segments.

(** Random ordering, first loop: cut one range into segments of at most
    [BUFFER_SIZE] blocks.  State: [produced], the segments, their capacity
    and the environment; the environment is returned when [realloc] fails. *)
Definition random_cut_chunk (range_start range_blocks : Z)
    (s : Z * list gap_fill_segment_t * Z * Env)
  : option (ctl (Z * list gap_fill_segment_t * Z * Env) Env) :=
  let '(produced, segments, segment_capacity, e) := s in
  if produced <? range_blocks then
    let chunk := size_t_wrap (range_blocks - produced) in
    let chunk := if chunk >? BUFFER_SIZE then BUFFER_SIZE else chunk in
    let grown :=
      if Z.of_nat (length segments) =? segment_capacity then
        let new_capacity :=
          if segment_capacity =? 0 then 32 else size_t_wrap (segment_capacity * 2) in
        let '(fail, e') := alloc_fault P e in
        if fail then inr e' else inl (new_capacity, e')
      else inl (segment_capacity, e) in
    match grown with
    | inr e' => Some (Ret e')
    | inl (segment_capacity', e') =>
        Some (Next (size_t_wrap (produced + chunk),
                    segments ++ [GapSegment (size_t_wrap (range_start + produced)) chunk],
                    segment_capacity', e'))
    end
  else Some (Break s).

Fixpoint random_cut_ranges (rs : list gap_range_t) (segments : list gap_fill_segment_t)
    (segment_capacity : Z) (e : Env) : option (list gap_fill_segment_t * Env + Env) :=
  match rs with
  | [] => Some (inl (segments, e))
  | range :: rest =>
      match while_loop (S (Z.to_nat (block_count range)))
              (random_cut_chunk (start_block range) (block_count range))
              (0, segments, segment_capacity, e) with
      | None => None
      | Some (inr e') => Some (inr e')
      | Some (inl (_, segments', capacity', e')) =>
          random_cut_ranges rest segments' capacity' e'
      end
  end.

(** [for (size_t i = segment_count; i > 1; --i)]: the shuffle. *)
Fixpoint random_shuffle (fuel : nat) (i : Z) (segments : list gap_fill_segment_t) (e : Env)
  : list gap_fill_segment_t * Env :=
  match fuel with
  | O => (segments, e)
  | S fuel' =>
      if i >? 1 then
        let '(r, e') := c_rand P e in
        let j := size_t_wrap (Z.rem r (int_wrap i)) in
        let temp := seg_get segments (i - 1) in
        let segments1 := seg_set segments (i - 1) (seg_get segments j) in
        random_shuffle fuel' (i - 1) (seg_set segments1 j temp) e'
      else (segments, e)
  end.

(** The last loop of the random ordering: the segments in their shuffled
    order, stopping at the first failure. *)
Fixpoint process_segments (errorstrat : read_error_strategy_t) (dvd_offset : Z)
    (segments : list gap_fill_segment_t) (w : world Env) (total_filled : Z)
  : option (Z * world Env * Z) :=
  match segments with
  | [] => Some (0, w, total_filled)
  | seg :: rest =>
      match gap_process_segment errorstrat dvd_offset
              (seg_start_block seg) (seg_block_count seg) w total_filled with
      | None => None
      | Some (rc, w', filled') =>
          if negb (rc =? 0) then Some (1, w', filled')
          else process_segments errorstrat dvd_offset rest w' filled'
      end
  end.

(** Reverse ordering of one range.  State: [processed], the file and the
    blocks filled. *)
Definition reverse_chunk (errorstrat : read_error_strategy_t)
    (dvd_offset range_start range_blocks : Z) (s : Z * world Env * Z)
  : option (ctl (Z * world Env * Z) (Z * world Env * Z)) :=
  let '(processed, w, filled) := s in
  if processed <? range_blocks then
    let chunk := size_t_wrap (range_blocks - processed) in
    let chunk := if chunk >? BUFFER_SIZE then BUFFER_SIZE else chunk in
    let segment_start :=
      size_t_wrap (size_t_wrap (size_t_wrap (range_start + range_blocks) - processed) - chunk) in
    match gap_process_segment errorstrat dvd_offset segment_start chunk w filled with
    | None => None
    | Some (rc, w', filled') =>
        if negb (rc =? 0) then Some (Ret (1, w', filled'))
        else Some (Next (size_t_wrap (processed + chunk), w', filled'))
    end
  else Some (Break s).

(** Outside-in ordering of one range.  State: [front], [back], [use_front],
    the file and the blocks filled. *)
Definition outside_in_chunk (errorstrat : read_error_strategy_t)
    (dvd_offset range_start : Z) (s : Z * Z * bool * world Env * Z)
  : option (ctl (Z * Z * bool * world Env * Z) (Z * world Env * Z)) :=
  let '(front, back, use_front, w, filled) := s in
  if front <? back then
    let remaining := size_t_wrap (back - front) in
    let chunk := if remaining >? BUFFER_SIZE then BUFFER_SIZE else remaining in
    if use_front then
      let segment_start := size_t_wrap (range_start + front) in
      match gap_process_segment errorstrat dvd_offset segment_start chunk w filled with
      | None => None
      | Some (rc, w', filled') =>
          if negb (rc =? 0) then Some (Ret (1, w', filled'))
          else Some (Next (size_t_wrap (front + chunk), back, negb use_front, w', filled'))
      end
    else
      let segment_start := size_t_wrap (range_start + size_t_wrap (back - chunk)) in
      match gap_process_segment errorstrat dvd_offset segment_start chunk w filled with
      | None => None
      | Some (rc, w', filled') =>
          if negb (rc =? 0) then Some (Ret (1, w', filled'))
          else Some (Next (front, size_t_wrap (back - chunk), negb use_front, w', filled'))
      end
  else Some (Break s).

(** One range under the orderings other than the random one. *)
Definition fill_range (strategy : gap_strategy_t) (errorstrat : read_error_strategy_t)
    (dvd_offset : Z) (range : gap_range_t) (w : world Env) (total_filled : Z)
  : option (Z * world Env * Z) :=
  let range_start := start_block range in
  let range_blocks := block_count range in
  match strategy with
  | GAP_STRATEGY_FORWARD =>
      match gap_process_segment errorstrat dvd_offset range_start range_blocks
              w total_filled with
      | None => None
      | Some (rc, w', filled') => Some (if negb (rc =? 0) then 1 else 0, w', filled')
      end
  | GAP_STRATEGY_REVERSE =>
      match while_loop (S (Z.to_nat range_blocks))
              (reverse_chunk errorstrat dvd_offset range_start range_blocks)
              (0, w, total_filled) with
      | None => None
      | Some (inr r) => Some r
      | Some (inl (_, w', filled')) => Some (0, w', filled')
      end
  | GAP_STRATEGY_OUTSIDE_IN =>
      match while_loop (S (Z.to_nat range_blocks))
              (outside_in_chunk errorstrat dvd_offset range_start)
              (0, range_blocks, true, w, total_filled) with
      | None => None
      | Some (inr r) => Some r
      | Some (inl (_, _, _, w', filled')) => Some (0, w', filled')
      end
  | GAP_STRATEGY_RANDOM => Some (0, w, total_filled)
  end.

(** [for (range_index = 0; range_index < plan->count && result == 0; ++range_index)] *)
Fixpoint fill_ranges (strategy : gap_strategy_t) (errorstrat : read_error_strategy_t)
    (dvd_offset : Z) (rs : list gap_range_t) (w : world Env) (total_filled : Z)
  : option (Z * world Env * Z) :=
  match rs with
  | [] => Some (0, w, total_filled)
  | range :: rest =>
      match fill_range strategy errorstrat dvd_offset range w total_filled with
      | None => None
      | Some (rc, w', filled') =>
          if negb (rc =? 0) then Some (rc, w', filled')
          else fill_ranges strategy errorstrat dvd_offset rest w' filled'
      end
  end.

(** Returns the value of [gap_fill_from_plan], the file and
    [*filled_blocks_out]. *)
Definition gap_fill_from_plan (g : globals) (w : world Env) (dvd_offset : Z)
    (plan : gap_plan_t) (errorstrat : read_error_strategy_t)
  : option (Z * world Env * Z) :=
  if plan_count plan =? 0 then Some (0, w, 0)
  else
    let '(fail, e0) := alloc_fault P (w_env w) in
    if fail then Some (1, with_env w e0, 0)
    else
      let w0 := with_env w e0 in
      match gap_strategy g with
      | GAP_STRATEGY_RANDOM =>
          match random_cut_ranges (ranges plan) [] 0 e0 with
          | None => None
          | Some (inr e1) => Some (1, with_env w e1, 0)
          | Some (inl (segments, e1)) =>
              let e2 := c_srand P e1 (if gap_random_seed_set g then gap_random_seed g else 0) in
              let segment_count := Z.of_nat (length segments) in
              let '(segments', e3) :=
                random_shuffle (Z.to_nat segment_count) segment_count segments e2 in
              process_segments errorstrat dvd_offset segments' (with_env w e3) 0
          end
      | strategy => fill_ranges strategy errorstrat dvd_offset (ranges plan) w0 0
      end.

(** *** [DVDCopyBlocksFillGaps] *)

(** What the first part of [DVDCopyBlocksFillGaps] leaves: whether it went
    through ([rp_ret] is 0, else the function returns 1), the plan with the
    missing tail added, the two counts, and the samples collected. *)
Record refresh_prep : Type := RefreshPrep {
  rp_ret : Z;
  rp_plan : gap_plan_t;
  rp_blank_blocks : Z;
  rp_truncated_blocks : Z;
  rp_samples : list Z;
  rp_env : Env
}.

(** [DVDCopyBlocksFillGaps] from its start to the call of
    [gap_collect_samples]. *)
Definition refresh_prepare (e : Env) (file : list byte) (size : Z) : option refresh_prep :=
  match scan_existing_file_for_gaps e file (size_t_wrap size) empty_plan with
  | None => None
  | Some sr =>
      if negb (scan_ret sr =? 0)
      then Some (RefreshPrep 1 (scan_plan sr) 0 0 [] (scan_env sr))
      else
        let blank_blocks := scan_blank_blocks sr in
        let existing_blocks := scan_full_blocks sr in
        let existing_blocks :=
          if size_t_wrap size <? existing_blocks then size_t_wrap size else existing_blocks in
        let '(rc, plan, e1, truncated_blocks) :=
          if size_t_wrap size >? existing_blocks then
            let missing := size_t_wrap (size_t_wrap size - existing_blocks) in
            let '(rc, plan, e1) :=
              gap_plan_add (scan_env sr) (scan_plan sr) existing_blocks missing in
            (rc, plan, e1, missing)
          else (0, scan_plan sr, scan_env sr, 0) in
        if negb (rc =? 0) then Some (RefreshPrep 1 plan blank_blocks truncated_blocks [] e1)
        else
          match gap_collect_samples plan (size_t_wrap size) GAP_SAMPLE_TARGET with
          | None => None
          | Some sample_slots =>
              Some (RefreshPrep 0 plan blank_blocks truncated_blocks sample_slots e1)
          end
  end.

(** Returns the value of the function, the figures printed when the end of
    the function is reached, and the file. *)
Definition DVDCopyBlocksFillGaps (g : globals) (w : world Env) (offset size : Z)
    (errorstrat : read_error_strategy_t) : option (Z * option gap_report * world Env) :=
  match refresh_prepare (w_env w) (w_file w) size with
  | None => None
  | Some rp =>
      let w1 := with_env w (rp_env rp) in
      if negb (rp_ret rp =? 0) then Some (1, None, w1)
      else
        let plan := rp_plan rp in
        let blank_blocks := rp_blank_blocks rp in
        let truncated_blocks := rp_truncated_blocks rp in
        let sample_count := Z.of_nat (length (rp_samples rp)) in
        let '(vrc, w2) :=
          if sample_count >? 0 then gap_verify_samples w1 offset (rp_samples rp)
          else (0, w1) in
        if negb (vrc =? 0) then Some (1, None, w2)
        else
          match gap_fill_from_plan g w2 offset plan errorstrat with
          | None => None
          | Some (fill_status, w3, filled) =>
              let rescanned :=
                if fill_status =? 0 then
                  match scan_existing_file_for_gaps (w_env w3) (w_file w3)
                          (size_t_wrap size) empty_plan with
                  | None => None
                  | Some vr =>
                      if scan_ret vr =? 0 then
                        Some (scan_blank_blocks vr,
                              if size_t_wrap size >? scan_full_blocks vr
                              then size_t_wrap (size_t_wrap size - scan_full_blocks vr)
                              else 0,
                              scan_env vr)
                      else Some (blank_blocks, truncated_blocks, scan_env vr)
                  end
                else Some (blank_blocks, truncated_blocks, w_env w3) in
              match rescanned with
              | None => None
              | Some (blank_after, truncated_after, e4) =>
                  Some (if negb (fill_status =? 0) then 1 else 0,
                        Some (GapReport blank_blocks truncated_blocks
                                        blank_after truncated_after filled),
                        with_env w3 e4)
              end
          end
  end.

(** *** [DVDCopyBlocks] *)

Definition buffer_zero : list byte := zeros (BUFFER_SIZE * DVD_VIDEO_LB_LEN).

(** Loop state: [offset], [remaining], [to_read] and the file. *)
Definition copy_state : Type := Z * Z * Z * world Env.

(** Body of [while (remaining > 0)]. *)
Definition copy_chunk (errorstrat : read_error_strategy_t) (s : copy_state)
  : option (ctl copy_state (Z * world Env)) :=
  let '(offset, remaining, to_read, w) := s in
  if remaining >? 0 then
    let to_read := if to_read >? remaining then remaining else to_read in
    let '(act_read, buffer, e1) := DVDReadBlocks P (w_env w) offset to_read in
    let w1 := with_env w e1 in
    let written :=
      if act_read >? 0 then
        let '(n, w2) :=
          do_write w1 (take (Z.to_nat (act_read * DVD_VIDEO_LB_LEN)) buffer) in
        if negb (n =? act_read * DVD_VIDEO_LB_LEN) then inr (1, w2)
        else inl (int_wrap (offset + act_read), remaining - act_read, w2)
      else inl (offset, remaining, w1) in
    match written with
    | inr r => Some (Ret r)
    | inl (offset2, remaining2, w2) =>
        if negb (act_read =? to_read) then
          let act_read := if act_read <? 0 then 0 else act_read in
          let blanks :=
            match errorstrat with
            | STRATEGY_ABORT => None
            | STRATEGY_SKIP_BLOCK => Some 1
            | STRATEGY_SKIP_MULTIBLOCK => Some (to_read - act_read)
            end in
          match blanks with
          | None => Some (Ret (1, w2))
          | Some numBlanks =>
              let '(n, w3) :=
                do_write w2 (take (Z.to_nat (numBlanks * DVD_VIDEO_LB_LEN)) buffer_zero) in
              if negb (n =? numBlanks * DVD_VIDEO_LB_LEN) then Some (Ret (1, w3))
              else Some (Next (int_wrap (offset2 + numBlanks), remaining2 - numBlanks,
                               to_read, w3))
          end
        else Some (Next (offset2, remaining2, to_read, w2))
    end
  else Some (Break s).

(** Returns the value of [DVDCopyBlocks] and the file. *)
Definition DVDCopyBlocks (g : globals) (w : world Env) (offset size : Z)
    (errorstrat : read_error_strategy_t) : option (Z * world Env) :=
  if fill_gaps g then
    match DVDCopyBlocksFillGaps g w offset size errorstrat with
    | None => None
    | Some (rc, _, w') => Some (rc, w')
    end
  else
    match while_loop (S (Z.to_nat size)) (copy_chunk errorstrat)
                     (offset, size, BUFFER_SIZE, w) with
    | None => None
    | Some (inr r) => Some r
    | Some (inl (_, _, _, w')) => Some (0, w')
    end.

(** *** [finalize_vob_file] and [DVDWriteCells] *)

(** [streamout] is an open descriptor here; returns the value of the
    function, the file and the environment. *)
Definition finalize_vob_file (g : globals) (e : Env) (file : list byte) (size_blocks : Z)
  : Z * list byte * Env :=
  if fill_gaps g then (0, file, e)
  else
    let target_size := size_blocks * DVD_VIDEO_LB_LEN in
    let '(fail, e') := sys_fault P e in
    if fail then (-1, file, e')
    else (0, truncate_to file target_size, e').

(** *** File names *)

(** [strlen] *)
Definition strlen (s : string) : Z := Z.of_nat (String.length s).

(** What [printf] writes for [%i] and [%1i]: the decimal digits of an
    [int], after a minus sign when it is negative. *)
Definition fmt_i (n : Z) : string := pretty n.

(** What [printf] writes for [%02i]: at least two characters, with a zero
    before a single digit. *)
Definition fmt_02i (n : Z) : string :=
  if (0 <=? n) && (n <? 10) then "0" +:+ pretty n else pretty n.

(** [snprintf(buffer, size, ...)] for [size > 0]: the first [size - 1]
    characters of the text, whatever its length. *)
Definition snprintf (size : Z) (text : string) : string :=
  String.substring 0 (Z.to_nat (size - 1)) text.

(** [sprintf(filename, "VTS_%02i_%1i.VOB", title_set, vob)] into
    [char filename[13]], as [DVDCopyTitleVobX] and [DVDCmpTitleVobX] start:
    the array afterwards, or [None] when the text and its terminating zero
    do not fit it, where the call writes past the array and the behaviour
    of the program is undefined. *)
Definition sprintf_filename (title_set vob : Z) : option string :=
  if title_set >? 0 then
    let text := "VTS_" +:+ fmt_02i title_set +:+ "_" +:+ fmt_i vob +:+ ".VOB" in
    if strlen text + 1 <=? 13 then Some text else None
  else Some "VIDEO_TS.VOB".

(** The name [DVDWriteCells] builds for part [vob] in its buffer of
    [strlen(targetdir) + strlen(title_name) + 24] bytes:
    [snprintf(targetname, targetname_length, "%s/%s/VIDEO_TS/VTS_%02i_%i.VOB",
    targetdir, title_name, title_set, vob)].  The buffer holds the name of a
    part with one digit of a title set with two; a longer name loses its
    end. *)
Definition vob_targetname (targetdir title_name : string) (title_set vob : Z) : string :=
  let targetname_length :=
    size_t_wrap (size_t_wrap (strlen targetdir + strlen title_name) + 24) in
  snprintf targetname_length
    (targetdir +:+ "/" +:+ title_name +:+ "/VIDEO_TS/VTS_" +:+ fmt_02i title_set
     +:+ "_" +:+ fmt_i vob +:+ ".VOB").

(** The regular files of the target directory, by name. *)
Definition vob_files : Type := gmap string (list byte).

(** [open(targetname, O_WRONLY | O_CREAT | O_APPEND, 0666)]: [None] when the
    call fails. *)
Definition open_vob (e : Env) (files : vob_files) (targetname : string)
  : option vob_files * Env :=
  let '(fail, e') := sys_fault P e in
  if fail then (None, e')
  else (Some (match files !! targetname with
              | Some _ => files
              | None => <[targetname := []]> files
              end), e').

(** Loop state of [DVDWriteCells]: [vob], [size], the files and the
    environment; [targetname] is the name built for part [vob] and
    [streamout] the descriptor of that file. *)
Record cells_state : Type := CellsState {
  cs_vob : Z;
  cs_size : Z;
  cs_files : vob_files;
  cs_env : Env
}.

(** Body of [while (left > 0)] for one cell, with [fill_gaps] off.  State:
    [left], [soffset] and the loop state above; a [return] carries [result].
    [left], [size], [to_read], [have_read] and [vob] are [int]s. *)
Definition write_cell_chunk (g : globals) (targetdir title_name : string) (title_set : Z)
    (s : Z * Z * cells_state) : option (ctl (Z * Z * cells_state) (Z * cells_state)) :=
  let '(left_blocks, soffset, cs) := s in
  let targetname := vob_targetname targetdir title_name title_set (cs_vob cs) in
  if left_blocks >? 0 then
    let to_read := left_blocks in
    let to_read :=
      if int_wrap (to_read + cs_size cs) >? MAX_VOB_SIZE
      then int_wrap (MAX_VOB_SIZE - cs_size cs) else to_read in
    let to_read := if to_read >? BUFFER_SIZE then BUFFER_SIZE else to_read in
    let '(have_read, buffer, e1) := DVDReadBlocks P (cs_env cs) soffset to_read in
    let cs1 := CellsState (cs_vob cs) (cs_size cs) (cs_files cs) e1 in
    if have_read <? 0 then Some (Ret (1, cs1))
    else if have_read =? 0 then Some (Ret (1, cs1))
    else
      let nbytes := int_wrap (have_read * DVD_VIDEO_LB_LEN) in
      let data := take (Z.to_nat (size_t_wrap nbytes)) buffer in
      let '(n, e2) := sys_write P e1 (size_t_wrap nbytes) in
      let files2 :=
        if n >? 0
        then alter (fun file => file ++ take (Z.to_nat n) data) targetname (cs_files cs)
        else cs_files cs in
      if negb (n =? nbytes)
      then Some (Ret (1, CellsState (cs_vob cs) (cs_size cs) files2 e2))
      else
        let soffset := int_wrap (soffset + have_read) in
        let left_blocks := int_wrap (left_blocks - have_read) in
        let size := int_wrap (cs_size cs + have_read) in
        if (size >=? MAX_VOB_SIZE) && (left_blocks >? 0) then
          let '(rc, file3, e3) :=
            finalize_vob_file g e2 (default [] (files2 !! targetname)) (size_t_wrap size) in
          let files3 := <[targetname := file3]> files2 in
          if negb (rc =? 0)
          then Some (Ret (1, CellsState (cs_vob cs) size files3 e3))
          else
            let vob := int_wrap (cs_vob cs + 1) in
            match open_vob e3 files3 (vob_targetname targetdir title_name title_set vob) with
            | (None, e4) => Some (Ret (1, CellsState vob 0 files3 e4))
            | (Some files4, e4) => Some (Next (left_blocks, soffset, CellsState vob 0 files4 e4))
            end
        else Some (Next (left_blocks, soffset, CellsState (cs_vob cs) size files2 e2))
  else Some (Break s).

(** Body of [for (i = 0; i < length; i++)]; the loop on [left] ends within
    [left] rounds when every round delivers a block. *)
Definition write_cell (g : globals) (targetdir title_name : string) (title_set : Z)
    (cell_start_sector cell_end_sector : list Z)
    (i : Z) (cs : cells_state) : option (cells_state + Z * cells_state) :=
  let left_blocks := int_wrap (arr_get cell_end_sector i - arr_get cell_start_sector i) in
  let soffset := arr_get cell_start_sector i in
  match while_loop (S (Z.to_nat left_blocks))
          (write_cell_chunk g targetdir title_name title_set) (left_blocks, soffset, cs) with
  | None => None
  | Some (inr r) => Some (inr r)
  | Some (inl (_, _, cs')) => Some (inl cs')
  end.

(** [DVDWriteCells] with [fill_gaps] off, the mode in which it mirrors the
    cells into fresh files; the refresh branch of its loop body is not part
    of this model.  [title_set] is [titles_info->titles[titles - 1].title_set].
    Returns [result], the files and the environment. *)
Definition DVDWriteCells (g : globals) (e : Env) (files : vob_files)
    (cell_start_sector cell_end_sector : list Z) (length title_set : Z)
    (targetdir title_name : string)
  : option (Z * vob_files * Env) :=
  let vob := 1 in
  let '(fail, e0) := alloc_fault P e in                   (* targetname *)
  if fail then Some (1, files, e0)
  else
    let files0 :=
      if negb (fill_gaps g) then
        for_range 0 10
          (fun i fs =>
             delete (vob_targetname targetdir title_name title_set (int_wrap (i + 1))) fs)
          files
      else files in
    if title_set =? 0 then Some (1, files0, e0)
    else
      let '(fail, e1) := alloc_fault P e0 in               (* buffer *)
      if fail then Some (1, files0, e1)
      else
        match open_vob e1 files0 (vob_targetname targetdir title_name title_set vob) with
        | (None, e2) => Some (1, files0, e2)
        | (Some files1, e2) =>
            let '(fail, e3) := sys_fault P e2 in           (* DVDOpenFile *)
            if fail then Some (1, files1, e3)
            else
              match for_range_ret 0 length
                      (write_cell g targetdir title_name title_set
                                  cell_start_sector cell_end_sector)
                      (CellsState vob 0 files1 e3) with
              | None => None
              | Some (inr (result, cs)) => Some (result, cs_files cs, cs_env cs)
              | Some (inl cs) =>
                  let targetname :=
                    vob_targetname targetdir title_name title_set (cs_vob cs) in
                  let '(rc, file', e4) :=
                    finalize_vob_file g (cs_env cs)
                      (default [] (cs_files cs !! targetname)) (size_t_wrap (cs_size cs)) in
                  let files' := <[targetname := file']> (cs_files cs) in
                  if negb (rc =? 0) then Some (1, files', e4)
                  else Some (0, files', e4)
              end
        end.

(** A plan built by a sequence of [gap_plan_add] calls, given as (start,
    count) pairs; it stops at the first call that fails. *)
Fixpoint gap_plan_add_all (e : Env) (plan : gap_plan_t) (inserts : list (Z * Z))
  : Z * gap_plan_t * Env :=
  match inserts with
  | [] => (0, plan, e)
  | (start, count) :: rest =>
      let '(rc, plan', e') := gap_plan_add e plan start count in
      if negb (rc =? 0) then (rc, plan', e')
      else gap_plan_add_all e' plan' rest
  end.
End Program.

(** ** Predicates used to state the properties *)

(** [a[0 .. k - 1]] is in non-decreasing order. *)
Definition sorted_upto (a : list Z) (k : Z) : Prop :=
  forall p q, 0 <= p -> p <= q -> q < k -> arr_get a p <= arr_get a q.

(** Every element of [a[0 .. n - 1]] satisfies [Q]. *)
Definition all_upto (Q : Z -> Prop) (a : list Z) (n : Z) : Prop :=
  forall k, 0 <= k < n -> Q (arr_get a k).

(** Invariant of the inner loop of [bsort_min_to_max] at [j], for a fixed
    [i]: the part before [i] is sorted and everything before [j] is at most
    [sector[i]]. *)
Definition bsort_inner_inv (Q : Z -> Prop) (n : Z) (i j : Z) (st : list Z * list Z) : Prop :=
  Z.of_nat (length st.1) = n /\ Z.of_nat (length st.2) = n
  /\ all_upto Q st.1 n /\ sorted_upto st.1 i
  /\ forall p, 0 <= p < j -> arr_get st.1 p <= arr_get st.1 i.

Definition bsort_outer_inv (Q : Z -> Prop) (n : Z) (i : Z) (st : list Z * list Z) : Prop :=
  Z.of_nat (length st.1) = n /\ Z.of_nat (length st.2) = n
  /\ all_upto Q st.1 n /\ sorted_upto st.1 i.


(** The ordered-disjoint invariant of a gap plan: every range ends strictly
    before each later range starts. *)
Definition ordered_disjoint (rs : list gap_range_t) : Prop :=
  forall (i j : nat) ri rj, (i < j)%nat -> rs !! i = Some ri -> rs !! j = Some rj ->
    start_block ri + block_count ri < start_block rj.

(** A range that is not empty and whose end fits a [size_t]. *)
Definition range_fits (r : gap_range_t) : Prop :=
  0 <= start_block r /\ 0 < block_count r /\ start_block r + block_count r <= SIZE_MAX.

Definition plan_ok (rs : list gap_range_t) : Prop :=
  ordered_disjoint rs /\ Forall range_fits rs.

(** An insertion whose arguments are [size_t] values and whose end does not
    overflow. *)
Definition insert_fits (ins : Z * Z) : Prop :=
  0 <= ins.1 /\ 0 <= ins.2 /\ ins.1 + ins.2 <= SIZE_MAX.

(** [block] lies in some range of the plan. *)
Definition in_plan (rs : list gap_range_t) (block : Z) : Prop :=
  exists r, r ∈ rs /\ start_block r <= block < start_block r + block_count r.

Definition in_planb (rs : list gap_range_t) (block : Z) : bool :=
  existsb (fun r => (start_block r <=? block) && (block <? start_block r + block_count r)) rs.

(** *** Verification sampling, in the spec's words *)

Definition free_block (rs : list gap_range_t) (block : Z) : bool := negb (in_planb rs block).

(** The first block from [candidate] up to the end that is not in the plan. *)
Definition first_free_from (rs : list gap_range_t) (candidate available : Z) : option Z :=
  List.find (free_block rs) (seqZ candidate (available - candidate)).

(** The first block from [candidate] down to 0 that is not in the plan. *)
Definition last_free_upto (rs : list gap_range_t) (candidate : Z) : option Z :=
  List.find (free_block rs) (reverse (seqZ 0 (candidate + 1))).

(** Sample [i] of target [T]: forward from [floor((i+1) * available / (T+1))],
    else backward from there, else none. *)
Definition sample_spec (rs : list gap_range_t) (available T i : Z) : option Z :=
  let candidate := (i + 1) * available / (T + 1) in
  match first_free_from rs candidate available with
  | Some forward => Some forward
  | None => last_free_upto rs candidate
  end.

(** A sample equal to the one collected just before it is dropped. *)
Definition push_sample (samples : list Z) (sample : option Z) : list Z :=
  match sample with
  | None => samples
  | Some s =>
      match last samples with
      | Some prev => if prev =? s then samples else samples ++ [s]
      | None => samples ++ [s]
      end
  end.

Definition samples_spec (rs : list gap_range_t) (available desired : Z) : list Z :=
  if (available =? 0) || (desired =? 0) then []
  else
    let T := Z.min available desired in
    foldl (fun samples i => push_sample samples (sample_spec rs available T i)) [] (seqZ 0 T).

(** ** A drive and a kernel without faults *)

(** The drive reads the image [disc] and delivers whole blocks up to its end,
    at most [limit] blocks per call; no system call fails; [rand] returns
    [seed]. *)
Definition image_platform (disc : list byte) (limit seed : Z) : platform unit :=
  Platform
    (fun e offset block_count =>
       let data := read_at disc (Z.min block_count limit * DVD_VIDEO_LB_LEN)
                           (offset * DVD_VIDEO_LB_LEN) in
       let got := Z.of_nat (length data) / DVD_VIDEO_LB_LEN in
       (got, take (Z.to_nat (got * DVD_VIDEO_LB_LEN)) data, e))
    (fun e n => (n, e))
    (fun e => (false, e))
    (fun e => (false, e))
    (fun e _ => e)
    (fun e => (seed, e)).

(** ** Assumptions on the drive and the kernel *)

(** The disc library returns at most the number of blocks asked for, and a
    positive return comes with that many blocks of data. *)
Definition reads_bounded {Env : Type} (P : platform Env) : Prop :=
  forall e offset block_count,
    0 <= block_count ->
    (DVDReadBlocks P e offset block_count).1.1 <= block_count
    /\ (0 < (DVDReadBlocks P e offset block_count).1.1 ->
        Z.of_nat (length (DVDReadBlocks P e offset block_count).1.2)
        = (DVDReadBlocks P e offset block_count).1.1 * DVD_VIDEO_LB_LEN).

(** Every [write] and [pwrite] stores all the bytes it is given. *)
Definition writes_complete {Env : Type} (P : platform Env) : Prop :=
  forall e n, (sys_write P e n).1 = n.

(** [fstat], [pread], [open] and [ftruncate] do not fail. *)
Definition no_sys_faults {Env : Type} (P : platform Env) : Prop :=
  forall e, (sys_fault P e).1 = false.

(** [malloc] and [realloc] do not fail. *)
Definition no_alloc_faults {Env : Type} (P : platform Env) : Prop :=
  forall e, (alloc_fault P e).1 = false.

(** [rand] returns a value from 0 to [RAND_MAX]. *)
Definition rand_nonneg {Env : Type} (P : platform Env) : Prop :=
  forall e, 0 <= (c_rand P e).1.

(** A disc image of one block that is not blank. *)
Definition disc1 : list byte := replicate (Z.to_nat 2048) "1"%byte.

(** ** Blank blocks and runs of blank blocks *)

(** Block [k] of a file: its bytes from [k * 2048] on, 2048 of them when the
    block is a full block. *)
Definition block_of (file : list byte) (k : Z) : list byte :=
  take (Z.to_nat DVD_VIDEO_LB_LEN) (drop (Z.to_nat (k * DVD_VIDEO_LB_LEN)) file).

Definition full_blocks_of (file : list byte) : Z :=
  Z.of_nat (length file) / DVD_VIDEO_LB_LEN.

(** A block is blank when every one of its bytes is [0x00]. *)
Definition blank_block (file : list byte) (k : Z) : Prop :=
  Forall (fun b => b = x00) (block_of file k).

Definition blank_blockb (file : list byte) (k : Z) : bool :=
  forallb (fun b => Byte.eqb b x00) (block_of file k).

Section Runs.

(** The blank flag of each block. *)
Variable B : Z -> bool.

Definition all_blank (a b : Z) : Prop := forall k, a <= k < b -> B k = true.

(** No blank block lies just before [s]. *)
Definition left_maximal (s : Z) : Prop := s = 0 \/ B (s - 1) = false.

(** [{s, n}] is a maximal run of blank blocks among the blocks [0 .. N-1]. *)
Definition maximal_run (N s n : Z) : Prop :=
  0 <= s /\ 0 < n /\ s + n <= N /\ all_blank s (s + n) /\ left_maximal s
  /\ (s + n = N \/ B (s + n) = false).

(** A maximal run closed by a block that is not blank, before block [k]. *)
Definition closed_run (k s n : Z) : Prop :=
  0 <= s /\ 0 < n /\ s + n < k /\ all_blank s (s + n) /\ left_maximal s
  /\ B (s + n) = false.

(** Number of blank blocks among the blocks [0 .. k-1]. *)
Definition count_blank (k : Z) : Z := Z.of_nat (length (List.filter B (seqZ 0 k))).

(** What [pending_start] holds when the blocks before [k] have been seen. *)
Definition pending_ok (k pending : Z) : Prop :=
  (pending = SIZE_MAX /\ (k = 0 \/ B (k - 1) = false))
  \/ (0 <= pending < k /\ all_blank pending k /\ left_maximal pending).

(** Invariant of the scan when the blocks before [k] have been seen. *)
Definition scan_inv (k : Z) (rs : list gap_range_t) (blank pending : Z) : Prop :=
  plan_ok rs
  /\ (forall s n, GapRange s n ∈ rs <-> closed_run k s n)
  /\ pending_ok k pending
  /\ blank = count_blank (if pending =? SIZE_MAX then k else pending).

End Runs.

(** Some system call or allocation can fail on this platform. *)
Definition faulty {Env : Type} (P : platform Env) : Prop :=
  (exists e, (sys_fault P e).1 = true) \/ (exists e, (alloc_fault P e).1 = true).

(** The largest file length an [off_t] holds. *)
Definition OFF_MAX : Z := 2 ^ 63 - 1.

(** A file of three full blocks, the last two blank, and five more bytes. *)
Definition file3 : list byte :=
  replicate (Z.to_nat 2048) "1"%byte ++ replicate (Z.to_nat 4096) x00
    ++ replicate 5%nat "2"%byte.

(** ** What a refresh may touch *)

(** Block [k] of the expected range is a gap of the file: a blank full
    block, or a block at or beyond the end of the file's full blocks. *)
Definition gap_block (file : list byte) (expected_blocks k : Z) : Prop :=
  0 <= k < expected_blocks
  /\ (blank_blockb file k = true \/ full_blocks_of file <= k).

Definition gap_blockb (file : list byte) (k : Z) : bool :=
  (full_blocks_of file <=? k) || blank_blockb file k.

(** Number of gaps among the expected blocks: blank blocks and missing
    blocks together. *)
Definition gap_count (file : list byte) (expected_blocks : Z) : Z :=
  Z.of_nat (length (List.filter (gap_blockb file) (seqZ 0 expected_blocks))).

(** [file'] comes from [file] by stores inside the blocks [inside], all
    below block [E]: it is no shorter, it grows at most to [E] blocks, and
    the bytes of [file] outside these blocks are as they were. *)
Definition file_frame (inside : Z -> Prop) (E : Z) (file file' : list byte) : Prop :=
  (length file <= length file')%nat
  /\ Z.of_nat (length file') <= Z.max (Z.of_nat (length file)) (E * DVD_VIDEO_LB_LEN)
  /\ forall j : nat, (j < length file)%nat ->
       ~ inside (Z.of_nat j / DVD_VIDEO_LB_LEN) -> file' !! j = file !! j.

(** A [pwrite] of [wr.2] bytes at byte offset [wr.1] that starts on a block
    boundary and stays inside the blocks [inside]. *)
Definition write_inside (inside : Z -> Prop) (wr : Z * Z) : Prop :=
  exists b u, wr.1 = b * DVD_VIDEO_LB_LEN /\ 1 <= u /\ 0 <= wr.2 <= u * DVD_VIDEO_LB_LEN
              /\ forall k, b <= k < b + u -> inside k.

(** The file and the log of [pwrite] calls after stores inside [inside]. *)
Definition world_frame {Env : Type} (inside : Z -> Prop) (E : Z) (w w' : world Env) : Prop :=
  file_frame inside E (w_file w) (w_file w')
  /\ exists new, w_writes w' = new ++ w_writes w /\ Forall (write_inside inside) new.

(** A segment of blocks inside [inside] and below block [E]. *)
Definition blocks_inside (inside : Z -> Prop) (E start count : Z) : Prop :=
  0 <= start /\ 0 <= count /\ start + count <= E
  /\ forall k, start <= k < start + count -> inside k.


Definition range_inside (inside : Z -> Prop) (E : Z) (r : gap_range_t) : Prop :=
  blocks_inside inside E (start_block r) (block_count r).

Definition segment_inside (inside : Z -> Prop) (E : Z) (seg : gap_fill_segment_t) : Prop :=
  blocks_inside inside E (seg_start_block seg) (seg_block_count seg).

(** Block [k] is a gap of the file that the plan [rs] covers. *)
Definition plan_gap (rs : list gap_range_t) (file : list byte) (E k : Z) : Prop :=
  in_plan rs k /\ gap_block file E k.

(** Number of blank blocks among the full blocks of the file that lie in
    the expected range. *)
Definition blank_count (file : list byte) (expected_blocks : Z) : Z :=
  count_blank (blank_blockb file) (Z.min (full_blocks_of file) expected_blocks).


(** The flags of a refresh with the forward ordering. *)
Definition refresh_forward : globals := Globals true GAP_STRATEGY_FORWARD 0 false.

(** A disc of two blocks that differ from those of [disc1]. *)
Definition disc2 : list byte := replicate (Z.to_nat 4096) "2"%byte.

(** Number of expected blocks that the file's full blocks do not reach. *)
Definition missing_blocks (file : list byte) (expected_blocks : Z) : Z :=
  expected_blocks - Z.min (full_blocks_of file) expected_blocks.

(** ** Title VOB parts *)

(** What the loops of [DVDWriteCells] keep: the current part holds at most
    [MAX_VOB_SIZE] blocks, and every file other than the current part is a
    file that was there before or a part of at most 1 GiB. *)
Definition cells_inv {Env : Type} (targetdir title_name : string) (title_set : Z)
    (files0 : vob_files) (cs : @cells_state Env) : Prop :=
  0 <= cs_size cs <= MAX_VOB_SIZE
  /\ forall (v : string) f, cs_files cs !! v = Some f ->
       v = vob_targetname targetdir title_name title_set (cs_vob cs)
       \/ files0 !! v = Some f
       \/ Z.of_nat (length f) <= MAX_VOB_SIZE * DVD_VIDEO_LB_LEN.

(** The two arrays hold [n] cells of [int] sectors, and a cell is shorter
    than what an [int] holds beyond a full part, so that neither
    [cell_end_sector[i] - cell_start_sector[i]] nor [to_read + size] at the
    cap test overflows. *)
Definition cells_in_range (cell_start_sector cell_end_sector : list Z) (n : Z) : Prop :=
  forall i, 0 <= i < n ->
    (Z.to_nat i < length cell_start_sector)%nat
    /\ (Z.to_nat i < length cell_end_sector)%nat
    /\ is_int (arr_get cell_start_sector i) /\ is_int (arr_get cell_end_sector i)
    /\ INT_MIN <= arr_get cell_end_sector i - arr_get cell_start_sector i
       <= INT_MAX - MAX_VOB_SIZE.

(** A disc image of 524300 blocks, twelve more than a part holds. *)
Definition disc_524300 : list byte := replicate (Z.to_nat (524300 * 2048)) "1"%byte.

(** ** Sequences of insertions *)

(** The starts of the insertions do not decrease, from [prev] on. *)
Fixpoint starts_nondecreasing (prev : Z) (inserts : list (Z * Z)) : Prop :=
  match inserts with
  | [] => True
  | (start, _) :: rest => prev <= start /\ starts_nondecreasing start rest
  end.

(** [block] lies in one of the inserted ranges. *)
Definition in_inserts (inserts : list (Z * Z)) (block : Z) : Prop :=
  exists ins, ins ∈ inserts /\ ins.1 <= block < ins.1 + ins.2.

(** ** A drive that reads an image *)

(** Every read of at most [BUFFER_SIZE] blocks that lies inside the image
    [disc] delivers all the blocks asked for, with their bytes. *)
Definition reads_image {Env : Type} (P : platform Env) (disc : list byte) : Prop :=
  forall e offset n,
    0 <= offset -> 0 < n <= BUFFER_SIZE ->
    (offset + n) * DVD_VIDEO_LB_LEN <= Z.of_nat (length disc) ->
    (DVDReadBlocks P e offset n).1
    = (n, read_at disc (n * DVD_VIDEO_LB_LEN) (offset * DVD_VIDEO_LB_LEN)).

(** The fresh copy's loop keeps the descriptor at the end of the file, and
    what is written and what remains add up to the size asked for. *)
Definition copy_inv {Env : Type} (file0 : list byte) (L : Z) (s : Z * Z * Z * world Env)
  : Prop :=
  let '(_, remaining, to_read, w) := s in
  0 <= remaining /\ 0 < to_read <= BUFFER_SIZE
  /\ w_pos w = Z.of_nat (length (w_file w))
  /\ Z.of_nat (length (w_file w)) + remaining * DVD_VIDEO_LB_LEN = L
  /\ file0 `prefix_of` w_file w.

(** The copy of an image: the file so far is the old file and the blocks of
    the image from [offset0] up to the current offset. *)
Definition copy_image_inv {Env : Type} (disc file0 : list byte) (offset0 size : Z)
    (s : Z * Z * Z * world Env) : Prop :=
  let '(offset, remaining, to_read, w) := s in
  0 <= remaining <= size /\ 0 < to_read <= BUFFER_SIZE
  /\ offset = offset0 + (size - remaining)
  /\ w_pos w = Z.of_nat (length (w_file w))
  /\ w_file w = file0 ++ read_at disc ((size - remaining) * DVD_VIDEO_LB_LEN)
                                 (offset0 * DVD_VIDEO_LB_LEN).

(** * Feature guesser and chapter extractor: the helpers *)

(** ** C [int] division *)

(** [a / b] and [a % b] on [int]: the quotient is truncated towards zero and
    the remainder has the sign of [a]. *)
Definition int_div (a b : Z) : Z := int_wrap (Z.quot a b).
Definition int_mod (a b : Z) : Z := int_wrap (Z.rem a b).

(** ** [CheckSizeArray] *)

(** The conjunction is evaluated left to right in the source; the divisions
    are reached only when [size_array[target]] is not zero. *)
Definition CheckSizeArray (size_array : list Z) (reference target : Z) : Z :=
  if negb (arr_get size_array target =? 0)
     && (int_div (arr_get size_array reference) (arr_get size_array target) =? 1)
     && (int_div (int_wrap (int_wrap (arr_get size_array reference * 2)
                            - arr_get size_array target))
                 (arr_get size_array target) =? 1)
     && (int_wrap (int_mod (arr_get size_array reference) (arr_get size_array target) * 3)
         <? arr_get size_array reference)
  then 1 else 0.

(** ** [CheckAudioSubChannels] *)

(** One of the three loops of [CheckAudioSubChannels]:
    [for (i = 0; i < title_sets; i++) {
       if (count_array[i] < temp) break;
       if (candidate == title_set_array[i]) { found = 1; break; } }] *)
Fixpoint found_in_ranking (fuel : nat) (i title_sets temp candidate : Z)
    (count_array title_set_array : list Z) : Z :=
  match fuel with
  | O => 0
  | S fuel' =>
      if i <? title_sets then
        if arr_get count_array i <? temp then 0
        else if candidate =? arr_get title_set_array i then 1
        else found_in_ranking fuel' (i + 1) title_sets temp candidate
                              count_array title_set_array
      else 0
  end.

Definition CheckAudioSubChannels
    (audio_audio_array title_set_audio_array
     subpicture_sub_array title_set_sub_array
     channels_channel_array title_set_channel_array : list Z)
    (reference candidate title_sets : Z) : Z :=
  let found_audio :=
    found_in_ranking (Z.to_nat title_sets) 0 title_sets
      (arr_get audio_audio_array reference) candidate
      audio_audio_array title_set_audio_array in
  let found_sub :=
    found_in_ranking (Z.to_nat title_sets) 0 title_sets
      (arr_get subpicture_sub_array reference) candidate
      subpicture_sub_array title_set_sub_array in
  let found_channels :=
    found_in_ranking (Z.to_nat title_sets) 0 title_sets
      (arr_get channels_channel_array reference) candidate
      channels_channel_array title_set_channel_array in
  int_wrap (int_wrap (found_audio + found_sub) + found_channels).

(** The candidate stands in a ranking among the entries that are not below
    the reference value: at some index [i], with no entry up to [i] below
    [temp]. *)
Definition ranked_at_top (title_sets temp candidate : Z)
    (count_array title_set_array : list Z) : Prop :=
  exists i, 0 <= i < title_sets
            /\ arr_get title_set_array i = candidate
            /\ forall j, 0 <= j <= i -> temp <= arr_get count_array j.

(** [a[0 .. k - 1]] is in non-increasing order. *)
Definition sorted_down_upto (a : list Z) (k : Z) : Prop :=
  forall p q, 0 <= p -> p <= q -> q < k -> arr_get a q <= arr_get a p.

(** ** Titles *)

Record titles_t : Set := Titles {
  title : Z;
  title_set : Z;
  vts_title : Z;
  chapters : Z;
  aspect_ratio : Z;
  angles : Z;
  audio_tracks : Z;
  audio_channels : Z;
  sub_pictures : Z
}.

Record titles_info_t : Set := TitlesInfo {
  main_title_set : Z;
  number_of_titles : Z;
  titles : list titles_t
}.

(** [titles_info->titles[i]]. *)
Definition titles_get (info : titles_info_t) (i : Z) : titles_t :=
  default (Titles 0 0 0 0 0 0 0 0 0) (titles info !! Z.to_nat i).

(** The start of [DVDMirrorChapters]: with no title given, the title of the
    main title set with the most chapters.  State: [chapters] and [titles]. *)
Definition DVDMirrorChapters_title (info : titles_info_t) (titles : Z) : Z :=
  if titles =? 0 then
    (for_range 0 (number_of_titles info)
       (fun i (st : Z * Z) =>
          let '(chapters_seen, titles) := st in
          if title_set (titles_get info i) =? main_title_set info then
            if chapters_seen <? chapters (titles_get info i)
            then (chapters (titles_get info i), int_wrap (i + 1))
            else st
          else st)
       (0, titles)).2
  else titles.

(** ** Invariants of [bsort_max_to_min] *)

(** Inner loop at [j], for a fixed [i]: the part before [i] is in
    non-increasing order and everything before [j] is at least
    [sector[i]]. *)
Definition bsort_down_inner_inv (n : Z) (i j : Z) (st : list Z * list Z) : Prop :=
  Z.of_nat (length st.1) = n /\ Z.of_nat (length st.2) = n
  /\ sorted_down_upto st.1 i
  /\ forall p, 0 <= p < j -> arr_get st.1 i <= arr_get st.1 p.

Definition bsort_down_outer_inv (n : Z) (i : Z) (st : list Z * list Z) : Prop :=
  Z.of_nat (length st.1) = n /\ Z.of_nat (length st.2) = n
  /\ sorted_down_upto st.1 i.

(** The two arrays hold the pairs of [pairs], in some order. *)
Definition same_pairs (n : Z) (pairs : list (Z * Z)) (st : list Z * list Z) : Prop :=
  Z.of_nat (length st.1) = n /\ Z.of_nat (length st.2) = n
  /\ zip st.1 st.2 ≡ₚ pairs.

(** The title set [candidate] exists and none has a greater count. *)
Definition has_most (counts : Z -> Z) (title_sets candidate : Z) : Prop :=
  1 <= candidate <= title_sets
  /\ forall k, 0 <= k < title_sets -> counts k <= counts (candidate - 1).

(** Title [t] (counted from 1) belongs to the main title set. *)
Definition in_main_title_set (info : titles_info_t) (t : Z) : Prop :=
  title_set (titles_get info (t - 1)) = main_title_set info.

(** What [DVDMirrorChapters] has found after the titles before [i]:
    nothing yet, or the first title with the most chapters among those of
    the main title set. *)
Definition title_pick_inv (info : titles_info_t) (i : Z) (st : Z * Z) : Prop :=
  (st.2 = 0 /\ st.1 = 0
   /\ forall k, 1 <= k <= i -> in_main_title_set info k ->
        chapters (titles_get info (k - 1)) <= 0)
  \/ (1 <= st.2 <= i /\ in_main_title_set info st.2
      /\ st.1 = chapters (titles_get info (st.2 - 1)) /\ 0 < st.1
      /\ (forall k, 1 <= k <= i -> in_main_title_set info k ->
            chapters (titles_get info (k - 1)) <= st.1)
      /\ (forall k, 1 <= k < st.2 -> in_main_title_set info k ->
            chapters (titles_get info (k - 1)) < st.1)).

(** * [DVDGetInfo]: the feature guesser *)

(** What the guesser reads from the Video Manager information of the disc
    library: [vmg_ifo->tt_srpt->title[i]] and [vmg_ifo->vts_atrt->vts[i]],
    with the fields the source names. *)
Record title_entry : Set := TitleEntry {
  title_set_nr : Z;
  vts_ttn : Z;
  nr_of_ptts : Z;
  nr_of_angles : Z
}.

Record vts_attributes : Set := VtsAttributes {
  nr_of_vtstt_subp_streams : Z;
  nr_of_vtstt_audio_streams : Z;
  vtstt_audio_channels : list Z;        (* [vtstt_audio_attr[i].channels] *)
  display_aspect_ratio : Z              (* [vtstt_vobs_video_attr.display_aspect_ratio] *)
}.

Record vmg_info : Set := VmgInfo {
  nr_of_srpts : Z;
  tt_title : list title_entry;
  vmg_nr_of_title_sets : Z;
  vts : list vts_attributes
}.

Definition tt_get (v : vmg_info) (i : Z) : title_entry :=
  default (TitleEntry 0 0 0 0) (tt_title v !! Z.to_nat i).

Definition vts_get (v : vmg_info) (i : Z) : vts_attributes :=
  default (VtsAttributes 0 0 [] 0) (vts v !! Z.to_nat i).

(** [for (counter = 0; counter < n; counter++) a[counter] = f(counter);] *)
Definition fill_array {A : Type} (n : Z) (f : Z -> A) : list A := map f (seqZ 0 n).

(** The greatest [channels + 1] among the audio streams of a title set. *)
Definition max_channels (attr : vts_attributes) : Z :=
  for_range 0 (nr_of_vtstt_audio_streams attr)
    (fun i channels =>
       if channels <? int_wrap (arr_get (vtstt_audio_channels attr) i + 1)
       then int_wrap (arr_get (vtstt_audio_channels attr) i + 1)
       else channels) 0.

(** The first loop over the titles: the fields of [titles_info->titles] it
    sets; the other four are set by the loop over the title sets. *)
Definition titles_first_pass (v : vmg_info) (titles : Z) : list titles_t :=
  fill_array titles (fun counter =>
    Titles (counter + 1) (title_set_nr (tt_get v counter)) (vts_ttn (tt_get v counter))
           (nr_of_ptts (tt_get v counter)) 0 (nr_of_angles (tt_get v counter)) 0 0 0).

(** The loop over the title sets, as far as [titles_info] goes: every title
    of title set [counter + 1] takes the attributes of that title set. *)
Definition titles_second_pass (v : vmg_info) (titles title_sets : Z) (ts : list titles_t)
  : list titles_t :=
  for_range 0 title_sets (fun counter ts =>
    for_range 0 titles (fun f ts =>
      let t := default (Titles 0 0 0 0 0 0 0 0 0) (ts !! Z.to_nat f) in
      if title_set t =? counter + 1 then
        <[Z.to_nat f :=
            Titles (title t) (title_set t) (vts_title t) (chapters t)
                   (display_aspect_ratio (vts_get v counter)) (angles t)
                   (nr_of_vtstt_audio_streams (vts_get v counter))
                   (max_channels (vts_get v counter))
                   (nr_of_vtstt_subp_streams (vts_get v counter))]> ts
      else ts) ts) ts.

(** The greatest number of chapters among the titles of title set [ts]:
    [chapters_1] and [chapters_2] of the source. *)
Definition most_chapters (info : list titles_t) (titles ts : Z) : Z :=
  for_range 0 titles (fun i chapters_1 =>
    let t := default (Titles 0 0 0 0 0 0 0 0 0) (info !! Z.to_nat i) in
    if title_set t =? ts then
      if chapters_1 <? chapters t then chapters t else chapters_1
    else chapters_1) 0.

(** The arrays after [bsort_max_to_min], as the decisions use them. *)
Record sort_arrays : Set := SortArrays {
  chapter_chapter_array : list Z;   title_set_chapter_array : list Z;
  subpicture_sub_array : list Z;    title_set_sub_array : list Z;
  audio_audio_array : list Z;       title_set_audio_array : list Z;
  size_size_array : list Z;         title_set_size_array : list Z;
  channels_channel_array : list Z;  title_set_channel_array : list Z
}.

(** [for (i = 0; i < title_sets; ++i)
       if (CheckSizeArray(size_size_array, 0, i + 1) == 0) break;
     number_of_multi = i;] *)
Fixpoint number_of_multi_loop (fuel : nat) (i title_sets : Z) (size_size_array : list Z) : Z :=
  match fuel with
  | O => i
  | S fuel' =>
      if i <? title_sets then
        if CheckSizeArray size_size_array 0 (i + 1) =? 0 then i
        else number_of_multi_loop fuel' (i + 1) title_sets size_size_array
      else i
  end.

(** The first choice of the candidate, with the flags [multi] and [dual]. *)
Definition first_candidate (v : vmg_info) (info : list titles_t) (a : sort_arrays)
    (titles title_sets aspect : Z) : Z * Z * Z :=
  if (title_sets >? 1) && (CheckSizeArray (size_size_array a) 0 1 =? 1) then
    let chapters_1 := most_chapters info titles (arr_get (title_set_size_array a) 0) in
    let chapters_2 := most_chapters info titles (arr_get (title_set_size_array a) 1) in
    let aspect_0 :=
      display_aspect_ratio (vts_get v (arr_get (title_set_size_array a) 0 - 1)) in
    let aspect_1 :=
      display_aspect_ratio (vts_get v (arr_get (title_set_size_array a) 1 - 1)) in
    if aspect_0 =? aspect_1 then (arr_get (title_set_size_array a) 0, 1, 0)
    else if (chapters_1 =? chapters_2) && negb (aspect_0 =? aspect_1) then
      (if aspect_0 =? aspect then arr_get (title_set_size_array a) 0
       else if aspect_1 =? aspect then arr_get (title_set_size_array a) 1
       else arr_get (title_set_size_array a) 0,
       0, 1)
    else (arr_get (title_set_size_array a) 0, 0, 0)
  else (arr_get (title_set_size_array a) 0, 0, 0).

Definition check_candidate (a : sort_arrays) (candidate title_sets : Z) : Z :=
  CheckAudioSubChannels (audio_audio_array a) (title_set_audio_array a)
    (subpicture_sub_array a) (title_set_sub_array a)
    (channels_channel_array a) (title_set_channel_array a)
    0 candidate title_sets.

(** The decisions of [DVDGetInfo] once the arrays are sorted: the value of
    [titles_info->main_title_set].  [beyond] is the [int] that follows
    [size_size_array] in memory: the loop that counts the title sets of the
    same size range reads [size_size_array[title_sets]] when none of them
    falls out of the range. *)
Definition main_title_set_guess (v : vmg_info) (info : list titles_t) (a : sort_arrays)
    (titles title_sets aspect beyond : Z) : Z :=
  let '(candidate, multi, dual) := first_candidate v info a titles title_sets aspect in
  let found := check_candidate a candidate title_sets in
  let found_chapter := found_chapter_first titles candidate (title_set_chapter_array a) in
  if ((found =? 3) && (found_chapter =? 1) && (dual =? 0) && (multi =? 0))
     || ((found =? 3) && (found_chapter <? 3) && (dual =? 1))
  then candidate
  else
    let multi_choice :=
      if multi =? 1 then
        let number_of_multi :=
          number_of_multi_loop (Z.to_nat title_sets) 0 title_sets
            (take (Z.to_nat title_sets) (size_size_array a) ++ [beyond]) in
        let candidate :=
          for_range 0 number_of_multi (fun i candidate =>
            if arr_get (title_set_chapter_array a) 0 =? i + 1
            then arr_get (title_set_chapter_array a) 0
            else candidate) candidate in
        let found := check_candidate a candidate title_sets in
        if found =? 3 then Some candidate else None
      else None in
    match multi_choice with
    | Some candidate => candidate
    | None =>
        let candidate := arr_get (title_set_size_array a) 0 in
        let found := check_candidate a candidate title_sets in
        let found_chapter :=
          found_chapter_fallthrough titles (title_set_size_array a)
                                    (title_set_chapter_array a) in
        if found =? 3 then candidate
        else if (found >? 1) && (found_chapter <=? 4) then candidate
        else candidate
    end.

(** A ranking of the title sets: [count_array[counter] = counts(counter)] and
    [title_set_array[counter] = counter + 1] for every title set, sorted
    together by [bsort_max_to_min]. *)
Definition ranking (counts : Z -> Z) (title_sets : Z) : list Z * list Z :=
  bsort_max_to_min (fill_array title_sets counts)
                   (fill_array title_sets (fun counter => counter + 1)) title_sets.

(** [DVDGetInfo] from the Video Manager information to [titles_info], when
    the information is there and the allocations succeed.
    [title_vob_blocks] holds for each title set what [DVDFileSize] gives for
    its title VOBs, 0 when they cannot be opened; [aspect] is the global.
    The two arrays of angles, which the source sorts and does not read
    again, are left out. *)
Definition DVDGetInfo (v : vmg_info) (title_vob_blocks : list Z) (aspect beyond : Z)
  : titles_info_t :=
  let titles := nr_of_srpts v in
  let title_sets := vmg_nr_of_title_sets v in
  let info := titles_second_pass v titles title_sets (titles_first_pass v titles) in
  let chapter := bsort_max_to_min
                   (fill_array titles (fun counter => nr_of_ptts (tt_get v counter)))
                   (fill_array titles (fun counter => title_set_nr (tt_get v counter)))
                   titles in
  let sub := ranking (fun counter => nr_of_vtstt_subp_streams (vts_get v counter))
                     title_sets in
  let audio := ranking (fun counter => nr_of_vtstt_audio_streams (vts_get v counter))
                       title_sets in
  let size := ranking (fun counter => arr_get title_vob_blocks counter) title_sets in
  let channels := ranking (fun counter => max_channels (vts_get v counter)) title_sets in
  let a := SortArrays chapter.1 chapter.2 sub.1 sub.2 audio.1 audio.2
                      size.1 size.2 channels.1 channels.2 in
  TitlesInfo (main_title_set_guess v info a titles title_sets aspect beyond) titles info.

(** ** What a refresh fills in *)

(** Every block of [filled] is a full block of the file and holds the bytes
    of the disc block [dvd_offset] blocks further on. *)
Definition blocks_from_disc (disc : list byte) (dvd_offset : Z) (filled : Z -> Prop)
    (file : list byte) : Prop :=
  forall k, filled k ->
    0 <= k /\ (k + 1) * DVD_VIDEO_LB_LEN <= Z.of_nat (length file)
    /\ block_of file k = block_of disc (dvd_offset + k).

(** [block] lies in one of the segments of the random ordering. *)
Definition in_segments (segments : list gap_fill_segment_t) (block : Z) : Prop :=
  exists seg, seg ∈ segments
    /\ seg_start_block seg <= block < seg_start_block seg + seg_block_count seg.

(** Blocks of all the ranges together. *)
Definition plan_blocks (rs : list gap_range_t) : Z :=
  foldr (fun r total => block_count r + total) 0 rs.

(** * Block comparer: [DVDCmpBlocks] *)

(** What the kernel answers to a [read] on the file: it delivers the bytes
    at the descriptor's offset, at most [limit] of them; or it fails with
    [errno] set to [EINTR]; or it fails otherwise. *)
Inductive read_answer : Set :=
| ReadUpTo (limit : positive)
| ReadInterrupted
| ReadFailed.

(** The calls of the comparer that the writer of [platform] does not make:
    [sys_lseek env] tells whether [lseek] fails, [sys_read env n] answers a
    [read] of [n] bytes. *)
Record file_reader (Env : Type) : Type := FileReader {
  sys_lseek : Env -> bool * Env;
  sys_read : Env -> Z -> read_answer * Env
}.

Arguments FileReader {Env} _ _.
Arguments sys_lseek {Env} _ _.
Arguments sys_read {Env} _ _ _.

(** ** The sizes of the files of the title sets, and the gap map *)

Module TitleSetInfo.

Record title_set_t : Set := TitleSet {
  size_ifo : Z;
  size_menu : Z;
  number_of_vob_files : Z;
  size_vob : list Z
}.

Record title_set_info_t : Set := Info {
  number_of_title_sets : Z;
  title_set : list title_set_t
}.

(** [title_set_info->title_set[i]] *)
Definition get (info : title_set_info_t) (i : Z) : title_set_t :=
  default (TitleSet 0 0 0 []) (title_set info !! Z.to_nat i).

End TitleSetInfo.

Module GapMap.

Record gap_map_entry_t : Set := Entry {
  start_block : Z;
  block_count : Z
}.

(** [gap_map_info], whose [count] is the length of [entries], and
    [gap_map_total_blocks]. *)
Record state : Set := State {
  entries : list gap_map_entry_t;
  capacity : Z;
  total_blocks : Z
}.

End GapMap.

Section Comparer.

Context {Env : Type} (P : platform Env) (R : file_reader Env).

(** [lseek(fd, off, SEEK_SET)]: whether it failed.  An offset beyond the
    end of a regular file is accepted, a negative one is not. *)
Definition do_lseek (w : world Env) (off : Z) : bool * world Env :=
  let '(fail, e') := sys_lseek R (w_env w) in
  if fail || (off <? 0) then (true, with_env w e')
  else (false, World e' (w_file w) off (w_writes w)).

(** [read(fd, buffer, count)]: the value returned, whether [errno] is
    [EINTR] when the value is negative, and the bytes delivered. *)
Definition do_read (w : world Env) (count : Z) : Z * bool * list byte * world Env :=
  let '(answer, e') := sys_read R (w_env w) count in
  match answer with
  | ReadUpTo limit =>
      let data := read_at (w_file w) (Z.min count (Z.pos limit)) (w_pos w) in
      (Z.of_nat (length data), false, data,
       World e' (w_file w) (w_pos w + Z.of_nat (length data)) (w_writes w))
  | ReadInterrupted => (-1, true, [], with_env w e')
  | ReadFailed => (-1, false, [], with_env w e')
  end.

(** [while (total_read < chunk_bytes)]: the bytes of [file_buffer] read so
    far, [total_read] of them.  [fuel] bounds the number of [read] calls, which
    interrupted calls make unbounded; the result is the buffer when it is
    full, or the file alone when the function returns 1 from inside the
    loop. *)
Fixpoint read_file_chunk (fuel : nat) (w : world Env) (file_buffer : list byte)
    (total_read chunk_bytes : Z) : option (list byte * world Env + world Env) :=
  match fuel with
  | O => None
  | S fuel' =>
      if total_read <? chunk_bytes then
        let '(got, eintr, data, w1) := do_read w (size_t_wrap (chunk_bytes - total_read)) in
        if got <? 0 then
          if eintr then read_file_chunk fuel' w1 file_buffer total_read chunk_bytes
          else Some (inr w1)
        else if got =? 0 then Some (inr w1)
        else read_file_chunk fuel' w1 (file_buffer ++ data)
               (size_t_wrap (total_read + size_t_wrap got)) chunk_bytes
      else Some (inl (file_buffer, w))
  end.

(** Loop state: [remaining], [to_read], [current_offset] and the file.  The
    progress display and the search for the first block that differs only
    print. *)
Definition cmp_state : Type := Z * Z * Z * world Env.

Definition cmp_chunk (fuel : nat) (s : cmp_state) : option (ctl cmp_state (Z * world Env)) :=
  let '(remaining, to_read, current_offset, w) := s in
  if remaining >? 0 then
    let to_read := if to_read >? remaining then remaining else to_read in
    let '(act_read, dvd_buffer, e1) := DVDReadBlocks P (w_env w) current_offset to_read in
    let w1 := with_env w e1 in
    if negb (act_read =? to_read) then Some (Ret (1, w1))
    else
      let chunk_bytes := size_t_wrap (size_t_wrap act_read * DVD_VIDEO_LB_LEN) in
      match read_file_chunk fuel w1 [] 0 chunk_bytes with
      | None => None
      | Some (inr w2) => Some (Ret (1, w2))
      | Some (inl (file_buffer, w2)) =>
          if negb (memcmp dvd_buffer file_buffer chunk_bytes =? 0) then Some (Ret (1, w2))
          else Some (Next (int_wrap (remaining - act_read), to_read,
                           int_wrap (current_offset + act_read), w2))
      end
  else Some (Break s).

(** Returns the value of [DVDCmpBlocks] and the file with its descriptor;
    [None] when one chunk took more than [fuel] calls of [read]. *)
Definition DVDCmpBlocks (fuel : nat) (w : world Env) (offset size : Z)
  : option (Z * world Env) :=
  let '(fail, w0) := do_lseek w (offset * DVD_VIDEO_LB_LEN) in
  if fail then Some (1, w0)
  else
    match while_loop (S (Z.to_nat size)) (cmp_chunk fuel) (size, BUFFER_SIZE, offset, w0) with
    | None => None
    | Some (inr r) => Some r
    | Some (inl (_, _, _, w1)) =>
        let '(extra_read, _, _, w2) := do_read w1 1 in
        Some (if extra_read <? 0 then 1 else if extra_read >? 0 then 1 else 0, w2)
    end.

(** *** The gap map *)

Definition gap_map_add_entry (e : Env) (gm : GapMap.state) (start_block block_count : Z)
  : Z * GapMap.state * Env :=
  if block_count =? 0 then (0, gm, e)
  else
    let grown :=
      if Z.of_nat (length (GapMap.entries gm)) =? GapMap.capacity gm then
        let new_capacity :=
          if GapMap.capacity gm =? 0 then 32 else size_t_wrap (GapMap.capacity gm * 2) in
        let '(fail, e') := alloc_fault P e in
        if fail then inr e' else inl (new_capacity, e')
      else inl (GapMap.capacity gm, e) in
    match grown with
    | inr e' => (-1, gm, e')
    | inl (capacity', e') =>
        (0, GapMap.State (GapMap.entries gm ++ [GapMap.Entry start_block block_count])
                         capacity' (GapMap.total_blocks gm), e')
    end.

(** [for (i = 0; i < plan->count; ++i)] of [gap_map_collect_from_plan]. *)
Fixpoint gap_map_add_ranges (e : Env) (gm : GapMap.state) (base_block : Z)
    (rs : list gap_range_t) : Z * GapMap.state * Env :=
  match rs with
  | [] => (0, gm, e)
  | r :: rest =>
      let '(rc, gm', e') :=
        gap_map_add_entry e gm (size_t_wrap (base_block + start_block r)) (block_count r) in
      if negb (rc =? 0) then (-1, gm', e')
      else gap_map_add_ranges e' gm' base_block rest
  end.

Definition gap_map_collect_from_plan (e : Env) (gm : GapMap.state)
    (base_block expected_blocks : Z) (plan : gap_plan_t) (existing_blocks : Z)
  : Z * GapMap.state * Env :=
  let '(rc, gm1, e1) := gap_map_add_ranges e gm base_block (ranges plan) in
  if negb (rc =? 0) then (-1, gm1, e1)
  else if existing_blocks <? expected_blocks then
    let missing := size_t_wrap (expected_blocks - existing_blocks) in
    let '(rc, gm2, e2) :=
      gap_map_add_entry e1 gm1 (size_t_wrap (base_block + existing_blocks)) missing in
    if negb (rc =? 0) then (-1, gm2, e2) else (0, gm2, e2)
  else (0, gm1, e1).

Definition gap_map_collect_missing (e : Env) (gm : GapMap.state)
    (base_block expected_blocks : Z) : Z * GapMap.state * Env :=
  gap_map_add_entry e gm base_block expected_blocks.

(** [gap_map_total_blocks += size] *)
Definition gap_map_count (gm : GapMap.state) (size : Z) : GapMap.state :=
  GapMap.State (GapMap.entries gm) (GapMap.capacity gm)
               (size_t_wrap (GapMap.total_blocks gm + size_t_wrap size)).

(** *** [DVDCmpTitleVobX] *)

(** The offset of part [vob] on the disc: the blocks of the parts before
    it; [inr tt] when one of them has no valid size. *)
Definition title_vob_offset (size_vob : list Z) (vob : Z) : option (Z + unit) :=
  for_range_ret 0 (vob - 1)
    (fun i offset =>
       let tsize := int_wrap (arr_get size_vob i) in
       if negb (int_mod tsize DVD_VIDEO_LB_LEN =? 0) then Some (inr tt)
       else Some (inl (int_wrap (offset + int_div tsize DVD_VIDEO_LB_LEN))))
    0.

(** The file under the name [<targetdir>/<title_name>/VIDEO_TS/<filename>],
    for which [targetname] has room, is [target]: [None] when [stat] fails
    or finds no regular file.  Returns the value of the function, the gap
    map and the environment; no result when [sprintf] writes past
    [filename], or when a chunk takes more than [fuel] calls of [read]. *)
Definition DVDCmpTitleVobX (fuel : nat) (gap_map : bool)
    (title_set_info : TitleSetInfo.title_set_info_t) (title_set vob : Z)
    (target : option (list byte)) (gm : GapMap.state) (e : Env)
  : option (Z * GapMap.state * Env) :=
  match sprintf_filename title_set vob with
  | None => None
  | Some filename =>
  let ts := TitleSetInfo.get title_set_info title_set in
  let size_vob := TitleSetInfo.size_vob ts in
  if int_wrap (TitleSetInfo.number_of_title_sets title_set_info + 1) <? title_set
  then Some (1, gm, e)
  else if TitleSetInfo.number_of_vob_files ts <? vob then Some (1, gm, e)
  else if arr_get size_vob 0 =? 0 then Some (1, gm, e)
  else if arr_get size_vob (vob - 1) =? 0 then Some (1, gm, e)
  else
    let size := int_wrap (Z.quot (arr_get size_vob (vob - 1)) DVD_VIDEO_LB_LEN) in
    if negb (Z.rem (arr_get size_vob (vob - 1)) DVD_VIDEO_LB_LEN =? 0) then Some (1, gm, e)
    else
      match title_vob_offset size_vob vob with
      | None => None
      | Some (inr _) => Some (1, gm, e)
      | Some (inl offset) =>
          let '(fail, e1) := sys_fault P e in                (* DVDOpenFile *)
          if fail then Some (1, gm, e1)
          else
            let '(fail, e2) := alloc_fault P e1 in           (* targetname *)
            if fail then Some (1, gm, e2)
            else
              let no_file :=
                if gap_map then
                  let '(_, gm', e') :=
                    gap_map_collect_missing e2 gm (GapMap.total_blocks gm)
                                            (size_t_wrap size) in
                  Some (1, gap_map_count gm' size, e')
                else Some (1, gm, e2) in
              match target with
              | None => no_file
              | Some file =>
                  if negb (Z.of_nat (length file) =? size * DVD_VIDEO_LB_LEN) then no_file
                  else
                    let '(fail, e3) := sys_fault P e2 in     (* open *)
                    if fail then Some (1, gm, e3)
                    else
                      let mapped :=
                        if gap_map then
                          match scan_existing_file_for_gaps P e3 file (size_t_wrap size)
                                  empty_plan with
                          | None => None
                          | Some sr =>
                              let '(_, gm', e4) :=
                                if scan_ret sr =? 0 then
                                  gap_map_collect_from_plan (scan_env sr) gm
                                    (GapMap.total_blocks gm) (size_t_wrap size)
                                    (scan_plan sr) (scan_full_blocks sr)
                                else
                                  gap_map_collect_missing (scan_env sr) gm
                                    (GapMap.total_blocks gm) (size_t_wrap size) in
                              let gm'' := gap_map_count gm' size in
                              let '(fail, w) :=
                                do_lseek (World e4 file 0 []) (offset * DVD_VIDEO_LB_LEN) in
                              if fail then Some (inr (1, gm'', w_env w))
                              else Some (inl (gm'', w))
                          end
                        else Some (inl (gm, World e3 file 0 [])) in
                      match mapped with
                      | None => None
                      | Some (inr r) => Some r
                      | Some (inl (gm', w)) =>
                          match DVDCmpBlocks fuel w offset size with
                          | None => None
                          | Some (cmp, w') => Some (cmp, gm', w_env w')
                          end
                      end
              end
      end
  end.

End Comparer.

(** ** A kernel that reads without faults *)

(** [lseek] does not fail and no [read] fails or is interrupted; a [read]
    may still deliver less than it is asked for. *)
Definition reader_ok {Env : Type} (R : file_reader Env) : Prop :=
  (forall e, (sys_lseek R e).1 = false)
  /\ (forall e n, exists limit, (sys_read R e n).1 = ReadUpTo limit).

(** A kernel whose every [read] delivers at most [limit] bytes. *)
Definition plain_reader (limit : positive) : file_reader unit :=
  FileReader (fun e => (false, e)) (fun e _ => (ReadUpTo limit, e)).

(** The file from byte [offset * 2048] on is exactly the [size] blocks of
    the image from block [offset] on. *)
Definition same_as_disc (disc file : list byte) (offset size : Z) : Prop :=
  drop (Z.to_nat (offset * DVD_VIDEO_LB_LEN)) file
  = read_at disc (size * DVD_VIDEO_LB_LEN) (offset * DVD_VIDEO_LB_LEN).

(** Invariant of the comparison: the loop has read the file from byte
    [offset * 2048] up to its descriptor, and so far the file and the
    image agree. *)
Definition cmp_inv {Env : Type} (disc file : list byte) (offset size : Z)
    (s : Z * Z * Z * world Env) : Prop :=
  let '(remaining, to_read, current_offset, w) := s in
  0 <= remaining <= size /\ 0 < to_read <= BUFFER_SIZE
  /\ current_offset = offset + (size - remaining)
  /\ w_file w = file
  /\ w_pos w = (offset + (size - remaining)) * DVD_VIDEO_LB_LEN
  /\ read_at file ((size - remaining) * DVD_VIDEO_LB_LEN) (offset * DVD_VIDEO_LB_LEN)
     = read_at disc ((size - remaining) * DVD_VIDEO_LB_LEN) (offset * DVD_VIDEO_LB_LEN).

(** * Title VOB copier: [DVDCopyTitleVobX] *)

(** What [stat] finds under the name of the target file. *)
Inductive target_t : Set :=
| Absent
| Regular (file : list byte)
| Irregular.

Section TitleVobCopier.

Context {Env : Type} (P : platform Env).

(** [target] is what lies under the name
    [<targetdir>/<title_name>/VIDEO_TS/<filename>], for which [targetname]
    has room.  Returns the value of the function, what is under that name
    afterwards, and the environment; [None] when [sprintf] writes past
    [filename], or when the copy loop runs out of fuel. *)
Definition DVDCopyTitleVobX (g : globals)
    (title_set_info : TitleSetInfo.title_set_info_t) (title_set vob : Z)
    (target : target_t) (e : Env) (errorstrat : read_error_strategy_t)
  : option (Z * target_t * Env) :=
  match sprintf_filename title_set vob with
  | None => None
  | Some filename =>
  let ts := TitleSetInfo.get title_set_info title_set in
  let size_vob := TitleSetInfo.size_vob ts in
  if int_wrap (TitleSetInfo.number_of_title_sets title_set_info + 1) <? title_set
  then Some (1, target, e)
  else if TitleSetInfo.number_of_vob_files ts <? vob then Some (1, target, e)
  else if arr_get size_vob 0 =? 0 then Some (0, target, e)
  else if arr_get size_vob (vob - 1) =? 0 then Some (0, target, e)
  else
    let size := int_wrap (Z.quot (arr_get size_vob (vob - 1)) DVD_VIDEO_LB_LEN) in
    if negb (Z.rem (arr_get size_vob (vob - 1)) DVD_VIDEO_LB_LEN =? 0)
    then Some (1, target, e)
    else if title_set =? 0 then Some (1, target, e)
    else
      let '(fail, e1) := alloc_fault P e in                  (* targetname *)
      if fail then Some (1, target, e1)
      else
        match title_vob_offset size_vob vob with
        | None => None
        | Some (inr _) => Some (1, target, e1)
        | Some (inl offset) =>
            match target with
            | Irregular => Some (1, target, e1)
            | _ =>
                let '(fail, e2) := sys_fault P e1 in         (* open *)
                if fail then Some (1, target, e2)
                else
                  let file :=
                    match target with
                    | Regular file => if fill_gaps g then file else []
                    | _ => []
                    end in
                  let '(fail, e3) := sys_fault P e2 in       (* DVDOpenFile *)
                  if fail then Some (1, Regular file, e3)
                  else
                    match DVDCopyBlocks P g (World e3 file 0 []) offset size errorstrat with
                    | None => None
                    | Some (result, w) => Some (result, Regular (w_file w), w_env w)
                    end
            end
        end
  end.

End TitleVobCopier.

(** The bytes of the parts before part [vob]. *)
Definition bytes_before (size_vob : list Z) (vob : Z) : Z :=
  foldr Z.add 0 (take (Z.to_nat (vob - 1)) size_vob).

(** * Properties *)

(** ** Machine integers *)

Lemma size_t_wrap_small x : 0 <= x <= SIZE_MAX -> size_t_wrap x = x.
Proof. unfold size_t_wrap, SIZE_MAX. intros H. apply Z.mod_small. lia. Qed.

Lemma size_t_wrap_range x : 0 <= size_t_wrap x <= SIZE_MAX.
Proof.
  unfold size_t_wrap, SIZE_MAX.
  pose proof (Z.mod_pos_bound x (2 ^ 64) ltac:(lia)). lia.
Qed.

Lemma int_wrap_small x : INT_MIN <= x <= INT_MAX -> int_wrap x = x.
Proof.
  unfold int_wrap, INT_MIN, INT_MAX. intros H.
  rewrite Z.mod_small by lia. lia.
Qed.

(** Removes the reductions of results that fit their type. *)
Ltac unwrap :=
  repeat first
    [ rewrite size_t_wrap_small by (unfold SIZE_MAX in *; lia)
    | rewrite int_wrap_small by (unfold INT_MIN, INT_MAX in *; lia) ].

(** ** Rules for the loops *)

Lemma for_loop_ind {St : Type} (Inv : Z -> St -> Prop) (body : Z -> St -> St) hi :
  (forall i s, i < hi -> Inv i s -> Inv (i + 1) (body i s)) ->
  forall fuel i s, i <= hi -> fuel = Z.to_nat (hi - i) -> Inv i s ->
    Inv hi (for_loop fuel i hi body s).
Proof.
  intros Hstep fuel. induction fuel as [|fuel IH]; intros i s Hle Hfuel Hinv; simpl.
  - assert (i = hi) by lia. by subst.
  - destruct (Z.ltb_spec i hi); [|lia].
    apply IH; [lia | lia | by apply Hstep].
Qed.

Lemma for_range_ind {St : Type} (Inv : Z -> St -> Prop) (body : Z -> St -> St) lo hi s :
  lo <= hi -> Inv lo s ->
  (forall i s, lo <= i < hi -> Inv i s -> Inv (i + 1) (body i s)) ->
  Inv hi (for_range lo hi body s).
Proof.
  intros Hle Hinv Hstep. unfold for_range.
  apply (for_loop_ind (fun i s => lo <= i /\ Inv i s) body hi); [|lia|done|by split; [lia|]].
  intros i s' Hi [Hlo Hs]. split; [lia|]. apply Hstep; [lia|done].
Qed.

Lemma for_range_empty {St : Type} (body : Z -> St -> St) lo hi s :
  hi <= lo -> for_range lo hi body s = s.
Proof.
  intros H. unfold for_range. replace (Z.to_nat (hi - lo)) with O by lia. done.
Qed.

(** Total correctness of a [for] whose body may return: no iteration runs
    out of fuel, an early return satisfies [Post], and a normal exit leaves
    the invariant at [hi]. *)
Lemma for_loop_ret_ind {St R : Type} (Inv : Z -> St -> Prop) (Post : R -> Prop)
    (body : Z -> St -> option (St + R)) hi :
  (forall i s, i < hi -> Inv i s ->
     match body i s with
     | Some (inl s') => Inv (i + 1) s'
     | Some (inr r) => Post r
     | None => False
     end) ->
  forall fuel i s, i <= hi -> fuel = Z.to_nat (hi - i) -> Inv i s ->
    match for_loop_ret fuel i hi body s with
    | Some (inl s') => Inv hi s'
    | Some (inr r) => Post r
    | None => False
    end.
Proof.
  intros Hstep fuel. induction fuel as [|fuel IH]; intros i s Hle Hfuel Hinv; simpl.
  - assert (i = hi) by lia. by subst.
  - destruct (Z.ltb_spec i hi); [|lia].
    specialize (Hstep i s H Hinv).
    destruct (body i s) as [[s'|r]|]; [|done|done].
    apply IH; [lia | lia | done].
Qed.

Lemma for_range_ret_ind {St R : Type} (Inv : Z -> St -> Prop) (Post : R -> Prop)
    (body : Z -> St -> option (St + R)) lo hi s :
  lo <= hi -> Inv lo s ->
  (forall i s, lo <= i < hi -> Inv i s ->
     match body i s with
     | Some (inl s') => Inv (i + 1) s'
     | Some (inr r) => Post r
     | None => False
     end) ->
  match for_range_ret lo hi body s with
  | Some (inl s') => Inv hi s'
  | Some (inr r) => Post r
  | None => False
  end.
Proof.
  intros Hle Hinv Hstep. unfold for_range_ret.
  pose proof (for_loop_ret_ind (fun i s => lo <= i /\ Inv i s) Post body hi) as H.
  specialize (H ltac:(intros i s' Hi [Hlo Hs]; specialize (Hstep i s' ltac:(lia) Hs);
                      destruct (body i s') as [[?|?]|]; [split; [lia|done]|done|done])).
  specialize (H (Z.to_nat (hi - lo)) lo s Hle eq_refl (conj (Z.le_refl lo) Hinv)).
  destruct (for_loop_ret _ _ _ _ _) as [[?|?]|]; [by destruct H|done|done].
Qed.

(** Total correctness of a [while]: every iteration under the invariant
    lowers the measure [m], so fuel above the measure reaches the exit, in a
    state satisfying [Q] or by a return satisfying [Post]. *)
Lemma while_loop_ind {St R : Type} (Inv Q : St -> Prop) (Post : R -> Prop)
    (m : St -> nat) (body : St -> option (ctl St R)) :
  (forall s, Inv s ->
     match body s with
     | Some (Next s') => Inv s' /\ (m s' < m s)%nat
     | Some (Break s') => Q s'
     | Some (Ret r) => Post r
     | None => False
     end) ->
  forall fuel s, Inv s -> (m s < fuel)%nat ->
    match while_loop fuel body s with
    | Some (inl s') => Q s'
    | Some (inr r) => Post r
    | None => False
    end.
Proof.
  intros Hstep fuel. induction fuel as [|fuel IH]; intros s Hinv Hm; [lia|]. simpl.
  specialize (Hstep s Hinv).
  destruct (body s) as [[s'|s'|r]|]; [|done|done|done].
  destruct Hstep as [Hinv' Hlt]. apply IH; [done|lia].
Qed.

(** ** Arrays *)

Lemma arr_get_lookup (a : list Z) i x :
  0 <= i -> a !! Z.to_nat i = Some x -> arr_get a i = x.
Proof. intros _ H. unfold arr_get. by rewrite H. Qed.

Lemma arr_set_length (a : list Z) i v : length (arr_set a i v) = length a.
Proof. apply length_insert. Qed.

Lemma arr_get_set_eq (a : list Z) i v :
  0 <= i < Z.of_nat (length a) -> arr_get (arr_set a i v) i = v.
Proof.
  intros H. unfold arr_get, arr_set.
  rewrite list_lookup_insert_eq by lia. done.
Qed.

Lemma arr_get_set_ne (a : list Z) i j v :
  0 <= i -> 0 <= j -> i <> j -> arr_get (arr_set a i v) j = arr_get a j.
Proof.
  intros Hi Hj Hne. unfold arr_get, arr_set.
  rewrite list_lookup_insert_ne by lia. done.
Qed.

(** ** Feature guesser *)

Lemma found_chapter_loop_spec (arr : list Z) candidate not_found :
  forall fuel i, 0 <= i ->
    found_chapter_loop fuel i (Z.of_nat (length arr)) candidate arr not_found
    = match list_find (fun t => t = candidate)
              (take (Nat.min fuel (Z.to_nat (4 - i))) (drop (Z.to_nat i) arr)) with
      | Some (k, _) => i + Z.of_nat k + 1
      | None => not_found
      end.
Proof.
  induction fuel as [|fuel IH]; intros i Hi; simpl; [done|].
  destruct (Z.ltb_spec i (Z.of_nat (length arr))) as [Hlt|Hge]; simpl.
  - destruct (Z.ltb_spec i 4) as [H4|H4]; simpl.
    + destruct (lookup_lt_is_Some_2 arr (Z.to_nat i) ltac:(lia)) as [x Hx].
      rewrite (drop_S _ _ _ Hx).
      replace (Z.to_nat (4 - i)) with (S (Z.to_nat (4 - (i + 1)))) by lia.
      simpl. rewrite (arr_get_lookup _ _ _ Hi Hx).
      destruct (Z.eqb_spec candidate x) as [->|Hne].
      * rewrite decide_True by done. simpl. lia.
      * rewrite decide_False by congruence.
        rewrite IH by lia.
        replace (Z.to_nat (i + 1)) with (S (Z.to_nat i)) by lia.
        destruct (list_find _ _) as [[k y]|]; simpl; lia.
    + replace (Z.to_nat (4 - i)) with O by lia. done.
  - rewrite drop_ge by lia. by rewrite take_nil.
Qed.

(** C8 (as the code has it).  Whenever the feature guesser computes the
    chapter rank of its candidate, the rank is the candidate's 1-based
    position among the first four entries of the chapter ranking when it is
    there; when it is not, the rank is 6 in the first decision and 5 in the
    fall-through re-test, where the candidate is the largest title set. *)
Theorem chapter_rank_first_and_fallthrough :
  forall (candidate : Z) (title_set_size_array title_set_chapter_array : list Z),
    let titles := Z.of_nat (length title_set_chapter_array) in
    found_chapter_first titles candidate title_set_chapter_array
      = chapter_rank_spec 6 candidate title_set_chapter_array
    /\ found_chapter_fallthrough titles title_set_size_array title_set_chapter_array
      = chapter_rank_spec 5 (arr_get title_set_size_array 0) title_set_chapter_array.
Proof.
  intros candidate sizes arr titles.
  unfold found_chapter_first, found_chapter_fallthrough, chapter_rank_spec, titles.
  rewrite !found_chapter_loop_spec by lia. simpl.
  split; destruct (list_find _ _) as [[k y]|]; lia.
Qed.

(** C8 as stated fails: in the fall-through re-test a candidate outside the
    first four entries gets rank 5, not 6. *)
Lemma chapter_rank_fallthrough_not_six :
  found_chapter_fallthrough 2 [1] [2; 3] <> chapter_rank_spec 6 (arr_get [1] 0) [2; 3].
Proof. vm_compute. discriminate. Qed.

(** ** Chapter extractor *)

Lemma swap_pair_length sector title i j :
  length (swap_pair sector title i j).1 = length sector
  /\ length (swap_pair sector title i j).2 = length title.
Proof. unfold swap_pair. simpl. by rewrite !arr_set_length. Qed.

Lemma swap_pair_get sector title i j k :
  0 <= i < Z.of_nat (length sector) -> 0 <= j < Z.of_nat (length sector) -> 0 <= k ->
  arr_get (swap_pair sector title i j).1 k
  = if Z.eq_dec k j then arr_get sector i
    else if Z.eq_dec k i then arr_get sector j
    else arr_get sector k.
Proof.
  intros Hi Hj Hk. unfold swap_pair. simpl.
  destruct (Z.eq_dec k j) as [->|Hkj].
  - rewrite arr_get_set_eq; [done|]. by rewrite arr_set_length.
  - rewrite arr_get_set_ne by lia.
    destruct (Z.eq_dec k i) as [->|Hki].
    + by rewrite arr_get_set_eq.
    + by rewrite arr_get_set_ne by lia.
Qed.

Section Sorting.

Variable Q : Z -> Prop.
Variable n : Z.

Local Abbreviation bsort_inner_inv := (bsort_inner_inv Q n).
Local Abbreviation bsort_outer_inv := (bsort_outer_inv Q n).

Lemma bsort_inner_step i j st :
  0 <= i < n -> 0 <= j < n -> bsort_inner_inv i j st ->
  bsort_inner_inv i (j + 1)
    (let '(sector, title) := st in
     if arr_get sector i <? arr_get sector j then swap_pair sector title i j
     else (sector, title)).
Proof.
  intros Hi Hj. destruct st as [sector title]. simpl.
  intros (Hls & Hlt & Hall & Hsorted & Hle). simpl in *.
  destruct (Z.ltb_spec (arr_get sector i) (arr_get sector j)) as [Hlt'|Hge].
  - pose proof (swap_pair_length sector title i j) as [Hl1 Hl2].
    pose proof (fun k => swap_pair_get sector title i j k ltac:(lia) ltac:(lia)) as Hget.
    repeat split.
    + lia.
    + lia.
    + intros k Hk. rewrite Hget by lia.
      destruct (Z.eq_dec k j); [|destruct (Z.eq_dec k i)]; apply Hall; lia.
    + intros p q Hp Hpq Hq. rewrite !Hget by lia.
      pose proof (Hsorted p q Hp Hpq Hq) as H1.
      assert (p < j -> arr_get sector p <= arr_get sector i) as H2
        by (intros; apply Hle; lia).
      destruct (Z.eq_dec p j), (Z.eq_dec q j), (Z.eq_dec p i), (Z.eq_dec q i);
        subst; lia.
    + intros p Hp. rewrite !Hget by lia.
      assert (p < j -> arr_get sector p <= arr_get sector i) as H2
        by (intros; apply Hle; lia).
      destruct (Z.eq_dec i j), (Z.eq_dec i i), (Z.eq_dec p j), (Z.eq_dec p i);
        subst; lia.
  - repeat split; simpl; try done.
    intros p Hp. destruct (Z.eq_dec p j) as [->|?]; [lia|]. apply Hle. lia.
Qed.

Lemma bsort_outer_step i st :
  0 <= i < n -> bsort_outer_inv i st ->
  bsort_outer_inv (i + 1)
    (for_range 0 n (fun j st =>
       let '(sector, title) := st in
       if arr_get sector i <? arr_get sector j then swap_pair sector title i j
       else (sector, title)) st).
Proof.
  intros Hi (Hls & Hlt & Hall & Hsorted).
  set (body := fun (j : Z) (st : list Z * list Z) => _).
  assert (bsort_inner_inv i n (for_range 0 n body st)) as (Hls' & Hlt' & Hall' & Hsorted' & Hle).
  { apply (for_range_ind (bsort_inner_inv i)); [lia| |].
    - repeat split; try done. intros p Hp. lia.
    - intros j s Hj Hinv. by apply bsort_inner_step. }
  repeat split; try done.
  intros p q Hp Hpq Hq.
  destruct (Z.eq_dec q i) as [->|?]; [apply Hle; lia|].
  apply Hsorted'; lia.
Qed.

Lemma bsort_min_to_max_sorted sector title :
  Z.of_nat (length sector) = n -> Z.of_nat (length title) = n -> all_upto Q sector n ->
  bsort_outer_inv n (bsort_min_to_max sector title n).
Proof.
  intros Hls Hlt Hall. unfold bsort_min_to_max.
  apply (for_range_ind bsort_outer_inv); [lia| |].
  - repeat split; try done. intros p q Hp Hpq Hq. lia.
  - intros i s Hi Hinv. by apply bsort_outer_step.
Qed.

End Sorting.

Lemma align_end_sector_lt starts ends n :
  Z.of_nat (length ends) = n ->
  all_upto (fun s => INT_MIN < s <= INT_MAX) starts n ->
  forall m, 0 <= m < n - 1 ->
    arr_get (align_end_sector starts ends n) m < arr_get starts (m + 1).
Proof.
  intros Hl Hall m Hm. unfold align_end_sector.
  set (body := fun (i : Z) (cell_end_sector : list Z) => _).
  assert (Z.of_nat (length (for_range 0 (n - 1) body ends)) = n
          /\ forall m, 0 <= m < n - 1 ->
               arr_get (for_range 0 (n - 1) body ends) m < arr_get starts (m + 1)) as [_ H].
  { apply (for_range_ind (fun i e => Z.of_nat (length e) = n
             /\ forall m, 0 <= m < i -> arr_get e m < arr_get starts (m + 1))); [lia| |].
    - split; [done|]. intros; lia.
    - intros i e Hi [Hle Hlt]. unfold body.
      destruct (Z.geb_spec (arr_get e i) (arr_get starts (i + 1))) as [Hge|Hlt'].
      + split; [by rewrite arr_set_length|].
        intros k Hk. destruct (Z.eq_dec k i) as [->|?].
        * rewrite arr_get_set_eq by lia.
          pose proof (Hall (i + 1) ltac:(lia)) as Hs. simpl in Hs. unwrap. lia.
        * rewrite arr_get_set_ne by lia. apply Hlt. lia.
      + split; [done|]. intros k Hk.
        destruct (Z.eq_dec k i) as [->|?]; [lia|]. apply Hlt. lia. }
  by apply H.
Qed.

(** C7.  After the chapter extractor has sorted the collected cells by first
    sector and aligned the end sectors, the cells are pairwise disjoint: the
    end of a cell lies before the start of every later cell. *)
Theorem sorted_aligned_cells_disjoint :
  forall (cell_start_sector cell_end_sector : list Z) (size : Z),
    size = Z.of_nat (length cell_start_sector) ->
    size = Z.of_nat (length cell_end_sector) ->
    Forall (fun s => INT_MIN < s <= INT_MAX) cell_start_sector ->
    forall i j, 0 <= i -> i < j -> j < size ->
      arr_get (sorted_aligned_cells cell_start_sector cell_end_sector size).2 i
      < arr_get (sorted_aligned_cells cell_start_sector cell_end_sector size).1 j.
Proof.
  intros starts ends size Hls Hle Hrange i j Hi Hij Hj.
  unfold sorted_aligned_cells.
  pose proof (bsort_min_to_max_sorted (fun s => INT_MIN < s <= INT_MAX) size starts ends
                ltac:(done) ltac:(done)) as Hsort.
  destruct (bsort_min_to_max starts ends size) as [starts' ends'].
  destruct Hsort as (Hls' & Hle' & Hall & Hsorted).
  { intros k Hk. unfold arr_get.
    destruct (lookup_lt_is_Some_2 starts (Z.to_nat k) ltac:(lia)) as [x Hx].
    rewrite Hx. simpl. by eapply (Forall_lookup_1 _ _ _ _ Hrange). }
  simpl in *.
  pose proof (align_end_sector_lt starts' ends' size Hle' Hall i ltac:(lia)).
  pose proof (Hsorted (i + 1) j ltac:(lia) ltac:(lia) Hj). lia.
Qed.

(** ** Gap plan *)

Lemma ordered_disjoint_nil : ordered_disjoint [].
Proof. intros i j ri rj _ H. by rewrite lookup_nil in H. Qed.

Lemma ordered_disjoint_snoc rs r :
  ordered_disjoint (rs ++ [r]) <->
  ordered_disjoint rs
  /\ forall x, x ∈ rs -> start_block x + block_count x < start_block r.
Proof.
  split.
  - intros H. split.
    + intros i j ri rj Hij Hi Hj.
      apply (H i j); [done| |]; by apply lookup_app_l_Some.
    + intros x [i Hi]%list_elem_of_lookup.
      apply (H i (length rs)).
      * by eapply lookup_lt_Some.
      * by apply lookup_app_l_Some.
      * by rewrite list_lookup_middle.
  - intros [Hrs Hlast] i j ri rj Hij Hi Hj.
    pose proof (lookup_lt_Some _ _ _ Hj) as Hlen. rewrite length_app in Hlen. simpl in Hlen.
    rewrite lookup_app_l in Hi by lia.
    destruct (decide (j < length rs)%nat).
    + rewrite lookup_app_l in Hj by done. by apply (Hrs i j).
    + replace j with (length rs) in Hj by lia.
      rewrite list_lookup_middle in Hj by done. injection Hj as <-.
      apply Hlast. by eapply list_elem_of_lookup_2.
Qed.

Lemma ordered_disjoint_cons r rs :
  ordered_disjoint (r :: rs) ->
  ordered_disjoint rs
  /\ forall x, x ∈ rs -> start_block r + block_count r < start_block x.
Proof.
  intros H. split.
  - intros i j ri rj Hij Hi Hj. apply (H (S i) (S j)); [lia|done|done].
  - intros x [i Hi]%list_elem_of_lookup. apply (H O (S i)); [lia|done|done].
Qed.

Lemma set_last_range_snoc rs l cap r :
  set_last_range (GapPlan (rs ++ [l]) cap) r = GapPlan (rs ++ [r]) cap.
Proof.
  unfold set_last_range. simpl. f_equal.
  rewrite length_app. simpl. replace (pred (length rs + 1)) with (length rs + 0)%nat by lia.
  by rewrite insert_app_r.
Qed.

Section PlanFacts.

Context {Env : Type} (P : platform Env).

(** What a call of [gap_plan_add] does, by cases. *)
Lemma gap_plan_add_zero e plan start :
  gap_plan_add P e plan start 0 = (0, plan, e).
Proof. done. Qed.

Lemma gap_plan_add_coalesce e rs l cap start count :
  range_fits l -> insert_fits (start, count) -> count <> 0 ->
  start <= start_block l + block_count l ->
  gap_plan_add P e (GapPlan (rs ++ [l]) cap) start count
  = (0, GapPlan (rs ++ [GapRange (start_block l)
                          (Z.max (start_block l + block_count l) (start + count)
                           - start_block l)]) cap, e).
Proof.
  intros (Hl1 & Hl2 & Hl3) (Hs & Hc & Hsc) Hcount Hle. simpl in *.
  unfold gap_plan_add.
  destruct (Z.eqb_spec count 0) as [?|_]; [done|]. simpl.
  rewrite last_snoc. unwrap.
  destruct (Z.leb_spec start (start_block l + block_count l)) as [_|?]; [|lia].
  destruct (Z.gtb_spec (start + count) (start_block l + block_count l)) as [Hgt|Hle'].
  - rewrite set_last_range_snoc. unwrap.
    replace (Z.max _ _) with (start + count) by lia. done.
  - replace (Z.max _ _) with (start_block l + block_count l) by lia.
    replace (start_block l + block_count l - start_block l) with (block_count l) by lia.
    by destruct l.
Qed.

Lemma gap_plan_add_append e plan start count :
  insert_fits (start, count) -> count <> 0 ->
  (forall l, last (ranges plan) = Some l ->
     range_fits l /\ start_block l + block_count l < start) ->
  (exists cap e',
     gap_plan_add P e plan start count
     = (0, GapPlan (ranges plan ++ [GapRange start count]) cap, e'))
  \/ (exists e', gap_plan_add P e plan start count = (-1, plan, e')
                /\ (alloc_fault P e).1 = true).
Proof.
  intros (Hs & Hc & Hsc) Hcount Hlast. simpl in *.
  unfold gap_plan_add.
  destruct (Z.eqb_spec count 0) as [?|_]; [done|].
  assert ((exists cap e',
     (if plan_count plan =? capacity plan then
        let new_capacity :=
          if capacity plan =? 0 then 8 else size_t_wrap (capacity plan * 2) in
        let new_capacity :=
          if new_capacity <? size_t_wrap (plan_count plan + 1)
          then size_t_wrap (plan_count plan + 1) else new_capacity in
        let '(fail, e') := alloc_fault P e in
        if fail then (-1, plan, e')
        else (0, GapPlan (ranges plan ++ [GapRange start count]) new_capacity, e')
      else (0, GapPlan (ranges plan ++ [GapRange start count]) (capacity plan), e))
     = (0, GapPlan (ranges plan ++ [GapRange start count]) cap, e'))
  \/ (exists e',
     (if plan_count plan =? capacity plan then
        let new_capacity :=
          if capacity plan =? 0 then 8 else size_t_wrap (capacity plan * 2) in
        let new_capacity :=
          if new_capacity <? size_t_wrap (plan_count plan + 1)
          then size_t_wrap (plan_count plan + 1) else new_capacity in
        let '(fail, e') := alloc_fault P e in
        if fail then (-1, plan, e')
        else (0, GapPlan (ranges plan ++ [GapRange start count]) new_capacity, e')
      else (0, GapPlan (ranges plan ++ [GapRange start count]) (capacity plan), e))
     = (-1, plan, e') /\ (alloc_fault P e).1 = true)) as Hgrow.
  { destruct (plan_count plan =? capacity plan).
    - cbv zeta. destruct (alloc_fault P e) as [[] e'] eqn:Ea; simpl.
      + right. by exists e'.
      + left. by eexists _, e'.
    - left. by eexists _, e. }
  cbv zeta. destruct (last (ranges plan)) as [l|] eqn:El; [|exact Hgrow].
  destruct (Hlast l eq_refl) as [(Hl1 & Hl2 & Hl3) Hlt]. unwrap.
  destruct (Z.leb_spec start (start_block l + block_count l)); [lia|exact Hgrow].
Qed.

Lemma plan_ok_nil : plan_ok [].
Proof. split; [apply ordered_disjoint_nil|constructor]. Qed.

Lemma plan_ok_snoc rs r :
  plan_ok (rs ++ [r]) <->
  plan_ok rs /\ range_fits r
  /\ forall x, x ∈ rs -> start_block x + block_count x < start_block r.
Proof.
  unfold plan_ok. rewrite ordered_disjoint_snoc, Forall_app, Forall_singleton. tauto.
Qed.

(** Everything in an ordered plan ends at or before the end of its last
    range. *)
Lemma plan_ok_last_end rs l x :
  plan_ok (rs ++ [l]) -> x ∈ rs ++ [l] ->
  start_block x + block_count x <= start_block l + block_count l.
Proof.
  intros (Hrs & Hl & Hlt)%plan_ok_snoc [Hx|Hx%list_elem_of_singleton]%elem_of_app.
  - specialize (Hlt x Hx). destruct Hl as (? & ? & ?). lia.
  - subst. lia.
Qed.

Lemma gap_plan_add_plan_ok e plan start count :
  plan_ok (ranges plan) -> insert_fits (start, count) ->
  plan_ok (ranges (gap_plan_add P e plan start count).1.2).
Proof.
  intros Hok Hfits. pose proof Hfits as (Hs & Hc & Hsc). simpl in *.
  destruct (Z.eq_dec count 0) as [->|Hcount]; [done|].
  destruct plan as [rs cap]. simpl in *.
  destruct rs as [|l rs0 _] using rev_ind.
  - destruct (gap_plan_add_append e (GapPlan [] cap) start count Hfits Hcount)
      as [(cap' & e' & ->)|(e' & -> & _)]; [by intros l [=]| |done].
    simpl. apply (plan_ok_snoc []). split; [apply plan_ok_nil|].
    split; [repeat split; simpl; lia|].
    intros x Hx. by apply elem_of_nil in Hx.
  - pose proof Hok as (Hrs & Hl & Hlt)%plan_ok_snoc.
    destruct (Z.le_gt_cases start (start_block l + block_count l)) as [Hle|Hgt].
    + rewrite gap_plan_add_coalesce by done. simpl.
      apply plan_ok_snoc. split; [done|]. split; [|done].
      destruct Hl as (? & ? & ?). repeat split; simpl; lia.
    + destruct (gap_plan_add_append e (GapPlan (rs0 ++ [l]) cap) start count Hfits Hcount)
        as [(cap' & e' & ->)|(e' & -> & _)]; [| |done].
      * simpl. intros l' Hl'. rewrite last_snoc in Hl'. injection Hl' as <-. split; [done|lia].
      * simpl. apply plan_ok_snoc. split; [done|]. split; [repeat split; simpl; lia|].
        intros x Hx. pose proof (plan_ok_last_end _ _ _ Hok Hx). simpl. lia.
Qed.

Lemma gap_plan_add_all_plan_ok inserts :
  Forall insert_fits inserts ->
  forall e plan, plan_ok (ranges plan) ->
    plan_ok (ranges (gap_plan_add_all P e plan inserts).1.2).
Proof.
  induction 1 as [|[start count] inserts Hfit _ IH]; intros e plan Hok; simpl; [done|].
  pose proof (gap_plan_add_plan_ok e plan start count Hok Hfit) as Hok'.
  destruct (gap_plan_add P e plan start count) as [[rc plan'] e'].
  destruct (negb (rc =? 0)); [done|]. by apply IH.
Qed.

(** On an ordered plan the early exit of [gap_plan_contains] loses nothing:
    it answers whether the block lies in some range. *)
Lemma gap_plan_contains_from_spec rs block :
  plan_ok rs -> gap_plan_contains_from rs block = true <-> in_plan rs block.
Proof.
  induction rs as [|r rs IH]; intros Hok; simpl.
  - split; [done|]. intros (x & Hx & _). by apply elem_of_nil in Hx.
  - destruct Hok as [Hord Hfit]. apply Forall_cons in Hfit as [(Hr1 & Hr2 & Hr3) Hfit].
    apply ordered_disjoint_cons in Hord as [Hord Hlt].
    specialize (IH (conj Hord Hfit)). unwrap.
    destruct (Z.ltb_spec block (start_block r)) as [Hb|Hb].
    + split; [done|]. intros (x & [->|Hx]%elem_of_cons & Hin); [lia|].
      specialize (Hlt x Hx). lia.
    + destruct (Z.ltb_spec block (start_block r + block_count r)) as [Hb'|Hb'].
      * split; [|done]. intros _. exists r. split; [apply list_elem_of_here|lia].
      * rewrite IH. split.
        -- intros (x & Hx & Hin). exists x. split; [by apply list_elem_of_further|done].
        -- intros (x & [->|Hx]%elem_of_cons & Hin); [lia|]. by exists x.
Qed.

End PlanFacts.

(** C2.  A plan built from the empty plan by [gap_plan_add] calls is ordered
    and disjoint: every range ends strictly before each later range starts.
    An insertion whose start lies within or at the end of the last range is
    merged into that range, and an insertion of zero blocks changes
    nothing. *)
Theorem gap_plan_ordered_disjoint :
  forall {Env : Type} (P : platform Env),
    (forall e inserts, Forall insert_fits inserts ->
       ordered_disjoint (ranges (gap_plan_add_all P e empty_plan inserts).1.2))
    /\ (forall e rs l cap start count,
          range_fits l -> insert_fits (start, count) -> count <> 0 ->
          start <= start_block l + block_count l ->
          gap_plan_add P e (GapPlan (rs ++ [l]) cap) start count
          = (0, GapPlan (rs ++ [GapRange (start_block l)
                                  (Z.max (start_block l + block_count l) (start + count)
                                   - start_block l)]) cap, e))
    /\ (forall e plan start, gap_plan_add P e plan start 0 = (0, plan, e)).
Proof.
  intros Env P. split; [|split].
  - intros e inserts Hfits.
    by apply (gap_plan_add_all_plan_ok P inserts Hfits e empty_plan plan_ok_nil).
  - intros. by apply gap_plan_add_coalesce.
  - intros. apply gap_plan_add_zero.
Qed.

(** ** Verification sampling *)

Lemma in_planb_spec rs block : in_planb rs block = true <-> in_plan rs block.
Proof.
  unfold in_planb, in_plan. rewrite existsb_exists. split.
  - intros (r & Hr%list_elem_of_In & H). exists r. split; [done|]. lia.
  - intros (r & Hr%list_elem_of_In & H). exists r. split; [done|]. lia.
Qed.

Lemma gap_plan_contains_in_planb plan block :
  plan_ok (ranges plan) -> gap_plan_contains plan block = in_planb (ranges plan) block.
Proof.
  intros Hok. apply eq_true_iff_eq. unfold gap_plan_contains.
  by rewrite gap_plan_contains_from_spec, in_planb_spec.
Qed.

Lemma sample_walk_forward_spec plan available :
  plan_ok (ranges plan) -> available <= SIZE_MAX ->
  forall n forward, 0 <= forward -> n = Z.to_nat (available - forward) ->
    forward <= available ->
    sample_walk_forward plan available forward
    = Some (default available (first_free_from (ranges plan) forward available)).
Proof.
  intros Hok Havail. unfold sample_walk_forward, first_free_from.
  induction n as [|n IH]; intros forward H0 Hn Hle.
  - assert (forward = available) as -> by lia.
    rewrite Z.sub_diag. simpl. rewrite Z.ltb_irrefl. done.
  - rewrite <- Hn.
    replace (available - forward) with (Z.succ (available - forward - 1)) by lia.
    rewrite seqZ_cons by lia. simpl List.find.
    change (while_loop (S (S n)) ?b forward) with
      (match b forward with
       | None => None
       | Some (Next s') => while_loop (S n) b s'
       | Some (Break s') => Some (inl s')
       | Some (Ret r) => Some (inr r)
       end).
    cbv beta. destruct (Z.ltb_spec forward available); [|lia]. simpl andb.
    unfold free_block at 1. rewrite gap_plan_contains_in_planb by done.
    destruct (in_planb (ranges plan) forward); simpl; [|done].
    unwrap. specialize (IH (forward + 1) ltac:(lia) ltac:(lia) ltac:(lia)).
    replace (Z.to_nat (available - (forward + 1))) with n in IH by lia.
    replace (Z.pred (Z.succ (available - forward - 1))) with (available - (forward + 1)) by lia.
    replace (Z.succ forward) with (forward + 1) by lia. exact IH.
Qed.

Lemma sample_walk_backward_spec plan :
  plan_ok (ranges plan) ->
  forall n backward, n = Z.to_nat backward -> 0 <= backward <= SIZE_MAX ->
    sample_walk_backward plan backward
    = Some (default 0 (List.find (free_block (ranges plan)) (reverse (seqZ 1 backward)))).
Proof.
  intros Hok. unfold sample_walk_backward.
  induction n as [|n IH]; intros backward Hn Hb.
  - assert (backward = 0) as -> by lia. done.
  - rewrite <- Hn.
    replace (seqZ 1 backward) with (seqZ 1 (Z.of_nat (S n))) by (f_equal; lia).
    rewrite seqZ_S, reverse_app. simpl reverse. simpl List.find.
    change (while_loop (S (S n)) ?b backward) with
      (match b backward with
       | None => None
       | Some (Next s') => while_loop (S n) b s'
       | Some (Break s') => Some (inl s')
       | Some (Ret r) => Some (inr r)
       end).
    cbv beta. destruct (Z.gtb_spec backward 0); [|lia]. simpl andb.
    replace (1 + Z.of_nat n) with backward by lia.
    unfold free_block at 1. rewrite gap_plan_contains_in_planb by done.
    destruct (in_planb (ranges plan) backward); simpl; [|done].
    unwrap. specialize (IH (backward - 1) ltac:(lia) ltac:(lia)).
    replace (Z.to_nat (backward - 1)) with n in IH by lia.
    replace (Z.of_nat n) with (backward - 1) by lia. exact IH.
Qed.

Lemma for_loop_ret_foldl {St R : Type} (body : Z -> St -> option (St + R))
    (f : St -> Z -> St) lo hi :
  (forall i s, lo <= i < hi -> body i s = Some (inl (f s i))) ->
  forall n i s, lo <= i -> n = Z.to_nat (hi - i) ->
    for_loop_ret n i hi body s = Some (inl (foldl f s (seqZ i (hi - i)))).
Proof.
  intros Hbody. induction n as [|n IH]; intros i s Hi Hn; simpl.
  - rewrite seqZ_nil by lia. done.
  - destruct (Z.ltb_spec i hi); [|lia].
    rewrite Hbody by lia. rewrite IH by lia.
    rewrite (seqZ_cons i) by lia. simpl.
    do 3 f_equal. f_equal; lia.
Qed.

Lemma sample_candidate_spec available T i :
  0 < available <= INT_MAX -> 0 < T <= 32 -> 0 <= i < T ->
  sample_candidate available T i = (i + 1) * available / (T + 1)
  /\ 0 <= (i + 1) * available / (T + 1) < available.
Proof.
  intros Ha HT Hi. unfold sample_candidate, INT_MAX in *.
  assert (0 <= (i + 1) * available / (T + 1) < available) as Hc.
  { split; [apply Z.div_pos; nia|]. apply Z.div_lt_upper_bound; nia. }
  split; [|done].
  rewrite (size_t_wrap_small (i + 1)) by (unfold SIZE_MAX; lia).
  rewrite (size_t_wrap_small (T + 1)) by (unfold SIZE_MAX; lia).
  rewrite (size_t_wrap_small ((i + 1) * available)) by (unfold SIZE_MAX; nia).
  apply size_t_wrap_small. unfold SIZE_MAX; lia.
Qed.

Lemma find_app_split {A : Type} (f : A -> bool) (l l' : list A) :
  List.find f (l ++ l')
  = match List.find f l with Some x => Some x | None => List.find f l' end.
Proof. induction l as [|x l IH]; simpl; [done|]. by destruct (f x). Qed.

Lemma last_free_upto_split rs candidate :
  0 <= candidate ->
  last_free_upto rs candidate
  = match List.find (free_block rs) (reverse (seqZ 1 candidate)) with
    | Some b => Some b
    | None => if free_block rs 0 then Some 0 else None
    end.
Proof.
  intros Hc. unfold last_free_upto.
  rewrite seqZ_cons by lia. rewrite reverse_cons.
  replace (Z.succ 0) with 1 by lia. replace (Z.pred (candidate + 1)) with candidate by lia.
  rewrite find_app_split. simpl. by destruct (List.find _ _).
Qed.

Lemma first_free_from_Some rs candidate available s :
  first_free_from rs candidate available = Some s ->
  candidate <= s < available /\ free_block rs s = true.
Proof.
  unfold first_free_from. intros [Hin Hfree]%find_some.
  apply list_elem_of_In, elem_of_seqZ in Hin. split; [lia|done].
Qed.

Lemma last_free_upto_Some rs candidate s :
  last_free_upto rs candidate = Some s ->
  0 <= s <= candidate /\ free_block rs s = true.
Proof.
  unfold last_free_upto. intros [Hin Hfree]%find_some.
  apply list_elem_of_In, elem_of_reverse, elem_of_seqZ in Hin. split; [lia|done].
Qed.

Lemma sample_step_spec plan available T i samples :
  plan_ok (ranges plan) ->
  0 < available <= INT_MAX -> 0 < T <= 32 -> 0 <= i < T ->
  sample_step plan available T i samples
  = Some (inl (push_sample samples (sample_spec (ranges plan) available T i))).
Proof.
  intros Hok Ha HT Hi. unfold sample_step, sample_spec.
  destruct (sample_candidate_spec available T i Ha HT Hi) as [-> Hc].
  set (c := (i + 1) * available / (T + 1)) in *.
  assert (available <= SIZE_MAX) as Hmax by (unfold INT_MAX, SIZE_MAX in *; lia).
  rewrite (sample_walk_forward_spec plan available Hok Hmax _ c ltac:(lia) eq_refl ltac:(lia)).
  destruct (Z.geb_spec c available); [lia|].
  assert (forall s, (Z.of_nat (length samples) >? 0) && (default 0 (last samples) =? s)
                    = match last samples with Some prev => prev =? s | None => false end)
    as Hdup.
  { intros s. destruct samples as [|x xs] using rev_ind; [done|].
    rewrite last_snoc, length_app. simpl.
    destruct (Z.gtb_spec (Z.of_nat (length xs + 1)) 0); [done|lia]. }
  destruct (first_free_from (ranges plan) c available) as [f|] eqn:Ef; simpl.
  - apply first_free_from_Some in Ef as [Hf _].
    destruct (Z.geb_spec f available); [lia|].
    rewrite Hdup. by destruct (last samples) as [prev|]; [destruct (prev =? f)|].
  - destruct (Z.geb_spec available available); [|lia].
    rewrite (sample_walk_backward_spec plan Hok _ c eq_refl)
      by (unfold SIZE_MAX; unfold INT_MAX in *; lia).
    rewrite last_free_upto_split by lia.
    destruct (List.find (free_block (ranges plan)) (reverse (seqZ 1 c))) as [b|] eqn:Eb; simpl.
    + apply find_some in Eb as [_ Hfree]. unfold free_block in Hfree.
      rewrite gap_plan_contains_in_planb by done.
      destruct (in_planb (ranges plan) b); [done|].
      rewrite Hdup. by destruct (last samples) as [prev|]; [destruct (prev =? b)|].
    + rewrite gap_plan_contains_in_planb by done. unfold free_block.
      destruct (in_planb (ranges plan) 0); simpl; [done|].
      rewrite Hdup. by destruct (last samples) as [prev|]; [destruct (prev =? 0)|].
Qed.

Lemma push_sample_inv (Good : Z -> Prop) samples sample k :
  Forall Good samples -> (length samples <= k)%nat ->
  (forall s, sample = Some s -> Good s) ->
  Forall Good (push_sample samples sample) /\ (length (push_sample samples sample) <= S k)%nat.
Proof.
  intros Hall Hlen Hgood. destruct sample as [s|]; simpl; [|split; [done|lia]].
  assert (Forall Good (samples ++ [s]) /\ (length (samples ++ [s]) <= S k)%nat) as Happ.
  { split; [apply Forall_app; split; [done|]; apply Forall_singleton; auto|].
    rewrite length_app. simpl. lia. }
  destruct (last samples) as [prev|]; [|done].
  destruct (prev =? s); [split; [done|lia]|done].
Qed.

Lemma samples_spec_inv rs available desired :
  0 <= available -> 0 <= desired ->
  (length (samples_spec rs available desired) <= Z.to_nat desired)%nat
  /\ Forall (fun s => 0 <= s < available /\ ~ in_plan rs s) (samples_spec rs available desired).
Proof.
  intros Ha Hd. unfold samples_spec.
  destruct (Z.eqb_spec available 0); [simpl; split; [lia|constructor]|].
  destruct (Z.eqb_spec desired 0); [simpl; split; [lia|constructor]|]. simpl.
  set (T := Z.min available desired).
  set (Good := fun s => 0 <= s < available /\ ~ in_plan rs s).
  assert (forall l acc k, Forall (fun i => 0 <= i < T) l -> Forall Good acc ->
            (length acc <= k)%nat ->
            Forall Good (foldl (fun samples i =>
                                  push_sample samples (sample_spec rs available T i)) acc l)
            /\ (length (foldl (fun samples i =>
                                 push_sample samples (sample_spec rs available T i)) acc l)
                <= k + length l)%nat) as Hfold.
  { induction l as [|i l IH]; intros acc k Hl Hacc Hk; simpl; [split; [done|lia]|].
    apply Forall_cons in Hl as [Hi Hl].
    destruct (push_sample_inv Good acc (sample_spec rs available T i) k Hacc Hk) as [H1 H2].
    { intros s Hs. unfold sample_spec in Hs.
      assert (0 <= (i + 1) * available / (T + 1) < available) as Hc.
      { split; [apply Z.div_pos; nia|]. apply Z.div_lt_upper_bound; nia. }
      assert (free_block rs s = true -> ~ in_plan rs s) as Hfree.
      { unfold free_block. rewrite <- in_planb_spec. by destruct (in_planb rs s). }
      destruct (first_free_from rs _ available) as [f|] eqn:Ef.
      - injection Hs as <-. apply first_free_from_Some in Ef as [? ?].
        split; [lia|auto].
      - apply last_free_upto_Some in Hs as [? ?]. split; [lia|auto]. }
    destruct (IH _ (S k) Hl H1 H2) as [H3 H4]. split; [done|lia]. }
  destruct (Hfold (seqZ 0 T) [] O) as [H1 H2].
  - apply Forall_forall. intros i Hi%elem_of_seqZ. lia.
  - constructor.
  - simpl. lia.
  - split; [|done]. rewrite length_seqZ in H2. lia.
Qed.

(** The samples collected are those of the spec. *)
Lemma gap_collect_samples_eq (plan : gap_plan_t) (available_blocks desired : Z) :
  plan_ok (ranges plan) -> 0 <= available_blocks <= INT_MAX -> 0 <= desired <= 32 ->
  gap_collect_samples plan available_blocks desired
  = Some (samples_spec (ranges plan) available_blocks desired).
Proof.
  intros Hok Ha Hd. unfold gap_collect_samples, samples_spec.
  destruct ((available_blocks =? 0) || (desired =? 0)) eqn:E0; [done|].
  apply orb_false_iff in E0 as [E0%Z.eqb_neq E1%Z.eqb_neq].
  set (T := Z.min available_blocks desired).
  replace (if available_blocks <? desired then available_blocks else desired)
    with T by (unfold T; destruct (Z.ltb_spec available_blocks desired); lia).
  unfold for_range_ret.
  rewrite (for_loop_ret_foldl _
             (fun samples i =>
                push_sample samples (sample_spec (ranges plan) available_blocks T i))
             0 T); [by rewrite Z.sub_0_r| |lia|done].
  intros i s Hi. apply sample_step_spec; [done|lia| |done].
  unfold T. lia.
Qed.

(** C9.  Verification sampling over [available_blocks] blocks with an ordered
    plan collects at most 32 samples, all inside the file range and none in
    a range of the plan.  The samples are those of the spec: sample [i] of
    target [T] is the first block not in the plan from
    [floor((i+1) * available_blocks / (T+1))] forwards, or else backwards
    from there, or none; a sample equal to the one collected before it is
    dropped. *)
Theorem gap_collect_samples_spec :
  forall (plan : gap_plan_t) (available_blocks : Z),
    plan_ok (ranges plan) -> 0 <= available_blocks <= INT_MAX ->
    exists samples,
      gap_collect_samples plan available_blocks GAP_SAMPLE_TARGET = Some samples
      /\ samples = samples_spec (ranges plan) available_blocks GAP_SAMPLE_TARGET
      /\ (length samples <= 32)%nat
      /\ forall s, s ∈ samples ->
           0 <= s < available_blocks /\ ~ in_plan (ranges plan) s.
Proof.
  intros plan available Hok Ha.
  exists (samples_spec (ranges plan) available GAP_SAMPLE_TARGET).
  destruct (samples_spec_inv (ranges plan) available GAP_SAMPLE_TARGET) as [Hlen Hall];
    [lia|done|].
  split; [|split; [done|split; [exact Hlen|]]].
  - apply gap_collect_samples_eq; [done|done|]. unfold GAP_SAMPLE_TARGET. lia.
  - intros s Hs. by apply (proj1 (Forall_forall _ _) Hall).
Qed.

(** ** Block copier *)

Lemma int_wrap_add_l a b : int_wrap (int_wrap a + b) = int_wrap (a + b).
Proof.
  unfold int_wrap. f_equal.
  replace ((a + 2 ^ 31) mod 2 ^ 32 - 2 ^ 31 + b + 2 ^ 31)
    with ((a + 2 ^ 31) mod 2 ^ 32 + b) by lia.
  rewrite Zplus_mod_idemp_l. f_equal. lia.
Qed.

Lemma write_at_end file data :
  write_at file (Z.of_nat (length file)) data = file ++ data.
Proof.
  unfold write_at. destruct data as [|b data]; [by rewrite app_nil_r|].
  rewrite Nat2Z.id.
  rewrite take_ge by lia. rewrite drop_ge by lia.
  rewrite Nat.sub_diag. simpl. by rewrite app_nil_r.
Qed.

Lemma take_buffer_zero n :
  n <= BUFFER_SIZE ->
  take (Z.to_nat (n * DVD_VIDEO_LB_LEN)) buffer_zero = zeros (n * DVD_VIDEO_LB_LEN).
Proof.
  intros Hn. unfold buffer_zero, zeros. rewrite take_replicate. f_equal.
  unfold BUFFER_SIZE, DVD_VIDEO_LB_LEN in *. lia.
Qed.

Lemma length_zeros n : 0 <= n -> Z.of_nat (length (zeros n)) = n.
Proof. intros Hn. unfold zeros. rewrite length_replicate. lia. Qed.

Section CopyFacts.

Context {Env : Type} (P : platform Env).

(** A sequential write at the end of the file, when the kernel stores all
    the bytes. *)
Lemma do_write_append w data :
  writes_complete P -> w_pos w = Z.of_nat (length (w_file w)) ->
  exists e',
    do_write P w data
    = (Z.of_nat (length data),
       World e' (w_file w ++ data) (Z.of_nat (length (w_file w ++ data))) (w_writes w)).
Proof.
  intros Hw Hpos. unfold do_write.
  specialize (Hw (w_env w) (Z.of_nat (length data))).
  destruct (sys_write P (w_env w) (Z.of_nat (length data))) as [r e'].
  simpl in Hw. subst r. exists e'.
  rewrite Nat2Z.id, firstn_all.
  destruct (Z.gtb_spec (Z.of_nat (length data)) 0) as [Hpos'|Hzero].
  - rewrite Hpos, write_at_end. do 2 f_equal. rewrite length_app. lia.
  - assert (data = []) as -> by (destruct data; [done|simpl in Hzero; lia]).
    rewrite app_nil_r. simpl. by rewrite Hpos.
Qed.

(** One iteration of the copy loop under SKIP_MULTIBLOCK, for a read that
    delivers at most what was asked. *)
Lemma copy_chunk_skip_multiblock offset remaining to_read0 w got buffer e1 :
  writes_complete P ->
  w_pos w = Z.of_nat (length (w_file w)) ->
  0 < remaining -> 0 < to_read0 <= BUFFER_SIZE ->
  let to_read := Z.min to_read0 remaining in
  DVDReadBlocks P (w_env w) offset to_read = (got, buffer, e1) ->
  got <= to_read ->
  (0 < got -> Z.of_nat (length buffer) = got * DVD_VIDEO_LB_LEN) ->
  exists w',
    copy_chunk P STRATEGY_SKIP_MULTIBLOCK (offset, remaining, to_read0, w)
    = Some (Next (int_wrap (offset + to_read), remaining - to_read, to_read, w'))
    /\ w_file w' = w_file w ++ take (Z.to_nat (Z.max got 0 * DVD_VIDEO_LB_LEN)) buffer
                     ++ zeros ((to_read - Z.max got 0) * DVD_VIDEO_LB_LEN)
    /\ w_pos w' = Z.of_nat (length (w_file w'))
    /\ w_writes w' = w_writes w.
Proof.
  intros Hw Hpos Hrem Hto to_read Hread Hgot Hlen.
  unfold copy_chunk.
  destruct (Z.gtb_spec remaining 0); [|lia].
  replace (if to_read0 >? remaining then remaining else to_read0) with to_read
    by (unfold to_read; destruct (Z.gtb_spec to_read0 remaining); lia).
  rewrite Hread.
  assert (to_read <= BUFFER_SIZE) as Hbuf by (unfold to_read; lia).
  destruct (Z.gtb_spec got 0) as [Hpos'|Hnonpos].
  - (* some blocks were read *)
    specialize (Hlen Hpos').
    assert (take (Z.to_nat (got * DVD_VIDEO_LB_LEN)) buffer = buffer) as Htake
      by (apply take_ge; lia).
    rewrite Htake.
    destruct (do_write_append (with_env w e1) buffer Hw Hpos) as [e2 ->]. simpl.
    rewrite Hlen, Z.eqb_refl. simpl.
    replace (Z.max got 0) with got by lia. rewrite Htake.
    destruct (Z.eqb_spec got to_read) as [->|Hne]; simpl.
    + eexists. split; [done|]. simpl.
      rewrite Z.sub_diag. unfold zeros. simpl. rewrite app_nil_r. done.
    + destruct (Z.ltb_spec got 0); [lia|].
      rewrite take_buffer_zero by lia.
      edestruct (do_write_append (World e2 (w_file w ++ buffer)
                   (Z.of_nat (length (w_file w ++ buffer))) (w_writes w))
                   (zeros ((to_read - got) * DVD_VIDEO_LB_LEN)) Hw eq_refl) as [e3 ->].
      rewrite length_zeros by (unfold DVD_VIDEO_LB_LEN; lia).
      rewrite Z.eqb_refl. simpl.
      rewrite int_wrap_add_l.
      replace (offset + got + (to_read - got)) with (offset + to_read) by lia.
      replace (remaining - got - (to_read - got)) with (remaining - to_read) by lia.
      eexists. split; [done|]. simpl. split; [by rewrite <- app_assoc|done].
  - (* nothing was read, or the read failed *)
    replace (Z.max got 0) with 0 by lia. simpl take.
    destruct (Z.eqb_spec got to_read); [unfold to_read in *; lia|]. simpl.
    replace (if got <? 0 then 0 else got) with 0 by (destruct (Z.ltb_spec got 0); lia).
    rewrite Z.sub_0_r. rewrite take_buffer_zero by lia.
    edestruct (do_write_append (with_env w e1)
                 (zeros (to_read * DVD_VIDEO_LB_LEN)) Hw Hpos) as [e3 ->].
    rewrite length_zeros by (unfold DVD_VIDEO_LB_LEN; lia).
    rewrite Z.eqb_refl. simpl.
    eexists. split; [done|]. simpl. done.
Qed.

(** The whole copy under SKIP_MULTIBLOCK ends with a return of 0 after
    [size] blocks have been written. *)
Lemma DVDCopyBlocks_skip_multiblock_run g w offset size :
  writes_complete P -> reads_bounded P ->
  fill_gaps g = false -> 0 <= size ->
  w_pos w = Z.of_nat (length (w_file w)) ->
  exists w',
    DVDCopyBlocks P g w offset size STRATEGY_SKIP_MULTIBLOCK = Some (0, w')
    /\ Z.of_nat (length (w_file w'))
       = Z.of_nat (length (w_file w)) + size * DVD_VIDEO_LB_LEN.
Proof.
  intros Hw Hr Hg Hsize Hpos. unfold DVDCopyBlocks. rewrite Hg.
  set (L := Z.of_nat (length (w_file w)) + size * DVD_VIDEO_LB_LEN).
  set (Inv := fun s : Z * Z * Z * world Env =>
       let '(_, remaining, to_read, w') := s in
       0 <= remaining /\ 0 < to_read <= BUFFER_SIZE
       /\ w_pos w' = Z.of_nat (length (w_file w'))
       /\ Z.of_nat (length (w_file w')) + remaining * DVD_VIDEO_LB_LEN = L).
  pose proof (while_loop_ind Inv
    (fun s : Z * Z * Z * world Env =>
       let '(_, _, _, w') := s in Z.of_nat (length (w_file w')) = L)
    (fun _ : Z * world Env => False)
    (fun s : Z * Z * Z * world Env => let '(_, remaining, _, _) := s in Z.to_nat remaining)
    (copy_chunk P STRATEGY_SKIP_MULTIBLOCK)) as Hloop.
  assert (forall s, Inv s ->
            match copy_chunk P STRATEGY_SKIP_MULTIBLOCK s with
            | Some (Next s') =>
                Inv s' /\ ((let '(_, remaining, _, _) := s' in Z.to_nat remaining)
                          < (let '(_, remaining, _, _) := s in Z.to_nat remaining))%nat
            | Some (Break s') => let '(_, _, _, w') := s' in Z.of_nat (length (w_file w')) = L
            | Some (Ret _) => False
            | None => False
            end) as Hstep.
  { intros [[[off rem] tr] w0] (Hrem & Htr & Hpos0 & Hlen).
    destruct (Z.le_gt_cases rem 0) as [Hz|Hpos'].
    - unfold copy_chunk. destruct (Z.gtb_spec rem 0); [lia|].
      unfold DVD_VIDEO_LB_LEN in *. lia.
    - destruct (DVDReadBlocks P (w_env w0) off (Z.min tr rem)) as [[got buffer] e1] eqn:Hread.
      pose proof (Hr (w_env w0) off (Z.min tr rem) ltac:(lia)) as [Hle Hbuf].
      rewrite Hread in Hle, Hbuf. simpl in Hle, Hbuf.
      destruct (copy_chunk_skip_multiblock off rem tr w0 got buffer e1
                  Hw Hpos0 ltac:(lia) Htr Hread Hle Hbuf)
        as (w' & -> & Hfile & Hposw & _).
      assert (Z.of_nat (length (w_file w'))
              = Z.of_nat (length (w_file w0)) + Z.min tr rem * DVD_VIDEO_LB_LEN) as Hlen'.
      { rewrite Hfile, !length_app, !Nat2Z.inj_add.
        rewrite length_zeros by (unfold DVD_VIDEO_LB_LEN; lia).
        rewrite length_take. unfold DVD_VIDEO_LB_LEN in *. lia. }
      split; [|lia].
      split; [lia|]. split; [lia|]. split; [done|].
      unfold DVD_VIDEO_LB_LEN in *. lia. }
  specialize (Hloop Hstep).
  specialize (Hloop (S (Z.to_nat size)) (offset, size, BUFFER_SIZE, w)).
  destruct (while_loop _ _ _) as [[[[[off rem] tr] w']|r]|].
  - exists w'. split; [done|]. apply Hloop; [|lia].
    unfold BUFFER_SIZE, L. repeat split; try lia; done.
  - exfalso. apply Hloop; [|lia].
    unfold BUFFER_SIZE, L. repeat split; try lia; done.
  - exfalso. apply Hloop; [|lia].
    unfold BUFFER_SIZE, L. repeat split; try lia; done.
Qed.

End CopyFacts.

(** C1.  Under SKIP_MULTIBLOCK, when the kernel stores what it is given and
    the file is written at its end: a read of [to_read] blocks that delivers
    [got < to_read] blocks (a negative return counting as none) makes the
    copy loop write the blocks read followed by [to_read - got] blocks of
    zeros and advance by [to_read] blocks; the copy as a whole returns 0
    after [size] blocks; and a read of 17 blocks out of 512 gives 17 blocks
    of data followed by 495 blocks of zeros. *)
Theorem DVDCopyBlocks_skip_multiblock :
  forall {Env : Type} (P : platform Env),
    writes_complete P ->
    (forall offset remaining to_read0 w got buffer e1,
        w_pos w = Z.of_nat (length (w_file w)) ->
        0 < remaining -> 0 < to_read0 <= BUFFER_SIZE ->
        let to_read := Z.min to_read0 remaining in
        DVDReadBlocks P (w_env w) offset to_read = (got, buffer, e1) ->
        got < to_read ->
        (0 < got -> Z.of_nat (length buffer) = got * DVD_VIDEO_LB_LEN) ->
        exists w',
          copy_chunk P STRATEGY_SKIP_MULTIBLOCK (offset, remaining, to_read0, w)
          = Some (Next (int_wrap (offset + to_read), remaining - to_read, to_read, w'))
          /\ w_file w'
             = w_file w ++ take (Z.to_nat (Z.max got 0 * DVD_VIDEO_LB_LEN)) buffer
                 ++ zeros ((to_read - Z.max got 0) * DVD_VIDEO_LB_LEN))
    /\ (reads_bounded P ->
        forall g w offset size,
          fill_gaps g = false -> 0 <= size ->
          w_pos w = Z.of_nat (length (w_file w)) ->
          exists w',
            DVDCopyBlocks P g w offset size STRATEGY_SKIP_MULTIBLOCK = Some (0, w')
            /\ Z.of_nat (length (w_file w'))
               = Z.of_nat (length (w_file w)) + size * DVD_VIDEO_LB_LEN)
    /\ (forall offset remaining w buffer e1,
        w_pos w = Z.of_nat (length (w_file w)) ->
        512 <= remaining ->
        DVDReadBlocks P (w_env w) offset 512 = (17, buffer, e1) ->
        Z.of_nat (length buffer) = 17 * DVD_VIDEO_LB_LEN ->
        exists w',
          copy_chunk P STRATEGY_SKIP_MULTIBLOCK (offset, remaining, BUFFER_SIZE, w)
          = Some (Next (int_wrap (offset + 512), remaining - 512, 512, w'))
          /\ w_file w' = w_file w ++ buffer ++ zeros (495 * DVD_VIDEO_LB_LEN)).
Proof.
  intros Env P Hw. split; [|split].
  - intros offset remaining to_read0 w got buffer e1 Hpos Hrem Hto to_read Hread Hgot Hlen.
    destruct (copy_chunk_skip_multiblock P offset remaining to_read0 w got buffer e1
                Hw Hpos Hrem Hto Hread ltac:(lia) Hlen) as (w' & H1 & H2 & _).
    by exists w'.
  - intros Hr g w offset size Hg Hsize Hpos.
    by apply DVDCopyBlocks_skip_multiblock_run.
  - intros offset remaining w buffer e1 Hpos Hrem Hread Hlen.
    destruct (copy_chunk_skip_multiblock P offset remaining BUFFER_SIZE w 17 buffer e1
                Hw Hpos ltac:(lia) ltac:(unfold BUFFER_SIZE; lia)) as (w' & H1 & H2 & _).
    + replace (Z.min BUFFER_SIZE remaining) with 512 by (unfold BUFFER_SIZE; lia). done.
    + unfold BUFFER_SIZE. lia.
    + done.
    + exists w'. replace (Z.min BUFFER_SIZE remaining) with 512 in *
        by (unfold BUFFER_SIZE; lia).
      split; [done|]. rewrite H2. f_equal.
      replace (Z.max 17 0) with 17 by lia. rewrite take_ge by lia. done.
Qed.

(** ** Runs of blank blocks *)

Section RunFacts.

Variable B : Z -> bool.

Lemma count_blank_succ k :
  0 <= k -> count_blank B (k + 1) = count_blank B k + (if B k then 1 else 0).
Proof.
  intros Hk. unfold count_blank.
  rewrite seqZ_app by lia. rewrite List.filter_app, length_app.
  change (0 + k) with k.
  assert (List.filter B (seqZ k 1) = if B k then [k] else []) as ->
    by (rewrite seqZ_cons, seqZ_nil by lia; done).
  rewrite Nat2Z.inj_add. by destruct (B k).
Qed.

Lemma count_blank_run p :
  0 <= p -> forall n k, n = Z.to_nat (k - p) -> p <= k ->
  all_blank B p k -> count_blank B k = count_blank B p + (k - p).
Proof.
  intros Hp. induction n as [|n IH]; intros k Hn Hk Hall.
  - assert (k = p) as -> by lia. lia.
  - replace k with (k - 1 + 1) by lia.
    rewrite count_blank_succ by lia.
    rewrite (Hall (k - 1)) by lia.
    rewrite (IH (k - 1)); [lia|lia|lia|].
    intros j Hj. apply Hall. lia.
Qed.

Lemma count_blank_nonneg k : 0 <= count_blank B k.
Proof. unfold count_blank. lia. Qed.

Lemma count_blank_le k : 0 <= k -> count_blank B k <= k.
Proof.
  intros Hk. unfold count_blank.
  pose proof (List.filter_length_le B (seqZ 0 k)) as H.
  rewrite length_seqZ in H. lia.
Qed.

(** Two left-maximal blank runs that both reach [k] start at the same block. *)
Lemma left_maximal_unique s p k :
  0 <= s < k -> 0 <= p < k ->
  all_blank B s k -> all_blank B p k -> left_maximal B s -> left_maximal B p -> s = p.
Proof.
  intros Hs Hp Has Hap Hls Hlp.
  destruct (Z.lt_trichotomy s p) as [Hlt|[->|Hgt]]; [|done|].
  - destruct Hlp as [->|Hlp]; [lia|]. rewrite Has in Hlp by lia. done.
  - destruct Hls as [->|Hls]; [lia|]. rewrite Hap in Hls by lia. done.
Qed.

(** The block is blank: the plan stays, and a run is pending. *)
Lemma scan_inv_blank k rs blank pending :
  0 <= k < SIZE_MAX -> scan_inv B k rs blank pending -> B k = true ->
  scan_inv B (k + 1) rs blank (if pending =? SIZE_MAX then k else pending).
Proof.
  intros Hk (Hok & Hruns & Hpend & Hblank) HB.
  split; [done|]. split; [|split].
  - intros s n. rewrite Hruns. unfold closed_run. split.
    + intros (? & ? & ? & ? & ? & ?). repeat split; try done. lia.
    + intros (? & ? & ? & ? & ? & Hend). repeat split; try done.
      destruct (Z.eq_dec (s + n) k) as [E|]; [|lia]. rewrite E, HB in Hend. done.
  - right. destruct Hpend as [[-> Hprev]|(Hp & Hall & Hleft)].
    + rewrite Z.eqb_refl. split; [lia|]. split; [|exact Hprev].
      intros j Hj. by replace j with k by lia.
    + destruct (Z.eqb_spec pending SIZE_MAX); [lia|].
      split; [lia|]. split; [|done].
      intros j Hj. destruct (Z.eq_dec j k) as [->|]; [done|]. apply Hall. lia.
  - destruct Hpend as [[-> Hprev]|(Hp & Hall & Hleft)].
    + rewrite Z.eqb_refl in *. destruct (Z.eqb_spec k SIZE_MAX); [lia|done].
    + destruct (Z.eqb_spec pending SIZE_MAX); [lia|].
      destruct (Z.eqb_spec pending SIZE_MAX); [lia|done].
Qed.

(** The block is not blank and no run is pending: nothing changes. *)
Lemma scan_inv_data k rs blank :
  0 <= k <= SIZE_MAX -> scan_inv B k rs blank SIZE_MAX -> B k = false ->
  scan_inv B (k + 1) rs blank SIZE_MAX.
Proof.
  intros Hk (Hok & Hruns & Hpend & Hblank) HB. rewrite Z.eqb_refl in *.
  destruct Hpend as [[_ Hprev]|(Hp & _)]; [|lia].
  split; [done|]. split; [|split].
  - intros s n. rewrite Hruns. unfold closed_run. split.
    + intros (? & ? & ? & ? & ? & ?). repeat split; try done. lia.
    + intros (? & ? & ? & Hall & ? & Hend). repeat split; try done.
      destruct (Z.eq_dec (s + n) k) as [E|]; [|lia].
      destruct Hprev as [->|Hprev]; [lia|].
      rewrite (Hall (k - 1)) in Hprev by lia. done.
  - left. split; [done|]. right. by replace (k + 1 - 1) with k by lia.
  - rewrite Z.eqb_refl, count_blank_succ, HB by lia. lia.
Qed.

(** The block is not blank and a run is pending: the run lies after every
    range of the plan and is appended to it. *)
Lemma scan_inv_close k rs blank pending :
  0 <= k <= SIZE_MAX -> scan_inv B k rs blank pending -> pending <> SIZE_MAX ->
  B k = false ->
  (forall x, x ∈ rs -> start_block x + block_count x < pending)
  /\ 0 <= pending < k
  /\ scan_inv B (k + 1) (rs ++ [GapRange pending (k - pending)])
       (blank + (k - pending)) SIZE_MAX.
Proof.
  intros Hk (Hok & Hruns & Hpend & Hblank) Hset HB.
  destruct Hpend as [[? _]|(Hp & Hall & Hleft)]; [done|].
  destruct (Z.eqb_spec pending SIZE_MAX) as [?|Hne]; [done|].
  assert (forall x, x ∈ rs -> start_block x + block_count x < pending) as Hbefore.
  { intros [s n] Hx. apply Hruns in Hx as (? & ? & ? & ? & ? & Hend). simpl.
    destruct (Z.lt_ge_cases (s + n) pending); [done|].
    rewrite Hall in Hend by lia. done. }
  split; [done|]. split; [done|]. split; [|split; [|split]].
  - apply plan_ok_snoc. split; [done|]. split; [|done].
    repeat split; simpl; lia.
  - intros s n. rewrite elem_of_app, list_elem_of_singleton, Hruns. split.
    + intros [(? & ? & ? & ? & ? & ?)|[= -> ->]].
      * repeat split; try done. lia.
      * repeat split; try done; try lia.
        -- by replace (pending + (k - pending)) with k by lia.
        -- by replace (pending + (k - pending)) with k by lia.
    + intros (Hs & Hn & Hsn & Hall' & Hleft' & Hend).
      destruct (Z.eq_dec (s + n) k) as [E|]; [|left; repeat split; try done; lia].
      right. rewrite E in Hall'.
      assert (s = pending) as ->
        by (apply (left_maximal_unique s pending k); try done; lia).
      f_equal. lia.
  - left. split; [done|]. right. by replace (k + 1 - 1) with k by lia.
  - rewrite Z.eqb_refl. rewrite count_blank_succ, HB by lia.
    rewrite (count_blank_run pending ltac:(lia) _ k eq_refl ltac:(lia) Hall). lia.
Qed.

(** After the last block: the plan with the pending run flushed holds
    exactly the maximal runs, and the count is the number of blank blocks. *)
Lemma scan_inv_final N rs blank pending :
  0 <= N <= SIZE_MAX -> scan_inv B N rs blank pending ->
  let rs' := if pending =? SIZE_MAX then rs else rs ++ [GapRange pending (N - pending)] in
  let blank' := if pending =? SIZE_MAX then blank else blank + (N - pending) in
  plan_ok rs'
  /\ (forall s n, GapRange s n ∈ rs' <-> maximal_run B N s n)
  /\ blank' = count_blank B N
  /\ (pending <> SIZE_MAX ->
      0 <= pending < N
      /\ forall x, x ∈ rs -> start_block x + block_count x < pending).
Proof.
  intros HN (Hok & Hruns & Hpend & Hblank).
  destruct Hpend as [[-> Hprev]|(Hp & Hall & Hleft)].
  - rewrite Z.eqb_refl in *. simpl. split; [done|]. split; [|split; [done|done]].
    intros s n. rewrite Hruns. split.
    + intros (? & ? & ? & ? & ? & ?). repeat split; try done; [lia|by right].
    + intros (? & ? & ? & Hall & ? & [E|Hend]); [|repeat split; try done].
      * destruct Hprev as [->|Hprev]; [lia|].
        rewrite (Hall (N - 1)) in Hprev by lia. done.
      * destruct (Z.eq_dec (s + n) N) as [E|]; [|lia].
        destruct Hprev as [->|Hprev]; [lia|].
        rewrite (Hall (N - 1)) in Hprev by lia. done.
  - destruct (Z.eqb_spec pending SIZE_MAX) as [?|Hne]; [lia|]. simpl.
    assert (forall x, x ∈ rs -> start_block x + block_count x < pending) as Hbefore.
    { intros [s n] Hx. apply Hruns in Hx as (? & ? & ? & ? & ? & Hend). simpl.
      destruct (Z.lt_ge_cases (s + n) pending); [done|].
      rewrite Hall in Hend by lia. done. }
    split; [|split; [|split; [|done]]].
    + apply plan_ok_snoc. split; [done|]. split; [|done].
      repeat split; simpl; lia.
    + intros s n. rewrite elem_of_app, list_elem_of_singleton, Hruns. split.
      * intros [(? & ? & ? & ? & ? & ?)|[= -> ->]].
        -- repeat split; try done; [lia|by right].
        -- repeat split; try done; try lia.
           by replace (pending + (N - pending)) with N by lia.
      * intros (Hs & Hn & Hsn & Hall' & Hleft' & Hend).
        destruct (Z.eq_dec (s + n) N) as [E|HneN].
        -- right. rewrite E in Hall'.
           assert (s = pending) as ->
             by (apply (left_maximal_unique s pending N); try done; lia).
           f_equal. lia.
        -- left. destruct Hend as [?|Hend]; [done|]. repeat split; try done. lia.
    + rewrite Hblank.
      rewrite (count_blank_run pending ltac:(lia) _ N eq_refl ltac:(lia) Hall). lia.
Qed.

End RunFacts.

(** ** Scan of an existing file *)

Lemma buffer_is_blank_loop_forallb buffer :
  buffer_is_blank_loop buffer = forallb (fun b => Byte.eqb b x00) buffer.
Proof. induction buffer as [|b bs IH]; simpl; [done|]. by destruct (Byte.eqb b x00). Qed.

Lemma blank_blockb_spec file k : blank_blockb file k = true <-> blank_block file k.
Proof.
  unfold blank_blockb, blank_block. rewrite forallb_forall, Forall_forall.
  split; intros H b Hb.
  - apply Byte.byte_dec_bl, H. by apply list_elem_of_In.
  - apply Byte.byte_dec_lb, H. by apply list_elem_of_In.
Qed.

Lemma block_of_length file k :
  0 <= k < full_blocks_of file -> length (block_of file k) = Z.to_nat DVD_VIDEO_LB_LEN.
Proof.
  unfold full_blocks_of, block_of, DVD_VIDEO_LB_LEN. intros Hk.
  rewrite length_take, length_drop.
  pose proof (Z.mul_div_le (Z.of_nat (length file)) 2048 ltac:(lia)). lia.
Qed.

(** Block [i] of the buffer filled by a read of [c] blocks at block [p] is
    block [p + i] of the file. *)
Lemma read_at_block file p c i :
  0 <= p -> 0 <= i < c ->
  take (Z.to_nat DVD_VIDEO_LB_LEN)
       (drop (Z.to_nat (i * DVD_VIDEO_LB_LEN))
             (read_at file (c * DVD_VIDEO_LB_LEN) (p * DVD_VIDEO_LB_LEN)))
  = block_of file (p + i).
Proof.
  intros Hp Hi. unfold read_at, block_of, DVD_VIDEO_LB_LEN.
  rewrite skipn_firstn_comm, take_take, drop_drop. f_equal; [lia|]. f_equal. lia.
Qed.

Lemma read_at_length file p c :
  0 <= p -> 0 <= c -> (p + c) * DVD_VIDEO_LB_LEN <= Z.of_nat (length file) ->
  Z.of_nat (length (read_at file (c * DVD_VIDEO_LB_LEN) (p * DVD_VIDEO_LB_LEN)))
  = c * DVD_VIDEO_LB_LEN.
Proof.
  intros Hp Hc Hlen. unfold read_at, DVD_VIDEO_LB_LEN in *.
  rewrite length_take, length_drop. lia.
Qed.

Section ScanFacts.

Context {Env : Type} (P : platform Env).
Variable file : list byte.

Local Abbreviation B := (blank_blockb file).

(** The invariant on the state of the scan. *)
Local Abbreviation inv_at k st :=
  (scan_inv B k (ranges (ss_plan st)) (ss_blank_blocks st) (ss_pending_start st)).

Lemma scan_block_step p c i st :
  0 <= p -> 0 <= i < c -> p + c <= SIZE_MAX ->
  inv_at (p + i) st ->
  match scan_block P p (read_at file (c * DVD_VIDEO_LB_LEN) (p * DVD_VIDEO_LB_LEN)) i st with
  | Some (inl st') => inv_at (p + i + 1) st'
  | Some (inr _) => faulty P
  | None => False
  end.
Proof.
  intros Hp Hi Hmax Hinv. unfold scan_block, buffer_is_blank.
  rewrite buffer_is_blank_loop_forallb, read_at_block by lia.
  fold (blank_blockb file (p + i)). unwrap.
  destruct (blank_blockb file (p + i)) eqn:HB.
  - pose proof (scan_inv_blank B (p + i) _ _ _ ltac:(lia) Hinv HB) as Hinv'.
    by destruct (ss_pending_start st =? SIZE_MAX).
  - destruct (Z.eqb_spec (ss_pending_start st) SIZE_MAX) as [Heq|Hne]; simpl.
    + rewrite Heq in Hinv |- *. by apply scan_inv_data; [lia| |].
    + destruct (scan_inv_close B (p + i) _ _ _ ltac:(lia) Hinv Hne HB)
        as (Hbefore & Hpend & Hinv').
      pose proof Hinv as ((_ & Hfits) & _).
      unwrap.
      destruct (gap_plan_add_append P (ss_env st) (ss_plan st) (ss_pending_start st)
                  (p + i - ss_pending_start st)) as [(cap & e' & ->)|(e' & -> & Hfail)].
      * repeat split; simpl; lia.
      * lia.
      * intros l Hl. apply last_Some_elem_of in Hl.
        split; [by apply (proj1 (Forall_forall _ _) Hfits)|by apply Hbefore].
      * simpl. pose proof Hinv as (_ & _ & _ & Hblank).
        destruct (Z.eqb_spec (ss_pending_start st) SIZE_MAX); [done|].
        pose proof (count_blank_le B (ss_pending_start st) ltac:(lia)).
        pose proof (count_blank_nonneg B (ss_pending_start st)).
        unwrap. done.
      * simpl. right. by exists (ss_env st).
Qed.

Lemma scan_chunk_blocks p c st :
  0 <= p -> 0 <= c -> p + c <= SIZE_MAX ->
  inv_at p st ->
  match for_range_ret 0 c
          (scan_block P p (read_at file (c * DVD_VIDEO_LB_LEN) (p * DVD_VIDEO_LB_LEN))) st with
  | Some (inl st') => inv_at (p + c) st'
  | Some (inr _) => faulty P
  | None => False
  end.
Proof.
  intros Hp Hc Hmax Hinv.
  apply (for_range_ret_ind (fun i st => inv_at (p + i) st) (fun _ => faulty P)); [lia| |].
  - by rewrite Z.add_0_r.
  - intros i s Hi Hs.
    pose proof (scan_block_step p c i s Hp Hi Hmax Hs) as H.
    destruct (scan_block _ _ _ _ _) as [[s'|e']|]; [|done|done].
    by rewrite Z.add_assoc.
Qed.

Lemma scan_chunk_step N processed st :
  0 <= processed <= N -> N <= full_blocks_of file -> N <= SIZE_MAX ->
  inv_at processed st ->
  match scan_chunk P file N (processed, st) with
  | Some (Next (p', st')) =>
      (0 <= p' <= N /\ inv_at p' st') /\ (Z.to_nat (N - p') < Z.to_nat (N - processed))%nat
  | Some (Break (p', st')) => p' = N /\ inv_at N st'
  | Some (Ret _) => faulty P
  | None => False
  end.
Proof.
  intros Hp HN Hmax Hinv. unfold scan_chunk.
  destruct (Z.ltb_spec processed N) as [Hlt|Hge];
    [|split; [lia|by replace N with processed by lia]].
  rewrite (size_t_wrap_small (N - processed)) by lia.
  set (c := if N - processed >? BUFFER_SIZE then BUFFER_SIZE else N - processed).
  assert (1 <= c <= BUFFER_SIZE /\ c <= N - processed) as [Hc Hc'].
  { unfold c, BUFFER_SIZE. destruct (Z.gtb_spec (N - processed) 512); lia. }
  destruct (sys_fault P (ss_env st)) as [[] e1] eqn:Ef.
  { left. exists (ss_env st). by rewrite Ef. }
  assert ((processed + c) * DVD_VIDEO_LB_LEN <= Z.of_nat (length file)) as Hfit.
  { unfold full_blocks_of, DVD_VIDEO_LB_LEN in *.
    pose proof (Z.mul_div_le (Z.of_nat (length file)) 2048 ltac:(lia)). lia. }
  rewrite (size_t_wrap_small (c * DVD_VIDEO_LB_LEN))
    by (unfold SIZE_MAX, BUFFER_SIZE, DVD_VIDEO_LB_LEN in *; lia).
  rewrite read_at_length by lia.
  replace (c * DVD_VIDEO_LB_LEN / DVD_VIDEO_LB_LEN) with c
    by (unfold DVD_VIDEO_LB_LEN; rewrite Z.div_mul; lia).
  destruct (Z.eqb_spec c 0); [lia|].
  rewrite Z.ltb_irrefl.
  pose proof (scan_chunk_blocks processed c
                (ScanState (ss_plan st) (ss_blank_blocks st) (ss_pending_start st) e1)
                ltac:(lia) ltac:(lia) ltac:(lia) Hinv) as Hblocks.
  destruct (for_range_ret _ _ _ _) as [[st'|e']|]; [|done|done].
  unwrap. split; [split; [lia|done]|lia].
Qed.

(** The scan from the empty plan: it terminates, fails only on a fault, and
    on success its plan holds exactly the maximal runs of blank blocks among
    the blocks scanned. *)
Lemma scan_existing_file_for_gaps_ok e expected_blocks :
  0 <= expected_blocks <= SIZE_MAX -> Z.of_nat (length file) <= OFF_MAX ->
  exists sr,
    scan_existing_file_for_gaps P e file expected_blocks empty_plan = Some sr
    /\ (scan_ret sr = 0 \/ scan_ret sr = -1 /\ faulty P)
    /\ (scan_ret sr = 0 ->
        let N := Z.min (full_blocks_of file) expected_blocks in
        scan_full_blocks sr = full_blocks_of file
        /\ scan_existing_bytes sr = Z.of_nat (length file)
        /\ plan_ok (ranges (scan_plan sr))
        /\ (forall s n, GapRange s n ∈ ranges (scan_plan sr) <-> maximal_run B N s n)
        /\ scan_blank_blocks sr = count_blank B N).
Proof.
  intros HE Hlen. unfold scan_existing_file_for_gaps.
  destruct (sys_fault P e) as [[] e0] eqn:Ef0.
  { eexists. split; [done|]. simpl. split; [|done].
    right. split; [done|]. left. exists e. by rewrite Ef0. }
  fold (full_blocks_of file).
  assert (0 <= full_blocks_of file <= SIZE_MAX) as Hfull.
  { unfold full_blocks_of, DVD_VIDEO_LB_LEN, OFF_MAX, SIZE_MAX in *.
    split; [apply Z.div_pos; lia|].
    pose proof (Z.div_le_upper_bound (Z.of_nat (length file)) 2048 (2 ^ 63)). lia. }
  unwrap.
  set (N := if full_blocks_of file >? expected_blocks
            then expected_blocks else full_blocks_of file).
  assert (N = Z.min (full_blocks_of file) expected_blocks) as HN
    by (unfold N; destruct (Z.gtb_spec (full_blocks_of file) expected_blocks); lia).
  destruct (if N >? 0 then alloc_fault P e0 else (false, e0)) as [[] e1] eqn:Ea.
  { eexists. split; [done|]. simpl. split; [|done].
    right. split; [done|]. right. exists e0.
    destruct (N >? 0); [by rewrite Ea|done]. }
  pose proof (while_loop_ind
    (fun s : Z * @scan_state Env => 0 <= s.1 <= N /\ inv_at s.1 s.2)
    (fun s : Z * @scan_state Env => s.1 = N /\ inv_at N s.2)
    (fun _ : Env => faulty P)
    (fun s : Z * @scan_state Env => Z.to_nat (N - s.1))
    (scan_chunk P file N)) as Hloop.
  assert (forall s : Z * @scan_state Env, 0 <= s.1 <= N /\ inv_at s.1 s.2 ->
            match scan_chunk P file N s with
            | Some (Next s') =>
                (0 <= s'.1 <= N /\ inv_at s'.1 s'.2)
                /\ (Z.to_nat (N - s'.1) < Z.to_nat (N - s.1))%nat
            | Some (Break s') => s'.1 = N /\ inv_at N s'.2
            | Some (Ret _) => faulty P
            | None => False
            end) as Hstep.
  { intros [p st] [Hp Hinv]. simpl in Hp, Hinv.
    pose proof (scan_chunk_step N p st Hp ltac:(lia) ltac:(lia) Hinv) as H.
    destruct (scan_chunk P file N (p, st)) as [[[p' st']|[p' st']|e']|]; exact H. }
  specialize (Hloop Hstep).
  specialize (Hloop (S (Z.to_nat N)) (0, ScanState empty_plan 0 SIZE_MAX e1)).
  assert (0 <= 0 <= N /\ inv_at 0 (ScanState empty_plan 0 SIZE_MAX e1)) as Hinv0.
  { split; [lia|]. simpl. split; [apply plan_ok_nil|]. split; [|split].
    - intros s n. split; [intros H; by apply elem_of_nil in H|].
      intros (? & ? & ? & _). lia.
    - left. split; [done|by left].
    - done. }
  specialize (Hloop Hinv0 ltac:(simpl; lia)).
  destruct (while_loop _ _ _) as [[[p st]|e2]|]; [| |done].
  - destruct Hloop as [Hp Hinv]. simpl in Hp, Hinv. subst p.
    pose proof (scan_inv_final B N _ _ _ ltac:(lia) Hinv) as (Hok & Hruns & Hcount & Hpend).
    cbv zeta in Hok, Hruns, Hcount.
    destruct (Z.eqb_spec (ss_pending_start st) SIZE_MAX) as [Heq|Hne]; simpl.
    + eexists. split; [done|]. simpl. split; [by left|]. intros _.
      rewrite <- HN. done.
    + destruct (Hpend Hne) as [Hrange Hbefore].
      pose proof Hinv as ((_ & Hfits) & _ & _ & Hblank).
      destruct (Z.eqb_spec (ss_pending_start st) SIZE_MAX); [done|].
      rewrite (size_t_wrap_small (N - ss_pending_start st)) by lia.
      destruct (gap_plan_add_append P (ss_env st) (ss_plan st) (ss_pending_start st)
                  (N - ss_pending_start st)) as [(cap & e' & ->)|(e' & -> & Hfail)].
      * repeat split; simpl; lia.
      * lia.
      * intros l Hl. apply last_Some_elem_of in Hl.
        split; [by apply (proj1 (Forall_forall _ _) Hfits)|by apply Hbefore].
      * simpl. eexists. split; [done|]. simpl. split; [by left|]. intros _.
        rewrite <- HN.
        pose proof (count_blank_le B (ss_pending_start st) ltac:(lia)).
        pose proof (count_blank_nonneg B (ss_pending_start st)).
        rewrite size_t_wrap_small by lia. done.
      * simpl. eexists. split; [done|]. simpl. split; [|done].
        right. split; [done|]. right. by exists (ss_env st).
  - eexists. split; [done|]. simpl. split; [|done]. right. by split.
Qed.

End ScanFacts.

Lemma blank_blockb_prefix file file' N k :
  0 <= k < N ->
  take (Z.to_nat (N * DVD_VIDEO_LB_LEN)) file' = take (Z.to_nat (N * DVD_VIDEO_LB_LEN)) file ->
  blank_blockb file' k = blank_blockb file k.
Proof.
  intros Hk Heq. unfold blank_blockb, block_of. f_equal.
  assert (forall f : list byte,
            take (Z.to_nat DVD_VIDEO_LB_LEN) (drop (Z.to_nat (k * DVD_VIDEO_LB_LEN)) f)
            = take (Z.to_nat DVD_VIDEO_LB_LEN)
                (drop (Z.to_nat (k * DVD_VIDEO_LB_LEN))
                      (take (Z.to_nat (N * DVD_VIDEO_LB_LEN)) f))) as H.
  { intros f. rewrite skipn_firstn_comm, take_take. f_equal.
    unfold DVD_VIDEO_LB_LEN. lia. }
  rewrite (H file'), (H file). by rewrite Heq.
Qed.

(** C3.  The scan of an existing file from the empty plan terminates and
    fails only when a system call or an allocation fails.  On success it
    has looked at the first [N = min(floor(length / 2048), E)] blocks and at
    nothing else: the plan holds exactly the maximal runs of blank blocks
    among them, in order, the count is the number of blank blocks among
    them, and both depend only on the first [N] blocks.  A block is blank
    exactly when each of its 2048 bytes is [0x00]. *)
Theorem scan_existing_file_for_gaps_spec :
  forall {Env : Type} (P : platform Env) (e : Env) (file : list byte) (expected_blocks : Z),
    0 <= expected_blocks <= SIZE_MAX -> Z.of_nat (length file) <= OFF_MAX ->
    let N := Z.min (full_blocks_of file) expected_blocks in
    (exists sr,
        scan_existing_file_for_gaps P e file expected_blocks empty_plan = Some sr
        /\ (scan_ret sr = 0 \/ scan_ret sr = -1 /\ faulty P)
        /\ (scan_ret sr = 0 ->
            scan_full_blocks sr = Z.of_nat (length file) / 2048
            /\ scan_existing_bytes sr = Z.of_nat (length file)
            /\ ordered_disjoint (ranges (scan_plan sr))
            /\ (forall s n, GapRange s n ∈ ranges (scan_plan sr)
                            <-> maximal_run (blank_blockb file) N s n)
            /\ scan_blank_blocks sr = count_blank (blank_blockb file) N))
    /\ (forall k, 0 <= k < N ->
          length (block_of file k) = 2048%nat
          /\ (blank_blockb file k = true <-> Forall (fun b => b = x00) (block_of file k)))
    /\ (forall file' k, 0 <= k < N ->
          take (Z.to_nat (N * 2048)) file' = take (Z.to_nat (N * 2048)) file ->
          blank_blockb file' k = blank_blockb file k).
Proof.
  intros Env P e file E HE Hlen N. split; [|split].
  - destruct (scan_existing_file_for_gaps_ok P file e E HE Hlen) as (sr & Hsr & Hret & Hok).
    exists sr. split; [done|]. split; [done|]. intros H0.
    destruct (Hok H0) as (H1 & H2 & [H3 _] & H4 & H5). done.
  - intros k Hk. split; [|apply blank_blockb_spec].
    apply block_of_length. lia.
  - intros file' k Hk Heq. by apply (blank_blockb_prefix file file' N).
Qed.
(** ** Title VOB parts of at most 1 GiB *)

Lemma while_loop_unfold {St R : Type} fuel (body : St -> option (ctl St R)) s :
  while_loop (S fuel) body s
  = match body s with
    | None => None
    | Some (Next s') => while_loop fuel body s'
    | Some (Break s') => Some (inl s')
    | Some (Ret r) => Some (inr r)
    end.
Proof. done. Qed.

Lemma read_at_app disc o a b :
  0 <= o -> 0 <= a -> 0 <= b ->
  read_at disc (a * DVD_VIDEO_LB_LEN) (o * DVD_VIDEO_LB_LEN)
    ++ read_at disc (b * DVD_VIDEO_LB_LEN) ((o + a) * DVD_VIDEO_LB_LEN)
  = read_at disc ((a + b) * DVD_VIDEO_LB_LEN) (o * DVD_VIDEO_LB_LEN).
Proof.
  intros Ho Ha Hb. unfold read_at, DVD_VIDEO_LB_LEN.
  replace (Z.to_nat ((o + a) * 2048)) with (Z.to_nat (o * 2048) + Z.to_nat (a * 2048))%nat
    by lia.
  rewrite <- drop_drop.
  replace (Z.to_nat ((a + b) * 2048)) with (Z.to_nat (a * 2048) + Z.to_nat (b * 2048))%nat
    by lia.
  by rewrite take_take_drop.
Qed.

Lemma read_at_full_length disc o n :
  0 <= o -> 0 <= n -> (o + n) * DVD_VIDEO_LB_LEN <= Z.of_nat (length disc) ->
  Z.of_nat (length (read_at disc (n * DVD_VIDEO_LB_LEN) (o * DVD_VIDEO_LB_LEN)))
  = n * DVD_VIDEO_LB_LEN.
Proof.
  intros Ho Hn Hlen. unfold read_at, DVD_VIDEO_LB_LEN in *.
  rewrite length_take, length_drop. lia.
Qed.

Lemma truncate_to_length file len : length (truncate_to file len) = Z.to_nat len.
Proof. unfold truncate_to. rewrite length_app, length_take, length_replicate. lia. Qed.

(** The buffer of [DVDWriteCells] holds the name of part 9 and cuts the name
    of part 10, so that the loop that removes the old files never names
    [VTS_01_10.VOB]. *)
Example vob_targetname_part_9 :
  vob_targetname "out" "DISC" 1 9 = "out/DISC/VIDEO_TS/VTS_01_9.VOB".
Proof. reflexivity. Qed.

Example vob_targetname_part_10 :
  vob_targetname "out" "DISC" 1 10 = "out/DISC/VIDEO_TS/VTS_01_10.VO".
Proof. reflexivity. Qed.

(** A part of two digits does not fit [filename]. *)
Example sprintf_filename_part_10 :
  sprintf_filename 1 9 = Some "VTS_01_9.VOB" /\ sprintf_filename 1 10 = None.
Proof. split; reflexivity. Qed.

Section CellFacts.

Context {Env : Type} (P : platform Env).
Hypothesis Hreads : reads_bounded P.
Variables (g : globals) (targetdir title_name : string) (title_set : Z).

Local Abbreviation targetname := (vob_targetname targetdir title_name title_set).
Local Abbreviation chunk := (write_cell_chunk P g targetdir title_name title_set).

(** What the cap test and the buffer leave of [left] when [left + size]
    does not overflow. *)
Lemma to_read_bounds l size :
  0 < l <= INT_MAX - MAX_VOB_SIZE -> 0 <= size <= MAX_VOB_SIZE ->
  let capped :=
    if int_wrap (l + size) >? MAX_VOB_SIZE then int_wrap (MAX_VOB_SIZE - size) else l in
  let to_read := if capped >? BUFFER_SIZE then BUFFER_SIZE else capped in
  0 <= to_read <= BUFFER_SIZE /\ to_read <= MAX_VOB_SIZE - size /\ to_read <= l
  /\ (to_read = l \/ to_read = MAX_VOB_SIZE - size \/ to_read = BUFFER_SIZE).
Proof.
  intros Hl Hsize. cbv zeta.
  rewrite (int_wrap_small (l + size)), (int_wrap_small (MAX_VOB_SIZE - size))
    by (unfold INT_MIN, INT_MAX, MAX_VOB_SIZE in *; lia).
  unfold BUFFER_SIZE, MAX_VOB_SIZE in *.
  destruct (Z.gtb_spec (l + size) 524288);
    match goal with
    | |- context [?a >? 512] => destruct (Z.gtb_spec a 512)
    end; lia.
Qed.

(** While a cell is written that ends exactly where the current part
    reaches [MAX_VOB_SIZE], no new part is opened: the loop leaves the cell
    with [size = MAX_VOB_SIZE], or returns 1. *)
Lemma write_cell_chunk_filling total n_left soffset cs :
  cs_size cs + n_left = MAX_VOB_SIZE -> 0 <= n_left -> 0 <= cs_size cs ->
  total = n_left ->
  match while_loop (S (Z.to_nat total)) chunk (n_left, soffset, cs) with
  | Some (inl (_, _, cs')) => cs_size cs' = MAX_VOB_SIZE
  | Some (inr r) => r.1 = 1
  | None => False
  end.
Proof.
  intros Hsum Hleft Hsize ->.
  pose proof (while_loop_ind
    (fun s : Z * Z * @cells_state Env =>
       cs_size s.2 + s.1.1 = MAX_VOB_SIZE /\ 0 <= s.1.1 /\ 0 <= cs_size s.2)
    (fun s : Z * Z * @cells_state Env => cs_size s.2 = MAX_VOB_SIZE)
    (fun r : Z * @cells_state Env => r.1 = 1)
    (fun s : Z * Z * @cells_state Env => Z.to_nat s.1.1)
    chunk) as Hloop.
  assert (forall s : Z * Z * @cells_state Env,
            cs_size s.2 + s.1.1 = MAX_VOB_SIZE /\ 0 <= s.1.1 /\ 0 <= cs_size s.2 ->
            match chunk s with
            | Some (Next s') =>
                (cs_size s'.2 + s'.1.1 = MAX_VOB_SIZE /\ 0 <= s'.1.1 /\ 0 <= cs_size s'.2)
                /\ (Z.to_nat s'.1.1 < Z.to_nat s.1.1)%nat
            | Some (Break s') => cs_size s'.2 = MAX_VOB_SIZE
            | Some (Ret r) => r.1 = 1
            | None => False
            end) as Hstep.
  { intros [[l so] c] (Hs & Hl & Hc). simpl in Hs, Hl, Hc. unfold write_cell_chunk.
    destruct (Z.gtb_spec l 0) as [Hpos|Hz]; [|simpl; lia].
    pose proof (to_read_bounds l (cs_size c)
                  ltac:(unfold INT_MAX, MAX_VOB_SIZE in *; lia)
                  ltac:(unfold MAX_VOB_SIZE in *; lia)) as (Hto0 & _ & Hto & _).
    cbv zeta in Hto0, Hto.
    set (to_read := if (if int_wrap (l + cs_size c) >? MAX_VOB_SIZE
                        then int_wrap (MAX_VOB_SIZE - cs_size c) else l) >? BUFFER_SIZE
                    then BUFFER_SIZE
                    else if int_wrap (l + cs_size c) >? MAX_VOB_SIZE
                         then int_wrap (MAX_VOB_SIZE - cs_size c) else l) in *.
    pose proof (Hreads (cs_env c) so to_read ltac:(lia)) as [Hle _].
    destruct (DVDReadBlocks P (cs_env c) so to_read) as [[have_read buffer] e1].
    simpl in Hle.
    destruct (Z.ltb_spec have_read 0) as [?|Hnn]; [done|].
    destruct (Z.eqb_spec have_read 0) as [?|Hnz]; [done|].
    destruct (sys_write P e1 _) as [wr e2].
    destruct (negb (wr =? _)); [done|].
    rewrite (int_wrap_small (cs_size c + have_read)), (int_wrap_small (l - have_read))
      by (unfold INT_MIN, INT_MAX, MAX_VOB_SIZE, BUFFER_SIZE in *; lia).
    destruct (Z.geb_spec (cs_size c + have_read) MAX_VOB_SIZE) as [Hcap|Hcap];
      destruct (Z.gtb_spec (l - have_read) 0) as [Hmore|Hmore]; simpl;
      try lia. }
  specialize (Hloop Hstep (S (Z.to_nat n_left)) (n_left, soffset, cs)).
  specialize (Hloop ltac:(simpl; lia) ltac:(simpl; lia)).
  by destruct (while_loop _ _ _) as [[[[l so] c]|r]|].
Qed.

(** Once the current part holds [MAX_VOB_SIZE] blocks, the next cell asks
    the drive for zero blocks and the function returns 1, with the files as
    they are. *)
Lemma write_cell_chunk_full fuel n_left soffset cs :
  cs_size cs = MAX_VOB_SIZE -> 0 < n_left <= INT_MAX - MAX_VOB_SIZE ->
  exists r, while_loop (S fuel) chunk (n_left, soffset, cs) = Some (inr r)
            /\ r.1 = 1 /\ cs_files r.2 = cs_files cs.
Proof.
  intros Hsize Hleft. rewrite while_loop_unfold. unfold write_cell_chunk.
  destruct (Z.gtb_spec n_left 0); [|lia].
  rewrite (int_wrap_small (n_left + cs_size cs))
    by (unfold INT_MIN, INT_MAX, MAX_VOB_SIZE in *; lia).
  destruct (Z.gtb_spec (n_left + cs_size cs) MAX_VOB_SIZE); [|lia].
  rewrite Hsize, Z.sub_diag. change (int_wrap 0) with 0.
  change (0 >? BUFFER_SIZE) with false. cbv iota.
  pose proof (Hreads (cs_env cs) soffset 0 ltac:(lia)) as [Hle _].
  destruct (DVDReadBlocks P (cs_env cs) soffset 0) as [[have_read buffer] e1].
  simpl in Hle.
  destruct (Z.ltb_spec have_read 0); [by eexists|].
  destruct (Z.eqb_spec have_read 0); [by eexists|lia].
Qed.

Lemma write_cell_chunk_inv files0 (s : Z * Z * @cells_state Env) :
  fill_gaps g = false -> s.1.1 <= INT_MAX - MAX_VOB_SIZE ->
  cells_inv targetdir title_name title_set files0 s.2 ->
  match chunk s with
  | Some (Next s') =>
      (s'.1.1 <= INT_MAX - MAX_VOB_SIZE
       /\ cells_inv targetdir title_name title_set files0 s'.2)
      /\ (Z.to_nat s'.1.1 < Z.to_nat s.1.1)%nat
  | Some (Break s') => cells_inv targetdir title_name title_set files0 s'.2
  | Some (Ret r) => r.1 = 1
  | None => False
  end.
Proof.
  intros Hfresh. destruct s as [[l so] c]. intros Hmax (Hsize & Hfiles).
  simpl in Hmax, Hsize, Hfiles. unfold write_cell_chunk.
  destruct (Z.gtb_spec l 0) as [Hpos|Hz]; [|by split].
  pose proof (to_read_bounds l (cs_size c) ltac:(lia) Hsize) as (Hto0 & Hcap & Htol & _).
  cbv zeta in Hto0, Hcap, Htol.
  set (to_read := if (if int_wrap (l + cs_size c) >? MAX_VOB_SIZE
                      then int_wrap (MAX_VOB_SIZE - cs_size c) else l) >? BUFFER_SIZE
                  then BUFFER_SIZE
                  else if int_wrap (l + cs_size c) >? MAX_VOB_SIZE
                       then int_wrap (MAX_VOB_SIZE - cs_size c) else l) in *.
  pose proof (Hreads (cs_env c) so to_read ltac:(lia)) as [Hle _].
  destruct (DVDReadBlocks P (cs_env c) so to_read) as [[have_read buffer] e1].
  simpl in Hle.
  destruct (Z.ltb_spec have_read 0) as [?|Hnn]; [done|].
  destruct (Z.eqb_spec have_read 0) as [?|Hnz]; [done|].
  destruct (sys_write P e1 _) as [wr e2].
  set (files2 := if wr >? 0 then alter _ (targetname (cs_vob c)) (cs_files c)
                 else cs_files c).
  assert (forall (v : string) f, files2 !! v = Some f ->
            v = targetname (cs_vob c) \/ files0 !! v = Some f
            \/ Z.of_nat (length f) <= MAX_VOB_SIZE * DVD_VIDEO_LB_LEN) as Hfiles2.
  { intros v f Hv. destruct (decide (v = targetname (cs_vob c))) as [?|Hne]; [by left|].
    apply Hfiles. unfold files2 in Hv. destruct (wr >? 0); [|done].
    unfold vob_files in *. by rewrite lookup_alter_ne in Hv. }
  clearbody files2.
  destruct (negb (wr =? _)); [done|].
  rewrite (int_wrap_small (cs_size c + have_read)), (int_wrap_small (l - have_read))
    by (unfold INT_MIN, INT_MAX, MAX_VOB_SIZE, BUFFER_SIZE in *; lia).
  destruct ((cs_size c + have_read >=? MAX_VOB_SIZE) && (l - have_read >? 0));
    [|split; [split; [simpl; lia|split; [simpl; lia|exact Hfiles2]]|simpl; lia]].
  rewrite (size_t_wrap_small (cs_size c + have_read))
    by (unfold SIZE_MAX, MAX_VOB_SIZE, BUFFER_SIZE in *; lia).
  unfold finalize_vob_file. rewrite Hfresh.
  destruct (sys_fault P e2) as [[] e3]; simpl; [done|].
  set (file3 := truncate_to _ _).
  assert (Z.of_nat (length file3) <= MAX_VOB_SIZE * DVD_VIDEO_LB_LEN) as Hlen3.
  { unfold file3. rewrite truncate_to_length.
    unfold MAX_VOB_SIZE, DVD_VIDEO_LB_LEN in *. lia. }
  clearbody file3.
  unfold open_vob. destruct (sys_fault P e3) as [[] e4]; simpl; [done|].
  split; [|simpl; lia]. split; [simpl; lia|].
  split; [simpl; unfold MAX_VOB_SIZE; lia|].
  simpl. intros v f Hv.
  destruct (decide (v = targetname (int_wrap (cs_vob c + 1)))) as [?|Hne]; [by left|].
  right. unfold vob_files in *.
  assert (<[targetname (cs_vob c) := file3]> files2 !! v = Some f) as Hv3.
  { destruct (<[targetname (cs_vob c) := file3]> files2
                !! targetname (int_wrap (cs_vob c + 1))); [done|].
    by rewrite lookup_insert_ne in Hv. }
  destruct (decide (v = targetname (cs_vob c))) as [->|Hne'].
  - rewrite lookup_insert_eq in Hv3. injection Hv3 as <-. by right.
  - rewrite lookup_insert_ne in Hv3 by done.
    destruct (Hfiles2 v f Hv3) as [?|?]; [done|done].
Qed.

Lemma write_cell_inv files0 starts ends i (cs : @cells_state Env) :
  fill_gaps g = false ->
  INT_MIN <= arr_get ends i - arr_get starts i <= INT_MAX - MAX_VOB_SIZE ->
  cells_inv targetdir title_name title_set files0 cs ->
  match write_cell P g targetdir title_name title_set starts ends i cs with
  | Some (inl cs') => cells_inv targetdir title_name title_set files0 cs'
  | Some (inr r) => r.1 = 1
  | None => False
  end.
Proof.
  intros Hfresh Hcell Hinv. unfold write_cell.
  rewrite (int_wrap_small (arr_get ends i - arr_get starts i))
    by (unfold INT_MAX, MAX_VOB_SIZE in *; lia).
  set (left_blocks := arr_get ends i - arr_get starts i) in *.
  pose proof (while_loop_ind
    (fun s : Z * Z * @cells_state Env =>
       s.1.1 <= INT_MAX - MAX_VOB_SIZE
       /\ cells_inv targetdir title_name title_set files0 s.2)
    (fun s : Z * Z * @cells_state Env => cells_inv targetdir title_name title_set files0 s.2)
    (fun r : Z * @cells_state Env => r.1 = 1)
    (fun s : Z * Z * @cells_state Env => Z.to_nat s.1.1)
    chunk
    (fun s Hs => write_cell_chunk_inv files0 s Hfresh (proj1 Hs) (proj2 Hs))
    (S (Z.to_nat left_blocks)) (left_blocks, arr_get starts i, cs)
    ltac:(split; [simpl; lia|exact Hinv])
    ltac:(simpl; lia)) as Hloop.
  by destruct (while_loop _ _ _) as [[[[l so] c]|r]|].
Qed.

(** The names [DVDWriteCells] unlinks before it opens the first part. *)
Local Abbreviation unlinked files :=
  (for_range 0 10 (fun i (fs : vob_files) => delete (targetname (int_wrap (i + 1))) fs) files).

Lemma unlinked_old (files : vob_files) (v : string) f :
  unlinked files !! v = Some f -> files !! v = Some f.
Proof.
  revert v f.
  apply (for_range_ind (fun _ (fs : vob_files) =>
           forall (v : string) f, fs !! v = Some f -> files !! v = Some f)); [lia|done|].
  intros i fs _ IH v f Hv. apply IH. unfold vob_files in *.
  destruct (decide (targetname (int_wrap (i + 1)) = v)) as [<-|Hne].
  - by rewrite lookup_delete_eq in Hv.
  - by rewrite lookup_delete_ne in Hv.
Qed.

Lemma unlinked_gone (files : vob_files) vob :
  1 <= vob <= 10 -> unlinked files !! targetname vob = None.
Proof.
  intros Hvob.
  assert (forall k, 0 <= k <= 10 ->
            forall v, 1 <= v <= k ->
              for_range 0 k (fun i (fs : vob_files) =>
                               delete (targetname (int_wrap (i + 1))) fs) files
              !! targetname v = None) as Hall.
  { intros k Hk.
    apply (for_range_ind (fun k (fs : vob_files) =>
             forall v, 1 <= v <= k -> fs !! targetname v = None)); [lia|intros; lia|].
    intros i fs Hi IH v Hv. unfold vob_files in *.
    rewrite (int_wrap_small (i + 1)) by (unfold INT_MIN, INT_MAX; lia).
    destruct (decide (targetname (i + 1) = targetname v)) as [->|Hne].
    - by rewrite lookup_delete_eq.
    - rewrite lookup_delete_ne by done. apply IH.
      destruct (Z.eq_dec v (i + 1)) as [->|?]; [done|lia]. }
  apply (Hall 10); lia.
Qed.

(** X14.  With [fill_gaps] off, a drive that never delivers more than it is
    asked and cells no longer than [INT_MAX - MAX_VOB_SIZE] blocks,
    [DVDWriteCells] terminates and returns 0 or 1, and when it returns 0
    every file of the target directory either is a file that was there
    before the call, with the same name and contents, or holds at most
    [MAX_VOB_SIZE] blocks, 1 GiB. *)
Lemma DVDWriteCells_parts_capped e files starts ends n :
  fill_gaps g = false -> cells_in_range starts ends n ->
  exists rc files' e',
    DVDWriteCells P g e files starts ends n title_set targetdir title_name
    = Some (rc, files', e')
    /\ (rc = 0 \/ rc = 1)
    /\ (rc = 0 ->
        forall (v : string) f, files' !! v = Some f ->
          files !! v = Some f
          \/ Z.of_nat (length f) <= MAX_VOB_SIZE * DVD_VIDEO_LB_LEN).
Proof.
  intros Hfresh Hcells. unfold DVDWriteCells.
  destruct (alloc_fault P e) as [[] e0]; [by eexists _, _, _; split; [|split; [right|]]|].
  rewrite Hfresh. cbn [negb].
  pose proof (unlinked_old files) as Hold.
  set (files0 := for_range 0 10 _ files) in *.
  clearbody files0.
  destruct (title_set =? 0); [by eexists _, _, _; split; [|split; [right|]]|].
  destruct (alloc_fault P e0) as [[] e1]; [by eexists _, _, _; split; [|split; [right|]]|].
  unfold open_vob at 1.
  destruct (sys_fault P e1) as [[] e2]; [by eexists _, _, _; split; [|split; [right|]]|].
  set (files1 := match files0 !! targetname 1 with
                 | Some _ => files0
                 | None => <[targetname 1 := []]> files0
                 end).
  assert (cells_inv targetdir title_name title_set files0 (CellsState 1 0 files1 e2))
    as Hinv1.
  { split; [simpl; unfold MAX_VOB_SIZE; lia|]. simpl. intros v f Hv.
    destruct (decide (v = targetname 1)) as [?|Hne]; [by left|]. right. left.
    unfold files1, vob_files in *. destruct (files0 !! targetname 1); [done|].
    by rewrite lookup_insert_ne in Hv. }
  clearbody files1.
  destruct (sys_fault P e2) as [[] e3]; [by eexists _, _, _; split; [|split; [right|]]|].
  assert (cells_inv targetdir title_name title_set files0 (CellsState 1 0 files1 e3))
    as Hinv by exact Hinv1.
  assert (match for_range_ret 0 n
                  (write_cell P g targetdir title_name title_set starts ends)
                  (CellsState 1 0 files1 e3) with
          | Some (inl cs') => cells_inv targetdir title_name title_set files0 cs'
          | Some (inr r) => r.1 = 1
          | None => False
          end) as Hfor.
  { destruct (Z.le_gt_cases 0 n) as [Hn|Hn].
    - apply (for_range_ret_ind
               (fun _ cs => cells_inv targetdir title_name title_set files0 cs)); [done|done|].
      intros i cs Hi Hcs. apply write_cell_inv; [done|apply (Hcells i Hi)|done].
    - unfold for_range_ret. replace (Z.to_nat (n - 0)) with O by lia. done. }
  destruct (for_range_ret _ _ _ _) as [[cs|[result cs]]|]; [| |done].
  - destruct Hfor as (Hsize & Hfiles).
    rewrite (size_t_wrap_small (cs_size cs)) by (unfold SIZE_MAX, MAX_VOB_SIZE in *; lia).
    unfold finalize_vob_file. rewrite Hfresh.
    destruct (sys_fault P (cs_env cs)) as [[] e4]; simpl;
      [by eexists _, _, _; split; [|split; [right|]]|].
    eexists _, _, _. split; [done|]. split; [by left|]. intros _ v f Hv.
    unfold vob_files in *.
    destruct (decide (v = targetname (cs_vob cs))) as [->|Hne].
    + rewrite lookup_insert_eq in Hv. injection Hv as <-. right.
      rewrite truncate_to_length. unfold MAX_VOB_SIZE, DVD_VIDEO_LB_LEN in *. lia.
    + rewrite lookup_insert_ne in Hv by done.
      destruct (Hfiles v f Hv) as [?|[?|?]]; [done|left; by apply Hold|by right].
  - simpl in Hfor. subst result. eexists _, _, _. split; [done|]. split; [by right|done].
Qed.

End CellFacts.

(** *** With a drive that delivers the image *)

Section CellImage.

Context {Env : Type} (P : platform Env) (disc : list byte).
Hypothesis Himage : reads_image P disc.
Hypothesis Hwrites : writes_complete P.
Variables (g : globals) (targetdir title_name : string) (title_set : Z).

Local Abbreviation targetname := (vob_targetname targetdir title_name title_set).
Local Abbreviation chunk := (write_cell_chunk P g targetdir title_name title_set).

(** A cell that starts at the block the part has reached and ends where the
    part reaches [MAX_VOB_SIZE] is copied whole into the part, and no new
    part is opened. *)
Lemma write_cell_chunk_filling_image n_left cs :
  cs_size cs + n_left = MAX_VOB_SIZE -> 0 <= n_left -> 0 <= cs_size cs ->
  MAX_VOB_SIZE * DVD_VIDEO_LB_LEN <= Z.of_nat (length disc) ->
  cs_files cs !! targetname (cs_vob cs)
  = Some (read_at disc (cs_size cs * DVD_VIDEO_LB_LEN) 0) ->
  exists l so cs',
    while_loop (S (Z.to_nat n_left)) chunk (n_left, cs_size cs, cs) = Some (inl (l, so, cs'))
    /\ cs_size cs' = MAX_VOB_SIZE /\ cs_vob cs' = cs_vob cs
    /\ cs_files cs'
       = <[targetname (cs_vob cs) := read_at disc (MAX_VOB_SIZE * DVD_VIDEO_LB_LEN) 0]>
           (cs_files cs).
Proof.
  intros Hsum Hleft Hsize Hdisc Hfile.
  set (Inv := fun s : Z * Z * @cells_state Env =>
         cs_size s.2 + s.1.1 = MAX_VOB_SIZE /\ 0 <= s.1.1 /\ 0 <= cs_size s.2
         /\ s.1.2 = cs_size s.2 /\ cs_vob s.2 = cs_vob cs
         /\ cs_files s.2
            = <[targetname (cs_vob cs) := read_at disc (cs_size s.2 * DVD_VIDEO_LB_LEN) 0]>
                (cs_files cs)).
  pose proof (while_loop_ind Inv
    (fun s : Z * Z * @cells_state Env => Inv s /\ s.1.1 = 0)
    (fun _ : Z * @cells_state Env => False)
    (fun s : Z * Z * @cells_state Env => Z.to_nat s.1.1)
    chunk) as Hloop.
  assert (forall s : Z * Z * @cells_state Env, Inv s ->
            match chunk s with
            | Some (Next s') => Inv s' /\ (Z.to_nat s'.1.1 < Z.to_nat s.1.1)%nat
            | Some (Break s') => Inv s' /\ s'.1.1 = 0
            | Some (Ret r) => False
            | None => False
            end) as Hstep.
  { intros [[l so] c] (Hs & Hl & Hc & Hso & Hvob & Hfiles).
    simpl in Hs, Hl, Hc, Hso, Hvob, Hfiles. subst so. unfold write_cell_chunk.
    destruct (Z.gtb_spec l 0) as [Hpos|Hz];
      [|split; [by repeat split|simpl; lia]].
    rewrite (int_wrap_small (l + cs_size c))
      by (unfold INT_MIN, INT_MAX, MAX_VOB_SIZE in *; lia).
    destruct (Z.gtb_spec (l + cs_size c) MAX_VOB_SIZE) as [?|_]; [lia|].
    set (to_read := if l >? BUFFER_SIZE then BUFFER_SIZE else l).
    assert (0 < to_read <= BUFFER_SIZE /\ to_read <= l) as [Hto Htol]
      by (unfold to_read, BUFFER_SIZE; destruct (Z.gtb_spec l 512); lia).
    pose proof (Himage (cs_env c) (cs_size c) to_read Hc Hto
                  ltac:(unfold MAX_VOB_SIZE, DVD_VIDEO_LB_LEN in *; lia)) as Hread.
    destruct (DVDReadBlocks P (cs_env c) (cs_size c) to_read) as [[have_read buffer] e1].
    simpl in Hread. injection Hread as -> ->.
    destruct (Z.ltb_spec to_read 0) as [?|_]; [lia|].
    destruct (Z.eqb_spec to_read 0) as [?|_]; [lia|].
    rewrite (int_wrap_small (to_read * DVD_VIDEO_LB_LEN))
      by (unfold INT_MIN, INT_MAX, BUFFER_SIZE, DVD_VIDEO_LB_LEN in *; lia).
    rewrite (size_t_wrap_small (to_read * DVD_VIDEO_LB_LEN))
      by (unfold SIZE_MAX, BUFFER_SIZE, DVD_VIDEO_LB_LEN in *; lia).
    pose proof (Hwrites e1 (to_read * DVD_VIDEO_LB_LEN)) as Hwr.
    destruct (sys_write P e1 (to_read * DVD_VIDEO_LB_LEN)) as [wr e2].
    simpl in Hwr. subst wr.
    destruct (Z.gtb_spec (to_read * DVD_VIDEO_LB_LEN) 0) as [_|?];
      [|unfold DVD_VIDEO_LB_LEN in *; lia].
    rewrite Z.eqb_refl. cbn [negb].
    rewrite (int_wrap_small (cs_size c + to_read)), (int_wrap_small (l - to_read))
      by (unfold INT_MIN, INT_MAX, MAX_VOB_SIZE, BUFFER_SIZE in *; lia).
    pose proof (read_at_full_length disc (cs_size c) to_read Hc ltac:(lia)
                  ltac:(unfold MAX_VOB_SIZE, DVD_VIDEO_LB_LEN in *; lia)) as Hlen.
    assert (((cs_size c + to_read >=? MAX_VOB_SIZE) && (l - to_read >? 0)) = false) as ->.
    { destruct (Z.geb_spec (cs_size c + to_read) MAX_VOB_SIZE);
        destruct (Z.gtb_spec (l - to_read) 0); try done. lia. }
    split; [|simpl; lia]. unfold Inv. simpl.
    split; [lia|]. split; [lia|]. split; [lia|]. split; [done|]. split; [done|].
    rewrite Hfiles, Hvob. unfold vob_files.
    rewrite alter_insert_eq. f_equal.
    rewrite 2!(take_ge (read_at disc (to_read * DVD_VIDEO_LB_LEN)
                                (cs_size c * DVD_VIDEO_LB_LEN))) by lia.
    pose proof (read_at_app disc 0 (cs_size c) to_read ltac:(lia) Hc ltac:(lia)) as Happ.
    by rewrite Z.mul_0_l, Z.add_0_l in Happ. }
  specialize (Hloop Hstep (S (Z.to_nat n_left)) (n_left, cs_size cs, cs)).
  assert (Inv (n_left, cs_size cs, cs)) as Hinit.
  { unfold Inv. simpl. repeat (split; [lia || done|]).
    unfold vob_files in *. by rewrite insert_id. }
  specialize (Hloop Hinit ltac:(simpl; lia)).
  destruct (while_loop _ _ _) as [[[[l so] c]|r]|]; [|done|done].
  destruct Hloop as [(Hs & Hl & Hc & Hso & Hvob & Hfiles) Hend].
  simpl in Hs, Hl, Hc, Hso, Hvob, Hfiles, Hend.
  exists l, so, c. split; [done|]. split; [lia|]. split; [done|].
  rewrite Hfiles. do 3 f_equal. lia.
Qed.

Hypothesis Hreads : reads_bounded P.
Hypothesis Hsys : no_sys_faults P.
Hypothesis Halloc : no_alloc_faults P.

(** The two cells of which the first ends where the first part is full:
    the first part receives the whole first cell, and the function returns
    1 at the second cell. *)
Lemma cap_at_cell_end_image e (files : vob_files) :
  fill_gaps g = false -> title_set <> 0 ->
  MAX_VOB_SIZE * DVD_VIDEO_LB_LEN <= Z.of_nat (length disc) ->
  exists e',
    DVDWriteCells P g e files [0; 524289] [524288; 524299] 2 title_set targetdir title_name
    = Some (1,
            <[targetname 1 := read_at disc (MAX_VOB_SIZE * DVD_VIDEO_LB_LEN) 0]>
              (for_range 0 10
                 (fun i (fs : vob_files) => delete (targetname (int_wrap (i + 1))) fs)
                 files),
            e').
Proof.
  intros Hfresh Hset Hdisc. unfold DVDWriteCells.
  pose proof (Halloc e) as Ha. destruct (alloc_fault P e) as [f e0]. simpl in Ha. subst f.
  rewrite Hfresh. cbn [negb].
  pose proof (unlinked_gone targetdir title_name title_set files 1 ltac:(lia)) as Hgone.
  set (files0 := for_range 0 10 _ files) in *.
  destruct (Z.eqb_spec title_set 0) as [?|_]; [done|].
  pose proof (Halloc e0) as Ha. destruct (alloc_fault P e0) as [f e1]. simpl in Ha. subst f.
  unfold open_vob at 1.
  pose proof (Hsys e1) as Hs. destruct (sys_fault P e1) as [f e2]. simpl in Hs. subst f.
  unfold vob_files in *. rewrite Hgone.
  pose proof (Hsys e2) as Hs. destruct (sys_fault P e2) as [f e3]. simpl in Hs. subst f.
  unfold for_range_ret. change (Z.to_nat (2 - 0)) with 2%nat. cbn [for_loop_ret].
  change (0 <? 2) with true. cbv iota.
  unfold write_cell at 1.
  change (int_wrap (arr_get [524288; 524299] 0 - arr_get [0; 524289] 0)) with 524288.
  change (arr_get [0; 524289] 0) with 0.
  destruct (write_cell_chunk_filling_image 524288
              (CellsState 1 0 (<[targetname 1 := []]> files0) e3)
              ltac:(reflexivity) ltac:(lia) ltac:(reflexivity) Hdisc
              ltac:(cbn [cs_files cs_vob cs_size]; unfold vob_files;
                    by rewrite lookup_insert_eq))
    as (l & so & cs' & Hrun & Hsz & Hvob & Hfiles).
  cbn [cs_files cs_vob cs_size] in Hrun, Hvob, Hfiles.
  rewrite Hrun.
  change (0 + 1 <? 2) with true. cbv iota.
  unfold write_cell at 1.
  change (int_wrap (arr_get [524288; 524299] (0 + 1) - arr_get [0; 524289] (0 + 1)))
    with 10.
  destruct (write_cell_chunk_full P Hreads g targetdir title_name title_set
              (Z.to_nat 10) 10 (arr_get [0; 524289] (0 + 1)) cs' Hsz
              ltac:(unfold INT_MAX, MAX_VOB_SIZE; lia)) as ([rc c] & -> & Hrc & Hsame).
  simpl in Hrc, Hsame. subst rc. exists (cs_env c). do 2 f_equal.
  rewrite Hsame, Hfiles. unfold vob_files. by rewrite insert_insert_eq.
Qed.

End CellImage.

(** C6 (the defect).  Two cells, the first of exactly [MAX_VOB_SIZE] blocks:
    whatever the drive delivers, [DVDWriteCells] returns 1.  When the first
    cell is through, the first part holds [MAX_VOB_SIZE] blocks and no
    second part has been opened, so the second cell asks the drive for zero
    blocks and the copy is given up.  With a drive that delivers the image
    and no failing call, the function has by then written the whole first
    cell, 1 GiB, into the first part, and every other file it leaves is a
    file that was there before: no second part exists for the blocks that
    remain. *)
Theorem DVDWriteCells_cap_at_cell_end :
  forall {Env : Type} (P : platform Env) (g : globals) (e : Env) (files : vob_files)
         (title_set : Z) (targetdir title_name : string),
    reads_bounded P -> fill_gaps g = false ->
    exists files' e',
      DVDWriteCells P g e files [0; 524289] [524288; 524299] 2 title_set
        targetdir title_name
      = Some (1, files', e')
      /\ forall disc : list byte,
           reads_image P disc -> writes_complete P -> no_sys_faults P ->
           no_alloc_faults P -> title_set <> 0 ->
           MAX_VOB_SIZE * DVD_VIDEO_LB_LEN <= Z.of_nat (length disc) ->
           files' !! vob_targetname targetdir title_name title_set 1
           = Some (read_at disc (MAX_VOB_SIZE * DVD_VIDEO_LB_LEN) 0)
           /\ forall (name : string) f,
                name <> vob_targetname targetdir title_name title_set 1 ->
                files' !! name = Some f -> files !! name = Some f.
Proof.
  intros Env P g e files title_set targetdir title_name Hreads Hfresh.
  assert (exists files' e',
            DVDWriteCells P g e files [0; 524289] [524288; 524299] 2 title_set
              targetdir title_name
            = Some (1, files', e')) as (files' & e' & Hrun).
  { unfold DVDWriteCells.
    destruct (alloc_fault P e) as [[] e0]; [by eexists _, _|].
    destruct (title_set =? 0); [by eexists _, _|].
    destruct (alloc_fault P e0) as [[] e1]; [by eexists _, _|].
    destruct (open_vob P e1 _ _) as [[files1|] e2]; [|by eexists _, _].
    destruct (sys_fault P e2) as [[] e3]; [by eexists _, _|].
    pose proof (for_range_ret_ind
      (fun i (cs : @cells_state Env) =>
         (i = 0 /\ cs_size cs = 0) \/ (i = 1 /\ cs_size cs = MAX_VOB_SIZE))
      (fun r : Z * @cells_state Env => r.1 = 1)
      (write_cell P g targetdir title_name title_set [0; 524289] [524288; 524299]) 0 2
      (CellsState 1 0 files1 e3) ltac:(lia) ltac:(by left)) as Hfor.
    assert (forall i (s : @cells_state Env), 0 <= i < 2 ->
              (i = 0 /\ cs_size s = 0) \/ (i = 1 /\ cs_size s = MAX_VOB_SIZE) ->
              match write_cell P g targetdir title_name title_set
                      [0; 524289] [524288; 524299] i s with
              | Some (inl s') =>
                  (i + 1 = 0 /\ cs_size s' = 0) \/ (i + 1 = 1 /\ cs_size s' = MAX_VOB_SIZE)
              | Some (inr r) => r.1 = 1
              | None => False
              end) as Hstep.
    { intros i s Hi [[-> Hs]|[-> Hs]]; unfold write_cell.
      - change (int_wrap (arr_get [524288; 524299] 0 - arr_get [0; 524289] 0))
          with 524288.
        change (arr_get [0; 524289] 0) with 0.
        pose proof (write_cell_chunk_filling P Hreads g targetdir title_name title_set
                      524288 524288 0 s
                      ltac:(unfold MAX_VOB_SIZE; lia) ltac:(lia) ltac:(lia) eq_refl) as H.
        destruct (while_loop _ _ _) as [[[[l so] c]|r]|]; [|done|done].
        right. done.
      - change (int_wrap (arr_get [524288; 524299] 1 - arr_get [0; 524289] 1)) with 10.
        destruct (write_cell_chunk_full P Hreads g targetdir title_name title_set
                    (Z.to_nat 10) 10 (arr_get [0; 524289] 1) s Hs
                    ltac:(unfold INT_MAX, MAX_VOB_SIZE; lia)) as (r & -> & Hr & _).
        done. }
    specialize (Hfor Hstep).
    destruct (for_range_ret _ _ _ _) as [[cs|[result cs]]|]; [lia| |done].
    simpl in Hfor. subst result. by eexists _, _. }
  exists files', e'. split; [exact Hrun|].
  intros disc Himage Hwrites Hsys Halloc Hset Hdisc.
  destruct (cap_at_cell_end_image P disc Himage Hwrites g targetdir title_name title_set
              Hreads Hsys Halloc e files Hfresh Hset Hdisc) as (e'' & Hrun').
  rewrite Hrun in Hrun'. injection Hrun' as -> _. unfold vob_files in *.
  split; [by rewrite lookup_insert_eq|].
  intros name f Hname Hf. rewrite lookup_insert_ne in Hf by done.
  by apply (unlinked_old targetdir title_name title_set files name f).
Qed.

(** ** The drive and kernel without faults *)

Lemma image_platform_reads_bounded disc limit seed :
  reads_bounded (image_platform disc limit seed).
Proof.
  intros e offset block_count Hn. simpl.
  set (data := read_at disc _ _).
  assert (Z.of_nat (length data) <= block_count * DVD_VIDEO_LB_LEN) as Hlen.
  { unfold data, read_at, DVD_VIDEO_LB_LEN. rewrite length_take. lia. }
  assert (0 <= Z.of_nat (length data) / DVD_VIDEO_LB_LEN <= block_count) as Hgot.
  { unfold DVD_VIDEO_LB_LEN in *. split; [apply Z.div_pos; lia|].
    apply Z.div_le_upper_bound; lia. }
  split; [lia|]. intros _.
  rewrite length_take.
  clearbody data. unfold DVD_VIDEO_LB_LEN in *.
  pose proof (Z.mul_div_le (Z.of_nat (length data)) 2048 ltac:(lia)). lia.
Qed.

Lemma image_platform_writes_complete disc limit seed :
  writes_complete (image_platform disc limit seed).
Proof. done. Qed.

Lemma image_platform_not_faulty disc limit seed :
  ~ faulty (image_platform disc limit seed).
Proof. by intros [[e H]|[e H]]. Qed.


(** ** Stores into a file *)

Lemma write_at_length file off data :
  0 <= off -> data <> [] ->
  Z.of_nat (length (write_at file off data))
  = Z.max (Z.of_nat (length file)) (off + Z.of_nat (length data)).
Proof.
  intros Hoff Hdata. unfold write_at. destruct data as [|b data]; [done|].
  rewrite !length_app, length_take, length_replicate, length_drop.
  set (n := length (b :: data)). lia.
Qed.

Lemma write_at_lookup_outside file off data (j : nat) :
  0 <= off -> (j < length file)%nat ->
  Z.of_nat j < off \/ off + Z.of_nat (length data) <= Z.of_nat j ->
  write_at file off data !! j = file !! j.
Proof.
  intros Hoff Hj Hout. unfold write_at. destruct data as [|b data]; [done|].
  set (d := b :: data) in *.
  destruct Hout as [Hlt|Hge].
  - rewrite lookup_app_l by (rewrite length_take; lia).
    by rewrite lookup_take_lt by lia.
  - assert (Z.to_nat off + length d <= j)%nat as Hge' by lia.
    rewrite lookup_app_r by (rewrite length_take; lia).
    rewrite length_take.
    rewrite lookup_app_r by (rewrite length_replicate; lia).
    rewrite length_replicate.
    rewrite lookup_app_r by lia.
    rewrite lookup_drop. f_equal. lia.
Qed.

Lemma file_frame_refl inside E file : file_frame inside E file file.
Proof. split; [lia|]. split; [lia|done]. Qed.

Lemma file_frame_trans inside E f1 f2 f3 :
  file_frame inside E f1 f2 -> file_frame inside E f2 f3 -> file_frame inside E f1 f3.
Proof.
  intros (H1 & H2 & H3) (H4 & H5 & H6). split; [lia|]. split; [lia|].
  intros j Hj Hout. rewrite H6 by (done || lia). by apply H3.
Qed.

Lemma file_frame_mono (inside inside' : Z -> Prop) E file file' :
  (forall k, inside k -> inside' k) ->
  file_frame inside E file file' -> file_frame inside' E file file'.
Proof.
  intros Hsub (H1 & H2 & H3). split; [done|]. split; [done|].
  intros j Hj Hout. apply H3; [done|]. intros Hin. by apply Hout, Hsub.
Qed.

(** A store of at most [u] blocks at block [b], inside [inside]. *)
Lemma write_at_frame inside E file b u data :
  blocks_inside inside E b u ->
  Z.of_nat (length data) <= u * DVD_VIDEO_LB_LEN ->
  file_frame inside E file (write_at file (b * DVD_VIDEO_LB_LEN) data).
Proof.
  intros (Hb & Hu & HE & Hin) Hlen.
  destruct (decide (data = [])) as [->|Hne]; [apply file_frame_refl|].
  pose proof (write_at_length file (b * DVD_VIDEO_LB_LEN) data
                ltac:(unfold DVD_VIDEO_LB_LEN; lia) Hne) as Hl.
  split; [lia|]. split; [unfold DVD_VIDEO_LB_LEN in *; lia|].
  intros j Hj Hout.
  apply write_at_lookup_outside; [unfold DVD_VIDEO_LB_LEN; lia|done|].
  destruct (Z.lt_ge_cases (Z.of_nat j) (b * DVD_VIDEO_LB_LEN)) as [?|Hge]; [by left|].
  right.
  destruct (Z.lt_ge_cases (Z.of_nat j) ((b + u) * DVD_VIDEO_LB_LEN)) as [Hlt|?];
    [|unfold DVD_VIDEO_LB_LEN in *; lia].
  exfalso. apply Hout, Hin. unfold DVD_VIDEO_LB_LEN in *.
  split.
  - apply Z.div_le_lower_bound; lia.
  - apply Z.div_lt_upper_bound; lia.
Qed.

(** A block outside the frame keeps its bytes. *)
Lemma file_frame_block inside E file file' k :
  file_frame inside E file file' ->
  0 <= k < full_blocks_of file -> ~ inside k ->
  block_of file' k = block_of file k.
Proof.
  intros (H1 & H2 & H3) Hk Hout. unfold block_of.
  assert ((k + 1) * DVD_VIDEO_LB_LEN <= Z.of_nat (length file)) as Hfit.
  { unfold full_blocks_of, DVD_VIDEO_LB_LEN in *.
    pose proof (Z.mul_div_le (Z.of_nat (length file)) 2048 ltac:(lia)). lia. }
  apply list_eq. intros i.
  destruct (decide (i < Z.to_nat DVD_VIDEO_LB_LEN)%nat) as [Hi|Hi].
  - rewrite !lookup_take_lt, !lookup_drop by done.
    apply H3; [unfold DVD_VIDEO_LB_LEN in *; lia|].
    replace (Z.of_nat (Z.to_nat (k * DVD_VIDEO_LB_LEN) + i) / DVD_VIDEO_LB_LEN) with k; [done|].
    unfold DVD_VIDEO_LB_LEN in *. apply Z.div_unique with (r := Z.of_nat i); lia.
  - by rewrite !lookup_take_ge by lia.
Qed.

(** The bytes beyond the expected blocks are as they were. *)
Lemma file_frame_tail inside E file file' :
  0 <= E -> (forall k, inside k -> k < E) ->
  file_frame inside E file file' ->
  drop (Z.to_nat (E * DVD_VIDEO_LB_LEN)) file' = drop (Z.to_nat (E * DVD_VIDEO_LB_LEN)) file.
Proof.
  intros HE Hin (H1 & H2 & H3).
  destruct (Z.le_gt_cases (Z.of_nat (length file)) (E * DVD_VIDEO_LB_LEN)) as [Hshort|Hlong].
  - rewrite !drop_ge by lia. done.
  - assert (length file' = length file) as Hlen by lia.
    apply list_eq. intros i. rewrite !lookup_drop.
    destruct (decide (Z.to_nat (E * DVD_VIDEO_LB_LEN) + i < length file)%nat) as [Hi|Hi].
    + apply H3; [done|]. intros Hk%Hin. unfold DVD_VIDEO_LB_LEN in *.
      pose proof (Z.div_le_lower_bound (Z.of_nat (Z.to_nat (E * 2048) + i)) 2048 E
                    ltac:(lia) ltac:(lia)). lia.
    + rewrite !lookup_ge_None_2 by lia. done.
Qed.

(** ** Refill of one segment *)

Section SegmentFacts.

Context {Env : Type} (P : platform Env).
Variable inside : Z -> Prop.
Variable E : Z.

Lemma world_frame_refl (w : world Env) : world_frame inside E w w.
Proof. split; [apply file_frame_refl|]. exists []. by split. Qed.

Lemma world_frame_trans (w1 w2 w3 : world Env) :
  world_frame inside E w1 w2 -> world_frame inside E w2 w3 -> world_frame inside E w1 w3.
Proof.
  intros [Hf1 (new1 & Hw1 & Hn1)] [Hf2 (new2 & Hw2 & Hn2)].
  split; [by eapply file_frame_trans|].
  exists (new2 ++ new1). rewrite Hw2, Hw1, app_assoc. split; [done|].
  by apply Forall_app.
Qed.

Lemma world_frame_with_env (w w' : world Env) e :
  world_frame inside E w w' -> world_frame inside E w (with_env w' e).
Proof. done. Qed.

Lemma world_frame_from_env (w w' : world Env) e :
  world_frame inside E w w' -> world_frame inside E (with_env w e) w'.
Proof. done. Qed.

Lemma do_pwrite_frame (w : world Env) data b u :
  blocks_inside inside E b u -> 1 <= u ->
  Z.of_nat (length data) <= u * DVD_VIDEO_LB_LEN ->
  world_frame inside E w (do_pwrite P w data (b * DVD_VIDEO_LB_LEN)).2.
Proof.
  intros Hin Hu Hlen. unfold do_pwrite.
  destruct (sys_write P (w_env w) (Z.of_nat (length data))) as [r e']. simpl.
  split; simpl.
  - destruct (r >? 0); [|apply file_frame_refl].
    apply (write_at_frame inside E (w_file w) b u); [done|].
    rewrite length_take. lia.
  - exists [(b * DVD_VIDEO_LB_LEN, Z.of_nat (length data))]. split; [done|].
    apply Forall_singleton. exists b, u. simpl. destruct Hin as (_ & _ & _ & Hin).
    repeat split; try done; lia.
Qed.

Hypothesis Hreads : reads_bounded P.

Lemma gap_process_chunk_frame errorstrat dvd_offset s n (w0 : world Env) st :
  blocks_inside inside E s n -> E <= INT_MAX ->
  0 <= st.1.1 <= n /\ world_frame inside E w0 st.1.2 ->
  match gap_process_chunk P errorstrat dvd_offset s n st with
  | Some (Next st') =>
      (0 <= st'.1.1 <= n /\ world_frame inside E w0 st'.1.2)
      /\ (Z.to_nat (n - st'.1.1) < Z.to_nat (n - st.1.1))%nat
  | Some (Break st') => world_frame inside E w0 st'.1.2
  | Some (Ret r) => world_frame inside E w0 r.1.2
  | None => False
  end.
Proof.
  intros Hseg HE. destruct st as [[cursor w] filled]. simpl. intros [Hcur Hframe].
  pose proof Hseg as (Hs & Hn & HsE & Hin).
  unfold gap_process_chunk.
  destruct (Z.ltb_spec cursor n) as [Hlt|Hge]; [|done].
  rewrite (size_t_wrap_small (n - cursor)) by (unfold SIZE_MAX, INT_MAX in *; lia).
  rewrite (size_t_wrap_small (s + cursor)) by (unfold SIZE_MAX, INT_MAX in *; lia).
  set (chunk := if n - cursor >? BUFFER_SIZE then BUFFER_SIZE else n - cursor).
  assert (1 <= chunk <= BUFFER_SIZE /\ chunk <= n - cursor) as [Hchunk Hchunk'].
  { unfold chunk, BUFFER_SIZE. destruct (Z.gtb_spec (n - cursor) 512); lia. }
  rewrite (int_wrap_small chunk) by (unfold INT_MIN, INT_MAX, BUFFER_SIZE in *; lia).
  pose proof (Hreads (w_env w) (int_wrap (dvd_offset + int_wrap (s + cursor))) chunk
                ltac:(lia)) as [Hle _].
  destruct (DVDReadBlocks P (w_env w) _ chunk) as [[blocks_read buffer] e1].
  simpl in Hle.
  set (usable := if blocks_read =? chunk then chunk
                 else if blocks_read >? 0 then size_t_wrap blocks_read else 0).
  assert (0 <= usable <= chunk) as Husable.
  { unfold usable. destruct (Z.eqb_spec blocks_read chunk); [lia|].
    destruct (Z.gtb_spec blocks_read 0); [|lia].
    rewrite size_t_wrap_small by (unfold SIZE_MAX, BUFFER_SIZE in *; lia). lia. }
  rewrite (size_t_wrap_small (usable * DVD_VIDEO_LB_LEN))
    by (unfold SIZE_MAX, BUFFER_SIZE, DVD_VIDEO_LB_LEN in *; lia).
  rewrite (size_t_wrap_small (cursor + usable))
    by (unfold SIZE_MAX, INT_MAX, BUFFER_SIZE in *; lia).
  rewrite (size_t_wrap_small (n - (cursor + usable)))
    by (unfold SIZE_MAX, INT_MAX, BUFFER_SIZE in *; lia).
  (* the store of the blocks read *)
  assert (forall data, 0 < usable ->
            Z.of_nat (length data) <= usable * DVD_VIDEO_LB_LEN ->
            world_frame inside E w0
              (do_pwrite P (with_env w e1) data ((s + cursor) * DVD_VIDEO_LB_LEN)).2) as Hstore.
  { intros data Hpos Hlen. eapply world_frame_trans; [exact Hframe|].
    assert (blocks_inside inside E (s + cursor) usable) as Hblocks.
    { repeat split; try lia. intros k Hk. apply Hin. lia. }
    exact (do_pwrite_frame (with_env w e1) data (s + cursor) usable Hblocks
             ltac:(lia) Hlen). }
  set (written := if usable >? 0 then _ else _).
  assert (match written with
          | inr r => world_frame inside E w0 r.1.2
          | inl (w2, _) => world_frame inside E w0 w2
          end) as Hwritten.
  { unfold written. destruct (Z.gtb_spec usable 0) as [Hpos|Hzero]; [|done].
    specialize (Hstore (take (Z.to_nat (usable * DVD_VIDEO_LB_LEN)) buffer) Hpos
                  ltac:(rewrite length_take; unfold DVD_VIDEO_LB_LEN; lia)).
    destruct (do_pwrite P (with_env w e1) _ _) as [wr w2].
    by destruct (negb (wr =? usable * DVD_VIDEO_LB_LEN)). }
  destruct written as [[w2 filled2]|r]; [|done].
  destruct (Z.ltb_spec usable chunk) as [Hshort|Hfull].
  - destruct (Z.eqb_spec (n - (cursor + usable)) 0); [lia|].
    destruct errorstrat; [done| |].
    + destruct (Z.gtb_spec 1 (n - (cursor + usable))); [lia|].
      rewrite size_t_wrap_small by (unfold SIZE_MAX, INT_MAX in *; lia).
      simpl. split; [split; [lia|done]|lia].
    + rewrite (size_t_wrap_small (chunk - usable))
        by (unfold SIZE_MAX, BUFFER_SIZE in *; lia).
      destruct (Z.eqb_spec (chunk - usable) 0); [lia|].
      destruct (Z.gtb_spec (chunk - usable) (n - (cursor + usable))); [lia|].
      rewrite size_t_wrap_small by (unfold SIZE_MAX, INT_MAX in *; lia).
      simpl. split; [split; [lia|done]|lia].
  - rewrite size_t_wrap_small by (unfold SIZE_MAX, INT_MAX in *; lia).
    simpl. split; [split; [lia|done]|lia].
Qed.

Lemma gap_process_segment_frame errorstrat dvd_offset s n (w : world Env) filled :
  blocks_inside inside E s n -> E <= INT_MAX ->
  exists rc w' filled',
    gap_process_segment P errorstrat dvd_offset s n w filled = Some (rc, w', filled')
    /\ world_frame inside E w w'.
Proof.
  intros Hseg HE. unfold gap_process_segment.
  pose proof (while_loop_ind
    (fun st : Z * world Env * Z => 0 <= st.1.1 <= n /\ world_frame inside E w st.1.2)
    (fun st : Z * world Env * Z => world_frame inside E w st.1.2)
    (fun r : Z * world Env * Z => world_frame inside E w r.1.2)
    (fun st : Z * world Env * Z => Z.to_nat (n - st.1.1))
    (gap_process_chunk P errorstrat dvd_offset s n)
    (fun st H => gap_process_chunk_frame errorstrat dvd_offset s n w st Hseg HE H)
    (S (Z.to_nat n)) (0, w, filled)) as Hloop.
  destruct Hseg as (_ & Hn & _).
  specialize (Hloop ltac:(simpl; split; [lia|apply world_frame_refl]) ltac:(simpl; lia)).
  destruct (while_loop _ _ _) as [[[[c w'] f']|[[rc w'] f']]|]; [| |done].
  - by exists 0, w', f'.
  - by exists rc, w', f'.
Qed.

End SegmentFacts.

(** ** Refill of a plan *)

Section FillFacts.

Context {Env : Type} (P : platform Env).
Variable inside : Z -> Prop.
Variable E : Z.
Hypothesis Hreads : reads_bounded P.
Hypothesis HE : 0 <= E <= INT_MAX.

Local Abbreviation frame := (world_frame inside E).

Lemma process_segments_frame errorstrat dvd_offset segments :
  Forall (segment_inside inside E) segments ->
  forall (w : world Env) filled,
  exists rc w' filled',
    process_segments P errorstrat dvd_offset segments w filled = Some (rc, w', filled')
    /\ frame w w'.
Proof.
  induction 1 as [|seg segments Hseg _ IH]; intros w filled; simpl.
  - exists 0, w, filled. split; [done|apply world_frame_refl].
  - destruct (gap_process_segment_frame P inside E Hreads errorstrat dvd_offset
                (seg_start_block seg) (seg_block_count seg) w filled Hseg ltac:(lia))
      as (rc & w1 & f1 & -> & Hf1).
    destruct (negb (rc =? 0)); [by exists 1, w1, f1|].
    destruct (IH w1 f1) as (rc' & w2 & f2 & -> & Hf2).
    exists rc', w2, f2. split; [done|]. by eapply world_frame_trans.
Qed.

Lemma reverse_range_frame errorstrat dvd_offset rs rn (w : world Env) filled :
  blocks_inside inside E rs rn ->
  match while_loop (S (Z.to_nat rn)) (reverse_chunk P errorstrat dvd_offset rs rn)
          (0, w, filled) with
  | Some (inl st) => frame w st.1.2
  | Some (inr r) => frame w r.1.2
  | None => False
  end.
Proof.
  intros Hrange. pose proof Hrange as (Hs & Hn & HsE & Hin).
  apply (while_loop_ind
    (fun st : Z * world Env * Z => 0 <= st.1.1 <= rn /\ frame w st.1.2)
    (fun st : Z * world Env * Z => frame w st.1.2)
    (fun r : Z * world Env * Z => frame w r.1.2)
    (fun st : Z * world Env * Z => Z.to_nat (rn - st.1.1)));
    [|simpl; split; [lia|apply world_frame_refl]|simpl; lia].
  intros [[processed w1] f1] [Hp Hf]. simpl in Hp, Hf. unfold reverse_chunk.
  destruct (Z.ltb_spec processed rn) as [Hlt|Hge]; [|done].
  rewrite (size_t_wrap_small (rn - processed)) by (unfold SIZE_MAX, INT_MAX in *; lia).
  set (chunk := if rn - processed >? BUFFER_SIZE then BUFFER_SIZE else rn - processed).
  assert (1 <= chunk <= rn - processed) as Hchunk
    by (unfold chunk, BUFFER_SIZE; destruct (Z.gtb_spec (rn - processed) 512); lia).
  rewrite (size_t_wrap_small (rs + rn)) by (unfold SIZE_MAX, INT_MAX in *; lia).
  rewrite (size_t_wrap_small (rs + rn - processed)) by (unfold SIZE_MAX, INT_MAX in *; lia).
  rewrite (size_t_wrap_small (rs + rn - processed - chunk))
    by (unfold SIZE_MAX, INT_MAX in *; lia).
  destruct (gap_process_segment_frame P inside E Hreads errorstrat dvd_offset
              (rs + rn - processed - chunk) chunk w1 f1)
    as (rc & w2 & f2 & -> & Hf2); [|lia|].
  { repeat split; try lia. intros k Hk. apply Hin. lia. }
  pose proof (world_frame_trans inside E _ _ _ Hf Hf2) as Hf'.
  destruct (negb (rc =? 0)); [done|].
  rewrite size_t_wrap_small by (unfold SIZE_MAX, INT_MAX in *; lia).
  simpl. split; [split; [lia|done]|lia].
Qed.

Lemma outside_in_range_frame errorstrat dvd_offset rs rn (w : world Env) filled :
  blocks_inside inside E rs rn ->
  match while_loop (S (Z.to_nat rn)) (outside_in_chunk P errorstrat dvd_offset rs)
          (0, rn, true, w, filled) with
  | Some (inl st) => frame w st.1.2
  | Some (inr r) => frame w r.1.2
  | None => False
  end.
Proof.
  intros Hrange. pose proof Hrange as (Hs & Hn & HsE & Hin).
  apply (while_loop_ind
    (fun st : Z * Z * bool * world Env * Z =>
       0 <= st.1.1.1.1 <= st.1.1.1.2 /\ st.1.1.1.2 <= rn /\ frame w st.1.2)
    (fun st : Z * Z * bool * world Env * Z => frame w st.1.2)
    (fun r : Z * world Env * Z => frame w r.1.2)
    (fun st : Z * Z * bool * world Env * Z => Z.to_nat (st.1.1.1.2 - st.1.1.1.1)));
    [|simpl; split; [lia|split; [lia|apply world_frame_refl]]|simpl; lia].
  intros [[[[front back] use_front] w1] f1] (Hfb & Hb & Hf). simpl in Hfb, Hb, Hf.
  unfold outside_in_chunk.
  destruct (Z.ltb_spec front back) as [Hlt|Hge]; [|done].
  rewrite (size_t_wrap_small (back - front)) by (unfold SIZE_MAX, INT_MAX in *; lia).
  set (chunk := if back - front >? BUFFER_SIZE then BUFFER_SIZE else back - front).
  assert (1 <= chunk <= back - front) as Hchunk
    by (unfold chunk, BUFFER_SIZE; destruct (Z.gtb_spec (back - front) 512); lia).
  destruct use_front.
  - rewrite (size_t_wrap_small (rs + front)) by (unfold SIZE_MAX, INT_MAX in *; lia).
    destruct (gap_process_segment_frame P inside E Hreads errorstrat dvd_offset
                (rs + front) chunk w1 f1)
      as (rc & w2 & f2 & -> & Hf2); [|lia|].
    { repeat split; try lia. intros k Hk. apply Hin. lia. }
    pose proof (world_frame_trans inside E _ _ _ Hf Hf2) as Hf'.
    destruct (negb (rc =? 0)); [done|].
    rewrite size_t_wrap_small by (unfold SIZE_MAX, INT_MAX in *; lia).
    simpl. split; [split; [lia|split; [lia|done]]|lia].
  - rewrite (size_t_wrap_small (back - chunk)) by (unfold SIZE_MAX, INT_MAX in *; lia).
    rewrite (size_t_wrap_small (rs + (back - chunk)))
      by (unfold SIZE_MAX, INT_MAX in *; lia).
    destruct (gap_process_segment_frame P inside E Hreads errorstrat dvd_offset
                (rs + (back - chunk)) chunk w1 f1)
      as (rc & w2 & f2 & -> & Hf2); [|lia|].
    { repeat split; try lia. intros k Hk. apply Hin. lia. }
    pose proof (world_frame_trans inside E _ _ _ Hf Hf2) as Hf'.
    destruct (negb (rc =? 0)); [done|].
    simpl. split; [split; [lia|split; [lia|done]]|lia].
Qed.

Lemma fill_range_frame strategy errorstrat dvd_offset range (w : world Env) filled :
  range_inside inside E range ->
  exists rc w' filled',
    fill_range P strategy errorstrat dvd_offset range w filled = Some (rc, w', filled')
    /\ frame w w'.
Proof.
  intros Hrange. unfold fill_range. destruct strategy.
  - destruct (gap_process_segment_frame P inside E Hreads errorstrat dvd_offset
                (start_block range) (block_count range) w filled Hrange ltac:(lia))
      as (rc & w1 & f1 & -> & Hf1).
    by eexists _, w1, f1.
  - pose proof (reverse_range_frame errorstrat dvd_offset _ _ w filled Hrange) as H.
    destruct (while_loop _ _ _) as [[[[c w'] f']|[[rc w'] f']]|]; [| |done].
    + by exists 0, w', f'.
    + by exists rc, w', f'.
  - pose proof (outside_in_range_frame errorstrat dvd_offset _ _ w filled Hrange) as H.
    destruct (while_loop _ _ _) as [[[[[[fr bk] uf] w'] f']|[[rc w'] f']]|]; [| |done].
    + by exists 0, w', f'.
    + by exists rc, w', f'.
  - exists 0, w, filled. split; [done|apply world_frame_refl].
Qed.

Lemma fill_ranges_frame strategy errorstrat dvd_offset rs :
  Forall (range_inside inside E) rs ->
  forall (w : world Env) filled,
  exists rc w' filled',
    fill_ranges P strategy errorstrat dvd_offset rs w filled = Some (rc, w', filled')
    /\ frame w w'.
Proof.
  induction 1 as [|range rs Hrange _ IH]; intros w filled; simpl.
  - exists 0, w, filled. split; [done|apply world_frame_refl].
  - destruct (fill_range_frame strategy errorstrat dvd_offset range w filled Hrange)
      as (rc & w1 & f1 & -> & Hf1).
    destruct (negb (rc =? 0)); [by exists rc, w1, f1|].
    destruct (IH w1 f1) as (rc' & w2 & f2 & -> & Hf2).
    exists rc', w2, f2. split; [done|]. by eapply world_frame_trans.
Qed.

Lemma segment_inside_default : segment_inside inside E (GapSegment 0 0).
Proof. repeat split; simpl; lia. Qed.

Lemma seg_get_inside segments i :
  Forall (segment_inside inside E) segments -> segment_inside inside E (seg_get segments i).
Proof.
  intros Hall. unfold seg_get.
  destruct (segments !! Z.to_nat i) as [seg|] eqn:Hseg; simpl.
  - by eapply Forall_lookup_1.
  - apply segment_inside_default.
Qed.

Lemma seg_set_inside segments i seg :
  Forall (segment_inside inside E) segments -> segment_inside inside E seg ->
  Forall (segment_inside inside E) (seg_set segments i seg).
Proof. intros Hall Hseg. by apply Forall_insert. Qed.

Lemma random_shuffle_inside fuel :
  forall i segments (e : Env),
    Forall (segment_inside inside E) segments ->
    Forall (segment_inside inside E) (random_shuffle P fuel i segments e).1.
Proof.
  induction fuel as [|fuel IH]; intros i segments e Hall; simpl; [done|].
  destruct (i >? 1); [|done].
  destruct (c_rand P e) as [r e'].
  apply IH. apply seg_set_inside; [apply seg_set_inside|]; try done;
    by apply seg_get_inside.
Qed.

Lemma random_cut_range_inside rs rn segments capacity (e : Env) :
  blocks_inside inside E rs rn -> Forall (segment_inside inside E) segments ->
  match while_loop (S (Z.to_nat rn)) (random_cut_chunk P rs rn)
          (0, segments, capacity, e) with
  | Some (inl st) => Forall (segment_inside inside E) st.1.1.2
  | Some (inr _) => True
  | None => False
  end.
Proof.
  intros Hrange Hall. pose proof Hrange as (Hs & Hn & HsE & Hin).
  apply (while_loop_ind
    (fun st : Z * list gap_fill_segment_t * Z * Env =>
       0 <= st.1.1.1 <= rn /\ Forall (segment_inside inside E) st.1.1.2)
    (fun st : Z * list gap_fill_segment_t * Z * Env =>
       Forall (segment_inside inside E) st.1.1.2)
    (fun _ : Env => True)
    (fun st : Z * list gap_fill_segment_t * Z * Env => Z.to_nat (rn - st.1.1.1)));
    [|simpl; split; [lia|done]|simpl; lia].
  intros [[[produced segs] cap] e0] [Hp Hsegs]. simpl in Hp, Hsegs.
  unfold random_cut_chunk.
  destruct (Z.ltb_spec produced rn) as [Hlt|Hge]; [|done].
  rewrite (size_t_wrap_small (rn - produced)) by (unfold SIZE_MAX, INT_MAX in *; lia).
  set (chunk := if rn - produced >? BUFFER_SIZE then BUFFER_SIZE else rn - produced).
  assert (1 <= chunk <= rn - produced) as Hchunk
    by (unfold chunk, BUFFER_SIZE; destruct (Z.gtb_spec (rn - produced) 512); lia).
  set (grown := if Z.of_nat (length segs) =? cap then _ else _).
  destruct grown as [[cap' e']|e']; [|done].
  rewrite !size_t_wrap_small by (unfold SIZE_MAX, INT_MAX in *; lia).
  simpl. split; [split; [lia|]|lia].
  apply Forall_app. split; [done|]. apply Forall_singleton.
  repeat split; simpl; try lia. intros k Hk. apply Hin. lia.
Qed.

Lemma random_cut_ranges_inside rs :
  Forall (range_inside inside E) rs ->
  forall segments capacity (e : Env),
    Forall (segment_inside inside E) segments ->
    match random_cut_ranges P rs segments capacity e with
    | Some (inl r) => Forall (segment_inside inside E) r.1
    | Some (inr _) => True
    | None => False
    end.
Proof.
  induction 1 as [|range rs Hrange _ IH]; intros segments capacity e Hall;
    cbn [random_cut_ranges]; [done|].
  pose proof (random_cut_range_inside _ _ segments capacity e Hrange Hall) as H.
  destruct (while_loop _ _ _) as [[[[[produced segs] cap] e']|e']|]; [|done|done].
  by apply IH.
Qed.

(** Whatever the ordering, the refill of a plan stores only inside the
    ranges of the plan, and it terminates. *)
Lemma gap_fill_from_plan_frame g (w : world Env) dvd_offset plan errorstrat :
  Forall (range_inside inside E) (ranges plan) ->
  exists rc w' filled,
    gap_fill_from_plan P g w dvd_offset plan errorstrat = Some (rc, w', filled)
    /\ frame w w'.
Proof.
  intros Hall. unfold gap_fill_from_plan.
  destruct (plan_count plan =? 0).
  { exists 0, w, 0. split; [done|apply world_frame_refl]. }
  destruct (alloc_fault P (w_env w)) as [[] e0].
  { exists 1, (with_env w e0), 0. split; [done|].
    apply world_frame_with_env, world_frame_refl. }
  assert (forall strategy,
            exists rc w' filled,
              fill_ranges P strategy errorstrat dvd_offset (ranges plan) (with_env w e0) 0
              = Some (rc, w', filled) /\ frame w w') as Hfill.
  { intros strategy.
    destruct (fill_ranges_frame strategy errorstrat dvd_offset (ranges plan) Hall
                (with_env w e0) 0) as (rc & w' & f' & Heq & Hf).
    by exists rc, w', f'. }
  destruct (gap_strategy g); try apply Hfill.
  pose proof (random_cut_ranges_inside (ranges plan) Hall [] 0 e0 ltac:(constructor)) as Hcut.
  destruct (random_cut_ranges P (ranges plan) [] 0 e0) as [[[segments e1]|e1]|];
    [| |done].
  - simpl in Hcut.
    pose proof (random_shuffle_inside (Z.to_nat (Z.of_nat (length segments)))
                  (Z.of_nat (length segments)) segments
                  (c_srand P e1 (if gap_random_seed_set g then gap_random_seed g else 0))
                  Hcut) as Hshuffle.
    destruct (random_shuffle P _ _ _ _) as [segments' e3]. simpl in Hshuffle.
    destruct (process_segments_frame errorstrat dvd_offset segments' Hshuffle
                (with_env w e3) 0) as (rc & w' & f' & Heq & Hf).
    by exists rc, w', f'.
  - exists 1, (with_env w e1), 0. split; [done|].
    apply world_frame_with_env, world_frame_refl.
Qed.

End FillFacts.

(** ** The refresh of a file *)

Section RefreshFacts.

Context {Env : Type} (P : platform Env).

Lemma gap_plan_add_inside inside E e plan start count :
  plan_ok (ranges plan) -> Forall (range_inside inside E) (ranges plan) ->
  insert_fits (start, count) -> blocks_inside inside E start count ->
  Forall (range_inside inside E) (ranges (gap_plan_add P e plan start count).1.2).
Proof.
  intros Hok Hall Hfits Hin. pose proof Hfits as (Hs & Hc & Hsc). simpl in *.
  destruct (Z.eq_dec count 0) as [->|Hcount]; [done|].
  destruct plan as [rs cap]. simpl in *.
  assert (forall cap', Forall (range_inside inside E)
            (ranges (GapPlan (rs ++ [GapRange start count]) cap'))) as Happ.
  { intros cap'. simpl. apply Forall_app. split; [done|]. by apply Forall_singleton. }
  destruct rs as [|l rs0 _] using rev_ind.
  - destruct (gap_plan_add_append P e (GapPlan [] cap) start count Hfits Hcount)
      as [(cap' & e' & ->)|(e' & -> & _)]; [by intros l [=]|apply Happ|done].
  - pose proof Hok as (Hrs & Hl & Hlt)%plan_ok_snoc.
    apply Forall_app in Hall as [Hall0 Hlin]. rewrite Forall_singleton in Hlin.
    destruct (Z.le_gt_cases start (start_block l + block_count l)) as [Hle|Hgt].
    + rewrite gap_plan_add_coalesce by done. simpl.
      apply Forall_app. split; [done|]. apply Forall_singleton.
      destruct Hl as (? & ? & ?). destruct Hlin as (? & ? & ? & Hlin).
      destruct Hin as (? & ? & ? & Hin).
      repeat split; simpl; try lia.
      intros k Hk.
      destruct (Z.lt_ge_cases k (start_block l + block_count l));
        [apply Hlin|apply Hin]; lia.
    + destruct (gap_plan_add_append P e (GapPlan (rs0 ++ [l]) cap) start count Hfits Hcount)
        as [(cap' & e' & ->)|(e' & -> & _)]; [|apply Happ|].
      * simpl. intros l' Hl'. rewrite last_snoc in Hl'. injection Hl' as <-. split; [done|lia].
      * simpl. apply Forall_app. split; [done|]. by apply Forall_singleton.
Qed.

Lemma gap_plan_add_ret e plan start count :
  (gap_plan_add P e plan start count).1.1 = 0
  \/ (gap_plan_add P e plan start count).1.1 = -1.
Proof.
  unfold gap_plan_add. destruct (count =? 0); [by left|].
  destruct (match last (ranges plan) with Some _ => _ | None => _ end); [by left|].
  destruct (plan_count plan =? capacity plan); [|by left].
  cbv zeta. destruct (alloc_fault P e) as [[] e']; [by right|by left].
Qed.

(** The first part of the refresh: it terminates, and when it goes through
    its plan is ordered, covers only gaps of the file, and the samples are
    those of the spec. *)
Lemma refresh_prepare_ok e file size :
  0 <= size <= INT_MAX -> Z.of_nat (length file) <= OFF_MAX ->
  exists rp,
    refresh_prepare P e file size = Some rp
    /\ (rp_ret rp = 0 \/ rp_ret rp = 1)
    /\ (rp_ret rp = 0 ->
        plan_ok (ranges (rp_plan rp))
        /\ Forall (range_inside (gap_block file size) size) (ranges (rp_plan rp))
        /\ rp_samples rp = samples_spec (ranges (rp_plan rp)) size GAP_SAMPLE_TARGET
        /\ rp_blank_blocks rp
           = count_blank (blank_blockb file) (Z.min (full_blocks_of file) size)
        /\ rp_truncated_blocks rp = size - Z.min (full_blocks_of file) size).
Proof.
  intros Hsize Hlen. unfold refresh_prepare.
  assert (0 <= size <= SIZE_MAX) as Hsz by (unfold INT_MAX, SIZE_MAX in *; lia).
  rewrite (size_t_wrap_small size) by done.
  destruct (scan_existing_file_for_gaps_ok P file e size Hsz Hlen) as (sr & -> & Hret & Hscan).
  destruct (Z.eqb_spec (scan_ret sr) 0) as [H0|Hne]; simpl;
    [|eexists; split; [done|]; simpl; split; [by right|done]].
  destruct (Hscan H0) as (Hfull & Hbytes & Hok & Hruns & Hblank). clear Hscan.
  set (N := Z.min (full_blocks_of file) size) in *.
  assert (0 <= full_blocks_of file) as Hfull0
    by (unfold full_blocks_of, DVD_VIDEO_LB_LEN; apply Z.div_pos; lia).
  replace (if size <? scan_full_blocks sr then size else scan_full_blocks sr) with N
    by (rewrite Hfull; unfold N; destruct (Z.ltb_spec size (full_blocks_of file)); lia).
  assert (Forall (range_inside (gap_block file size) size) (ranges (scan_plan sr))) as Hin.
  { apply Forall_forall. intros [s n] (Hs & Hn & Hsn & Hall & _)%Hruns.
    unfold range_inside, blocks_inside, gap_block. simpl.
    repeat split; try lia. left. apply Hall. lia. }
  destruct (Z.gtb_spec size N) as [Hmore|Hless].
  - rewrite (size_t_wrap_small (size - N)) by lia.
    assert (insert_fits (N, size - N)) as Hfits by (repeat split; simpl; lia).
    assert (blocks_inside (gap_block file size) size N (size - N)) as Hblocks.
    { unfold blocks_inside, gap_block. repeat split; lia. }
    pose proof (gap_plan_add_plan_ok P (scan_env sr) (scan_plan sr) N (size - N) Hok Hfits)
      as Hok'.
    pose proof (gap_plan_add_inside _ size (scan_env sr) (scan_plan sr) N (size - N)
                  Hok Hin Hfits Hblocks) as Hin'.
    pose proof (gap_plan_add_ret (scan_env sr) (scan_plan sr) N (size - N)) as Hrc.
    destruct (gap_plan_add P (scan_env sr) (scan_plan sr) N (size - N)) as [[rc plan] e1].
    simpl in Hok', Hin', Hrc.
    destruct Hrc as [-> | ->]; simpl;
      [|eexists; split; [done|]; simpl; split; [by right|done]].
    rewrite gap_collect_samples_eq by (done || unfold GAP_SAMPLE_TARGET; lia).
    eexists. split; [done|]. simpl. split; [by left|]. intros _. done.
  - rewrite gap_collect_samples_eq by (done || unfold GAP_SAMPLE_TARGET; lia).
    eexists. split; [done|]. simpl. split; [by left|]. intros _.
    split_and!; [done..|unfold N in *; lia].
Qed.

Lemma gap_verify_samples_file offset samples :
  forall w : world Env,
    w_file (gap_verify_samples P w offset samples).2 = w_file w
    /\ w_writes (gap_verify_samples P w offset samples).2 = w_writes w.
Proof.
  induction samples as [|block rest IH]; intros w; simpl; [done|].
  destruct (DVDReadBlocks P (w_env w) _ 1) as [[got dvd_block] e1].
  destruct (negb (got =? 1)); [done|].
  unfold do_pread. simpl.
  destruct (sys_fault P e1) as [[] e2]; simpl; [done|].
  destruct (negb (_ =? DVD_VIDEO_LB_LEN)); [done|].
  destruct (negb (memcmp _ _ _ =? 0)); [done|].
  destruct (IH (with_env (with_env w e1) e2)) as [H1 H2]. by rewrite H1, H2.
Qed.

End RefreshFacts.

Section RefreshFrame.

Context {Env : Type} (P : platform Env).
Hypothesis Hreads : reads_bounded P.

Lemma world_frame_same inside E (w w' : world Env) :
  w_file w' = w_file w -> w_writes w' = w_writes w -> world_frame inside E w w'.
Proof.
  intros Hf Hw. unfold world_frame. rewrite Hf, Hw.
  split; [apply file_frame_refl|]. by exists [].
Qed.

Lemma range_inside_plan_gap rs file E :
  Forall (range_inside (gap_block file E) E) rs ->
  Forall (range_inside (plan_gap rs file E) E) rs.
Proof.
  rewrite !Forall_forall. intros Hall r Hr.
  destruct (Hall r Hr) as (H1 & H2 & H3 & H4).
  unfold range_inside, blocks_inside, plan_gap. split_and!; [done..|].
  intros k Hk. split; [exists r; split; [done|lia]|by apply H4].
Qed.

(** The refresh terminates, and whatever it returns, all it has done to the
    file are stores inside gaps that its plan covers. *)
Lemma DVDCopyBlocksFillGaps_frame g (w : world Env) offset size errorstrat :
  0 <= size <= INT_MAX -> Z.of_nat (length (w_file w)) <= OFF_MAX ->
  exists rp rc report w',
    refresh_prepare P (w_env w) (w_file w) size = Some rp
    /\ DVDCopyBlocksFillGaps P g w offset size errorstrat = Some (rc, report, w')
    /\ world_frame (plan_gap (ranges (rp_plan rp)) (w_file w) size) size w w'.
Proof.
  intros Hsize Hlen.
  destruct (refresh_prepare_ok P (w_env w) (w_file w) size Hsize Hlen)
    as (rp & Hrp & Hret & Hprep).
  exists rp. unfold DVDCopyBlocksFillGaps. rewrite Hrp.
  set (inside := plan_gap (ranges (rp_plan rp)) (w_file w) size).
  destruct Hret as [H0|H1]; rewrite ?H0, ?H1; simpl;
    [|do 3 eexists; split; [done|]; split; [done|]; by apply world_frame_same].
  destruct (Hprep H0) as (Hok & Hin & _). clear Hprep.
  apply range_inside_plan_gap in Hin. fold inside in Hin.
  assert (exists vrc w2,
            (if Z.of_nat (length (rp_samples rp)) >? 0
             then gap_verify_samples P (with_env w (rp_env rp)) offset (rp_samples rp)
             else (0, with_env w (rp_env rp))) = (vrc, w2)
            /\ w_file w2 = w_file w /\ w_writes w2 = w_writes w) as (vrc & w2 & -> & Hf2 & Hw2).
  { destruct (_ >? 0); [|by do 2 eexists].
    destruct (gap_verify_samples_file P offset (rp_samples rp) (with_env w (rp_env rp)))
      as [Hf Hw].
    destruct (gap_verify_samples _ _ _ _) as [vrc w2]. by exists vrc, w2. }
  destruct (negb (vrc =? 0));
    [do 3 eexists; split; [done|]; split; [done|]; by apply world_frame_same|].
  assert (world_frame inside size w w2) as Hw02 by by apply world_frame_same.
  destruct (gap_fill_from_plan_frame P inside size Hreads Hsize g w2 offset (rp_plan rp)
              errorstrat Hin) as (rc & w3 & filled & -> & Hw23).
  pose proof (world_frame_trans inside size _ _ _ Hw02 Hw23) as Hw03.
  assert (0 <= size <= SIZE_MAX) as Hsz by (unfold INT_MAX, SIZE_MAX in *; lia).
  rewrite (size_t_wrap_small size) by done.
  destruct (rc =? 0).
  - assert (Z.of_nat (length (w_file w3)) <= OFF_MAX) as Hlen3.
    { destruct Hw03 as [(_ & Hle & _) _].
      unfold OFF_MAX, INT_MAX, DVD_VIDEO_LB_LEN in *. lia. }
    destruct (scan_existing_file_for_gaps_ok P (w_file w3) (w_env w3) size Hsz Hlen3)
      as (vr & -> & _).
    destruct (scan_ret vr =? 0); simpl;
      (do 3 eexists; split; [done|]; split; [done|]; by apply world_frame_with_env).
  - simpl. do 3 eexists. split; [done|]. split; [done|]. by apply world_frame_with_env.
Qed.

End RefreshFrame.

(** ** Counting gaps *)

Lemma count_blank_mono (B B' : Z -> bool) E :
  0 <= E -> (forall k, 0 <= k < E -> B' k = true -> B k = true) ->
  count_blank B' E <= count_blank B E.
Proof.
  intros HE. revert E HE. apply (natlike_ind (fun E => _ -> _ <= _)).
  - intros _. done.
  - intros E HE IH Hsub. unfold Z.succ. rewrite !count_blank_succ by done.
    specialize (IH ltac:(intros k Hk; apply Hsub; lia)).
    specialize (Hsub E ltac:(lia)).
    destruct (B' E), (B E); try lia; by specialize (Hsub eq_refl).
Qed.

Lemma gap_count_count_blank file E : gap_count file E = count_blank (gap_blockb file) E.
Proof. done. Qed.

Lemma full_blocks_of_nonneg file : 0 <= full_blocks_of file.
Proof. unfold full_blocks_of, DVD_VIDEO_LB_LEN. apply Z.div_pos; lia. Qed.

(** The gaps are the blank blocks and the missing blocks. *)
Lemma gap_count_split file E :
  0 <= E -> gap_count file E = blank_count file E + missing_blocks file E.
Proof.
  rewrite gap_count_count_blank. unfold blank_count, missing_blocks.
  pose proof (full_blocks_of_nonneg file) as Hfull.
  intros HE. revert E HE. apply natlike_ind.
  - rewrite Z.min_r by done. unfold count_blank. simpl. lia.
  - intros E HE IH. unfold Z.succ. rewrite count_blank_succ by done. rewrite IH.
    unfold gap_blockb.
    destruct (Z.leb_spec (full_blocks_of file) E) as [Hge|Hlt]; simpl.
    + rewrite !Z.min_l by lia. lia.
    + rewrite !Z.min_r by lia. rewrite count_blank_succ by done. lia.
Qed.

Lemma file_frame_gap_blockb inside E file file' k :
  file_frame inside E file file' ->
  (forall k, inside k -> gap_block file E k) ->
  0 <= k -> gap_blockb file' k = true -> gap_blockb file k = true.
Proof.
  intros Hframe Hin Hk. unfold gap_blockb.
  destruct (Z.leb_spec (full_blocks_of file) k) as [Hge|Hlt]; [done|]. simpl.
  destruct (blank_blockb file k) eqn:Hblank; [done|].
  assert (~ inside k) as Hout.
  { intros (_ & [Hb|Hf])%Hin; [congruence|lia]. }
  pose proof (file_frame_block _ _ _ _ k Hframe ltac:(lia) Hout) as Hblock.
  assert (full_blocks_of file <= full_blocks_of file') as Hfull.
  { destruct Hframe as (Hlen & _). unfold full_blocks_of, DVD_VIDEO_LB_LEN.
    apply Z.div_le_mono; lia. }
  destruct (Z.leb_spec (full_blocks_of file') k) as [Hge'|_]; [lia|]. simpl.
  unfold blank_blockb in *. by rewrite Hblock, Hblank.
Qed.

(** ** Comparing blocks *)

Lemma memcmp_loop_eq (a : list byte) :
  forall b, length a = length b -> memcmp_loop a b = 0 -> a = b.
Proof.
  induction a as [|x a IH]; intros [|y b] Hlen; simpl in *; try done.
  destruct (Byte.eqb x y) eqn:Hxy.
  - apply Byte.byte_dec_bl in Hxy as ->. intros H. f_equal. apply IH; [lia|done].
  - by destruct (_ <? _)%N.
Qed.

(** ** Verification of the samples *)

Section VerifyFacts.

Context {Env : Type} (P : platform Env).
Hypothesis Hreads : reads_bounded P.



End VerifyFacts.

(** ** The refresh of a file: what it may change *)

Section RefreshProperties.

Context {Env : Type} (P : platform Env).


(** C5 (as the code has it).  Every refresh terminates, and whatever it
    returns, the blank blocks and the missing blocks of the expected range,
    counted together, are no more after it than before, and the file is no
    shorter. *)
Theorem refresh_gap_count_monotone :
  forall (g : globals) (w : world Env) (offset size : Z)
         (errorstrat : read_error_strategy_t),
    reads_bounded P -> 0 <= size <= INT_MAX -> Z.of_nat (length (w_file w)) <= OFF_MAX ->
    exists rc report w',
      DVDCopyBlocksFillGaps P g w offset size errorstrat = Some (rc, report, w')
      /\ blank_count (w_file w') size + missing_blocks (w_file w') size
         <= blank_count (w_file w) size + missing_blocks (w_file w) size
      /\ (length (w_file w) <= length (w_file w'))%nat.
Proof.
  intros g w offset size errorstrat Hreads Hsize Hlen.
  destruct (DVDCopyBlocksFillGaps_frame P Hreads g w offset size errorstrat Hsize Hlen)
    as (rp & rc & report & w' & _ & Hrun & Hframe & _).
  exists rc, report, w'. split; [done|].
  rewrite <- !gap_count_split by lia. rewrite !gap_count_count_blank.
  split; [|by destruct Hframe].
  apply count_blank_mono; [lia|]. intros k Hk.
  apply (file_frame_gap_blockb _ _ _ _ _ Hframe); [|lia].
  by intros k' [_ Hgap].
Qed.

(** C10.  Every refresh terminates, and whatever it returns: each [pwrite]
    it has issued starts at a block boundary and stays inside blocks that
    its plan covers and that were blank or beyond the full blocks of the
    file; each full block of the expected range that was not blank, and
    everything past [size * 2048] bytes, is as it was; and
    [finalize_vob_file] leaves the file alone in this mode. *)
Theorem refresh_writes_only_gaps :
  forall (g : globals) (w : world Env) (offset size : Z)
         (errorstrat : read_error_strategy_t),
    reads_bounded P -> 0 <= size <= INT_MAX -> Z.of_nat (length (w_file w)) <= OFF_MAX ->
    exists rp rc report w',
      refresh_prepare P (w_env w) (w_file w) size = Some rp
      /\ DVDCopyBlocksFillGaps P g w offset size errorstrat = Some (rc, report, w')
      /\ (exists new,
            w_writes w' = new ++ w_writes w
            /\ Forall (write_inside (plan_gap (ranges (rp_plan rp)) (w_file w) size)) new)
      /\ (forall k, 0 <= k < Z.min (full_blocks_of (w_file w)) size ->
            blank_blockb (w_file w) k = false ->
            block_of (w_file w') k = block_of (w_file w) k)
      /\ drop (Z.to_nat (size * DVD_VIDEO_LB_LEN)) (w_file w')
         = drop (Z.to_nat (size * DVD_VIDEO_LB_LEN)) (w_file w)
      /\ (fill_gaps g = true ->
          forall e size_blocks,
            finalize_vob_file P g e (w_file w') size_blocks = (0, w_file w', e)).
Proof.
  intros g w offset size errorstrat Hreads Hsize Hlen.
  destruct (DVDCopyBlocksFillGaps_frame P Hreads g w offset size errorstrat Hsize Hlen)
    as (rp & rc & report & w' & Hrp & Hrun & Hframe & Hlog).
  exists rp, rc, report, w'. split_and!; [done|done|done| | |].
  - intros k Hk Hdata.
    apply (file_frame_block _ _ _ _ k Hframe); [lia|].
    intros (_ & _ & [Hblank|Hfull]); [congruence|lia].
  - eapply file_frame_tail; [| |exact Hframe]; [lia|].
    intros k (_ & Hk & _). lia.
  - intros Hfill e size_blocks. unfold finalize_vob_file. by rewrite Hfill.
Qed.

End RefreshProperties.

(** C5 as stated fails: the refresh of a file of one data block, with two
    blocks expected and a blank second block on the disc, returns 0 and
    leaves one blank block where there was none; the figures it reports are
    no blank block and one missing block before, one blank block and no
    missing block after, one block filled. *)
Lemma refresh_blank_count_can_grow :
  exists w',
    DVDCopyBlocksFillGaps (image_platform (disc1 ++ zeros 2048) 512 0) refresh_forward
      (World tt disc1 0 []) 0 2 STRATEGY_ABORT
    = Some (0, Some (GapReport 0 1 1 0 1), w')
    /\ w_file w' = disc1 ++ zeros 2048
    /\ ~ (blank_count (w_file w') 2 <= blank_count disc1 2).
Proof.
  eexists. split; [vm_compute; reflexivity|]. split; [vm_compute; reflexivity|].
  vm_compute. intros H. by apply H.
Qed.

(** * Further properties *)

(** ** Gap plan: insertion and lookup *)

Lemma in_plan_snoc rs r block :
  in_plan (rs ++ [r]) block
  <-> in_plan rs block \/ start_block r <= block < start_block r + block_count r.
Proof.
  unfold in_plan. split.
  - intros (x & [Hx|Hx%list_elem_of_singleton]%elem_of_app & Hin).
    + left. by exists x.
    + right. by subst.
  - intros [(x & Hx & Hin)|Hin].
    + exists x. split; [apply elem_of_app; by left|done].
    + exists r. split; [apply elem_of_app; right; by apply list_elem_of_singleton|done].
Qed.

Lemma starts_nondecreasing_weaken prev prev' inserts :
  prev' <= prev -> starts_nondecreasing prev inserts -> starts_nondecreasing prev' inserts.
Proof. destruct inserts as [|[s c] rest]; simpl; [done|]. intros ? [? ?]. split; [lia|done]. Qed.

Section PlanExtras.

Context {Env : Type} (P : platform Env).

(** One insertion whose start is not before the start of the last range:
    it fails only when the allocation fails, and then the plan is as it
    was; otherwise the plan covers what it covered and the inserted
    blocks, and its last range starts at or before [start]. *)
Lemma gap_plan_add_in_plan e plan start count :
  plan_ok (ranges plan) -> insert_fits (start, count) ->
  (forall l, last (ranges plan) = Some l -> start_block l <= start) ->
  ((gap_plan_add P e plan start count).1.1 = 0
   \/ (gap_plan_add P e plan start count).1.1 = -1)
  /\ ((gap_plan_add P e plan start count).1.1 = 0 ->
      (forall block,
          in_plan (ranges (gap_plan_add P e plan start count).1.2) block
          <-> in_plan (ranges plan) block \/ start <= block < start + count)
      /\ (forall l, last (ranges (gap_plan_add P e plan start count).1.2) = Some l ->
            start_block l <= start)).
Proof.
  intros Hok Hfits Hlast. pose proof Hfits as (Hs & Hc & Hsc). simpl in *.
  destruct (Z.eq_dec count 0) as [->|Hcount].
  { rewrite gap_plan_add_zero. simpl. split; [by left|]. intros _. split; [|done].
    intros block. split; [by left|]. intros [?|?]; [done|lia]. }
  destruct plan as [rs cap]. simpl in *.
  destruct rs as [|l rs0 _] using rev_ind.
  - destruct (gap_plan_add_append P e (GapPlan [] cap) start count Hfits Hcount)
      as [(cap' & e' & ->)|(e' & -> & _)]; [by intros l [=]| |by split; [right|]].
    simpl. split; [by left|]. intros _. split.
    + intros block. apply (in_plan_snoc []).
    + intros l [= <-]. simpl. lia.
  - pose proof Hok as (Hrs & Hl & Hlt)%plan_ok_snoc.
    specialize (Hlast l (last_snoc _ _)).
    destruct (Z.le_gt_cases start (start_block l + block_count l)) as [Hle|Hgt].
    + rewrite gap_plan_add_coalesce by done. simpl. split; [by left|]. intros _. split.
      * intros block. rewrite !in_plan_snoc. simpl.
        destruct Hl as (Hl1 & Hl2 & Hl3). split.
        -- intros [Hin|Hin]; [by left; left|].
           destruct (Z.lt_ge_cases block (start_block l + block_count l));
             [left; right; lia|right; lia].
        -- intros [[Hin|Hin]|Hin]; [by left|right; lia|right; lia].
      * intros l'. rewrite last_snoc. intros [= <-]. simpl. lia.
    + destruct (gap_plan_add_append P e (GapPlan (rs0 ++ [l]) cap) start count Hfits Hcount)
        as [(cap' & e' & ->)|(e' & -> & _)]; [| |by split; [right|]].
      * simpl. intros l' Hl'. rewrite last_snoc in Hl'. injection Hl' as <-. split; [done|lia].
      * simpl. split; [by left|]. intros _. split.
        -- intros block. apply in_plan_snoc.
        -- intros l'. rewrite last_snoc. intros [= <-]. simpl. lia.
Qed.

Lemma gap_plan_add_all_in_plan inserts :
  forall e plan prev,
    plan_ok (ranges plan) -> Forall insert_fits inserts ->
    starts_nondecreasing prev inserts ->
    (forall l, last (ranges plan) = Some l -> start_block l <= prev) ->
    (gap_plan_add_all P e plan inserts).1.1 = 0 ->
    plan_ok (ranges (gap_plan_add_all P e plan inserts).1.2)
    /\ forall block,
         in_plan (ranges (gap_plan_add_all P e plan inserts).1.2) block
         <-> in_plan (ranges plan) block \/ in_inserts inserts block.
Proof.
  induction inserts as [|[start count] rest IH]; intros e plan prev Hok Hfits Hsorted Hlast;
    simpl.
  - intros _. split; [done|]. intros block. split; [by left|].
    intros [?|(ins & Hins & _)]; [done|]. by apply elem_of_nil in Hins.
  - apply Forall_cons in Hfits as [Hfit Hfits]. destruct Hsorted as [Hprev Hsorted].
    pose proof (gap_plan_add_plan_ok P e plan start count Hok Hfit) as Hok'.
    destruct (gap_plan_add_in_plan e plan start count Hok Hfit) as [_ Hstep].
    { intros l Hl. specialize (Hlast l Hl). lia. }
    destruct (gap_plan_add P e plan start count) as [[rc plan'] e']. simpl in *.
    destruct (Z.eqb_spec rc 0) as [->|Hrc]; simpl; [|done].
    destruct (Hstep eq_refl) as [Hcover Hlast']. intros Hall.
    destruct (IH e' plan' start Hok' Hfits Hsorted Hlast' Hall) as [Hok'' Hrest].
    split; [done|]. intros block. rewrite Hrest, Hcover. unfold in_inserts. split.
    + intros [[?|Hin]|(ins & Hins & Hin)]; [by left| |].
      * right. exists (start, count). split; [apply list_elem_of_here|done].
      * right. exists ins. split; [by apply list_elem_of_further|done].
    + intros [?|(ins & [->|Hins]%elem_of_cons & Hin)]; [by left; left|by left; right|].
      right. by exists ins.
Qed.

Lemma gap_plan_add_capacity e plan start count :
  plan_count plan <= capacity plan -> plan_count plan < SIZE_MAX ->
  plan_count (gap_plan_add P e plan start count).1.2
    <= capacity (gap_plan_add P e plan start count).1.2
  /\ plan_count (gap_plan_add P e plan start count).1.2 <= plan_count plan + 1.
Proof.
  intros Hcap Hmax. unfold gap_plan_add.
  destruct (count =? 0); [simpl; lia|].
  destruct (match last (ranges plan) with Some _ => _ | None => _ end) as [plan'|] eqn:Ec.
  - simpl. destruct (last (ranges plan)) as [l|]; [|done].
    destruct (start <=? _); [|done].
    destruct (_ >? _); injection Ec as <-; [|lia].
    unfold set_last_range, plan_count in *. simpl. rewrite length_insert. lia.
  - assert (forall cap, plan_count (GapPlan (ranges plan ++ [GapRange start count]) cap)
                        = plan_count plan + 1) as Hcount.
    { intros cap. unfold plan_count. simpl. rewrite length_app. simpl. lia. }
    destruct (Z.eqb_spec (plan_count plan) (capacity plan)) as [Heq|Hne].
    + cbv zeta. destruct (alloc_fault P e) as [[] e']; simpl; [lia|].
      rewrite Hcount. split; [|lia]. unfold plan_count in *. simpl.
      rewrite (size_t_wrap_small (Z.of_nat (length (ranges plan)) + 1))
        by (unfold SIZE_MAX in *; lia).
      destruct (Z.ltb_spec (if capacity plan =? 0 then 8 else size_t_wrap (capacity plan * 2))
                           (Z.of_nat (length (ranges plan)) + 1)); lia.
    + simpl. rewrite Hcount. split; [|lia]. unfold plan_count in *. simpl. lia.
Qed.

End PlanExtras.

(** X1.  Ranges inserted into the empty plan in non-decreasing start order,
    every insertion succeeding: [gap_plan_contains] answers 1 for a block
    exactly when the block lies in one of the inserted ranges. *)
Theorem gap_plan_insert_then_contains :
  forall {Env : Type} (P : platform Env) (e : Env) (inserts : list (Z * Z)) (block : Z),
    Forall insert_fits inserts ->
    starts_nondecreasing 0 inserts ->
    (gap_plan_add_all P e empty_plan inserts).1.1 = 0 ->
    gap_plan_contains (gap_plan_add_all P e empty_plan inserts).1.2 block = true
    <-> in_inserts inserts block.
Proof.
  intros Env P e inserts block Hfits Hsorted Hall.
  destruct (gap_plan_add_all_in_plan P inserts e empty_plan 0 plan_ok_nil Hfits Hsorted)
    as [Hok Hcover]; [by intros l [=]|done|].
  unfold gap_plan_contains. rewrite (gap_plan_contains_from_spec _ _ Hok), Hcover.
  split; [|by right]. intros [(r & Hr & _)|?]; [|done]. by apply elem_of_nil in Hr.
Qed.

(** X2.  A plan built from the empty plan never holds more ranges than the
    array allocated for it: after any sequence of insertions the count is at
    most the capacity. *)
Theorem gap_plan_count_within_capacity :
  forall {Env : Type} (P : platform Env) (e : Env) (inserts : list (Z * Z)),
    Z.of_nat (length inserts) < SIZE_MAX ->
    plan_count (gap_plan_add_all P e empty_plan inserts).1.2
    <= capacity (gap_plan_add_all P e empty_plan inserts).1.2.
Proof.
  intros Env P e inserts Hlen.
  assert (forall ins e plan,
            plan_count plan <= capacity plan ->
            plan_count plan + Z.of_nat (length ins) < SIZE_MAX ->
            plan_count (gap_plan_add_all P e plan ins).1.2
            <= capacity (gap_plan_add_all P e plan ins).1.2) as Hgen.
  { induction ins as [|[start count] rest IH]; intros e0 plan Hcap Hmax; simpl; [done|].
    simpl in Hmax.
    destruct (gap_plan_add_capacity P e0 plan start count Hcap ltac:(lia)) as [Hcap' Hgrow].
    destruct (gap_plan_add P e0 plan start count) as [[rc plan'] e']. simpl in *.
    destruct (negb (rc =? 0)); [done|]. apply IH; [done|lia]. }
  apply Hgen; [done|]. unfold plan_count. simpl. lia.
Qed.

(** ** The two sorts *)

Lemma swap_pair_same_pairs n pairs sector title i j :
  0 <= i < n -> 0 <= j < n ->
  same_pairs n pairs (sector, title) -> same_pairs n pairs (swap_pair sector title i j).
Proof.
  intros Hi Hj (Hls & Hlt & Hperm). simpl in *.
  pose proof (swap_pair_length sector title i j) as [Hl1 Hl2].
  split; [lia|]. split; [lia|]. rewrite <- Hperm.
  unfold swap_pair, arr_set, arr_get. simpl.
  destruct (lookup_lt_is_Some_2 sector (Z.to_nat i) ltac:(lia)) as [si Hsi].
  destruct (lookup_lt_is_Some_2 sector (Z.to_nat j) ltac:(lia)) as [sj Hsj].
  destruct (lookup_lt_is_Some_2 title (Z.to_nat i) ltac:(lia)) as [ti Hti].
  destruct (lookup_lt_is_Some_2 title (Z.to_nat j) ltac:(lia)) as [tj Htj].
  rewrite Hsi, Hsj, Hti, Htj. simpl.
  rewrite <- !(insert_zip_with pair).
  apply Permutation_insert_swap; apply lookup_zip_with_Some; by eexists _, _.
Qed.

Lemma bsort_min_to_max_same_pairs sector title n :
  Z.of_nat (length sector) = n -> Z.of_nat (length title) = n ->
  same_pairs n (zip sector title) (bsort_min_to_max sector title n).
Proof.
  intros Hls Hlt. unfold bsort_min_to_max.
  apply (for_range_ind (fun _ st => same_pairs n (zip sector title) st)); [lia|done|].
  intros i st Hi Hst.
  apply (for_range_ind (fun _ st => same_pairs n (zip sector title) st)); [lia|done|].
  intros j [s t] Hj Hst'. destruct (_ <? _); [|done]. by apply swap_pair_same_pairs.
Qed.

Lemma bsort_max_to_min_same_pairs sector title n :
  Z.of_nat (length sector) = n -> Z.of_nat (length title) = n ->
  same_pairs n (zip sector title) (bsort_max_to_min sector title n).
Proof.
  intros Hls Hlt. unfold bsort_max_to_min.
  apply (for_range_ind (fun _ st => same_pairs n (zip sector title) st)); [lia|done|].
  intros i st Hi Hst.
  apply (for_range_ind (fun _ st => same_pairs n (zip sector title) st)); [lia|done|].
  intros j [s t] Hj Hst'. destruct (_ >? _); [|done]. by apply swap_pair_same_pairs.
Qed.

Section SortingDown.

Variable n : Z.

Lemma bsort_down_inner_step i j st :
  0 <= i < n -> 0 <= j < n -> bsort_down_inner_inv n i j st ->
  bsort_down_inner_inv n i (j + 1)
    (let '(sector, title) := st in
     if arr_get sector i >? arr_get sector j then swap_pair sector title i j
     else (sector, title)).
Proof.
  intros Hi Hj. destruct st as [sector title].
  intros (Hls & Hlt & Hsorted & Hle). simpl in *.
  destruct (Z.gtb_spec (arr_get sector i) (arr_get sector j)) as [Hgt|Hle'].
  - pose proof (swap_pair_length sector title i j) as [Hl1 Hl2].
    pose proof (fun k => swap_pair_get sector title i j k ltac:(lia) ltac:(lia)) as Hget.
    unfold bsort_down_inner_inv. split; [lia|]. split; [lia|]. split.
    + intros p q Hp Hpq Hq. rewrite !Hget by lia.
      pose proof (Hsorted p q Hp Hpq Hq) as H1.
      assert (p < j -> arr_get sector i <= arr_get sector p) as H2
        by (intros; apply Hle; lia).
      destruct (Z.eq_dec p j), (Z.eq_dec q j), (Z.eq_dec p i), (Z.eq_dec q i);
        subst; lia.
    + intros p Hp. rewrite !Hget by lia.
      assert (p < j -> arr_get sector i <= arr_get sector p) as H2
        by (intros; apply Hle; lia).
      destruct (Z.eq_dec i j), (Z.eq_dec i i), (Z.eq_dec p j), (Z.eq_dec p i);
        subst; lia.
  - split; [done|]. split; [done|]. split; [done|]. simpl.
    intros p Hp. destruct (Z.eq_dec p j) as [->|?]; [lia|]. apply Hle. lia.
Qed.

Lemma bsort_down_outer_step i st :
  0 <= i < n -> bsort_down_outer_inv n i st ->
  bsort_down_outer_inv n (i + 1)
    (for_range 0 n (fun j st =>
       let '(sector, title) := st in
       if arr_get sector i >? arr_get sector j then swap_pair sector title i j
       else (sector, title)) st).
Proof.
  intros Hi (Hls & Hlt & Hsorted).
  set (body := fun (j : Z) (st : list Z * list Z) => _).
  assert (bsort_down_inner_inv n i n (for_range 0 n body st))
    as (Hls' & Hlt' & Hsorted' & Hle).
  { apply (for_range_ind (bsort_down_inner_inv n i)); [lia| |].
    - repeat split; try done. intros p Hp. lia.
    - intros j s Hj Hinv. by apply bsort_down_inner_step. }
  repeat split; try done.
  intros p q Hp Hpq Hq.
  destruct (Z.eq_dec q i) as [->|?]; [apply Hle; lia|].
  apply Hsorted'; lia.
Qed.

Lemma bsort_max_to_min_sorted sector title :
  Z.of_nat (length sector) = n -> Z.of_nat (length title) = n ->
  bsort_down_outer_inv n n (bsort_max_to_min sector title n).
Proof.
  intros Hls Hlt. unfold bsort_max_to_min.
  apply (for_range_ind (bsort_down_outer_inv n)); [lia| |].
  - repeat split; try done. intros p q Hp Hpq Hq. lia.
  - intros i s Hi Hinv. by apply bsort_down_outer_step.
Qed.

End SortingDown.

(** X3.  [bsort_min_to_max] leaves the first array in non-decreasing order
    and keeps the pairs: the (sector, title) pairs after the sort are those
    before it, in another order. *)
Theorem bsort_min_to_max_sorts_pairs :
  forall (sector title : list Z) (size : Z),
    size = Z.of_nat (length sector) -> size = Z.of_nat (length title) ->
    sorted_upto (bsort_min_to_max sector title size).1 size
    /\ zip (bsort_min_to_max sector title size).1 (bsort_min_to_max sector title size).2
       ≡ₚ zip sector title.
Proof.
  intros sector title size Hls Hlt. split.
  - destruct (bsort_min_to_max_sorted (fun _ => True) size sector title) as (_ & _ & _ & H);
      [done|done|by intros k Hk|done].
  - by destruct (bsort_min_to_max_same_pairs sector title size) as (_ & _ & H).
Qed.

(** X4.  [bsort_max_to_min] leaves the first array in non-increasing order
    and keeps the pairs. *)
Theorem bsort_max_to_min_sorts_pairs :
  forall (sector title : list Z) (size : Z),
    size = Z.of_nat (length sector) -> size = Z.of_nat (length title) ->
    sorted_down_upto (bsort_max_to_min sector title size).1 size
    /\ zip (bsort_max_to_min sector title size).1 (bsort_max_to_min sector title size).2
       ≡ₚ zip sector title.
Proof.
  intros sector title size Hls Hlt. split.
  - by destruct (bsort_max_to_min_sorted size sector title) as (_ & _ & H).
  - by destruct (bsort_max_to_min_same_pairs sector title size) as (_ & _ & H).
Qed.

(** ** Feature guesser: the size test *)

Lemma int_div_nonneg a b :
  0 <= a <= INT_MAX -> 0 < b -> int_div a b = a / b.
Proof.
  intros Ha Hb. unfold int_div. rewrite Z.quot_div_nonneg by lia.
  apply int_wrap_small. unfold INT_MIN, INT_MAX in *.
  pose proof (Z.div_pos a b ltac:(lia) Hb).
  pose proof (Z.div_le_upper_bound a b a Hb ltac:(nia)). lia.
Qed.

Lemma int_mod_nonneg a b :
  0 <= a <= INT_MAX -> 0 < b -> int_mod a b = a mod b.
Proof.
  intros Ha Hb. unfold int_mod. rewrite Z.rem_mod_nonneg by lia.
  apply int_wrap_small. unfold INT_MIN, INT_MAX in *.
  pose proof (Z.mod_pos_bound a b Hb). pose proof (Z.mod_le a b ltac:(lia) Hb). lia.
Qed.

Lemma div_eq_1 a b : 0 <= a -> 0 < b -> a / b = 1 <-> b <= a < 2 * b.
Proof.
  intros Ha Hb. split.
  - intros H. pose proof (Z.div_mod a b ltac:(lia)) as Hdm.
    pose proof (Z.mod_pos_bound a b Hb). rewrite H in Hdm. lia.
  - intros H. symmetry. apply (Z.div_unique a b 1 (a - b)); lia.
Qed.

(** X5.  On sizes that are not negative and whose double fits an [int],
    [CheckSizeArray] answers 1 exactly when the target is not empty, is at
    most the reference, and the reference is less than one and a half times
    the target; otherwise it answers 0. *)
Theorem CheckSizeArray_same_size_range :
  forall (size_array : list Z) (reference target : Z),
    0 <= arr_get size_array reference <= 2 ^ 30 - 1 ->
    0 <= arr_get size_array target <= INT_MAX ->
    (CheckSizeArray size_array reference target = 1
     \/ CheckSizeArray size_array reference target = 0)
    /\ (CheckSizeArray size_array reference target = 1
        <-> 0 < arr_get size_array target <= arr_get size_array reference
            /\ 2 * arr_get size_array reference < 3 * arr_get size_array target).
Proof.
  intros size_array reference target. unfold CheckSizeArray.
  set (r := arr_get size_array reference). set (t := arr_get size_array target).
  intros Hr Ht.
  destruct (Z.eqb_spec t 0) as [H0|H0]; cbn [andb]; [split; [by right|split; [done|lia]]|].
  assert (0 < t) as Hpos by lia.
  rewrite (int_div_nonneg r t) by (unfold INT_MAX; lia).
  destruct (Z.eqb_spec (r / t) 1) as [H1|H1]; cbn [andb].
  - apply div_eq_1 in H1; [|lia|done].
    rewrite (int_wrap_small (r * 2)) by (unfold INT_MIN, INT_MAX; lia).
    rewrite (int_wrap_small (r * 2 - t)) by (unfold INT_MIN, INT_MAX in *; lia).
    rewrite (int_div_nonneg (r * 2 - t) t) by (unfold INT_MAX in *; lia).
    rewrite (int_mod_nonneg r t) by (unfold INT_MAX; lia).
    assert (r mod t = r - t) as ->.
    { symmetry. apply (Z.mod_unique r t 1); lia. }
    rewrite (int_wrap_small ((r - t) * 3)) by (unfold INT_MIN, INT_MAX; lia).
    destruct (Z.eqb_spec ((r * 2 - t) / t) 1) as [H2|H2]; cbn [andb].
    + apply div_eq_1 in H2; [|lia|done].
      destruct (Z.ltb_spec ((r - t) * 3) r); split; (by left) || (by right) || idtac;
        split; try done; lia.
    + split; [by right|]. split; [done|]. intros [? ?]. exfalso. apply H2, div_eq_1; lia.
  - split; [by right|]. split; [done|]. intros [? ?]. exfalso. apply H1, div_eq_1; lia.
Qed.

(** ** Feature guesser: the three rankings *)

Lemma found_in_ranking_spec title_sets temp candidate count_array title_set_array :
  forall fuel i,
    0 <= i -> fuel = Z.to_nat (title_sets - i) ->
    (forall j, 0 <= j < i ->
       temp <= arr_get count_array j /\ arr_get title_set_array j <> candidate) ->
    (found_in_ranking fuel i title_sets temp candidate count_array title_set_array = 1
     /\ ranked_at_top title_sets temp candidate count_array title_set_array)
    \/ (found_in_ranking fuel i title_sets temp candidate count_array title_set_array = 0
        /\ ~ ranked_at_top title_sets temp candidate count_array title_set_array).
Proof.
  induction fuel as [|fuel IH]; intros i Hi Hfuel Hbefore; simpl.
  - right. split; [done|]. intros (k & Hk & Hcand & _).
    destruct (Hbefore k ltac:(lia)) as [_ Hne]. done.
  - destruct (Z.ltb_spec i title_sets) as [Hlt|?]; [|lia].
    destruct (Z.ltb_spec (arr_get count_array i) temp) as [Hlow|Hhigh].
    + right. split; [done|]. intros (k & Hk & Hcand & Hall).
      destruct (Z.lt_ge_cases k i) as [Hki|Hki].
      * by destruct (Hbefore k ltac:(lia)) as [_ Hne].
      * specialize (Hall i ltac:(lia)). lia.
    + destruct (Z.eqb_spec candidate (arr_get title_set_array i)) as [Heq|Hne].
      * left. split; [done|]. exists i. split; [lia|]. split; [done|].
        intros j Hj. destruct (Z.eq_dec j i) as [->|?]; [lia|].
        apply Hbefore. lia.
      * apply IH; [lia|lia|]. intros j Hj.
        destruct (Z.eq_dec j i) as [->|?]; [split; [lia|congruence]|].
        apply Hbefore. lia.
Qed.

(** X6.  [CheckAudioSubChannels] counts the rankings, of audio streams,
    sub-pictures and channels, in which the candidate stands before the
    first entry that is below the reference entry: the value is the sum of
    three terms, one for each ranking, which is 1 when the candidate stands
    so in that ranking and 0 when it does not.  So the value is between 0
    and 3, it is 3 exactly when the candidate stands so in all three, and 0
    exactly when it does in none. *)
Theorem CheckAudioSubChannels_counts :
  forall (audio_audio_array title_set_audio_array
          subpicture_sub_array title_set_sub_array
          channels_channel_array title_set_channel_array : list Z)
         (reference candidate title_sets : Z),
    let found :=
      CheckAudioSubChannels audio_audio_array title_set_audio_array
        subpicture_sub_array title_set_sub_array
        channels_channel_array title_set_channel_array
        reference candidate title_sets in
    let audio :=
      ranked_at_top title_sets (arr_get audio_audio_array reference) candidate
        audio_audio_array title_set_audio_array in
    let sub :=
      ranked_at_top title_sets (arr_get subpicture_sub_array reference) candidate
        subpicture_sub_array title_set_sub_array in
    let channels :=
      ranked_at_top title_sets (arr_get channels_channel_array reference) candidate
        channels_channel_array title_set_channel_array in
    (exists found_audio found_sub found_channels,
       found = found_audio + found_sub + found_channels
       /\ (found_audio = 1 /\ audio \/ found_audio = 0 /\ ~ audio)
       /\ (found_sub = 1 /\ sub \/ found_sub = 0 /\ ~ sub)
       /\ (found_channels = 1 /\ channels \/ found_channels = 0 /\ ~ channels))
    /\ 0 <= found <= 3
    /\ (found = 3 <-> audio /\ sub /\ channels)
    /\ (found = 0 <-> ~ audio /\ ~ sub /\ ~ channels).
Proof.
  intros a ta s ts c tc reference candidate title_sets. cbv zeta.
  unfold CheckAudioSubChannels.
  assert (forall temp counts sets,
            (found_in_ranking (Z.to_nat title_sets) 0 title_sets temp candidate counts sets = 1
             /\ ranked_at_top title_sets temp candidate counts sets)
            \/ (found_in_ranking (Z.to_nat title_sets) 0 title_sets temp candidate counts sets
                = 0
                /\ ~ ranked_at_top title_sets temp candidate counts sets)) as Hloop.
  { intros temp counts sets. apply found_in_ranking_spec; [lia|f_equal; lia|].
    intros j Hj. lia. }
  destruct (Hloop (arr_get a reference) a ta) as [[-> Ha]|[-> Ha]];
    destruct (Hloop (arr_get s reference) s ts) as [[-> Hs]|[-> Hs]];
    destruct (Hloop (arr_get c reference) c tc) as [[-> Hc]|[-> Hc]];
    match goal with
    | |- context [int_wrap ?x] =>
        let v := eval vm_compute in (int_wrap x) in change (int_wrap x) with v
    end;
    (split;
     [eexists _, _, _; split; [|split; [|split]];
      [|first [left; split; [reflexivity|eassumption]
              |right; split; [reflexivity|eassumption]]..]; reflexivity|]);
    (split; [lia|]); split; split; (lia || tauto).
Qed.

(** ** Feature guesser: rankings of the title sets *)

Lemma fill_array_length {A : Type} n (f : Z -> A) : length (fill_array n f) = Z.to_nat n.
Proof. unfold fill_array. by rewrite length_map, length_seqZ. Qed.

Lemma fill_array_lookup {A : Type} n (f : Z -> A) (k : Z) :
  0 <= k < n -> fill_array n f !! Z.to_nat k = Some (f k).
Proof.
  intros Hk. unfold fill_array. rewrite list_lookup_fmap.
  rewrite (lookup_seqZ_lt 0 n (Z.to_nat k)) by lia. simpl. f_equal. f_equal. lia.
Qed.

Lemma arr_get_fill_array n f k : 0 <= k < n -> arr_get (fill_array n f) k = f k.
Proof. intros Hk. unfold arr_get. by rewrite fill_array_lookup. Qed.

Lemma arr_get_zip (s t : list Z) n i :
  Z.of_nat (length s) = n -> Z.of_nat (length t) = n -> 0 <= i < n ->
  zip s t !! Z.to_nat i = Some (arr_get s i, arr_get t i).
Proof.
  intros Hs Ht Hi. unfold arr_get.
  destruct (lookup_lt_is_Some_2 s (Z.to_nat i) ltac:(lia)) as [x Hx].
  destruct (lookup_lt_is_Some_2 t (Z.to_nat i) ltac:(lia)) as [y Hy].
  rewrite Hx, Hy. simpl. apply lookup_zip_with_Some. by eexists _, _.
Qed.

Lemma elem_of_zip_arr (s t : list Z) n (x y : Z) :
  Z.of_nat (length s) = n -> Z.of_nat (length t) = n ->
  (x, y) ∈ zip s t <-> exists i, 0 <= i < n /\ arr_get s i = x /\ arr_get t i = y.
Proof.
  intros Hs Ht. split.
  - intros [i Hi]%list_elem_of_lookup.
    pose proof (lookup_lt_Some _ _ _ Hi) as Hlt. rewrite length_zip_with in Hlt.
    exists (Z.of_nat i). split; [lia|].
    rewrite <- (Nat2Z.id i) in Hi.
    rewrite (arr_get_zip s t n (Z.of_nat i)) in Hi by lia. by injection Hi.
  - intros (i & Hi & <- & <-). eapply list_elem_of_lookup_2. by apply (arr_get_zip s t n).
Qed.

(** A ranking holds every title set once, with its count, the counts in
    non-increasing order. *)
Lemma ranking_spec counts n :
  0 <= n ->
  Z.of_nat (length (ranking counts n).1) = n
  /\ Z.of_nat (length (ranking counts n).2) = n
  /\ sorted_down_upto (ranking counts n).1 n
  /\ (forall i, 0 <= i < n ->
        exists k, 0 <= k < n /\ arr_get (ranking counts n).1 i = counts k
                  /\ arr_get (ranking counts n).2 i = k + 1)
  /\ (forall k, 0 <= k < n ->
        exists i, 0 <= i < n /\ arr_get (ranking counts n).1 i = counts k
                  /\ arr_get (ranking counts n).2 i = k + 1).
Proof.
  intros Hn. unfold ranking.
  set (cs := fill_array n counts). set (ns := fill_array n (fun counter => counter + 1)).
  assert (Z.of_nat (length cs) = n) as Hcs by (unfold cs; rewrite fill_array_length; lia).
  assert (Z.of_nat (length ns) = n) as Hns by (unfold ns; rewrite fill_array_length; lia).
  destruct (bsort_max_to_min_same_pairs cs ns n Hcs Hns) as (Hl1 & Hl2 & Hperm).
  destruct (bsort_max_to_min_sorted n cs ns Hcs Hns) as (_ & _ & Hsorted).
  set (r := bsort_max_to_min cs ns n) in *.
  assert (forall x y, (x, y) ∈ zip r.1 r.2
                      <-> exists k, 0 <= k < n /\ x = counts k /\ y = k + 1) as Hpairs.
  { intros x y. rewrite Hperm, (elem_of_zip_arr cs ns n) by done. split.
    - intros (k & Hk & <- & <-). exists k. unfold cs, ns.
      by rewrite !arr_get_fill_array by done.
    - intros (k & Hk & -> & ->). exists k. unfold cs, ns.
      by rewrite !arr_get_fill_array by done. }
  split; [done|]. split; [done|]. split; [done|]. split.
  - intros i Hi. apply Hpairs, (elem_of_zip_arr r.1 r.2 n); [done|done|by exists i].
  - intros k Hk.
    destruct (proj1 (elem_of_zip_arr r.1 r.2 n (counts k) (k + 1) Hl1 Hl2)) as (i & Hi & H1 & H2).
    { apply Hpairs. by exists k. }
    by exists i.
Qed.

(** In a ranking the candidate stands before the first entry below the top
    entry exactly when it is a title set with the greatest count. *)
Lemma ranked_at_top_has_most counts n candidate :
  0 <= n ->
  ranked_at_top n (arr_get (ranking counts n).1 0) candidate
                (ranking counts n).1 (ranking counts n).2
  <-> has_most counts n candidate.
Proof.
  intros Hn. destruct (ranking_spec counts n Hn) as (Hl1 & Hl2 & Hsorted & Hfrom & Hto).
  set (r := ranking counts n) in *. split.
  - intros (i & Hi & Hcand & Hall).
    destruct (Hfrom i Hi) as (k & Hk & Hc & Ht).
    split; [lia|]. intros k' Hk'.
    destruct (Hto k' Hk') as (i' & Hi' & Hc' & _).
    replace (candidate - 1) with k by lia. rewrite <- Hc, <- Hc'.
    pose proof (Hall i ltac:(lia)). pose proof (Hsorted 0 i' ltac:(lia) ltac:(lia) ltac:(lia)).
    lia.
  - intros [Hcand Hmost].
    destruct (Hto (candidate - 1) ltac:(lia)) as (i & Hi & Hc & Ht).
    exists i. split; [done|]. split; [lia|]. intros j Hj.
    destruct (Hfrom 0 ltac:(lia)) as (k0 & Hk0 & Hc0 & _).
    pose proof (Hmost k0 Hk0). pose proof (Hsorted j i ltac:(lia) ltac:(lia) ltac:(lia)).
    lia.
Qed.

(** X7.  On the rankings that [DVDGetInfo] builds, [CheckAudioSubChannels]
    with reference 0 answers 3 exactly when the candidate is a title set
    that no other exceeds in audio streams, in sub-pictures or in channels,
    and 0 exactly when it is exceeded in all three. *)
Theorem CheckAudioSubChannels_on_rankings :
  forall (audio sub channels : Z -> Z) (title_sets candidate : Z),
    0 <= title_sets ->
    let found :=
      CheckAudioSubChannels (ranking audio title_sets).1 (ranking audio title_sets).2
        (ranking sub title_sets).1 (ranking sub title_sets).2
        (ranking channels title_sets).1 (ranking channels title_sets).2
        0 candidate title_sets in
    (found = 3 <-> has_most audio title_sets candidate
                   /\ has_most sub title_sets candidate
                   /\ has_most channels title_sets candidate)
    /\ (found = 0 <-> ~ has_most audio title_sets candidate
                      /\ ~ has_most sub title_sets candidate
                      /\ ~ has_most channels title_sets candidate).
Proof.
  intros audio sub channels n candidate Hn. cbv zeta.
  rewrite <- !(ranked_at_top_has_most _ n candidate Hn).
  unfold CheckAudioSubChannels.
  assert (forall temp counts sets,
            (found_in_ranking (Z.to_nat n) 0 n temp candidate counts sets = 1
             /\ ranked_at_top n temp candidate counts sets)
            \/ (found_in_ranking (Z.to_nat n) 0 n temp candidate counts sets = 0
                /\ ~ ranked_at_top n temp candidate counts sets)) as Hloop.
  { intros temp counts sets. apply found_in_ranking_spec; [lia|f_equal; lia|].
    intros j Hj. lia. }
  destruct (Hloop (arr_get (ranking audio n).1 0) (ranking audio n).1 (ranking audio n).2)
    as [[-> Ha]|[-> Ha]];
    destruct (Hloop (arr_get (ranking sub n).1 0) (ranking sub n).1 (ranking sub n).2)
      as [[-> Hs]|[-> Hs]];
    destruct (Hloop (arr_get (ranking channels n).1 0)
                (ranking channels n).1 (ranking channels n).2) as [[-> Hc]|[-> Hc]];
    match goal with
    | |- context [int_wrap ?x] =>
        let v := eval vm_compute in (int_wrap x) in change (int_wrap x) with v
    end; split; split; (lia || tauto).
Qed.

(** ** Feature guesser: the guess *)

Lemma main_title_set_guess_plain v info a titles title_sets aspect beyond :
  (title_sets <= 1 \/ CheckSizeArray (size_size_array a) 0 1 <> 1) ->
  main_title_set_guess v info a titles title_sets aspect beyond
  = arr_get (title_set_size_array a) 0.
Proof.
  intros Hplain. unfold main_title_set_guess, first_candidate.
  assert ((title_sets >? 1) && (CheckSizeArray (size_size_array a) 0 1 =? 1) = false) as ->.
  { apply andb_false_iff. destruct Hplain as [?|?]; [left; lia|right; lia]. }
  destruct (_ || _); [done|]. simpl.
  destruct (_ =? 3); [done|]. by destruct (_ && _).
Qed.

(** X8.  When there is one title set, or when the second largest title set
    is not in the size range of the largest by [CheckSizeArray], the guess
    of [DVDGetInfo] is a title set of the greatest size, whatever the
    audio, sub-picture, channel and chapter rankings say. *)
Theorem DVDGetInfo_guesses_largest :
  forall (v : vmg_info) (title_vob_blocks : list Z) (aspect beyond : Z),
    1 <= vmg_nr_of_title_sets v ->
    (vmg_nr_of_title_sets v = 1
     \/ CheckSizeArray (ranking (fun counter => arr_get title_vob_blocks counter)
                                (vmg_nr_of_title_sets v)).1 0 1 <> 1) ->
    has_most (fun counter => arr_get title_vob_blocks counter) (vmg_nr_of_title_sets v)
             (main_title_set (DVDGetInfo v title_vob_blocks aspect beyond)).
Proof.
  intros v blocks aspect beyond Hn Hplain. unfold DVDGetInfo. simpl.
  rewrite main_title_set_guess_plain by (simpl; destruct Hplain; [left; lia|by right]).
  simpl. set (n := vmg_nr_of_title_sets v) in *.
  destruct (ranking_spec (fun counter => arr_get blocks counter) n ltac:(lia))
    as (_ & _ & Hsorted & Hfrom & Hto).
  destruct (Hfrom 0 ltac:(lia)) as (k & Hk & Hc & Ht).
  split; [lia|]. intros k' Hk'.
  destruct (Hto k' Hk') as (i & Hi & Hc' & _).
  rewrite Ht. replace (k + 1 - 1) with k by lia. rewrite <- Hc, <- Hc'.
  apply Hsorted; lia.
Qed.

(** X9.  Whatever the disc holds, the guess of [DVDGetInfo] is the title
    set that leads the ranking by size, the second of that ranking, or the
    title set that leads the ranking by chapters. *)
Theorem DVDGetInfo_guess_is_a_leader :
  forall (v : vmg_info) (info : list titles_t) (a : sort_arrays)
         (titles title_sets aspect beyond : Z),
    let guess := main_title_set_guess v info a titles title_sets aspect beyond in
    guess = arr_get (title_set_size_array a) 0
    \/ (1 < title_sets /\ guess = arr_get (title_set_size_array a) 1)
    \/ guess = arr_get (title_set_chapter_array a) 0.
Proof.
  intros v info a titles title_sets aspect beyond. cbv zeta.
  unfold main_title_set_guess.
  assert (let '(candidate, multi, dual) :=
            first_candidate v info a titles title_sets aspect in
          (candidate = arr_get (title_set_size_array a) 0
           \/ (1 < title_sets /\ candidate = arr_get (title_set_size_array a) 1))
          /\ (multi = 1 -> candidate = arr_get (title_set_size_array a) 0)) as Hfirst.
  { unfold first_candidate.
    destruct (Z.gtb_spec title_sets 1) as [Hts|?]; simpl; [|by split; [left|]].
    destruct (_ =? 1); [|by split; [left|]].
    destruct (_ =? _) eqn:Easp; simpl; [by split; [left|]|].
    destruct (_ && true); simpl; [|by split; [left|]].
    split; [|done].
    destruct (_ =? aspect); [by left|]. destruct (_ =? aspect); [by right|by left]. }
  destruct (first_candidate v info a titles title_sets aspect) as [[candidate multi] dual].
  destruct Hfirst as [Hcand Hmulti].
  destruct (_ || _); [tauto|].
  destruct (Z.eqb_spec multi 1) as [H1|H1].
  - set (nm := number_of_multi_loop _ _ _ _).
    assert (let c := for_range 0 nm (fun i candidate0 =>
                       if arr_get (title_set_chapter_array a) 0 =? i + 1
                       then arr_get (title_set_chapter_array a) 0
                       else candidate0) candidate in
            c = candidate \/ c = arr_get (title_set_chapter_array a) 0) as Hc.
    { cbv zeta. destruct (Z.le_gt_cases 0 nm) as [Hnm|Hnm].
      - apply (for_range_ind (fun _ c =>
                 c = candidate \/ c = arr_get (title_set_chapter_array a) 0));
          [done|by left|].
        intros i c _ Hc. destruct (_ =? _); [by right|done].
      - rewrite for_range_empty by lia. by left. }
    cbv zeta in Hc. destruct Hc as [-> | ->].
    + destruct (_ =? 3); [tauto|]. destruct (_ =? 3); [by left|].
      destruct (_ && _); by left.
    + destruct (_ =? 3); [by right; right|]. destruct (_ =? 3); [by left|].
      destruct (_ && _); by left.
  - destruct (_ =? 3); [by left|]. destruct (_ && _); by left.
Qed.

(** ** Chapter extractor: the title *)

(** X10.  Called without a title, [DVDMirrorChapters] takes the first title
    that has the most chapters among the titles of the main title set; when
    no title of the main title set has a chapter it is left with title 0. *)
Theorem DVDMirrorChapters_title_most_chapters :
  forall (info : titles_info_t),
    0 <= number_of_titles info < INT_MAX ->
    let t := DVDMirrorChapters_title info 0 in
    (t = 0
     /\ forall k, 1 <= k <= number_of_titles info -> in_main_title_set info k ->
          chapters (titles_get info (k - 1)) <= 0)
    \/ (1 <= t <= number_of_titles info
        /\ in_main_title_set info t
        /\ 0 < chapters (titles_get info (t - 1))
        /\ (forall k, 1 <= k <= number_of_titles info -> in_main_title_set info k ->
              chapters (titles_get info (k - 1)) <= chapters (titles_get info (t - 1)))
        /\ (forall k, 1 <= k < t -> in_main_title_set info k ->
              chapters (titles_get info (k - 1)) < chapters (titles_get info (t - 1)))).
Proof.
  intros info Hn. cbv zeta. unfold DVDMirrorChapters_title. simpl.
  set (body := fun (i : Z) (st : Z * Z) => _).
  assert (title_pick_inv info (number_of_titles info)
            (for_range 0 (number_of_titles info) body (0, 0))) as Hinv.
  { apply (for_range_ind (title_pick_inv info)); [lia| |].
    - left. split; [done|]. split; [done|]. intros k Hk. lia.
    - intros i [c t] Hi Hinv. unfold body, title_pick_inv, in_main_title_set in *.
      simpl in Hinv.
      assert (forall k, 1 <= k <= i + 1 -> k = i + 1 \/ 1 <= k <= i) as Hsplit by lia.
      destruct (Z.eqb_spec (title_set (titles_get info i)) (main_title_set info))
        as [Hmain|Hother];
        [destruct (Z.ltb_spec c (chapters (titles_get info i))) as [Hmore|Hless]|];
        simpl.
      + right. rewrite int_wrap_small by (unfold INT_MIN, INT_MAX in *; lia).
        replace (i + 1 - 1) with i by lia.
        split; [lia|]. split; [done|]. split; [done|].
        destruct Hinv as [(Ht & Hc & Hall)|(Ht & Hin & Hc & Hpos & Hall & Hfirst)].
        * split; [lia|]. split.
          -- intros k [->|Hk]%Hsplit Hkin.
             ++ replace (i + 1 - 1) with i by lia. lia.
             ++ specialize (Hall k Hk Hkin). lia.
          -- intros k Hk Hkin. specialize (Hall k ltac:(lia) Hkin). lia.
        * split; [lia|]. split.
          -- intros k [->|Hk]%Hsplit Hkin.
             ++ replace (i + 1 - 1) with i by lia. lia.
             ++ specialize (Hall k Hk Hkin). lia.
          -- intros k Hk Hkin. specialize (Hall k ltac:(lia) Hkin). lia.
      + destruct Hinv as [(Ht & Hc & Hall)|(Ht & Hin & Hc & Hpos & Hall & Hfirst)].
        * left. split; [done|]. split; [done|].
          intros k [->|Hk]%Hsplit Hkin.
          -- replace (i + 1 - 1) with i by lia. lia.
          -- by apply Hall.
        * right. split; [lia|]. split; [done|]. split; [done|]. split; [done|].
          split; [|done]. intros k [->|Hk]%Hsplit Hkin.
          -- replace (i + 1 - 1) with i by lia. lia.
          -- by apply Hall.
      + destruct Hinv as [(Ht & Hc & Hall)|(Ht & Hin & Hc & Hpos & Hall & Hfirst)].
        * left. split; [done|]. split; [done|].
          intros k [->|Hk]%Hsplit Hkin.
          -- by replace (i + 1 - 1) with i in Hkin by lia.
          -- by apply Hall.
        * right. split; [lia|]. split; [done|]. split; [done|]. split; [done|].
          split; [|done]. intros k [->|Hk]%Hsplit Hkin.
          -- by replace (i + 1 - 1) with i in Hkin by lia.
          -- by apply Hall. }
  destruct (for_range 0 (number_of_titles info) body (0, 0)) as [c t].
  destruct Hinv as [(Ht & Hc & Hall)|(Ht & Hin & Hc & Hpos & Hall & Hfirst)]; simpl in *.
  - left. by split.
  - right. subst c. split; [done|]. split; [done|]. split; [done|]. by split.
Qed.

(** ** Block copier: every strategy *)

Section CopyExtras.

Context {Env : Type} (P : platform Env).

(** A sequential write at the end of the file that the kernel reports as
    complete has appended the data. *)
Lemma do_write_complete (w : world Env) data :
  w_pos w = Z.of_nat (length (w_file w)) -> data <> [] ->
  (do_write P w data).1 = Z.of_nat (length data) ->
  w_file (do_write P w data).2 = w_file w ++ data
  /\ w_pos (do_write P w data).2 = Z.of_nat (length (w_file w ++ data))
  /\ w_writes (do_write P w data).2 = w_writes w.
Proof.
  intros Hpos Hne. unfold do_write.
  destruct (sys_write P (w_env w) (Z.of_nat (length data))) as [r e'].
  destruct (Z.gtb_spec r 0) as [Hr|Hr]; simpl; intros ->.
  - rewrite Nat2Z.id, firstn_all, Hpos, write_at_end.
    split; [done|]. split; [|done]. rewrite length_app. lia.
  - destruct data; [done|simpl in Hr; lia].
Qed.

Lemma do_write_zeros_length n :
  0 < n <= BUFFER_SIZE ->
  Z.of_nat (length (take (Z.to_nat (n * DVD_VIDEO_LB_LEN)) buffer_zero))
  = n * DVD_VIDEO_LB_LEN
  /\ take (Z.to_nat (n * DVD_VIDEO_LB_LEN)) buffer_zero <> [].
Proof.
  intros Hn. rewrite take_buffer_zero by lia. unfold zeros, DVD_VIDEO_LB_LEN.
  split; [rewrite length_replicate; lia|].
  destruct (Z.to_nat (n * 2048)) eqn:E; [lia|done].
Qed.

(** A sequential write at the end of the file only appends, whatever the
    kernel reports. *)
Lemma do_write_prefix (w : world Env) data :
  w_pos w = Z.of_nat (length (w_file w)) ->
  w_file w `prefix_of` w_file (do_write P w data).2.
Proof.
  intros Hpos. unfold do_write.
  destruct (sys_write P (w_env w) (Z.of_nat (length data))) as [r e'].
  destruct (r >? 0); simpl; [|done].
  rewrite Hpos, write_at_end. by apply prefix_app_r.
Qed.

(** One iteration of the copy loop with blocks remaining, whatever the
    strategy: it returns 1, or it goes on with fewer blocks remaining, the
    file longer by the blocks accounted for. *)
Lemma copy_chunk_inv_step errorstrat file0 L (s : Z * Z * Z * world Env) :
  reads_bounded P -> copy_inv file0 L s ->
  match copy_chunk P errorstrat s with
  | Some (Next s') =>
      copy_inv file0 L s'
      /\ ((let '(_, remaining, _, _) := s' in Z.to_nat remaining)
          < (let '(_, remaining, _, _) := s in Z.to_nat remaining))%nat
  | Some (Break s') =>
      let '(_, _, _, w') := s' in
      Z.of_nat (length (w_file w')) = L /\ file0 `prefix_of` w_file w'
  | Some (Ret r) => r.1 = 1 /\ file0 `prefix_of` w_file r.2
  | None => False
  end.
Proof.
  intros Hr. destruct s as [[[off rem] tr] w0]. intros (Hrem & Htr & Hpos & Hlen & Hpre).
  unfold copy_chunk.
  destruct (Z.gtb_spec rem 0) as [Hgt|?]; [|split; [unfold DVD_VIDEO_LB_LEN in *; lia|done]].
  set (to_read := if tr >? rem then rem else tr).
  assert (0 < to_read <= BUFFER_SIZE /\ to_read <= rem) as [Hto Htorem]
    by (unfold to_read; destruct (Z.gtb_spec tr rem); lia).
  pose proof (Hr (w_env w0) off to_read ltac:(lia)) as [Hle Hbuf].
  destruct (DVDReadBlocks P (w_env w0) off to_read) as [[act_read buffer] e1].
  simpl in Hle, Hbuf.
  set (w1 := with_env w0 e1).
  set (written := if act_read >? 0 then _ else _).
  assert ((exists off2 rem2 w2,
             written = inl (off2, rem2, w2)
             /\ rem2 = rem - Z.max act_read 0
             /\ w_pos w2 = Z.of_nat (length (w_file w2))
             /\ Z.of_nat (length (w_file w2)) + rem2 * DVD_VIDEO_LB_LEN = L
             /\ file0 `prefix_of` w_file w2)
          \/ (exists w2, written = inr (1, w2) /\ file0 `prefix_of` w_file w2))
    as Hwritten.
  { unfold written. destruct (Z.gtb_spec act_read 0) as [Hact|Hact].
    - specialize (Hbuf Hact).
      assert (take (Z.to_nat (act_read * DVD_VIDEO_LB_LEN)) buffer = buffer) as ->
        by (apply take_ge; lia).
      pose proof (do_write_complete w1 buffer Hpos) as Hdone.
      pose proof (do_write_prefix w1 buffer Hpos) as Hgrow.
      destruct (do_write P w1 buffer) as [n w2]. simpl in Hdone, Hgrow.
      assert (file0 `prefix_of` w_file w2) as Hpre2 by (by etrans).
      destruct (Z.eqb_spec n (act_read * DVD_VIDEO_LB_LEN)) as [Hn|Hn]; simpl;
        [|right; by exists w2].
      destruct Hdone as (Hf & Hp & _);
        [destruct buffer; [simpl in Hbuf; unfold DVD_VIDEO_LB_LEN in *; lia|done]|lia|].
      left. exists (int_wrap (off + act_read)), (rem - act_read), w2.
      split; [done|]. split; [lia|]. split; [by rewrite Hp, Hf|]. split; [|done].
      rewrite Hf, length_app. unfold w1. simpl. unfold DVD_VIDEO_LB_LEN in *. lia.
    - left. exists off, rem, w1. split; [done|]. split; [lia|]. by split. }
  clearbody written.
  destruct Hwritten as [(off2 & rem2 & w2 & -> & Hrem2 & Hpos2 & Hlen2 & Hpre2)|(w2 & -> & ?)];
    [|done].
  destruct (Z.eqb_spec act_read to_read) as [Heq|Hne]; simpl.
  { split; [|lia]. split; [lia|]. split; [lia|]. by split. }
  set (clamped := if act_read <? 0 then 0 else act_read).
  assert (clamped = Z.max act_read 0) as Hcl
    by (unfold clamped; destruct (Z.ltb_spec act_read 0); lia).
  assert (forall numBlanks, 0 < numBlanks <= to_read - clamped ->
            match
              (let '(n, w3) :=
                 do_write P w2 (take (Z.to_nat (numBlanks * DVD_VIDEO_LB_LEN)) buffer_zero) in
               if negb (n =? numBlanks * DVD_VIDEO_LB_LEN)
               then Some (@Ret (Z * Z * Z * world Env) _ (1, w3))
               else Some (Next (int_wrap (off2 + numBlanks), rem2 - numBlanks, to_read, w3)))
            with
            | Some (Next s') =>
                copy_inv file0 L s'
                /\ ((let '(_, remaining, _, _) := s' in Z.to_nat remaining) < Z.to_nat rem)%nat
            | Some (Break s') =>
                let '(_, _, _, w') := s' in
                Z.of_nat (length (w_file w')) = L /\ file0 `prefix_of` w_file w'
            | Some (Ret r) => r.1 = 1 /\ file0 `prefix_of` w_file r.2
            | None => False
            end) as Hpad.
  { intros numBlanks Hnum.
    destruct (do_write_zeros_length numBlanks ltac:(lia)) as [Hzlen Hzne].
    pose proof (do_write_complete w2 _ Hpos2 Hzne) as Hdone.
    pose proof (do_write_prefix w2 (take (Z.to_nat (numBlanks * DVD_VIDEO_LB_LEN))
                                        buffer_zero) Hpos2) as Hgrow.
    destruct (do_write P w2 _) as [n w3]. simpl in Hdone, Hgrow.
    assert (file0 `prefix_of` w_file w3) as Hpre3 by (by etrans).
    destruct (Z.eqb_spec n (numBlanks * DVD_VIDEO_LB_LEN)) as [Hn|Hn]; simpl; [|done].
    destruct Hdone as (Hf & Hp & _); [lia|].
    split; [|lia]. split; [lia|]. split; [lia|]. split; [by rewrite Hp, Hf|].
    split; [|done]. rewrite Hf, length_app. unfold DVD_VIDEO_LB_LEN in *. lia. }
  destruct errorstrat; [done| |].
  - apply Hpad. lia.
  - apply Hpad. lia.
Qed.

(** One iteration of the copy of an image: the read is complete, so the
    strategy plays no part. *)
Lemma copy_chunk_image_step errorstrat disc file0 offset0 size
    (s : Z * Z * Z * world Env) :
  reads_image P disc -> writes_complete P ->
  0 <= offset0 -> offset0 + size <= INT_MAX ->
  (offset0 + size) * DVD_VIDEO_LB_LEN <= Z.of_nat (length disc) ->
  copy_image_inv disc file0 offset0 size s ->
  match copy_chunk P errorstrat s with
  | Some (Next s') =>
      copy_image_inv disc file0 offset0 size s'
      /\ ((let '(_, remaining, _, _) := s' in Z.to_nat remaining)
          < (let '(_, remaining, _, _) := s in Z.to_nat remaining))%nat
  | Some (Break s') =>
      let '(_, _, _, w') := s' in
      w_file w' = file0 ++ read_at disc (size * DVD_VIDEO_LB_LEN)
                                   (offset0 * DVD_VIDEO_LB_LEN)
  | Some (Ret r) => False
  | None => False
  end.
Proof.
  intros Hri Hw Hoff Hmax Hdisc.
  destruct s as [[[off rem] tr] w0]. intros (Hrem & Htr & Hoffset & Hpos & Hfile).
  unfold copy_chunk.
  destruct (Z.gtb_spec rem 0) as [Hgt|?].
  2: { assert (rem = 0) as -> by lia. by rewrite Hfile, Z.sub_0_r. }
  set (to_read := if tr >? rem then rem else tr).
  assert (0 < to_read <= BUFFER_SIZE /\ to_read <= rem) as [Hto Htorem]
    by (unfold to_read; destruct (Z.gtb_spec tr rem); lia).
  pose proof (Hri (w_env w0) off to_read ltac:(lia) Hto
                ltac:(unfold DVD_VIDEO_LB_LEN in *; lia)) as Hread.
  destruct (DVDReadBlocks P (w_env w0) off to_read) as [[act_read buffer] e1].
  simpl in Hread. injection Hread as -> ->.
  pose proof (read_at_full_length disc off to_read ltac:(lia) ltac:(lia)
                ltac:(unfold DVD_VIDEO_LB_LEN in *; lia)) as Hlen.
  set (buffer := read_at disc (to_read * DVD_VIDEO_LB_LEN) (off * DVD_VIDEO_LB_LEN)) in *.
  destruct (Z.gtb_spec to_read 0); [|lia].
  assert (take (Z.to_nat (to_read * DVD_VIDEO_LB_LEN)) buffer = buffer) as ->
    by (apply take_ge; lia).
  destruct (do_write_append P (with_env w0 e1) buffer Hw Hpos) as [e2 ->]. simpl.
  rewrite Hlen, !Z.eqb_refl. simpl.
  split; [|lia]. split; [lia|]. split; [lia|].
  split; [rewrite int_wrap_small by (unfold INT_MIN, INT_MAX in *; lia); lia|].
  split; [done|].
  rewrite Hfile, <- app_assoc. f_equal. unfold buffer. rewrite Hoffset.
  rewrite read_at_app by lia. do 2 f_equal. lia.
Qed.

End CopyExtras.

(** X11.  With [fill_gaps] off and a drive that never delivers more than it
    is asked, [DVDCopyBlocks] terminates under every error strategy and
    returns 0 or 1; it only appends to the file; and when it returns 0 the
    file has grown by exactly [size] blocks. *)
Theorem DVDCopyBlocks_appends_exact_size :
  forall {Env : Type} (P : platform Env) (g : globals) (w : world Env)
         (offset size : Z) (errorstrat : read_error_strategy_t),
    reads_bounded P -> fill_gaps g = false -> 0 <= size ->
    w_pos w = Z.of_nat (length (w_file w)) ->
    exists rc w',
      DVDCopyBlocks P g w offset size errorstrat = Some (rc, w')
      /\ (rc = 0 \/ rc = 1)
      /\ w_file w `prefix_of` w_file w'
      /\ (rc = 0 ->
          Z.of_nat (length (w_file w'))
          = Z.of_nat (length (w_file w)) + size * DVD_VIDEO_LB_LEN).
Proof.
  intros Env P g w offset size errorstrat Hr Hg Hsize Hpos.
  unfold DVDCopyBlocks. rewrite Hg.
  set (L := Z.of_nat (length (w_file w)) + size * DVD_VIDEO_LB_LEN).
  pose proof (while_loop_ind (copy_inv (w_file w) L)
    (fun s : Z * Z * Z * world Env =>
       let '(_, _, _, w') := s in
       Z.of_nat (length (w_file w')) = L /\ w_file w `prefix_of` w_file w')
    (fun r : Z * world Env => r.1 = 1 /\ w_file w `prefix_of` w_file r.2)
    (fun s : Z * Z * Z * world Env => let '(_, remaining, _, _) := s in Z.to_nat remaining)
    (copy_chunk P errorstrat)
    (fun s Hs => copy_chunk_inv_step P errorstrat (w_file w) L s Hr Hs)
    (S (Z.to_nat size)) (offset, size, BUFFER_SIZE, w)) as Hloop.
  assert (copy_inv (w_file w) L (offset, size, BUFFER_SIZE, w)) as Hinit.
  { unfold copy_inv, BUFFER_SIZE, L. repeat split; try lia; done. }
  specialize (Hloop Hinit ltac:(simpl; lia)).
  destruct (while_loop _ _ _) as [[[[[off rem] tr] w']|[rc w']]|]; [| |done].
  - destruct Hloop as [Hlen Hpre]. exists 0, w'. split; [done|]. split; [by left|].
    split; [done|]. by intros _.
  - destruct Hloop as [Hrc Hpre]. simpl in *. subst rc. exists 1, w'.
    split; [done|]. split; [by right|]. split; [done|]. lia.
Qed.

(** X12.  With [fill_gaps] off, a drive that reads the image [disc] and a
    kernel that stores what it is given, [DVDCopyBlocks] returns 0 under
    every error strategy and has appended to the file the [size] blocks of
    the image from block [offset] on. *)
Theorem DVDCopyBlocks_copies_image :
  forall {Env : Type} (P : platform Env) (disc : list byte) (g : globals) (w : world Env)
         (offset size : Z) (errorstrat : read_error_strategy_t),
    reads_image P disc -> writes_complete P -> fill_gaps g = false ->
    0 <= offset -> 0 <= size -> offset + size <= INT_MAX ->
    (offset + size) * DVD_VIDEO_LB_LEN <= Z.of_nat (length disc) ->
    w_pos w = Z.of_nat (length (w_file w)) ->
    exists w',
      DVDCopyBlocks P g w offset size errorstrat = Some (0, w')
      /\ w_file w'
         = w_file w ++ read_at disc (size * DVD_VIDEO_LB_LEN) (offset * DVD_VIDEO_LB_LEN).
Proof.
  intros Env P disc g w offset size errorstrat Hri Hw Hg Hoff Hsize Hmax Hdisc Hpos.
  unfold DVDCopyBlocks. rewrite Hg.
  pose proof (while_loop_ind (copy_image_inv disc (w_file w) offset size)
    (fun s : Z * Z * Z * world Env =>
       let '(_, _, _, w') := s in
       w_file w' = w_file w ++ read_at disc (size * DVD_VIDEO_LB_LEN)
                                       (offset * DVD_VIDEO_LB_LEN))
    (fun _ : Z * world Env => False)
    (fun s : Z * Z * Z * world Env => let '(_, remaining, _, _) := s in Z.to_nat remaining)
    (copy_chunk P errorstrat)
    (fun s Hs => copy_chunk_image_step P errorstrat disc (w_file w) offset size s
                   Hri Hw Hoff Hmax Hdisc Hs)
    (S (Z.to_nat size)) (offset, size, BUFFER_SIZE, w)) as Hloop.
  assert (copy_image_inv disc (w_file w) offset size (offset, size, BUFFER_SIZE, w)) as Hinit.
  { unfold copy_image_inv, BUFFER_SIZE. split; [lia|]. split; [lia|]. split; [lia|].
    split; [done|].
    rewrite Z.sub_diag. unfold read_at. simpl. by rewrite app_nil_r. }
  specialize (Hloop Hinit ltac:(simpl; lia)).
  destruct (while_loop _ _ _) as [[[[[off rem] tr] w']|r]|]; [|done|done].
  by exists w'.
Qed.

(** X13.  A short read in the copy loop, when the kernel stores what it is
    given: under ABORT the function returns 1 and the file has gained the
    blocks that were read and nothing else; under SKIP_BLOCK the blocks
    read are followed by one block of zeros and the copy goes on
    [got + 1] blocks further. *)
Theorem copy_chunk_short_read_abort_skip_block :
  forall {Env : Type} (P : platform Env),
    writes_complete P ->
    forall offset remaining to_read0 (w : world Env) got buffer e1,
      w_pos w = Z.of_nat (length (w_file w)) ->
      0 < remaining -> 0 < to_read0 <= BUFFER_SIZE ->
      let to_read := Z.min to_read0 remaining in
      DVDReadBlocks P (w_env w) offset to_read = (got, buffer, e1) ->
      got < to_read ->
      (0 < got -> Z.of_nat (length buffer) = got * DVD_VIDEO_LB_LEN) ->
      let data := take (Z.to_nat (Z.max got 0 * DVD_VIDEO_LB_LEN)) buffer in
      (exists w',
          copy_chunk P STRATEGY_ABORT (offset, remaining, to_read0, w) = Some (Ret (1, w'))
          /\ w_file w' = w_file w ++ data)
      /\ (exists w',
             copy_chunk P STRATEGY_SKIP_BLOCK (offset, remaining, to_read0, w)
             = Some (Next (int_wrap (offset + (Z.max got 0 + 1)),
                           remaining - (Z.max got 0 + 1), to_read, w'))
             /\ w_file w' = w_file w ++ data ++ zeros DVD_VIDEO_LB_LEN).
Proof.
  intros Env P Hw offset remaining to_read0 w got buffer e1 Hpos Hrem Hto to_read Hread
    Hgot Hlen data.
  unfold copy_chunk.
  destruct (Z.gtb_spec remaining 0); [|lia].
  replace (if to_read0 >? remaining then remaining else to_read0) with to_read
    by (unfold to_read; destruct (Z.gtb_spec to_read0 remaining); lia).
  rewrite Hread.
  assert (to_read <= BUFFER_SIZE) as Hbuf by (unfold to_read; lia).
  assert (take (Z.to_nat (1 * DVD_VIDEO_LB_LEN)) buffer_zero = zeros DVD_VIDEO_LB_LEN) as Hz
    by (rewrite take_buffer_zero by (unfold BUFFER_SIZE; lia); f_equal; lia).
  destruct (Z.eqb_spec got to_read) as [?|_]; [lia|]. cbn [negb].
  destruct (Z.gtb_spec got 0) as [Hpos'|Hnonpos].
  - specialize (Hlen Hpos').
    assert (data = buffer) as Hdata
      by (unfold data; replace (Z.max got 0) with got by lia; apply take_ge; lia).
    assert (take (Z.to_nat (got * DVD_VIDEO_LB_LEN)) buffer = buffer) as ->
      by (apply take_ge; lia).
    destruct (do_write_append P (with_env w e1) buffer Hw Hpos) as [e2 ->].
    rewrite Hlen, Z.eqb_refl. cbn [negb]. rewrite Hdata. split; [eexists; split; reflexivity|].
    rewrite Hz.
    edestruct (do_write_append P (World e2 (w_file (with_env w e1) ++ buffer)
                 (Z.of_nat (length (w_file (with_env w e1) ++ buffer)))
                 (w_writes (with_env w e1)))
                 (zeros DVD_VIDEO_LB_LEN) Hw eq_refl) as [e3 ->].
    rewrite length_zeros by (unfold DVD_VIDEO_LB_LEN; lia).
    replace (1 * DVD_VIDEO_LB_LEN) with DVD_VIDEO_LB_LEN by lia.
    rewrite Z.eqb_refl. cbn [negb]. rewrite int_wrap_add_l.
    replace (Z.max got 0) with got by lia.
    replace (offset + got + 1) with (offset + (got + 1)) by lia.
    replace (remaining - got - 1) with (remaining - (got + 1)) by lia.
    replace (if got <? 0 then 0 else got) with got by (destruct (Z.ltb_spec got 0); lia).
    eexists. split; [done|]. cbn [w_file with_env]. by rewrite <- app_assoc.
  - assert (data = []) as Hdata
      by (unfold data; replace (Z.max got 0) with 0 by lia; done).
    rewrite Hdata, app_nil_r. split; [eexists; split; reflexivity|].
    rewrite Hz.
    edestruct (do_write_append P (with_env w e1) (zeros DVD_VIDEO_LB_LEN) Hw Hpos)
      as [e3 ->].
    rewrite length_zeros by (unfold DVD_VIDEO_LB_LEN; lia).
    replace (1 * DVD_VIDEO_LB_LEN) with DVD_VIDEO_LB_LEN by lia.
    rewrite Z.eqb_refl. cbn [negb].
    replace (Z.max got 0) with 0 by lia.
    replace (offset + (0 + 1)) with (offset + 1) by lia.
    replace (remaining - (0 + 1)) with (remaining - 1) by lia.
    eexists. split; [done|]. done.
Qed.

Lemma image_platform_reads_image disc limit seed :
  BUFFER_SIZE <= limit -> reads_image (image_platform disc limit seed) disc.
Proof.
  intros Hlimit e offset n Hoff Hn Hdisc. simpl.
  replace (Z.min n limit) with n by lia.
  rewrite (read_at_full_length disc offset n) by lia.
  assert (n * DVD_VIDEO_LB_LEN / DVD_VIDEO_LB_LEN = n) as ->
    by (unfold DVD_VIDEO_LB_LEN; apply Z.div_mul; lia).
  f_equal. apply take_ge.
  pose proof (read_at_full_length disc offset n ltac:(lia) ltac:(lia) Hdisc). lia.
Qed.

(** ** Refresh of a file without gaps *)

Lemma file_frame_nothing_inside inside E file file' :
  file_frame inside E file file' ->
  (forall k, ~ inside k) -> E * DVD_VIDEO_LB_LEN <= Z.of_nat (length file) ->
  file' = file.
Proof.
  intros (Hle & Hmax & Hsame) Hnone Hlen.
  assert (length file' = length file) as Hlen' by lia.
  apply list_eq. intros j.
  destruct (decide (j < length file)%nat) as [Hj|Hj].
  - apply Hsame; [done|apply Hnone].
  - rewrite !lookup_ge_None_2 by lia. done.
Qed.

(** X15.  A refresh of a file that has no gap among the expected blocks,
    every one of them being there and none blank, issues no [pwrite] and
    leaves the file as it is, whatever it returns. *)
Theorem refresh_without_gaps_keeps_file :
  forall {Env : Type} (P : platform Env) (g : globals) (w : world Env)
         (offset size : Z) (errorstrat : read_error_strategy_t),
    reads_bounded P -> 0 <= size <= INT_MAX -> Z.of_nat (length (w_file w)) <= OFF_MAX ->
    (forall k, 0 <= k < size -> gap_blockb (w_file w) k = false) ->
    exists rc report w',
      DVDCopyBlocksFillGaps P g w offset size errorstrat = Some (rc, report, w')
      /\ w_file w' = w_file w /\ w_writes w' = w_writes w.
Proof.
  intros Env P g w offset size errorstrat Hreads Hsize Hlen Hfull.
  destruct (DVDCopyBlocksFillGaps_frame P Hreads g w offset size errorstrat Hsize Hlen)
    as (rp & rc & report & w' & _ & Hrun & Hframe & new & Hlog & Hnew).
  assert (forall k, ~ plan_gap (ranges (rp_plan rp)) (w_file w) size k) as Hnone.
  { intros k (_ & Hk & Hgap). specialize (Hfull k Hk). unfold gap_blockb in Hfull.
    apply orb_false_iff in Hfull as [Hf Hb].
    destruct Hgap as [Hgap|Hgap]; [congruence|lia]. }
  exists rc, report, w'. split; [done|]. split.
  - apply (file_frame_nothing_inside _ _ _ _ Hframe Hnone).
    destruct (Z.eq_dec size 0) as [->|?]; [lia|].
    specialize (Hfull (size - 1) ltac:(lia)). unfold gap_blockb in Hfull.
    apply orb_false_iff in Hfull as [Hf _]. apply Z.leb_gt in Hf.
    unfold full_blocks_of, DVD_VIDEO_LB_LEN in *.
    pose proof (Z.mul_div_le (Z.of_nat (length (w_file w))) 2048 ltac:(lia)). lia.
  - rewrite Hlog. destruct new as [|wr new]; [done|].
    apply Forall_cons in Hnew as [(b & u & _ & Hu & _ & Hin) _].
    by destruct (Hnone b (Hin b ltac:(lia))).
Qed.

(** ** Refill from the disc: what the file holds afterwards *)

Lemma memcmp_loop_refl (a : list byte) : memcmp_loop a a = 0.
Proof.
  induction a as [|x a IH]; simpl; [done|].
  by rewrite (Byte.byte_dec_lb (eq_refl x)).
Qed.

(** [memcmp] answers 0 exactly when the first [n] bytes agree. *)
Lemma memcmp_zero a b n :
  (Z.to_nat n <= length a)%nat -> (Z.to_nat n <= length b)%nat ->
  memcmp a b n = 0 <-> take (Z.to_nat n) a = take (Z.to_nat n) b.
Proof.
  intros Ha Hb. unfold memcmp. split.
  - apply memcmp_loop_eq. rewrite !length_take. lia.
  - intros ->. apply memcmp_loop_refl.
Qed.

Lemma write_at_lookup_inside file off data (j : nat) :
  0 <= off -> off <= Z.of_nat j < off + Z.of_nat (length data) ->
  write_at file off data !! j = data !! (j - Z.to_nat off)%nat.
Proof.
  intros Hoff Hj. unfold write_at. destruct data as [|b data]; [simpl in Hj; lia|].
  set (d := b :: data) in *.
  rewrite app_assoc.
  assert (length (take (Z.to_nat off) file ++ replicate (Z.to_nat off - length file) x00)
          = Z.to_nat off) as Hl.
  { rewrite length_app, length_take, length_replicate. lia. }
  rewrite lookup_app_r by lia. rewrite Hl.
  by rewrite lookup_app_l by lia.
Qed.

(** Block [k] of a file after a store of whole blocks at block [b] that
    reaches it is block [k - b] of the data stored. *)
Lemma write_at_block_inside file b data k :
  0 <= b <= k -> (k - b + 1) * DVD_VIDEO_LB_LEN <= Z.of_nat (length data) ->
  block_of (write_at file (b * DVD_VIDEO_LB_LEN) data) k = block_of data (k - b).
Proof.
  intros Hk Hlen. unfold block_of, DVD_VIDEO_LB_LEN in *.
  apply list_eq. intros i.
  destruct (decide (i < Z.to_nat 2048)%nat) as [Hi|Hi].
  - rewrite !lookup_take_lt, !lookup_drop by done.
    rewrite write_at_lookup_inside by lia. f_equal. lia.
  - by rewrite !lookup_take_ge by lia.
Qed.

Lemma blocks_from_disc_mono disc dvd_offset (filled filled' : Z -> Prop) file :
  (forall k, filled' k -> filled k) ->
  blocks_from_disc disc dvd_offset filled file ->
  blocks_from_disc disc dvd_offset filled' file.
Proof. intros Hsub Hall k Hk. by apply Hall, Hsub. Qed.

Lemma blocks_from_disc_none disc dvd_offset file :
  blocks_from_disc disc dvd_offset (fun _ => False) file.
Proof. by intros k []. Qed.

(** A store of [n] blocks read from the disc at block [dvd_offset + b],
    placed at block [b] of the file, adds these blocks to the blocks that
    hold what the disc holds. *)
Lemma write_at_blocks_from_disc disc dvd_offset (filled : Z -> Prop) file b n :
  0 <= dvd_offset -> 0 <= b -> 1 <= n ->
  (dvd_offset + b + n) * DVD_VIDEO_LB_LEN <= Z.of_nat (length disc) ->
  blocks_from_disc disc dvd_offset filled file ->
  blocks_from_disc disc dvd_offset (fun k => filled k \/ b <= k < b + n)
    (write_at file (b * DVD_VIDEO_LB_LEN)
       (read_at disc (n * DVD_VIDEO_LB_LEN) ((dvd_offset + b) * DVD_VIDEO_LB_LEN))).
Proof.
  intros Hoff Hb Hn Hdisc Hall k Hk.
  set (data := read_at disc _ _).
  pose proof (read_at_full_length disc (dvd_offset + b) n ltac:(lia) ltac:(lia) Hdisc)
    as Hdata. fold data in Hdata.
  assert (data <> []) as Hne
    by (intros Heq; rewrite Heq in Hdata; simpl in Hdata; unfold DVD_VIDEO_LB_LEN in *; lia).
  pose proof (write_at_length file (b * DVD_VIDEO_LB_LEN) data
                ltac:(unfold DVD_VIDEO_LB_LEN; lia) Hne) as Hlen.
  destruct (decide (b <= k < b + n)) as [Hin|Hout].
  - split; [lia|]. split; [unfold DVD_VIDEO_LB_LEN in *; lia|].
    rewrite write_at_block_inside by (unfold DVD_VIDEO_LB_LEN in *; lia).
    unfold block_of at 1. unfold data.
    rewrite read_at_block by lia. f_equal. lia.
  - destruct Hk as [Hk|Hk]; [|lia].
    destruct (Hall k Hk) as (Hk0 & Hfit & Hblock).
    split; [done|]. split; [lia|]. rewrite <- Hblock.
    assert (k + 1 <= full_blocks_of file) as Hfull
      by (unfold full_blocks_of, DVD_VIDEO_LB_LEN in *; apply Z.div_le_lower_bound; lia).
    apply (file_frame_block (fun k => b <= k < b + n) (b + n)); [|lia|done].
    apply (write_at_frame _ _ _ b n); [|lia].
    unfold blocks_inside. split_and!; [lia..|done].
Qed.

Section FilledFacts.

Context {Env : Type} (P : platform Env).
Variable disc : list byte.
Variable dvd_offset E : Z.
Hypothesis Himage : reads_image P disc.
Hypothesis Hoff : 0 <= dvd_offset.
Hypothesis HE : 0 <= E.
Hypothesis Hint : dvd_offset + E <= INT_MAX.
Hypothesis Hdisc : (dvd_offset + E) * DVD_VIDEO_LB_LEN <= Z.of_nat (length disc).

Local Abbreviation from_disc := (blocks_from_disc disc dvd_offset).

(** A [pwrite] that stores all it is given. *)
Lemma do_pwrite_all (w : world Env) data off :
  data <> [] -> (do_pwrite P w data off).1 = Z.of_nat (length data) ->
  w_file (do_pwrite P w data off).2 = write_at (w_file w) off data.
Proof.
  intros Hne. unfold do_pwrite.
  destruct (sys_write P (w_env w) (Z.of_nat (length data))) as [r e']. simpl.
  intros ->. destruct data as [|b data]; [done|].
  destruct (Z.gtb_spec (Z.of_nat (length (b :: data))) 0) as [_|Hle]; [|simpl in Hle; lia].
  by rewrite Nat2Z.id, firstn_all.
Qed.

Lemma do_pwrite_complete (w : world Env) data off :
  writes_complete P -> (do_pwrite P w data off).1 = Z.of_nat (length data).
Proof.
  intros Hw. unfold do_pwrite. specialize (Hw (w_env w) (Z.of_nat (length data))).
  by destruct (sys_write P (w_env w) (Z.of_nat (length data))) as [r e'].
Qed.

Lemma gap_process_chunk_filled errorstrat s n (done_before : Z -> Prop) st :
  0 <= s -> 0 <= n -> s + n <= E ->
  0 <= st.1.1 <= n
  /\ from_disc (fun k => done_before k \/ s <= k < s + st.1.1) (w_file st.1.2) ->
  match gap_process_chunk P errorstrat dvd_offset s n st with
  | Some (Next st') =>
      (0 <= st'.1.1 <= n
       /\ from_disc (fun k => done_before k \/ s <= k < s + st'.1.1) (w_file st'.1.2))
      /\ (Z.to_nat (n - st'.1.1) < Z.to_nat (n - st.1.1))%nat
  | Some (Break st') =>
      from_disc (fun k => done_before k \/ s <= k < s + n) (w_file st'.1.2)
  | Some (Ret r) => r.1.1 = 1 /\ ~ writes_complete P
  | None => False
  end.
Proof.
  intros Hs Hn HsE. destruct st as [[cursor w] filled]. simpl. intros [Hcur Hdone].
  unfold gap_process_chunk.
  destruct (Z.ltb_spec cursor n) as [Hlt|Hge].
  2:{ simpl. eapply blocks_from_disc_mono; [|exact Hdone]. intros k [Hk|Hk]; [by left|right; simpl in *; lia]. }
  rewrite (size_t_wrap_small (n - cursor)) by (unfold SIZE_MAX, INT_MAX in *; lia).
  rewrite (size_t_wrap_small (s + cursor)) by (unfold SIZE_MAX, INT_MAX in *; lia).
  set (chunk := if n - cursor >? BUFFER_SIZE then BUFFER_SIZE else n - cursor).
  assert (1 <= chunk <= BUFFER_SIZE /\ chunk <= n - cursor) as [Hchunk Hchunk'].
  { unfold chunk, BUFFER_SIZE. destruct (Z.gtb_spec (n - cursor) 512); lia. }
  rewrite (int_wrap_small chunk) by (unfold INT_MIN, INT_MAX, BUFFER_SIZE in *; lia).
  rewrite (int_wrap_small (s + cursor)) by (unfold INT_MIN, INT_MAX in *; lia).
  rewrite (int_wrap_small (dvd_offset + (s + cursor)))
    by (unfold INT_MIN, INT_MAX in *; lia).
  pose proof (Himage (w_env w) (dvd_offset + (s + cursor)) chunk ltac:(lia) ltac:(lia)
                ltac:(unfold DVD_VIDEO_LB_LEN in *; lia)) as Hread.
  destruct (DVDReadBlocks P (w_env w) _ chunk) as [[blocks_read buffer] e1].
  simpl in Hread. injection Hread as -> ->.
  rewrite Z.eqb_refl.
  destruct (Z.gtb_spec chunk 0) as [_|?]; [|lia].
  rewrite (size_t_wrap_small (chunk * DVD_VIDEO_LB_LEN))
    by (unfold SIZE_MAX, BUFFER_SIZE, DVD_VIDEO_LB_LEN in *; lia).
  set (data := read_at disc (chunk * DVD_VIDEO_LB_LEN)
                 ((dvd_offset + (s + cursor)) * DVD_VIDEO_LB_LEN)).
  pose proof (read_at_full_length disc (dvd_offset + (s + cursor)) chunk
                ltac:(lia) ltac:(lia) ltac:(unfold DVD_VIDEO_LB_LEN in *; lia)) as Hdata.
  fold data in Hdata.
  rewrite (take_ge data) by lia.
  assert (data <> []) as Hne
    by (intros Heq; rewrite Heq in Hdata; simpl in Hdata; unfold DVD_VIDEO_LB_LEN in *; lia).
  pose proof (do_pwrite_all (with_env w e1) data ((s + cursor) * DVD_VIDEO_LB_LEN) Hne)
    as Hstore.
  pose proof (do_pwrite_complete (with_env w e1) data ((s + cursor) * DVD_VIDEO_LB_LEN))
    as Hcomplete.
  destruct (do_pwrite P (with_env w e1) data _) as [written w2].
  simpl in Hstore, Hcomplete.
  rewrite <- Hdata.
  destruct (Z.eqb_spec written (Z.of_nat (length data))) as [Hall|Hpart];
    [|split; [done|]; intros Hw; by apply Hpart, Hcomplete].
  cbn [negb]. rewrite Z.ltb_irrefl.
  rewrite (size_t_wrap_small (cursor + chunk)) by (unfold SIZE_MAX, INT_MAX in *; lia).
  simpl. split; [split; [lia|]|lia].
  rewrite (Hstore Hall).
  pose proof (write_at_blocks_from_disc disc dvd_offset _ (w_file w) (s + cursor) chunk
                Hoff ltac:(lia) ltac:(lia) ltac:(unfold DVD_VIDEO_LB_LEN in *; lia) Hdone)
    as Hnew.
  fold data in Hnew.
  eapply blocks_from_disc_mono; [|exact Hnew]. simpl.
  intros k [Hk|Hk]; [by left; left|].
  destruct (Z.lt_ge_cases k (s + cursor)); [left; right; lia|right; lia].
Qed.

(** The refill of one segment from a drive that reads the image: it
    terminates; it fails only when a [pwrite] stores less than it is given;
    and when it succeeds every block of the segment holds what the disc
    holds, as do the blocks that did before. *)
Lemma gap_process_segment_filled errorstrat s n (done_before : Z -> Prop)
    (w : world Env) filled :
  0 <= s -> 0 <= n -> s + n <= E -> from_disc done_before (w_file w) ->
  exists rc w' filled',
    gap_process_segment P errorstrat dvd_offset s n w filled = Some (rc, w', filled')
    /\ (rc = 0 \/ rc = 1 /\ ~ writes_complete P)
    /\ (rc = 0 -> from_disc (fun k => done_before k \/ s <= k < s + n) (w_file w')).
Proof.
  intros Hs Hn HsE Hdone. unfold gap_process_segment.
  pose proof (while_loop_ind
    (fun st : Z * world Env * Z =>
       0 <= st.1.1 <= n
       /\ from_disc (fun k => done_before k \/ s <= k < s + st.1.1) (w_file st.1.2))
    (fun st : Z * world Env * Z =>
       from_disc (fun k => done_before k \/ s <= k < s + n) (w_file st.1.2))
    (fun r : Z * world Env * Z => r.1.1 = 1 /\ ~ writes_complete P)
    (fun st : Z * world Env * Z => Z.to_nat (n - st.1.1))
    (gap_process_chunk P errorstrat dvd_offset s n)
    (fun st H => gap_process_chunk_filled errorstrat s n done_before st Hs Hn HsE H)
    (S (Z.to_nat n)) (0, w, filled)) as Hloop.
  specialize (Hloop ltac:(simpl; split; [lia|];
                          eapply blocks_from_disc_mono; [|exact Hdone];
                          intros k [Hk|Hk]; [done|simpl in Hk; lia])
                    ltac:(simpl; lia)).
  destruct (while_loop _ _ _) as [[[[c w'] f']|[[rc w'] f']]|]; [| |done].
  - exists 0, w', f'. split; [done|]. split; [by left|done].
  - simpl in Hloop. destruct Hloop as [-> Hw]. exists 1, w', f'.
    split; [done|]. split; [by right|done].
Qed.

Local Abbreviation fits := (fun _ : Z => True).

Lemma process_segments_filled errorstrat segments :
  Forall (segment_inside fits E) segments ->
  forall (done_before : Z -> Prop) (w : world Env) filled,
  from_disc done_before (w_file w) ->
  exists rc w' filled',
    process_segments P errorstrat dvd_offset segments w filled = Some (rc, w', filled')
    /\ (writes_complete P -> rc = 0)
    /\ (rc = 0 ->
        from_disc (fun k => done_before k \/ in_segments segments k) (w_file w')).
Proof.
  induction 1 as [|seg segments Hseg _ IH]; intros done_before w filled Hdone; simpl.
  - exists 0, w, filled. split; [done|]. split; [done|]. intros _.
    eapply blocks_from_disc_mono; [|exact Hdone].
    intros k [?|(seg & Hin & _)]; [done|by apply elem_of_nil in Hin].
  - destruct Hseg as (Hs & Hn & HsE & _).
    destruct (gap_process_segment_filled errorstrat _ _ done_before w filled
                Hs Hn HsE Hdone) as (rc & w1 & f1 & -> & Hrc & Hfill).
    destruct Hrc as [-> | [-> Hw]]; simpl; [|by exists 1, w1, f1].
    destruct (IH _ w1 f1 (Hfill eq_refl)) as (rc' & w2 & f2 & -> & Hok & Hfill2).
    exists rc', w2, f2. split; [done|]. split; [done|]. intros H0.
    eapply blocks_from_disc_mono; [|exact (Hfill2 H0)].
    intros k [?|(seg' & Hin & Hk)]; [by left; left|].
    apply elem_of_cons in Hin as [->|Hin]; [left; by right|right; by exists seg'].
Qed.

Lemma reverse_range_filled errorstrat rs rn (done_before : Z -> Prop)
    (w : world Env) filled :
  0 <= rs -> 0 <= rn -> rs + rn <= E -> from_disc done_before (w_file w) ->
  match while_loop (S (Z.to_nat rn)) (reverse_chunk P errorstrat dvd_offset rs rn)
          (0, w, filled) with
  | Some (inl st) => from_disc (fun k => done_before k \/ rs <= k < rs + rn) (w_file st.1.2)
  | Some (inr r) => r.1.1 = 1 /\ ~ writes_complete P
  | None => False
  end.
Proof.
  intros Hs Hn HsE Hdone.
  apply (while_loop_ind
    (fun st : Z * world Env * Z =>
       0 <= st.1.1 <= rn
       /\ from_disc (fun k => done_before k \/ rs + rn - st.1.1 <= k < rs + rn)
                    (w_file st.1.2))
    (fun st : Z * world Env * Z =>
       from_disc (fun k => done_before k \/ rs <= k < rs + rn) (w_file st.1.2))
    (fun r : Z * world Env * Z => r.1.1 = 1 /\ ~ writes_complete P)
    (fun st : Z * world Env * Z => Z.to_nat (rn - st.1.1))); [| |simpl; lia].
  2:{ simpl. split; [lia|]. eapply blocks_from_disc_mono; [|exact Hdone].
      intros k [Hk|Hk]; [done|lia]. }
  intros [[processed w1] f1] [Hp Hf]. simpl in Hp, Hf. unfold reverse_chunk.
  destruct (Z.ltb_spec processed rn) as [Hlt|Hge].
  2:{ simpl. eapply blocks_from_disc_mono; [|exact Hf].
      intros k [Hk|Hk]; [by left|right; lia]. }
  rewrite (size_t_wrap_small (rn - processed)) by (unfold SIZE_MAX, INT_MAX in *; lia).
  set (chunk := if rn - processed >? BUFFER_SIZE then BUFFER_SIZE else rn - processed).
  assert (1 <= chunk <= rn - processed) as Hchunk
    by (unfold chunk, BUFFER_SIZE; destruct (Z.gtb_spec (rn - processed) 512); lia).
  rewrite (size_t_wrap_small (rs + rn)) by (unfold SIZE_MAX, INT_MAX in *; lia).
  rewrite (size_t_wrap_small (rs + rn - processed)) by (unfold SIZE_MAX, INT_MAX in *; lia).
  rewrite (size_t_wrap_small (rs + rn - processed - chunk))
    by (unfold SIZE_MAX, INT_MAX in *; lia).
  destruct (gap_process_segment_filled errorstrat (rs + rn - processed - chunk) chunk
              _ w1 f1 ltac:(lia) ltac:(lia) ltac:(lia) Hf)
    as (rc & w2 & f2 & -> & Hrc & Hfill).
  destruct Hrc as [-> | [-> Hw]]; simpl; [|done].
  rewrite size_t_wrap_small by (unfold SIZE_MAX, INT_MAX in *; lia).
  split; [split; [lia|]|lia].
  eapply blocks_from_disc_mono; [|exact (Hfill eq_refl)].
  intros k [Hk|Hk]; [by left; left|].
  destruct (Z.lt_ge_cases k (rs + rn - processed)); [right; lia|left; right; lia].
Qed.

Lemma outside_in_range_filled errorstrat rs rn (done_before : Z -> Prop)
    (w : world Env) filled :
  0 <= rs -> 0 <= rn -> rs + rn <= E -> from_disc done_before (w_file w) ->
  match while_loop (S (Z.to_nat rn)) (outside_in_chunk P errorstrat dvd_offset rs)
          (0, rn, true, w, filled) with
  | Some (inl st) => from_disc (fun k => done_before k \/ rs <= k < rs + rn) (w_file st.1.2)
  | Some (inr r) => r.1.1 = 1 /\ ~ writes_complete P
  | None => False
  end.
Proof.
  intros Hs Hn HsE Hdone.
  apply (while_loop_ind
    (fun st : Z * Z * bool * world Env * Z =>
       0 <= st.1.1.1.1 <= st.1.1.1.2 /\ st.1.1.1.2 <= rn
       /\ from_disc (fun k => done_before k \/ rs <= k < rs + st.1.1.1.1
                               \/ rs + st.1.1.1.2 <= k < rs + rn)
                    (w_file st.1.2))
    (fun st : Z * Z * bool * world Env * Z =>
       from_disc (fun k => done_before k \/ rs <= k < rs + rn) (w_file st.1.2))
    (fun r : Z * world Env * Z => r.1.1 = 1 /\ ~ writes_complete P)
    (fun st : Z * Z * bool * world Env * Z => Z.to_nat (st.1.1.1.2 - st.1.1.1.1)));
    [| |simpl; lia].
  2:{ simpl. split; [lia|]. split; [lia|]. eapply blocks_from_disc_mono; [|exact Hdone].
      intros k [Hk|Hk]; [done|lia]. }
  intros [[[[front back] use_front] w1] f1] (Hfb & Hb & Hf). simpl in Hfb, Hb, Hf.
  unfold outside_in_chunk.
  destruct (Z.ltb_spec front back) as [Hlt|Hge].
  2:{ simpl. eapply blocks_from_disc_mono; [|exact Hf].
      intros k [Hk|Hk]; [by left|right].
      destruct (Z.lt_ge_cases k (rs + front)); [left; lia|right; lia]. }
  rewrite (size_t_wrap_small (back - front)) by (unfold SIZE_MAX, INT_MAX in *; lia).
  set (chunk := if back - front >? BUFFER_SIZE then BUFFER_SIZE else back - front).
  assert (1 <= chunk <= back - front) as Hchunk
    by (unfold chunk, BUFFER_SIZE; destruct (Z.gtb_spec (back - front) 512); lia).
  destruct use_front.
  - rewrite (size_t_wrap_small (rs + front)) by (unfold SIZE_MAX, INT_MAX in *; lia).
    destruct (gap_process_segment_filled errorstrat (rs + front) chunk
                _ w1 f1 ltac:(lia) ltac:(lia) ltac:(lia) Hf)
      as (rc & w2 & f2 & -> & Hrc & Hfill).
    destruct Hrc as [-> | [-> Hw]]; simpl; [|done].
    rewrite size_t_wrap_small by (unfold SIZE_MAX, INT_MAX in *; lia).
    split; [split; [lia|split; [lia|]]|lia].
    eapply blocks_from_disc_mono; [|exact (Hfill eq_refl)].
    intros k [Hk|[Hk|Hk]]; [by left; left| |left; right; right; lia].
    destruct (Z.lt_ge_cases k (rs + front)); [left; right; left; lia|right; lia].
  - rewrite (size_t_wrap_small (back - chunk)) by (unfold SIZE_MAX, INT_MAX in *; lia).
    rewrite (size_t_wrap_small (rs + (back - chunk)))
      by (unfold SIZE_MAX, INT_MAX in *; lia).
    destruct (gap_process_segment_filled errorstrat (rs + (back - chunk)) chunk
                _ w1 f1 ltac:(lia) ltac:(lia) ltac:(lia) Hf)
      as (rc & w2 & f2 & -> & Hrc & Hfill).
    destruct Hrc as [-> | [-> Hw]]; simpl; [|done].
    split; [split; [lia|split; [lia|]]|lia].
    eapply blocks_from_disc_mono; [|exact (Hfill eq_refl)].
    intros k [Hk|[Hk|Hk]]; [by left; left|left; right; left; lia|].
    destruct (Z.lt_ge_cases k (rs + back)); [right; lia|left; right; right; lia].
Qed.

Lemma fill_range_filled strategy errorstrat range (done_before : Z -> Prop)
    (w : world Env) filled :
  strategy <> GAP_STRATEGY_RANDOM ->
  range_inside fits E range -> from_disc done_before (w_file w) ->
  exists rc w' filled',
    fill_range P strategy errorstrat dvd_offset range w filled = Some (rc, w', filled')
    /\ (writes_complete P -> rc = 0)
    /\ (rc = 0 ->
        from_disc (fun k => done_before k
                            \/ start_block range <= k < start_block range + block_count range)
                  (w_file w')).
Proof.
  intros Hstrategy (Hs & Hn & HsE & _) Hdone. unfold fill_range.
  destruct strategy; [| | |done].
  - destruct (gap_process_segment_filled errorstrat _ _ done_before w filled
                Hs Hn HsE Hdone) as (rc & w1 & f1 & -> & Hrc & Hfill).
    destruct Hrc as [-> | [-> Hw]]; simpl; [by exists 0, w1, f1|by exists 1, w1, f1].
  - pose proof (reverse_range_filled errorstrat _ _ done_before w filled Hs Hn HsE Hdone)
      as H.
    destruct (while_loop _ _ _) as [[[[c w'] f']|[[rc w'] f']]|]; [| |done].
    + by exists 0, w', f'.
    + simpl in H. destruct H as [-> Hw]. by exists 1, w', f'.
  - pose proof (outside_in_range_filled errorstrat _ _ done_before w filled
                  Hs Hn HsE Hdone) as H.
    destruct (while_loop _ _ _) as [[[[[[fr bk] uf] w'] f']|[[rc w'] f']]|]; [| |done].
    + by exists 0, w', f'.
    + simpl in H. destruct H as [-> Hw]. by exists 1, w', f'.
Qed.

Lemma fill_ranges_filled strategy errorstrat rs :
  strategy <> GAP_STRATEGY_RANDOM ->
  Forall (range_inside fits E) rs ->
  forall (done_before : Z -> Prop) (w : world Env) filled,
  from_disc done_before (w_file w) ->
  exists rc w' filled',
    fill_ranges P strategy errorstrat dvd_offset rs w filled = Some (rc, w', filled')
    /\ (writes_complete P -> rc = 0)
    /\ (rc = 0 -> from_disc (fun k => done_before k \/ in_plan rs k) (w_file w')).
Proof.
  intros Hstrategy.
  induction 1 as [|range rs Hrange _ IH]; intros done_before w filled Hdone; simpl.
  - exists 0, w, filled. split; [done|]. split; [done|]. intros _.
    eapply blocks_from_disc_mono; [|exact Hdone].
    intros k [?|(r & Hin & _)]; [done|by apply elem_of_nil in Hin].
  - destruct (fill_range_filled strategy errorstrat range done_before w filled
                Hstrategy Hrange Hdone) as (rc & w1 & f1 & -> & Hok & Hfill).
    destruct (Z.eqb_spec rc 0) as [->|Hne]; simpl; [|by exists rc, w1, f1].
    destruct (IH _ w1 f1 (Hfill eq_refl)) as (rc' & w2 & f2 & -> & Hok2 & Hfill2).
    exists rc', w2, f2. split; [done|]. split; [done|]. intros H0.
    eapply blocks_from_disc_mono; [|exact (Hfill2 H0)].
    intros k [?|(r & Hin & Hk)]; [by left; left|].
    apply elem_of_cons in Hin as [->|Hin]; [left; by right|right; by exists r].
Qed.

(** *** The random ordering *)

Lemma random_cut_range_covers rs rn segments capacity (e : Env) :
  0 <= rs -> 0 <= rn -> rs + rn <= E ->
  match while_loop (S (Z.to_nat rn)) (random_cut_chunk P rs rn)
          (0, segments, capacity, e) with
  | Some (inl st) =>
      (forall k, in_segments segments k \/ rs <= k < rs + rn -> in_segments st.1.1.2 k)
      /\ Z.of_nat (length st.1.1.2) <= Z.of_nat (length segments) + rn
  | Some (inr _) => ~ no_alloc_faults P
  | None => False
  end.
Proof.
  intros Hs Hn HsE.
  apply (while_loop_ind
    (fun st : Z * list gap_fill_segment_t * Z * Env =>
       0 <= st.1.1.1 <= rn
       /\ (forall k, in_segments segments k \/ rs <= k < rs + st.1.1.1 ->
                     in_segments st.1.1.2 k)
       /\ Z.of_nat (length st.1.1.2) <= Z.of_nat (length segments) + st.1.1.1)
    (fun st : Z * list gap_fill_segment_t * Z * Env =>
       (forall k, in_segments segments k \/ rs <= k < rs + rn -> in_segments st.1.1.2 k)
       /\ Z.of_nat (length st.1.1.2) <= Z.of_nat (length segments) + rn)
    (fun _ : Env => ~ no_alloc_faults P)
    (fun st : Z * list gap_fill_segment_t * Z * Env => Z.to_nat (rn - st.1.1.1)));
    [| |simpl; lia].
  2:{ simpl. split; [lia|]. split; [|lia]. intros k [Hk|Hk]; [done|lia]. }
  intros [[[produced segs] cap] e0] (Hp & Hcover & Hcount). simpl in Hp, Hcover, Hcount.
  unfold random_cut_chunk.
  destruct (Z.ltb_spec produced rn) as [Hlt|Hge].
  2:{ simpl. split; [|lia]. intros k [Hk|Hk]; apply Hcover; [by left|right; lia]. }
  rewrite (size_t_wrap_small (rn - produced)) by (unfold SIZE_MAX, INT_MAX in *; lia).
  set (chunk := if rn - produced >? BUFFER_SIZE then BUFFER_SIZE else rn - produced).
  assert (1 <= chunk <= rn - produced) as Hchunk
    by (unfold chunk, BUFFER_SIZE; destruct (Z.gtb_spec (rn - produced) 512); lia).
  set (grown := if Z.of_nat (length segs) =? cap then _ else _).
  assert (match grown with inr _ => ~ no_alloc_faults P | inl _ => True end) as Hgrown.
  { unfold grown. destruct (_ =? cap); [|done].
    destruct (alloc_fault P e0) as [[] e'] eqn:Hfault; [|done].
    intros Hno. specialize (Hno e0). by rewrite Hfault in Hno. }
  destruct grown as [[cap' e']|e']; [|done].
  rewrite !size_t_wrap_small by (unfold SIZE_MAX, INT_MAX in *; lia).
  simpl. split; [split; [lia|split]|lia].
  - intros k Hk.
    assert (in_segments segments k \/ rs <= k < rs + produced
            \/ rs + produced <= k < rs + produced + chunk) as [Hold|[Hold|Hnew]]
      by (destruct Hk as [Hk|Hk]; [by left|right; lia]).
    + destruct (Hcover k (or_introl Hold)) as (seg & Hin & Hseg).
      exists seg. split; [|done]. apply elem_of_app. by left.
    + destruct (Hcover k (or_intror Hold)) as (seg & Hin & Hseg).
      exists seg. split; [|done]. apply elem_of_app. by left.
    + exists (GapSegment (rs + produced) chunk). split; [|done].
      apply elem_of_app. right. apply list_elem_of_here.
  - rewrite length_app. simpl. lia.
Qed.

Lemma random_cut_ranges_covers rs :
  Forall (range_inside fits E) rs ->
  forall segments capacity (e : Env),
    match random_cut_ranges P rs segments capacity e with
    | Some (inl r) =>
        (forall k, in_segments segments k \/ in_plan rs k -> in_segments r.1 k)
        /\ Z.of_nat (length r.1) <= Z.of_nat (length segments) + plan_blocks rs
    | Some (inr _) => ~ no_alloc_faults P
    | None => False
    end.
Proof.
  induction 1 as [|range rs Hrange _ IH]; intros segments capacity e;
    cbn [random_cut_ranges].
  - split; [|simpl; lia]. intros k [Hk|(r & Hin & _)]; [done|by apply elem_of_nil in Hin].
  - destruct Hrange as (Hs & Hn & HsE & _).
    pose proof (random_cut_range_covers _ _ segments capacity e Hs Hn HsE) as Hcut.
    destruct (while_loop _ _ _) as [[[[[produced segs] cap] e']|e']|]; [|done|done].
    simpl in Hcut. destruct Hcut as [Hcover Hcount].
    specialize (IH segs cap e').
    destruct (random_cut_ranges P rs segs cap e') as [[[segs' e'']|e'']|]; [|done|done].
    simpl in *. destruct IH as [Hcover' Hcount']. split; [|lia].
    intros k [Hk|(r & Hin & Hk)]; apply Hcover'.
    + left. apply Hcover. by left.
    + apply elem_of_cons in Hin as [->|Hin].
      * left. apply Hcover. by right.
      * right. by exists r.
Qed.

Lemma plan_blocks_bound rs :
  forall lo, lo <= E -> ordered_disjoint rs -> Forall (range_inside fits E) rs ->
    (forall r, r ∈ rs -> lo <= start_block r) ->
    plan_blocks rs <= E - lo.
Proof.
  induction rs as [|r rs IH]; intros lo Hlo Hord Hall Hfrom; simpl; [lia|].
  apply Forall_cons in Hall as [(Hs & Hn & HsE & _) Hall].
  apply ordered_disjoint_cons in Hord as [Hord Hnext].
  specialize (IH (start_block r + block_count r) HsE Hord Hall
                 ltac:(intros x Hx; specialize (Hnext x Hx); lia)).
  specialize (Hfrom r ltac:(set_solver)). lia.
Qed.

Hypothesis Hrand : rand_nonneg P.

Lemma random_shuffle_perm fuel :
  forall i segments (e : Env),
    i <= Z.of_nat (length segments) -> i <= INT_MAX ->
    (random_shuffle P fuel i segments e).1 ≡ₚ segments.
Proof.
  induction fuel as [|fuel IH]; intros i segments e Hi Hint'; simpl; [done|].
  destruct (Z.gtb_spec i 1) as [Hgt|Hle]; [|done].
  pose proof (Hrand e) as Hr.
  destruct (c_rand P e) as [r e']. simpl in Hr.
  rewrite (int_wrap_small i) by (unfold INT_MIN, INT_MAX in *; lia).
  pose proof (Z.rem_bound_pos r i Hr ltac:(lia)) as Hj.
  rewrite size_t_wrap_small by (unfold SIZE_MAX, INT_MAX in *; lia).
  set (j := Z.rem r i) in *.
  destruct (lookup_lt_is_Some_2 segments (Z.to_nat (i - 1)) ltac:(lia)) as [x1 Hx1].
  destruct (lookup_lt_is_Some_2 segments (Z.to_nat j) ltac:(lia)) as [x2 Hx2].
  unfold seg_get, seg_set. rewrite Hx1, Hx2. simpl.
  rewrite IH by (rewrite ?length_insert; lia).
  by apply Permutation_insert_swap.
Qed.

Lemma in_segments_perm segments segments' k :
  segments' ≡ₚ segments -> in_segments segments k -> in_segments segments' k.
Proof.
  intros Hperm (seg & Hin & Hk). exists seg. split; [|done]. by rewrite Hperm.
Qed.

(** The refill of a plan from a drive that reads the image, under every
    ordering: it terminates, and when it returns 0 every block of the plan
    holds what the disc holds. *)
Lemma gap_fill_from_plan_filled g (w : world Env) plan errorstrat
    (done_before : Z -> Prop) :
  ordered_disjoint (ranges plan) -> Forall (range_inside fits E) (ranges plan) ->
  from_disc done_before (w_file w) ->
  exists rc w' filled,
    gap_fill_from_plan P g w dvd_offset plan errorstrat = Some (rc, w', filled)
    /\ (writes_complete P -> no_alloc_faults P -> rc = 0)
    /\ (rc = 0 ->
        from_disc (fun k => done_before k \/ in_plan (ranges plan) k) (w_file w')).
Proof.
  intros Hord Hall Hdone. unfold gap_fill_from_plan.
  destruct (Z.eqb_spec (plan_count plan) 0) as [Hnone|Hsome].
  { exists 0, w, 0. split; [done|]. split; [done|]. intros _.
    eapply blocks_from_disc_mono; [|exact Hdone].
    intros k [?|(r & Hin & _)]; [done|].
    unfold plan_count in Hnone. destruct (ranges plan); [by apply elem_of_nil in Hin|].
    simpl in Hnone. lia. }
  destruct (alloc_fault P (w_env w)) as [[] e0] eqn:Hfault.
  { exists 1, (with_env w e0), 0. split; [done|]. split; [|done].
    intros _ Hno. specialize (Hno (w_env w)). by rewrite Hfault in Hno. }
  assert (forall strategy, strategy <> GAP_STRATEGY_RANDOM ->
            exists rc w' filled,
              fill_ranges P strategy errorstrat dvd_offset (ranges plan) (with_env w e0) 0
              = Some (rc, w', filled)
              /\ (writes_complete P -> no_alloc_faults P -> rc = 0)
              /\ (rc = 0 ->
                  from_disc (fun k => done_before k \/ in_plan (ranges plan) k)
                            (w_file w'))) as Hfill.
  { intros strategy Hstrategy.
    destruct (fill_ranges_filled strategy errorstrat (ranges plan) Hstrategy Hall
                done_before (with_env w e0) 0 Hdone) as (rc & w' & f' & Hrun & Hok & Hfill).
    exists rc, w', f'. split; [done|]. split; [|done]. intros Hw _. by apply Hok. }
  destruct (gap_strategy g); try (by apply Hfill).
  pose proof (random_cut_ranges_covers (ranges plan) Hall [] 0 e0) as Hcut.
  pose proof (random_cut_ranges_inside P fits E ltac:(lia) (ranges plan) Hall [] 0 e0
                ltac:(constructor)) as Hin.
  destruct (random_cut_ranges P (ranges plan) [] 0 e0) as [[[segments e1]|e1]|];
    [| |done]; [|by exists 1, (with_env w e1), 0].
  simpl in Hcut, Hin. destruct Hcut as [Hcover Hcount].
  pose proof (plan_blocks_bound (ranges plan) 0 HE Hord Hall
                ltac:(intros r Hr; rewrite Forall_forall in Hall;
                      by destruct (Hall r Hr))) as Hblocks.
  set (e2 := c_srand P e1 _).
  pose proof (random_shuffle_inside P fits E ltac:(lia)
                (Z.to_nat (Z.of_nat (length segments)))
                (Z.of_nat (length segments)) segments e2 Hin) as Hshuffle.
  pose proof (random_shuffle_perm (Z.to_nat (Z.of_nat (length segments)))
                (Z.of_nat (length segments)) segments e2 ltac:(lia)
                ltac:(simpl in Hcount; lia)) as Hperm.
  destruct (random_shuffle P _ _ _ _) as [segments' e3]. simpl in Hshuffle, Hperm.
  destruct (process_segments_filled errorstrat segments' Hshuffle done_before
              (with_env w e3) 0 Hdone) as (rc & w' & f' & -> & Hok & Hfilled).
  exists rc, w', f'. split; [done|]. split; [by intros Hw _; apply Hok|]. intros H0.
  eapply blocks_from_disc_mono; [|exact (Hfilled H0)].
  intros k [Hk|Hk]; [by left|right].
  apply (in_segments_perm segments); [done|]. apply Hcover. by right.
Qed.

End FilledFacts.

(** ** Every gap is planned *)

Lemma blank_run_left (B : Z -> bool) (m : nat) :
  forall k, k = Z.of_nat m -> B k = true ->
    exists s, 0 <= s <= k /\ all_blank B s (k + 1) /\ left_maximal B s.
Proof.
  induction m as [|m IH]; intros k Hk Hb.
  - exists 0. subst k. split; [lia|]. split; [|by left].
    intros j Hj. by replace j with 0 by lia.
  - destruct (B (k - 1)) eqn:Hprev.
    + destruct (IH (k - 1) ltac:(lia) Hprev) as (s & Hs & Hall & Hleft).
      exists s. split; [lia|]. split; [|done]. intros j Hj.
      destruct (Z.eq_dec j k) as [->|?]; [done|]. apply Hall. lia.
    + exists k. split; [lia|]. split; [|by right].
      intros j Hj. by replace j with k by lia.
Qed.

Lemma blank_run_right (B : Z -> bool) N (d : nat) :
  forall k, Z.of_nat d = N - k - 1 -> B k = true ->
    exists t, k < t <= N /\ all_blank B k t /\ (t = N \/ B t = false).
Proof.
  induction d as [|d IH]; intros k Hd Hb.
  - exists N. split; [lia|]. split; [|by left].
    intros j Hj. by replace j with k by lia.
  - destruct (B (k + 1)) eqn:Hnext.
    + destruct (IH (k + 1) ltac:(lia) Hnext) as (t & Ht & Hall & Hend).
      exists t. split; [lia|]. split; [|done]. intros j Hj.
      destruct (Z.eq_dec j k) as [->|?]; [done|]. apply Hall. lia.
    + exists (k + 1). split; [lia|]. split; [|by right].
      intros j Hj. by replace j with k by lia.
Qed.

(** Every blank block lies in a maximal run of blank blocks. *)
Lemma maximal_run_exists (B : Z -> bool) N k :
  0 <= k < N -> B k = true ->
  exists s n, maximal_run B N s n /\ s <= k < s + n.
Proof.
  intros Hk Hb.
  destruct (blank_run_left B (Z.to_nat k) k ltac:(lia) Hb) as (s & Hs & Hl & Hleft).
  destruct (blank_run_right B N (Z.to_nat (N - k - 1)) k ltac:(lia) Hb)
    as (t & Ht & Hr & Hend).
  exists s, (t - s). split; [|lia].
  unfold maximal_run. replace (s + (t - s)) with t by lia.
  split_and!; [lia..| |done|done].
  intros j Hj. destruct (Z.lt_ge_cases j k); [apply Hl|apply Hr]; lia.
Qed.

(** When the first part of the refresh goes through, its plan covers every
    gap of the file among the expected blocks. *)
Lemma refresh_prepare_covers {Env : Type} (P : platform Env) e file size rp :
  0 <= size <= INT_MAX -> Z.of_nat (length file) <= OFF_MAX ->
  refresh_prepare P e file size = Some rp -> rp_ret rp = 0 ->
  forall k, gap_block file size k -> in_plan (ranges (rp_plan rp)) k.
Proof.
  intros Hsize Hlen. unfold refresh_prepare.
  assert (0 <= size <= SIZE_MAX) as Hsz by (unfold INT_MAX, SIZE_MAX in *; lia).
  rewrite (size_t_wrap_small size) by done.
  destruct (scan_existing_file_for_gaps_ok P file e size Hsz Hlen) as (sr & -> & Hret & Hscan).
  destruct (Z.eqb_spec (scan_ret sr) 0) as [H0|Hne]; simpl; [|by intros [= <-]].
  destruct (Hscan H0) as (Hfull & Hbytes & Hok & Hruns & Hblank). clear Hscan.
  set (N := Z.min (full_blocks_of file) size) in *.
  assert (0 <= full_blocks_of file) as Hfull0
    by (unfold full_blocks_of, DVD_VIDEO_LB_LEN; apply Z.div_pos; lia).
  replace (if size <? scan_full_blocks sr then size else scan_full_blocks sr) with N
    by (rewrite Hfull; unfold N; destruct (Z.ltb_spec size (full_blocks_of file)); lia).
  assert (forall k, 0 <= k < N -> blank_blockb file k = true ->
                    in_plan (ranges (scan_plan sr)) k) as Hscanned.
  { intros k Hk Hb. destruct (maximal_run_exists _ N k Hk Hb) as (s & n & Hrun & Hin).
    exists (GapRange s n). split; [by apply Hruns|done]. }
  assert (forall k, gap_block file size k -> k < N -> in_plan (ranges (scan_plan sr)) k)
    as Hgaps.
  { intros k (Hk & Hgap) HkN. apply Hscanned; [lia|].
    destruct Hgap as [Hb|Hmissing]; [done|unfold N in *; lia]. }
  destruct (Z.gtb_spec size N) as [Hmore|Hless].
  - rewrite (size_t_wrap_small (size - N)) by lia.
    assert (insert_fits (N, size - N)) as Hfits by (repeat split; simpl; lia).
    pose proof (gap_plan_add_plan_ok P (scan_env sr) (scan_plan sr) N (size - N) Hok Hfits)
      as Hok'.
    assert (forall l, last (ranges (scan_plan sr)) = Some l -> start_block l <= N) as Hlast.
    { intros [s n] (rs0 & Heq)%last_Some.
      assert (maximal_run (blank_blockb file) N s n) as (? & ? & ? & _)
        by (apply Hruns; rewrite Heq; apply elem_of_app; right; apply list_elem_of_here).
      simpl. lia. }
    pose proof (gap_plan_add_in_plan P (scan_env sr) (scan_plan sr) N (size - N)
                  Hok Hfits Hlast) as [Hrc Hadd].
    destruct (gap_plan_add P (scan_env sr) (scan_plan sr) N (size - N)) as [[rc plan] e1].
    simpl in Hok', Hrc, Hadd.
    destruct Hrc as [-> | ->]; simpl; [|by intros [= <-]].
    rewrite gap_collect_samples_eq by (done || unfold GAP_SAMPLE_TARGET; lia).
    intros [= <-] _ k Hgap. simpl. apply (Hadd eq_refl).
    destruct (Z.lt_ge_cases k N); [left; by apply Hgaps|right; destruct Hgap; lia].
  - rewrite gap_collect_samples_eq by (done || unfold GAP_SAMPLE_TARGET; lia).
    intros [= <-] _ k Hgap. simpl. apply Hgaps; [done|]. destruct Hgap. lia.
Qed.

(** ** The refresh of a file from a disc image *)

(** The refresh from a drive that reads the image terminates, and when it
    returns 0 every block that was a gap holds what the disc holds; the
    other blocks are as they were. *)
Lemma DVDCopyBlocksFillGaps_filled {Env : Type} (P : platform Env) disc g
    (w : world Env) offset size errorstrat :
  reads_bounded P -> reads_image P disc -> rand_nonneg P ->
  0 <= offset -> 0 <= size -> offset + size <= INT_MAX ->
  (offset + size) * DVD_VIDEO_LB_LEN <= Z.of_nat (length disc) ->
  Z.of_nat (length (w_file w)) <= OFF_MAX ->
  exists rc report w',
    DVDCopyBlocksFillGaps P g w offset size errorstrat = Some (rc, report, w')
    /\ file_frame (gap_block (w_file w) size) size (w_file w) (w_file w')
    /\ (rc = 0 -> blocks_from_disc disc offset (gap_block (w_file w) size) (w_file w')).
Proof.
  intros Hreads Himage Hrand Hoff Hsize Hint Hdisc Hlen.
  assert (0 <= size <= INT_MAX) as Hsz by lia.
  destruct (DVDCopyBlocksFillGaps_frame P Hreads g w offset size errorstrat Hsz Hlen)
    as (rp & rc & report & w' & Hrp & Hrun & Hframe & _).
  exists rc, report, w'. split; [done|]. split.
  { eapply file_frame_mono; [|exact Hframe]. by intros k [_ Hk]. }
  destruct (refresh_prepare_ok P (w_env w) (w_file w) size Hsz Hlen)
    as (rp' & Hrp' & Hret & Hprep).
  rewrite Hrp in Hrp'. injection Hrp' as <-.
  pose proof (refresh_prepare_covers P _ _ _ _ Hsz Hlen Hrp) as Hcovers.
  unfold DVDCopyBlocksFillGaps in Hrun. rewrite Hrp in Hrun.
  destruct Hret as [H0|H1]; rewrite ?H0, ?H1 in Hrun; simpl in Hrun;
    [|injection Hrun as <- _ _; lia].
  destruct (Hprep H0) as ([Hord _] & Hin & _). clear Hprep.
  specialize (Hcovers H0).
  set (verified := if Z.of_nat (length (rp_samples rp)) >? 0 then _ else _) in Hrun.
  assert (w_file verified.2 = w_file w) as Hsame.
  { unfold verified. destruct (_ >? 0); [|done].
    apply (gap_verify_samples_file P offset (rp_samples rp) (with_env w (rp_env rp))). }
  destruct verified as [vrc w2]. simpl in Hsame.
  destruct (negb (vrc =? 0)); [injection Hrun as <- _ _; lia|].
  destruct (gap_fill_from_plan_filled P disc offset size Himage Hoff Hsize Hint Hdisc
              Hrand g w2 (rp_plan rp) errorstrat (fun _ => False) Hord)
    as (fill_status & w3 & filled & Hfill & _ & Hfilled).
  { eapply Forall_impl; [exact Hin|]. intros r (? & ? & ? & _). by split_and!. }
  { apply blocks_from_disc_none. }
  rewrite Hfill in Hrun.
  destruct (Z.eqb_spec fill_status 0) as [->|Hne]; simpl in Hrun.
  - destruct (scan_existing_file_for_gaps _ _ _ _ _) as [vr|]; [|done].
    assert (w_file w' = w_file w3) as ->
      by (destruct (scan_ret vr =? 0); by injection Hrun as _ _ <-).
    intros _. eapply blocks_from_disc_mono; [|exact (Hfilled eq_refl)].
    intros k Hk. right. by apply Hcovers.
  - injection Hrun as <- _ _. lia.
Qed.

(** X16.  A refresh from a drive that delivers the blocks of the disc
    image, [rand] being the C library's: it terminates, and when it returns
    0 the file has all the expected blocks and every block that was a gap,
    blank or missing, holds the bytes of its disc block, under each of the
    four orderings and each read error strategy. *)
Theorem refresh_fills_gaps_from_disc :
  forall {Env : Type} (P : platform Env) (disc : list byte) (g : globals) (w : world Env)
         (offset size : Z) (errorstrat : read_error_strategy_t),
    reads_bounded P -> reads_image P disc -> rand_nonneg P ->
    0 <= offset -> 0 <= size -> offset + size <= INT_MAX ->
    (offset + size) * DVD_VIDEO_LB_LEN <= Z.of_nat (length disc) ->
    Z.of_nat (length (w_file w)) <= OFF_MAX ->
    exists rc report w',
      DVDCopyBlocksFillGaps P g w offset size errorstrat = Some (rc, report, w')
      /\ (rc = 0 ->
          size * DVD_VIDEO_LB_LEN <= Z.of_nat (length (w_file w'))
          /\ forall k, gap_block (w_file w) size k ->
               block_of (w_file w') k = block_of disc (offset + k)).
Proof.
  intros Env P disc g w offset size errorstrat Hreads Himage Hrand Hoff Hsize Hint
    Hdisc Hlen.
  destruct (DVDCopyBlocksFillGaps_filled P disc g w offset size errorstrat Hreads Himage
              Hrand Hoff Hsize Hint Hdisc Hlen)
    as (rc & report & w' & Hrun & (Hgrow & _) & Hfilled).
  exists rc, report, w'. split; [done|]. intros H0. specialize (Hfilled H0). split.
  - destruct (Z.le_gt_cases (size * DVD_VIDEO_LB_LEN) (Z.of_nat (length (w_file w))))
      as [Hfull|Hshort]; [lia|].
    assert (gap_block (w_file w) size (size - 1)) as Hlast.
    { unfold gap_block, full_blocks_of, DVD_VIDEO_LB_LEN in *.
      split; [lia|]. right.
      pose proof (Z.div_lt_upper_bound (Z.of_nat (length (w_file w))) 2048 size
                    ltac:(lia) ltac:(lia)). lia. }
    destruct (Hfilled _ Hlast) as (_ & Hfit & _). lia.
  - intros k Hk. by destruct (Hfilled k Hk) as (_ & _ & ?).
Qed.

(** Two files whose first [n] blocks are full and agree block by block
    agree on their first [n * 2048] bytes. *)
Lemma take_blocks_eq (a b : list byte) n :
  0 <= n ->
  n * DVD_VIDEO_LB_LEN <= Z.of_nat (length a) ->
  n * DVD_VIDEO_LB_LEN <= Z.of_nat (length b) ->
  (forall k, 0 <= k < n -> block_of a k = block_of b k) ->
  take (Z.to_nat (n * DVD_VIDEO_LB_LEN)) a = take (Z.to_nat (n * DVD_VIDEO_LB_LEN)) b.
Proof.
  intros Hn Ha Hb Hblocks. apply list_eq. intros i.
  destruct (decide (i < Z.to_nat (n * DVD_VIDEO_LB_LEN))%nat) as [Hi|Hi].
  - rewrite !lookup_take_lt by done.
    set (k := Z.of_nat i / DVD_VIDEO_LB_LEN).
    set (r := Z.of_nat i mod DVD_VIDEO_LB_LEN).
    assert (Z.of_nat i = k * DVD_VIDEO_LB_LEN + r /\ 0 <= r < DVD_VIDEO_LB_LEN /\ 0 <= k < n)
      as (Hdiv & Hr & Hk).
    { unfold k, r, DVD_VIDEO_LB_LEN in *.
      pose proof (Z.div_mod (Z.of_nat i) 2048 ltac:(lia)).
      pose proof (Z.mod_pos_bound (Z.of_nat i) 2048 ltac:(lia)).
      split; [lia|]. split; [lia|]. split; [apply Z.div_pos; lia|].
      apply Z.div_lt_upper_bound; lia. }
    clearbody k r.
    pose proof (f_equal (fun l => l !! Z.to_nat r) (Hblocks k Hk)) as Heq. simpl in Heq.
    unfold block_of in Heq.
    rewrite !lookup_take_lt, !lookup_drop in Heq by lia.
    by replace (Z.to_nat (k * DVD_VIDEO_LB_LEN) + Z.to_nat r)%nat with i in Heq
      by (unfold DVD_VIDEO_LB_LEN in *; lia).
  - by rewrite !lookup_take_ge by lia.
Qed.

(** The expected blocks of a file after stores inside its gaps that left
    every gap with what the disc holds, when the other blocks held it
    already. *)
Lemma restored_image disc file file' offset size :
  0 <= offset -> 0 <= size ->
  file_frame (gap_block file size) size file file' ->
  blocks_from_disc disc offset (gap_block file size) file' ->
  (forall k, 0 <= k < size -> gap_blockb file k = false ->
             block_of file k = block_of disc (offset + k)) ->
  take (Z.to_nat (size * DVD_VIDEO_LB_LEN)) file'
  = read_at disc (size * DVD_VIDEO_LB_LEN) (offset * DVD_VIDEO_LB_LEN).
Proof.
  intros Hoff Hsize Hframe Hfilled Hgood.
  assert (forall k, 0 <= k < size ->
            (k + 1) * DVD_VIDEO_LB_LEN <= Z.of_nat (length file')
            /\ block_of file' k = block_of disc (offset + k)) as Hblocks.
  { intros k Hk. destruct (gap_blockb file k) eqn:Hgap.
    - assert (gap_block file size k) as Hk'.
      { split; [done|]. unfold gap_blockb in Hgap.
        apply orb_true_iff in Hgap as [Hmissing%Z.leb_le|Hblank]; [by right|by left]. }
      by destruct (Hfilled k Hk') as (_ & ? & ?).
    - pose proof Hgap as Hnot. unfold gap_blockb in Hnot.
      apply orb_false_iff in Hnot as [Hthere%Z.leb_gt Hdata].
      assert ((k + 1) * DVD_VIDEO_LB_LEN <= Z.of_nat (length file)) as Hfit.
      { unfold full_blocks_of, DVD_VIDEO_LB_LEN in *.
        pose proof (Z.mul_div_le (Z.of_nat (length file)) 2048 ltac:(lia)). lia. }
      split; [destruct Hframe as (? & _); lia|].
      rewrite <- (Hgood k Hk Hgap).
      apply (file_frame_block _ _ _ _ _ Hframe); [lia|].
      intros (_ & [Hblank|Hmissing]); [congruence|lia]. }
  unfold read_at.
  destruct (Z.eq_dec size 0) as [->|Hpos]; [done|].
  pose proof (Hblocks (size - 1) ltac:(lia)) as [Hfit Hlast].
  assert ((offset + size) * DVD_VIDEO_LB_LEN <= Z.of_nat (length disc)) as Hdisc.
  { pose proof (f_equal (fun l => Z.of_nat (length l)) Hlast) as Hlen. simpl in Hlen.
    unfold block_of in Hlen. rewrite !length_take, !length_drop in Hlen.
    unfold DVD_VIDEO_LB_LEN in *. lia. }
  apply take_blocks_eq; [done|lia| |].
  - rewrite length_drop. unfold DVD_VIDEO_LB_LEN in *. lia.
  - intros k Hk. destruct (Hblocks k Hk) as [_ ->].
    unfold block_of. rewrite drop_drop. do 2 f_equal. unfold DVD_VIDEO_LB_LEN. lia.
Qed.

(** X17.  When the blocks of the file that are no gaps already hold what
    the disc holds, a refresh that returns 0 leaves the expected blocks of
    the file equal to the image: what a copy from scratch of the same
    blocks would have written. *)
Theorem refresh_restores_image :
  forall {Env : Type} (P : platform Env) (disc : list byte) (g : globals) (w : world Env)
         (offset size : Z) (errorstrat : read_error_strategy_t),
    reads_bounded P -> reads_image P disc -> rand_nonneg P ->
    0 <= offset -> 0 <= size -> offset + size <= INT_MAX ->
    (offset + size) * DVD_VIDEO_LB_LEN <= Z.of_nat (length disc) ->
    Z.of_nat (length (w_file w)) <= OFF_MAX ->
    (forall k, 0 <= k < size -> gap_blockb (w_file w) k = false ->
               block_of (w_file w) k = block_of disc (offset + k)) ->
    exists rc report w',
      DVDCopyBlocksFillGaps P g w offset size errorstrat = Some (rc, report, w')
      /\ (rc = 0 ->
          take (Z.to_nat (size * DVD_VIDEO_LB_LEN)) (w_file w')
          = read_at disc (size * DVD_VIDEO_LB_LEN) (offset * DVD_VIDEO_LB_LEN)).
Proof.
  intros Env P disc g w offset size errorstrat Hreads Himage Hrand Hoff Hsize Hint
    Hdisc Hlen Hgood.
  destruct (DVDCopyBlocksFillGaps_filled P disc g w offset size errorstrat Hreads Himage
              Hrand Hoff Hsize Hint Hdisc Hlen)
    as (rc & report & w' & Hrun & Hframe & Hfilled).
  exists rc, report, w'. split; [done|]. intros H0.
  apply (restored_image disc (w_file w)); [done|done|done| |done].
  by apply Hfilled.
Qed.

Lemma image_platform_rand_nonneg disc limit seed :
  0 <= seed -> rand_nonneg (image_platform disc limit seed).
Proof. intros Hseed e. exact Hseed. Qed.

(** ** Block comparer *)

(** What a [take] delivers is the [take] of its own length. *)
Lemma take_length_take {A : Type} (l : list A) (m : nat) :
  take (length (take m l)) l = take m l.
Proof.
  rewrite length_take. destruct (decide (m <= length l)%nat).
  - by replace (m `min` length l)%nat with m by lia.
  - replace (m `min` length l)%nat with (length l) by lia.
    by rewrite !take_ge by lia.
Qed.

(** The bytes of the image that lie [a] blocks into a read of [n] blocks. *)
Lemma read_at_inside disc o n a c :
  0 <= o -> 0 <= a -> 0 <= c -> a + c <= n ->
  take (Z.to_nat (c * DVD_VIDEO_LB_LEN))
    (drop (Z.to_nat (a * DVD_VIDEO_LB_LEN))
       (read_at disc (n * DVD_VIDEO_LB_LEN) (o * DVD_VIDEO_LB_LEN)))
  = read_at disc (c * DVD_VIDEO_LB_LEN) ((o + a) * DVD_VIDEO_LB_LEN).
Proof.
  intros Ho Ha Hc Hn. unfold read_at, DVD_VIDEO_LB_LEN.
  rewrite skipn_firstn_comm, take_take, drop_drop. f_equal; [lia|]. f_equal. lia.
Qed.

Section CmpFacts.

Context {Env : Type} (P : platform Env) (R : file_reader Env).
Hypothesis Hreader : reader_ok R.

Lemma do_lseek_ok (w : world Env) off :
  0 <= off ->
  exists e', do_lseek R w off = (false, World e' (w_file w) off (w_writes w)).
Proof.
  intros Hoff. unfold do_lseek. destruct Hreader as [Hseek _].
  specialize (Hseek (w_env w)). destruct (sys_lseek R (w_env w)) as [fail e'].
  simpl in Hseek. subst fail. destruct (Z.ltb_spec off 0); [lia|]. by exists e'.
Qed.

Lemma do_read_ok (w : world Env) count :
  exists limit e',
    do_read R w count
    = (Z.of_nat (length (read_at (w_file w) (Z.min count (Z.pos limit)) (w_pos w))), false,
       read_at (w_file w) (Z.min count (Z.pos limit)) (w_pos w),
       World e' (w_file w)
         (w_pos w + Z.of_nat (length (read_at (w_file w) (Z.min count (Z.pos limit))
                                              (w_pos w))))
         (w_writes w)).
Proof.
  unfold do_read. destruct Hreader as [_ Hread].
  destruct (Hread (w_env w) count) as [limit Hlimit].
  destruct (sys_read R (w_env w) count) as [answer e']. simpl in Hlimit. subst answer.
  by exists limit, e'.
Qed.

(** The inner loop fills the buffer with the next [chunk_bytes] bytes of
    the file, or returns when the file ends before that. *)
Lemma read_file_chunk_ok fuel :
  forall (w : world Env) file_buffer total_read chunk_bytes,
    0 <= total_read <= chunk_bytes -> chunk_bytes <= SIZE_MAX -> 0 <= w_pos w ->
    (Z.to_nat (chunk_bytes - total_read) < fuel)%nat ->
    match read_file_chunk R fuel w file_buffer total_read chunk_bytes with
    | Some (inl (file_buffer', w')) =>
        chunk_bytes - total_read
        <= Z.of_nat (length (drop (Z.to_nat (w_pos w)) (w_file w)))
        /\ file_buffer'
           = file_buffer ++ read_at (w_file w) (chunk_bytes - total_read) (w_pos w)
        /\ w_file w' = w_file w /\ w_pos w' = w_pos w + (chunk_bytes - total_read)
    | Some (inr w') =>
        Z.of_nat (length (drop (Z.to_nat (w_pos w)) (w_file w))) < chunk_bytes - total_read
        /\ w_file w' = w_file w
    | None => False
    end.
Proof.
  induction fuel as [|fuel IH]; intros w file_buffer total_read chunk_bytes Htotal Hchunk
    Hpos Hfuel; [lia|].
  simpl. destruct (Z.ltb_spec total_read chunk_bytes) as [Hlt|Hge].
  2:{ assert (chunk_bytes - total_read = 0) as -> by lia.
      unfold read_at. simpl. rewrite app_nil_r. split_and!; [lia|done|done|lia]. }
  rewrite (size_t_wrap_small (chunk_bytes - total_read)) by lia.
  destruct (do_read_ok w (chunk_bytes - total_read)) as (limit & e' & ->).
  set (count := chunk_bytes - total_read) in *.
  set (m := Z.min count (Z.pos limit)).
  assert (1 <= m <= count) as Hm by (unfold m; lia).
  set (D := drop (Z.to_nat (w_pos w)) (w_file w)).
  assert (read_at (w_file w) m (w_pos w) = take (Z.to_nat m) D) as Hdata by done.
  rewrite Hdata.
  set (got := length (take (Z.to_nat m) D)).
  assert (got = Z.to_nat m `min` length D)%nat as Hgot by apply length_take.
  destruct (Z.ltb_spec (Z.of_nat got) 0) as [?|_]; [lia|].
  destruct (Z.eqb_spec (Z.of_nat got) 0) as [Hzero|Hsome].
  { simpl. split; [lia|done]. }
  rewrite (size_t_wrap_small (Z.of_nat got)) by lia.
  rewrite (size_t_wrap_small (total_read + Z.of_nat got)) by lia.
  specialize (IH (World e' (w_file w) (w_pos w + Z.of_nat got) (w_writes w))
                 (file_buffer ++ take (Z.to_nat m) D) (total_read + Z.of_nat got)
                 chunk_bytes ltac:(lia) Hchunk ltac:(simpl; lia) ltac:(lia)).
  destruct (read_file_chunk R fuel _ _ _ _) as [[[file_buffer' w']|w']|]; [| |done].
  - simpl in IH. destruct IH as (Havail & -> & -> & ->).
    assert (drop (Z.to_nat (w_pos w + Z.of_nat got)) (w_file w) = drop got D) as Hrest.
    { unfold D. rewrite drop_drop. f_equal. lia. }
    rewrite Hrest in Havail. rewrite length_drop in Havail.
    split_and!; [lia| |done|lia].
    rewrite <- app_assoc. f_equal. unfold read_at. fold D.
    replace (Z.to_nat (w_pos w + Z.of_nat got)) with (Z.to_nat (w_pos w) + got)%nat by lia.
    rewrite <- drop_drop. fold D.
    rewrite <- (take_length_take D (Z.to_nat m)). fold got.
    replace (Z.to_nat count) with (got + Z.to_nat (chunk_bytes - (total_read + Z.of_nat got)))%nat
      by lia.
    by rewrite take_take_drop.
  - simpl in IH. destruct IH as (Hshort & ->). split; [|done].
    assert (drop (Z.to_nat (w_pos w + Z.of_nat got)) (w_file w) = drop got D) as Hrest.
    { unfold D. rewrite drop_drop. f_equal. lia. }
    rewrite Hrest, length_drop in Hshort. lia.
Qed.

Variable disc : list byte.
Variable file : list byte.
Variable offset size : Z.
Variable fuel : nat.
Hypothesis Himage : reads_image P disc.
Hypothesis Hoff : 0 <= offset.
Hypothesis Hsize : 0 <= size.
Hypothesis Hint : offset + size <= INT_MAX.
Hypothesis Hdisc : (offset + size) * DVD_VIDEO_LB_LEN <= Z.of_nat (length disc).
Hypothesis Hfuel : (Z.to_nat (BUFFER_SIZE * DVD_VIDEO_LB_LEN) < fuel)%nat.

Local Abbreviation agree := (cmp_inv disc file offset size).

Lemma same_as_disc_length :
  same_as_disc disc file offset size ->
  Z.of_nat (length file) = (offset + size) * DVD_VIDEO_LB_LEN
  \/ (size = 0 /\ Z.of_nat (length file) <= offset * DVD_VIDEO_LB_LEN).
Proof.
  unfold same_as_disc. intros Hsame.
  pose proof (f_equal (fun l => Z.of_nat (length l)) Hsame) as Hlen. simpl in Hlen.
  rewrite (read_at_full_length disc offset size Hoff Hsize Hdisc) in Hlen.
  rewrite length_drop in Hlen. unfold DVD_VIDEO_LB_LEN in *. lia.
Qed.

Lemma same_as_disc_chunk a c :
  same_as_disc disc file offset size -> 0 <= a -> 0 <= c -> a + c <= size ->
  read_at file (c * DVD_VIDEO_LB_LEN) ((offset + a) * DVD_VIDEO_LB_LEN)
  = read_at disc (c * DVD_VIDEO_LB_LEN) ((offset + a) * DVD_VIDEO_LB_LEN).
Proof.
  intros Hsame Ha Hc Hac.
  rewrite <- (read_at_inside disc offset size a c Hoff Ha Hc Hac).
  rewrite <- Hsame. unfold read_at. rewrite drop_drop. do 2 f_equal.
  unfold DVD_VIDEO_LB_LEN. lia.
Qed.

Lemma cmp_chunk_step (s : Z * Z * Z * world Env) :
  agree s ->
  match cmp_chunk P R fuel s with
  | Some (Next s') =>
      agree s' /\ (Z.to_nat s'.1.1.1 < Z.to_nat s.1.1.1)%nat
  | Some (Break s') => agree s' /\ s'.1.1.1 = 0
  | Some (Ret r) => r.1 = 1 /\ w_file r.2 = file /\ ~ same_as_disc disc file offset size
  | None => False
  end.
Proof.
  destruct s as [[[remaining to_read] current_offset] w].
  intros (Hrem & Hto & Hcur & Hfile & Hpos & Hsofar). unfold cmp_chunk.
  destruct (Z.gtb_spec remaining 0) as [Hmore|Hnone].
  2:{ split; [|simpl; lia]. unfold cmp_inv. split_and!; (done || lia). }
  set (n := if to_read >? remaining then remaining else to_read).
  assert (1 <= n <= BUFFER_SIZE /\ n <= remaining) as [Hn Hn']
    by (unfold n; destruct (Z.gtb_spec to_read remaining); lia).
  pose proof (Himage (w_env w) current_offset n ltac:(lia) ltac:(lia)
                ltac:(unfold DVD_VIDEO_LB_LEN in *; lia)) as Hread.
  destruct (DVDReadBlocks P (w_env w) current_offset n) as [[act_read dvd_buffer] e1].
  simpl in Hread. injection Hread as -> ->.
  rewrite Z.eqb_refl. cbn [negb].
  rewrite (size_t_wrap_small n) by (unfold SIZE_MAX, BUFFER_SIZE in *; lia).
  rewrite (size_t_wrap_small (n * DVD_VIDEO_LB_LEN))
    by (unfold SIZE_MAX, BUFFER_SIZE, DVD_VIDEO_LB_LEN in *; lia).
  pose proof (read_file_chunk_ok fuel (with_env w e1) [] 0 (n * DVD_VIDEO_LB_LEN)
                ltac:(unfold DVD_VIDEO_LB_LEN; lia)
                ltac:(unfold SIZE_MAX, BUFFER_SIZE, DVD_VIDEO_LB_LEN in *; lia)
                ltac:(simpl; rewrite Hpos; unfold DVD_VIDEO_LB_LEN; lia)
                ltac:(unfold BUFFER_SIZE, DVD_VIDEO_LB_LEN in *; lia)) as Hchunk.
  set (done_blocks := size - remaining) in *.
  assert (forall c, 0 <= c -> done_blocks + c <= size ->
            Z.of_nat (length (read_at disc (c * DVD_VIDEO_LB_LEN)
                                      (current_offset * DVD_VIDEO_LB_LEN)))
            = c * DVD_VIDEO_LB_LEN) as Hdisc_len.
  { intros c Hc Hfit. apply read_at_full_length; [lia|done|].
    unfold DVD_VIDEO_LB_LEN in *. lia. }
  destruct (read_file_chunk R fuel _ _ _ _) as [[[file_buffer w2]|w2]|]; [| |done].
  - simpl in Hchunk. rewrite Z.sub_0_r, Hfile, Hpos in Hchunk.
    destruct Hchunk as (Havail & -> & Hfile2 & Hpos2).
    rewrite <- Hcur in Havail |- *.
    set (file_chunk := read_at file (n * DVD_VIDEO_LB_LEN)
                         (current_offset * DVD_VIDEO_LB_LEN)).
    set (disc_chunk := read_at disc (n * DVD_VIDEO_LB_LEN)
                         (current_offset * DVD_VIDEO_LB_LEN)).
    assert (Z.of_nat (length file_chunk) = n * DVD_VIDEO_LB_LEN) as Hflen.
    { unfold file_chunk, read_at. rewrite length_take. unfold DVD_VIDEO_LB_LEN in *. lia. }
    pose proof (Hdisc_len n ltac:(lia) ltac:(unfold done_blocks; lia)) as Hdlen.
    fold disc_chunk in Hdlen.
    pose proof (memcmp_zero disc_chunk file_chunk (n * DVD_VIDEO_LB_LEN)
                  ltac:(lia) ltac:(lia)) as Hcmp.
    rewrite !take_ge in Hcmp by lia.
    destruct (Z.eqb_spec (memcmp disc_chunk file_chunk (n * DVD_VIDEO_LB_LEN)) 0)
      as [Heq|Hne]; cbn [negb].
    + apply Hcmp in Heq.
      rewrite !int_wrap_small by (unfold INT_MIN, INT_MAX, BUFFER_SIZE in *; lia).
      simpl. split; [|lia]. unfold cmp_inv.
      split_and!; [lia..| |done| |].
      * unfold done_blocks in Hcur. lia.
      * rewrite Hpos2. unfold done_blocks, DVD_VIDEO_LB_LEN. lia.
      * replace (size - (remaining - n)) with (done_blocks + n) by (unfold done_blocks; lia).
        rewrite <- !(read_at_app _ offset done_blocks n) by (unfold done_blocks; lia).
        rewrite Hsofar. f_equal. rewrite <- Hcur. symmetry. exact Heq.
    + simpl. split; [done|]. split; [done|]. intros Hsame. apply Hne, Hcmp.
      unfold disc_chunk, file_chunk. rewrite Hcur. symmetry.
      apply same_as_disc_chunk; [done|unfold done_blocks; lia..].
  - simpl in Hchunk. rewrite Z.sub_0_r, Hfile, Hpos in Hchunk.
    destruct Hchunk as (Hshort & Hfile2).
    simpl. split; [done|]. split; [done|]. intros Hsame.
    rewrite length_drop in Hshort.
    destruct (same_as_disc_length Hsame) as [Hlen|[Hzero _]];
      unfold done_blocks, DVD_VIDEO_LB_LEN in *; lia.
Qed.

(** With a drive that reads the image and a kernel that reads without
    faults, the comparison terminates and answers 0 exactly when the file
    from byte [offset * 2048] on is the [size] blocks of the image from
    block [offset] on, and nothing more. *)
Lemma DVDCmpBlocks_same_as_disc (w : world Env) :
  w_file w = file ->
  exists rc w',
    DVDCmpBlocks P R fuel w offset size = Some (rc, w')
    /\ (rc = 0 \/ rc = 1)
    /\ (rc = 0 <-> same_as_disc disc file offset size).
Proof.
  intros Hfile. unfold DVDCmpBlocks.
  destruct (do_lseek_ok w (offset * DVD_VIDEO_LB_LEN) ltac:(unfold DVD_VIDEO_LB_LEN; lia))
    as [e0 ->].
  pose proof (while_loop_ind agree
    (fun s : Z * Z * Z * world Env => agree s /\ s.1.1.1 = 0)
    (fun r : Z * world Env => r.1 = 1 /\ w_file r.2 = file
                              /\ ~ same_as_disc disc file offset size)
    (fun s : Z * Z * Z * world Env => Z.to_nat s.1.1.1)
    (cmp_chunk P R fuel) cmp_chunk_step
    (S (Z.to_nat size))
    (size, BUFFER_SIZE, offset,
     World e0 (w_file w) (offset * DVD_VIDEO_LB_LEN) (w_writes w))) as Hloop.
  specialize (Hloop ltac:(unfold cmp_inv, BUFFER_SIZE; simpl; rewrite Z.sub_diag;
                          split_and!; try done; try lia; f_equal; lia)
                    ltac:(simpl; lia)).
  destruct (while_loop _ _ _) as [[[[[remaining to_read] current] w1]|[rc w1]]|];
    [| |done].
  - destruct Hloop as [(Hrem & Hto & Hcur & Hfile1 & Hpos & Hsofar) Hzero].
    simpl in Hzero. subst remaining. rewrite Z.sub_0_r in *.
    destruct (do_read_ok w1 1) as (limit & e' & ->).
    replace (Z.min 1 (Z.pos limit)) with 1 by lia.
    rewrite Hfile1, Hpos.
    set (extra := read_at file 1 ((offset + size) * DVD_VIDEO_LB_LEN)).
    assert (length extra = 1 `min` (length file - Z.to_nat ((offset + size) * DVD_VIDEO_LB_LEN)))%nat
      as Hextra by (unfold extra, read_at; by rewrite length_take, length_drop).
    destruct (Z.ltb_spec (Z.of_nat (length extra)) 0) as [?|_]; [lia|].
    pose proof (read_at_full_length disc offset size Hoff Hsize Hdisc) as Hdlen.
    destruct (Z.gtb_spec (Z.of_nat (length extra)) 0) as [Hmore|Hend].
    + eexists 1, _. split; [done|]. split; [by right|]. split; [done|].
      intros Hsame. exfalso.
      destruct (same_as_disc_length Hsame) as [Hlen|[_ Hlen]];
        unfold DVD_VIDEO_LB_LEN in *; lia.
    + eexists 0, _. split; [done|]. split; [by left|]. split; [|done]. intros _.
      unfold same_as_disc. rewrite <- Hsofar. unfold read_at.
      symmetry. apply take_ge. rewrite length_drop. unfold DVD_VIDEO_LB_LEN in *. lia.
  - destruct Hloop as (Hrc & _ & Hdiff). simpl in Hrc. subst rc.
    exists 1, w1. split; [done|]. split; [by right|]. split; [done|].
    intros Hsame. by destruct Hdiff.
Qed.

End CmpFacts.

(** X18.  With a drive that delivers the blocks of the disc image and a
    kernel whose [lseek] and [read] do not fail (a [read] may be short),
    [DVDCmpBlocks] terminates, returns 0 or 1, and returns 0 exactly when the
    file from byte [offset * 2048] to its end is the [size] blocks of the
    image that start at block [offset]. *)
Theorem DVDCmpBlocks_zero_iff_same :
  forall {Env : Type} (P : platform Env) (R : file_reader Env) (disc : list byte)
         (fuel : nat) (w : world Env) (offset size : Z),
    reads_image P disc -> reader_ok R ->
    0 <= offset -> 0 <= size -> offset + size <= INT_MAX ->
    (offset + size) * DVD_VIDEO_LB_LEN <= Z.of_nat (length disc) ->
    (Z.to_nat (BUFFER_SIZE * DVD_VIDEO_LB_LEN) < fuel)%nat ->
    exists rc w',
      DVDCmpBlocks P R fuel w offset size = Some (rc, w')
      /\ (rc = 0 \/ rc = 1)
      /\ (rc = 0 <->
          drop (Z.to_nat (offset * DVD_VIDEO_LB_LEN)) (w_file w)
          = read_at disc (size * DVD_VIDEO_LB_LEN) (offset * DVD_VIDEO_LB_LEN)).
Proof.
  intros Env P R disc fuel w offset size Himage Hreader Hoff Hsize Hint Hdisc Hfuel.
  destruct (DVDCmpBlocks_same_as_disc P R Hreader disc (w_file w) offset size fuel
              Himage Hoff Hsize Hint Hdisc Hfuel w eq_refl) as (rc & w' & Hrun & Hrc & Hiff).
  exists rc, w'. split; [done|]. split; [done|]. exact Hiff.
Qed.

(** Whatever the drive delivers, a comparison that is to read more of the
    file than there is beyond the place it seeks to returns 1. *)
Lemma DVDCmpBlocks_short_file {Env : Type} (P : platform Env) (R : file_reader Env)
    (fuel : nat) (w : world Env) offset size :
  reader_ok R -> 0 < size <= INT_MAX -> offset <> 0 ->
  Z.of_nat (length (w_file w)) <= size * DVD_VIDEO_LB_LEN ->
  (Z.to_nat (BUFFER_SIZE * DVD_VIDEO_LB_LEN) < fuel)%nat ->
  exists w', DVDCmpBlocks P R fuel w offset size = Some (1, w').
Proof.
  intros Hreader Hsize Hoff Hlen Hfuel. unfold DVDCmpBlocks.
  destruct (Z.lt_ge_cases offset 0) as [Hneg|Hpos].
  { unfold do_lseek. destruct (sys_lseek R (w_env w)) as [fail e'].
    destruct (Z.ltb_spec (offset * DVD_VIDEO_LB_LEN) 0);
      [|unfold DVD_VIDEO_LB_LEN in *; lia].
    rewrite orb_true_r. by eexists. }
  destruct (do_lseek_ok R Hreader w (offset * DVD_VIDEO_LB_LEN)
              ltac:(unfold DVD_VIDEO_LB_LEN; lia)) as [e0 ->].
  set (file := w_file w) in *.
  pose proof (while_loop_ind
    (fun s : Z * Z * Z * world Env =>
       0 <= s.1.1.1 <= size /\ 0 < s.1.1.2 <= BUFFER_SIZE /\ w_file s.2 = file
       /\ w_pos s.2 = (offset + (size - s.1.1.1)) * DVD_VIDEO_LB_LEN
       /\ (s.1.1.1 < size -> w_pos s.2 <= Z.of_nat (length file)))
    (fun _ : Z * Z * Z * world Env => False)
    (fun r : Z * world Env => r.1 = 1)
    (fun s : Z * Z * Z * world Env => Z.to_nat s.1.1.1)
    (cmp_chunk P R fuel)) as Hloop.
  specialize (Hloop ltac:(
    intros [[[remaining to_read] current_offset] w1];
    simpl; intros (Hrem & Hto & Hfile & Hpos1 & Hread); unfold cmp_chunk;
    destruct (Z.gtb_spec remaining 0) as [Hmore|Hnone];
      [|unfold DVD_VIDEO_LB_LEN in *; lia];
    set (n := if to_read >? remaining then remaining else to_read);
    assert (1 <= n <= BUFFER_SIZE /\ n <= remaining) as [Hn Hn']
      by (unfold n; destruct (Z.gtb_spec to_read remaining); lia);
    destruct (DVDReadBlocks P (w_env w1) current_offset n) as [[act_read dvd_buffer] e1];
    destruct (Z.eqb_spec act_read n) as [->|?]; [|done]; cbn [negb];
    rewrite (size_t_wrap_small n) by (unfold SIZE_MAX, BUFFER_SIZE in *; lia);
    rewrite (size_t_wrap_small (n * DVD_VIDEO_LB_LEN))
      by (unfold SIZE_MAX, BUFFER_SIZE, DVD_VIDEO_LB_LEN in *; lia);
    pose proof (read_file_chunk_ok R Hreader fuel (with_env w1 e1) [] 0
                  (n * DVD_VIDEO_LB_LEN)
                  ltac:(unfold DVD_VIDEO_LB_LEN; lia)
                  ltac:(unfold SIZE_MAX, BUFFER_SIZE, DVD_VIDEO_LB_LEN in *; lia)
                  ltac:(simpl; rewrite Hpos1; unfold DVD_VIDEO_LB_LEN; lia)
                  ltac:(unfold BUFFER_SIZE, DVD_VIDEO_LB_LEN in *; lia)) as Hchunk;
    destruct (read_file_chunk R fuel _ _ _ _) as [[[file_buffer w2]|w2]|];
      [|done|done];
    simpl in Hchunk; rewrite Z.sub_0_r, Hfile, Hpos1 in Hchunk;
    destruct Hchunk as (Havail & _ & Hfile2 & Hpos2);
    destruct (negb (memcmp _ _ _ =? 0)); [done|];
    rewrite (int_wrap_small (remaining - n))
      by (unfold INT_MIN, INT_MAX, BUFFER_SIZE in *; lia);
    rewrite length_drop in Havail;
    simpl; split; [|lia];
    split_and!; [lia|lia|lia|lia|done| |];
      [rewrite Hpos2|intros _; rewrite Hpos2]; unfold DVD_VIDEO_LB_LEN in *; lia)).
  specialize (Hloop (S (Z.to_nat size))
                (size, BUFFER_SIZE, offset,
                 World e0 (w_file w) (offset * DVD_VIDEO_LB_LEN) (w_writes w))
                ltac:(simpl; unfold BUFFER_SIZE; split_and!; try done; lia)
                ltac:(simpl; lia)).
  destruct (while_loop _ _ _) as [[s|[rc w1]]|]; [done| |done].
  simpl in Hloop. subst rc. by exists w1.
Qed.

(** ** Comparing the parts of a title set *)

(** Behind a first part that is not empty, the offset of a later part is
    positive. *)
Lemma title_vob_offset_later size_vob vob :
  2 <= vob <= 10 ->
  (forall i, 0 <= i < vob - 1 -> 0 <= arr_get size_vob i <= 2 ^ 30) ->
  arr_get size_vob 0 <> 0 ->
  title_vob_offset size_vob vob = Some (inr tt)
  \/ exists offset, title_vob_offset size_vob vob = Some (inl offset) /\ 0 < offset.
Proof.
  intros Hvob Hsizes Hfirst. unfold title_vob_offset.
  match goal with
  | |- context [for_range_ret 0 (vob - 1) ?body 0] =>
      pose proof (for_range_ret_ind
        (fun i offset => 0 <= offset <= i * 2 ^ 19 /\ (1 <= i -> 1 <= offset))
        (fun r : unit => r = tt) body 0 (vob - 1) 0 ltac:(lia)
        ltac:(split; [lia|intros ?; lia])) as Hloop
  end.
  simpl in Hloop.
  specialize (Hloop ltac:(
    intros i offset Hi [Hoff Hpos];
    pose proof (Hsizes i Hi) as Hsz;
    rewrite (int_wrap_small (arr_get size_vob i)) by (unfold INT_MIN, INT_MAX; lia);
    rewrite int_mod_nonneg by (unfold INT_MAX, DVD_VIDEO_LB_LEN; lia);
    destruct (Z.eqb_spec (arr_get size_vob i mod DVD_VIDEO_LB_LEN) 0) as [Hmod|?];
      [|done]; cbn [negb];
    rewrite int_div_nonneg by (unfold INT_MAX, DVD_VIDEO_LB_LEN; lia);
    unfold DVD_VIDEO_LB_LEN in *;
    pose proof (Z.div_mod (arr_get size_vob i) 2048 ltac:(lia)) as Hdiv;
    pose proof (Z.div_le_upper_bound (arr_get size_vob i) 2048 (2 ^ 19)
                  ltac:(lia) ltac:(lia));
    pose proof (Z.div_pos (arr_get size_vob i) 2048 ltac:(lia) ltac:(lia));
    rewrite int_wrap_small by (unfold INT_MIN, INT_MAX; lia);
    split; [lia|]; intros _;
    destruct (Z.eq_dec i 0) as [->|?]; lia)).
  destruct (for_range_ret _ _ _ _) as [[offset|[]]|]; [|by left|done].
  right. exists offset. split; [done|]. lia.
Qed.

(** The name of a part with one digit of a title set with at most two fits
    [filename]. *)
Lemma sprintf_filename_fits title_set vob :
  title_set <= 99 -> 0 <= vob <= 9 ->
  exists filename, sprintf_filename title_set vob = Some filename.
Proof.
  intros Hset Hvob.
  destruct (Z.le_gt_cases title_set 0) as [Hvmg|Hvts].
  { unfold sprintf_filename. destruct (Z.gtb_spec title_set 0); [lia|by eexists]. }
  assert (forallb (fun ts =>
            forallb (fun v => bool_decide (is_Some (sprintf_filename ts v))) (seqZ 0 10))
            (seqZ 1 99) = true) as Hall by (vm_compute; reflexivity).
  rewrite forallb_forall in Hall.
  specialize (Hall title_set ltac:(apply list_elem_of_In, elem_of_seqZ; lia)).
  rewrite forallb_forall in Hall.
  specialize (Hall vob ltac:(apply list_elem_of_In, elem_of_seqZ; lia)).
  by apply bool_decide_eq_true in Hall.
Qed.

(** X20.  [DVDCmpTitleVobX] on a part from the second to the ninth of a
    title set of at most 99, for which the name fits [filename], the parts
    up to it being of at most 1 GiB each: it returns 1 whatever the drive
    delivers and whatever the file holds, a faithful copy included, because
    [DVDCmpBlocks] seeks the file to the offset of the part on the disc. *)
Theorem DVDCmpTitleVobX_later_part_fails :
  forall {Env : Type} (P : platform Env) (R : file_reader Env) (fuel : nat)
         (gap_map : bool) (title_set_info : TitleSetInfo.title_set_info_t)
         (title_set vob : Z) (target : option (list byte)) (gm : GapMap.state) (e : Env),
    reader_ok R -> title_set <= 99 -> 2 <= vob <= 9 ->
    (forall i, 0 <= i < vob ->
       0 <= arr_get (TitleSetInfo.size_vob (TitleSetInfo.get title_set_info title_set)) i
         <= 2 ^ 30) ->
    (Z.to_nat (BUFFER_SIZE * DVD_VIDEO_LB_LEN) < fuel)%nat ->
    exists gm' e',
      DVDCmpTitleVobX P R fuel gap_map title_set_info title_set vob target gm e
      = Some (1, gm', e').
Proof.
  intros Env P R fuel gap_map title_set_info title_set vob target gm e Hreader Hset Hvob
    Hsizes Hfuel.
  unfold DVDCmpTitleVobX.
  destruct (sprintf_filename_fits title_set vob Hset ltac:(lia)) as (filename & ->).
  set (size_vob := TitleSetInfo.size_vob (TitleSetInfo.get title_set_info title_set)) in *.
  destruct (_ <? title_set); [by eexists _, _|].
  destruct (_ <? vob); [by eexists _, _|].
  destruct (Z.eqb_spec (arr_get size_vob 0) 0) as [?|Hfirst]; [by eexists _, _|].
  destruct (Z.eqb_spec (arr_get size_vob (vob - 1)) 0) as [?|Hthis]; [by eexists _, _|].
  pose proof (Hsizes (vob - 1) ltac:(lia)) as Hsz.
  rewrite Z.rem_mod_nonneg, Z.quot_div_nonneg by (unfold DVD_VIDEO_LB_LEN; lia).
  destruct (Z.eqb_spec (arr_get size_vob (vob - 1) mod DVD_VIDEO_LB_LEN) 0) as [Hmod|?];
    [|by eexists _, _].
  cbn [negb].
  set (size := arr_get size_vob (vob - 1) / DVD_VIDEO_LB_LEN).
  assert (1 <= size <= 2 ^ 19) as Hsize.
  { unfold size, DVD_VIDEO_LB_LEN in *.
    pose proof (Z.div_mod (arr_get size_vob (vob - 1)) 2048 ltac:(lia)).
    pose proof (Z.div_le_upper_bound (arr_get size_vob (vob - 1)) 2048 (2 ^ 19)
                  ltac:(lia) ltac:(lia)).
    pose proof (Z.div_pos (arr_get size_vob (vob - 1)) 2048 ltac:(lia) ltac:(lia)).
    lia. }
  rewrite (int_wrap_small size) by (unfold INT_MIN, INT_MAX; lia).
  rewrite (size_t_wrap_small size) by (unfold SIZE_MAX; lia).
  destruct (title_vob_offset_later size_vob vob ltac:(lia)
              ltac:(intros i Hi; apply Hsizes; lia) Hfirst)
    as [-> | (offset & -> & Hoffset)]; [by eexists _, _|].
  destruct (sys_fault P e) as [[] e1]; [by eexists _, _|].
  destruct (alloc_fault P e1) as [[] e2]; [by eexists _, _|].
  assert (exists gm' e',
            (if gap_map
             then let '(_, gm', e') :=
                    gap_map_collect_missing P e2 gm (GapMap.total_blocks gm) size in
                  Some (1, gap_map_count gm' size, e')
             else Some (1, gm, e2)) = Some (1, gm', e')) as Hno_file.
  { destruct gap_map; [|by eexists _, _].
    destruct (gap_map_collect_missing P e2 gm _ size) as [[rc gm'] e']. by eexists _, _. }
  destruct target as [file|]; [|exact Hno_file].
  destruct (Z.eqb_spec (Z.of_nat (length file)) (size * DVD_VIDEO_LB_LEN)) as [Hlen|?];
    [|exact Hno_file].
  cbn [negb]. clear Hno_file.
  destruct (sys_fault P e2) as [[] e3]; [by eexists _, _|].
  assert (forall w : world Env, w_file w = file ->
            exists w', DVDCmpBlocks P R fuel w offset size = Some (1, w')) as Hcmp.
  { intros w Hfile.
    apply DVDCmpBlocks_short_file; [done|unfold INT_MAX; lia|lia| |done].
    rewrite Hfile. lia. }
  destruct gap_map.
  - destruct (scan_existing_file_for_gaps_ok P file e3 size
                ltac:(unfold SIZE_MAX; lia)
                ltac:(unfold OFF_MAX, DVD_VIDEO_LB_LEN in *; lia)) as (sr & -> & _).
    set (collected := if scan_ret sr =? 0 then _ else _).
    destruct collected as [[rc gm'] e4].
    destruct (do_lseek_ok R Hreader (World e4 file 0 []) (offset * DVD_VIDEO_LB_LEN)
                ltac:(unfold DVD_VIDEO_LB_LEN; lia)) as [e5 ->].
    cbn [w_file w_writes].
    destruct (Hcmp (World e5 file (offset * DVD_VIDEO_LB_LEN) []) eq_refl) as [w' ->].
    by eexists _, _.
  - destruct (Hcmp (World e3 file 0 []) eq_refl) as [w' ->]. by eexists _, _.
Qed.

(** The copy of the first part of a title set holds the same check. *)
Lemma title_vob_offset_first size_vob : title_vob_offset size_vob 1 = Some (inl 0).
Proof. done. Qed.

(** ** Copy, then compare *)

(** A copy into an empty file from a drive that reads the image. *)
Lemma DVDCopyBlocks_fresh_file {Env : Type} (P : platform Env) disc g (e : Env)
    offset size errorstrat :
  reads_image P disc -> writes_complete P -> fill_gaps g = false ->
  0 <= offset -> 0 <= size -> offset + size <= INT_MAX ->
  (offset + size) * DVD_VIDEO_LB_LEN <= Z.of_nat (length disc) ->
  exists w',
    DVDCopyBlocks P g (World e [] 0 []) offset size errorstrat = Some (0, w')
    /\ w_file w' = read_at disc (size * DVD_VIDEO_LB_LEN) (offset * DVD_VIDEO_LB_LEN).
Proof.
  intros Hri Hw Hg Hoff Hsize Hmax Hdisc.
  unfold DVDCopyBlocks. rewrite Hg.
  pose proof (while_loop_ind (copy_image_inv disc [] offset size)
    (fun s : Z * Z * Z * world Env =>
       w_file s.2 = read_at disc (size * DVD_VIDEO_LB_LEN) (offset * DVD_VIDEO_LB_LEN))
    (fun _ : Z * world Env => False)
    (fun s : Z * Z * Z * world Env => Z.to_nat s.1.1.2)
    (copy_chunk P errorstrat)) as Hloop.
  specialize (Hloop ltac:(
    intros s Hs;
    pose proof (copy_chunk_image_step P errorstrat disc [] offset size s
                  Hri Hw Hoff Hmax Hdisc Hs) as Hstep;
    destruct s as [[[off rem] tr] w0];
    destruct (copy_chunk P errorstrat _) as [[[[[off' rem'] tr'] w'']|[[[off' rem'] tr'] w'']|r]|];
      simpl in *; done)).
  specialize (Hloop (S (Z.to_nat size)) (offset, size, BUFFER_SIZE, World e [] 0 [])
                ltac:(unfold copy_image_inv, BUFFER_SIZE; simpl; rewrite Z.sub_diag;
                      split_and!; try done; lia)
                ltac:(simpl; lia)).
  destruct (while_loop _ _ _) as [[[[[off rem] tr] w']|r]|]; [|done|done].
  by exists w'.
Qed.

(** X19.  A copy of [size] blocks of the image into an empty file, followed
    by a comparison with the same [offset] and [size]: the copy returns 0;
    the comparison returns 0 when [offset] is 0, and returns 1 when
    [offset] and [size] are positive, the file then being shorter than the
    place the comparison seeks to plus what it wants to read. *)
Theorem DVDCopyBlocks_then_DVDCmpBlocks :
  forall {Env : Type} (P : platform Env) (R : file_reader Env) (disc : list byte)
         (g : globals) (e : Env) (offset size : Z) (errorstrat : read_error_strategy_t)
         (fuel : nat),
    reads_image P disc -> writes_complete P -> reader_ok R -> fill_gaps g = false ->
    0 <= offset -> 0 <= size -> offset + size <= INT_MAX ->
    (offset + size) * DVD_VIDEO_LB_LEN <= Z.of_nat (length disc) ->
    (Z.to_nat (BUFFER_SIZE * DVD_VIDEO_LB_LEN) < fuel)%nat ->
    exists w1 rc w2,
      DVDCopyBlocks P g (World e [] 0 []) offset size errorstrat = Some (0, w1)
      /\ DVDCmpBlocks P R fuel w1 offset size = Some (rc, w2)
      /\ (offset = 0 -> rc = 0)
      /\ (0 < offset -> 0 < size -> rc = 1).
Proof.
  intros Env P R disc g e offset size errorstrat fuel Himage Hw Hreader Hg Hoff Hsize
    Hint Hdisc Hfuel.
  destruct (DVDCopyBlocks_fresh_file P disc g e offset size errorstrat Himage Hw Hg
              Hoff Hsize Hint Hdisc) as (w1 & Hcopy & Hfile).
  destruct (DVDCmpBlocks_same_as_disc P R Hreader disc (w_file w1) offset size fuel
              Himage Hoff Hsize Hint Hdisc Hfuel w1 eq_refl) as (rc & w2 & Hcmp & Hrc & Hiff).
  exists w1, rc, w2. split; [done|]. split; [done|].
  pose proof (read_at_full_length disc offset size Hoff Hsize Hdisc) as Hlen.
  split.
  - intros ->. apply Hiff. unfold same_as_disc. by rewrite Hfile.
  - intros Hpos Hsome. destruct Hrc as [H0|H1]; [|done].
    apply Hiff in H0. unfold same_as_disc in H0.
    pose proof (f_equal (fun l => Z.of_nat (length l)) H0) as Hsame. simpl in Hsame.
    rewrite length_drop, Hfile in Hsame. unfold DVD_VIDEO_LB_LEN in *. lia.
Qed.

(** X21.  [DVDCmpTitleVobX] on the first part of a title set of at most 99,
    for which the name fits [filename], the part being of [n] blocks, with
    a drive that delivers the image of the title set's VOBs and no failing
    call: it returns 0 exactly when the file is there and holds the first
    [n] blocks of the image and nothing else; otherwise it returns 1.  The
    gap map being on or off makes no difference. *)
Theorem DVDCmpTitleVobX_first_part :
  forall {Env : Type} (P : platform Env) (R : file_reader Env) (disc : list byte)
         (fuel : nat) (gap_map : bool) (title_set_info : TitleSetInfo.title_set_info_t)
         (title_set n : Z) (target : option (list byte)) (gm : GapMap.state) (e : Env),
    reads_image P disc -> reader_ok R -> no_sys_faults P -> no_alloc_faults P ->
    title_set <= 99 ->
    title_set <= int_wrap (TitleSetInfo.number_of_title_sets title_set_info + 1) ->
    1 <= TitleSetInfo.number_of_vob_files (TitleSetInfo.get title_set_info title_set) ->
    arr_get (TitleSetInfo.size_vob (TitleSetInfo.get title_set_info title_set)) 0
    = n * DVD_VIDEO_LB_LEN ->
    1 <= n <= 2 ^ 19 -> n * DVD_VIDEO_LB_LEN <= Z.of_nat (length disc) ->
    (Z.to_nat (BUFFER_SIZE * DVD_VIDEO_LB_LEN) < fuel)%nat ->
    exists rc gm' e',
      DVDCmpTitleVobX P R fuel gap_map title_set_info title_set 1 target gm e
      = Some (rc, gm', e')
      /\ (rc = 0 \/ rc = 1)
      /\ (rc = 0 <-> target = Some (read_at disc (n * DVD_VIDEO_LB_LEN) 0)).
Proof.
  intros Env P R disc fuel gap_map title_set_info title_set n target gm e Himage Hreader
    Hsys Halloc Hset Hsets Hvobs Hfirst Hn Hdisc Hfuel.
  unfold DVDCmpTitleVobX.
  destruct (sprintf_filename_fits title_set 1 Hset ltac:(lia)) as (filename & ->).
  set (size_vob := TitleSetInfo.size_vob (TitleSetInfo.get title_set_info title_set)) in *.
  destruct (Z.ltb_spec (int_wrap (TitleSetInfo.number_of_title_sets title_set_info + 1))
              title_set); [lia|].
  destruct (Z.ltb_spec (TitleSetInfo.number_of_vob_files
                          (TitleSetInfo.get title_set_info title_set)) 1); [lia|].
  replace (1 - 1) with 0 by lia. rewrite Hfirst.
  destruct (Z.eqb_spec (n * DVD_VIDEO_LB_LEN) 0); [unfold DVD_VIDEO_LB_LEN in *; lia|].
  rewrite Z.rem_mod_nonneg, Z.quot_div_nonneg by (unfold DVD_VIDEO_LB_LEN; lia).
  rewrite Z.mod_mul, Z.div_mul by (unfold DVD_VIDEO_LB_LEN; lia).
  cbn [Z.eqb negb].
  rewrite (int_wrap_small n) by (unfold INT_MIN, INT_MAX; lia).
  rewrite (size_t_wrap_small n) by (unfold SIZE_MAX; lia).
  rewrite title_vob_offset_first.
  pose proof (Hsys e) as Hs1. destruct (sys_fault P e) as [f1 e1]. simpl in Hs1. subst f1.
  pose proof (Halloc e1) as Ha. destruct (alloc_fault P e1) as [f2 e2]. simpl in Ha.
  subst f2.
  pose proof (read_at_full_length disc 0 n ltac:(lia) ltac:(lia) ltac:(lia)) as Hdlen.
  rewrite Z.mul_0_l in Hdlen.
  assert (forall file, Z.of_nat (length file) <> n * DVD_VIDEO_LB_LEN ->
            Some file <> Some (read_at disc (n * DVD_VIDEO_LB_LEN) 0)) as Hother.
  { intros file Hlen [= ->]. lia. }
  assert (exists rc gm' e',
            (if gap_map
             then let '(_, gm', e') :=
                    gap_map_collect_missing P e2 gm (GapMap.total_blocks gm) n in
                  Some (1, gap_map_count gm' n, e')
             else Some (1, gm, e2)) = Some (rc, gm', e') /\ rc = 1) as Hno_file.
  { destruct gap_map; [|by eexists _, _, _].
    destruct (gap_map_collect_missing P e2 gm _ n) as [[rc gm'] e']. by eexists _, _, _. }
  destruct target as [file|].
  2:{ destruct Hno_file as (rc & gm' & e' & -> & ->). exists 1, gm', e'.
      split; [done|]. split; [by right|]. split; [lia|done]. }
  destruct (Z.eqb_spec (Z.of_nat (length file)) (n * DVD_VIDEO_LB_LEN)) as [Hlen|Hlen];
    cbn [negb].
  2:{ destruct Hno_file as (rc & gm' & e' & -> & ->). exists 1, gm', e'.
      split; [done|]. split; [by right|]. split; [lia|].
      intros Heq. by destruct (Hother file Hlen). }
  clear Hno_file.
  pose proof (Hsys e2) as Hs2. destruct (sys_fault P e2) as [f3 e3]. simpl in Hs2. subst f3.
  assert (forall w : world Env, w_file w = file ->
            exists rc w', DVDCmpBlocks P R fuel w 0 n = Some (rc, w')
              /\ (rc = 0 \/ rc = 1)
              /\ (rc = 0 <-> Some file = Some (read_at disc (n * DVD_VIDEO_LB_LEN) 0)))
    as Hcmp.
  { intros w Hfile.
    destruct (DVDCmpBlocks_same_as_disc P R Hreader disc file 0 n fuel Himage
                ltac:(lia) ltac:(lia) ltac:(unfold INT_MAX; lia) ltac:(lia) Hfuel w Hfile)
      as (rc & w' & Hrun & Hrc & Hiff).
    exists rc, w'. split; [done|]. split; [done|]. rewrite Hiff.
    unfold same_as_disc. rewrite Z.mul_0_l.
    change (drop (Z.to_nat 0) file) with file.
    split; [by intros ->|by intros [= ->]]. }
  destruct gap_map.
  - destruct (scan_existing_file_for_gaps_ok P file e3 n
                ltac:(unfold SIZE_MAX; lia)
                ltac:(unfold OFF_MAX, DVD_VIDEO_LB_LEN in *; lia)) as (sr & -> & _).
    set (collected := if scan_ret sr =? 0 then _ else _).
    destruct collected as [[rc0 gm'] e4].
    destruct (do_lseek_ok R Hreader (World e4 file 0 []) (0 * DVD_VIDEO_LB_LEN)
                ltac:(lia)) as [e5 ->].
    cbn [w_file w_writes].
    destruct (Hcmp (World e5 file (0 * DVD_VIDEO_LB_LEN) []) eq_refl)
      as (rc & w' & -> & Hrc & Hiff).
    by eexists rc, _, _.
  - destruct (Hcmp (World e3 file 0 []) eq_refl) as (rc & w' & -> & Hrc & Hiff).
    by eexists rc, _, _.
Qed.

Lemma plain_reader_ok limit : reader_ok (plain_reader limit).
Proof. split; [done|]. intros e n. by exists limit. Qed.

(** ** A refresh with nothing failing *)

Section RepairFacts.

Context {Env : Type} (P : platform Env).
Hypothesis Hsys : no_sys_faults P.
Hypothesis Halloc : no_alloc_faults P.

Lemma not_faulty : ~ faulty P.
Proof.
  intros [[e He]|[e He]]; [rewrite Hsys in He|rewrite Halloc in He]; done.
Qed.

Lemma gap_plan_add_no_fault e plan start count :
  (gap_plan_add P e plan start count).1.1 = 0.
Proof.
  destruct (gap_plan_add_ret P e plan start count) as [H0|Hfail]; [done|].
  exfalso. unfold gap_plan_add in Hfail.
  destruct (count =? 0); [done|].
  destruct (match last (ranges plan) with Some _ => _ | None => _ end); [done|].
  destruct (plan_count plan =? capacity plan); [|done].
  cbv zeta in Hfail. pose proof (Halloc e) as Hno.
  destruct (alloc_fault P e) as [[] e']; done.
Qed.

(** The first part of the refresh goes through. *)
Lemma refresh_prepare_no_fault e file size rp :
  0 <= size <= INT_MAX -> Z.of_nat (length file) <= OFF_MAX ->
  refresh_prepare P e file size = Some rp -> rp_ret rp = 0.
Proof.
  intros Hsize Hlen. unfold refresh_prepare.
  assert (0 <= size <= SIZE_MAX) as Hsz by (unfold INT_MAX, SIZE_MAX in *; lia).
  rewrite (size_t_wrap_small size) by done.
  destruct (scan_existing_file_for_gaps_ok P file e size Hsz Hlen) as (sr & -> & Hret & Hscan).
  destruct Hret as [H0|[_ Hfaulty]]; [|by destruct not_faulty].
  rewrite H0. simpl.
  destruct (Hscan H0) as (Hfull & _ & Hok & _). clear Hscan.
  set (N := Z.min (full_blocks_of file) size) in *.
  assert (0 <= full_blocks_of file) as Hfull0
    by (unfold full_blocks_of, DVD_VIDEO_LB_LEN; apply Z.div_pos; lia).
  replace (if size <? scan_full_blocks sr then size else scan_full_blocks sr) with N
    by (rewrite Hfull; unfold N; destruct (Z.ltb_spec size (full_blocks_of file)); lia).
  destruct (Z.gtb_spec size N) as [Hmore|Hless].
  - rewrite (size_t_wrap_small (size - N)) by lia.
    assert (insert_fits (N, size - N)) as Hfits by (repeat split; simpl; lia).
    pose proof (gap_plan_add_plan_ok P (scan_env sr) (scan_plan sr) N (size - N) Hok Hfits)
      as Hok'.
    pose proof (gap_plan_add_no_fault (scan_env sr) (scan_plan sr) N (size - N)) as Hrc.
    destruct (gap_plan_add P (scan_env sr) (scan_plan sr) N (size - N)) as [[rc plan] e1].
    simpl in Hok', Hrc. subst rc. simpl.
    rewrite gap_collect_samples_eq by (done || unfold GAP_SAMPLE_TARGET; lia).
    by intros [= <-].
  - rewrite gap_collect_samples_eq by (done || unfold GAP_SAMPLE_TARGET; lia).
    by intros [= <-].
Qed.

Variable disc : list byte.
Hypothesis Himage : reads_image P disc.

(** Samples whose blocks of the file hold what the disc holds pass the
    verification. *)
Lemma gap_verify_samples_pass offset samples :
  0 <= offset ->
  forall w : world Env,
    Forall (fun s => 0 <= s /\ offset + s + 1 <= INT_MAX
                     /\ (offset + s + 1) * DVD_VIDEO_LB_LEN <= Z.of_nat (length disc)
                     /\ (s + 1) * DVD_VIDEO_LB_LEN <= Z.of_nat (length (w_file w))
                     /\ block_of (w_file w) s = block_of disc (offset + s)) samples ->
    (gap_verify_samples P w offset samples).1 = 0.
Proof.
  intros Hoff. induction samples as [|s rest IH]; intros w Hall; [done|].
  apply Forall_cons in Hall as [(Hs & Hint & Hdisc & Hfile & Hsame) Hrest].
  simpl.
  rewrite (int_wrap_small s) by (unfold INT_MIN, INT_MAX in *; lia).
  rewrite (int_wrap_small (offset + s)) by (unfold INT_MIN, INT_MAX in *; lia).
  pose proof (Himage (w_env w) (offset + s) 1 ltac:(lia)
                ltac:(unfold BUFFER_SIZE; lia) ltac:(lia)) as Hread.
  destruct (DVDReadBlocks P (w_env w) (offset + s) 1) as [[got dvd_block] e1].
  simpl in Hread. injection Hread as -> ->. simpl.
  unfold do_pread. simpl.
  pose proof (Hsys e1) as Hno. destruct (sys_fault P e1) as [fail e2]. simpl in Hno.
  subst fail. simpl.
  change (read_at (w_file w) DVD_VIDEO_LB_LEN (s * DVD_VIDEO_LB_LEN))
    with (block_of (w_file w) s).
  change (read_at disc (1 * DVD_VIDEO_LB_LEN) ((offset + s) * DVD_VIDEO_LB_LEN))
    with (block_of disc (offset + s)).
  rewrite Hsame.
  assert (Z.of_nat (length (block_of disc (offset + s))) = DVD_VIDEO_LB_LEN) as ->.
  { unfold block_of. rewrite length_take, length_drop. unfold DVD_VIDEO_LB_LEN in *. lia. }
  rewrite Z.eqb_refl. simpl.
  unfold memcmp. rewrite memcmp_loop_refl. simpl.
  apply IH. exact Hrest.
Qed.

Hypothesis Hrand : rand_nonneg P.
Hypothesis Hwrites : writes_complete P.

(** With nothing failing, and the blocks of the file that are no gaps
    holding what the disc holds, the refresh returns 0 and prints its
    report. *)
Lemma DVDCopyBlocksFillGaps_succeeds g (w : world Env) offset size errorstrat :
  0 <= offset -> 0 <= size -> offset + size <= INT_MAX ->
  (offset + size) * DVD_VIDEO_LB_LEN <= Z.of_nat (length disc) ->
  Z.of_nat (length (w_file w)) <= OFF_MAX ->
  (forall k, 0 <= k < size -> gap_blockb (w_file w) k = false ->
             block_of (w_file w) k = block_of disc (offset + k)) ->
  forall rc report w',
    DVDCopyBlocksFillGaps P g w offset size errorstrat = Some (rc, report, w') ->
    rc = 0 /\ is_Some report.
Proof.
  intros Hoff Hsize Hint Hdisc Hlen Hgood rc report w' Hrun.
  assert (0 <= size <= INT_MAX) as Hsz by lia.
  destruct (refresh_prepare_ok P (w_env w) (w_file w) size Hsz Hlen)
    as (rp & Hrp & _ & Hprep).
  pose proof (refresh_prepare_no_fault _ _ _ _ Hsz Hlen Hrp) as H0.
  pose proof (refresh_prepare_covers P _ _ _ _ Hsz Hlen Hrp H0) as Hcovers.
  destruct (Hprep H0) as ([Hord _] & Hin & Hsamples & _). clear Hprep.
  unfold DVDCopyBlocksFillGaps in Hrun. rewrite Hrp, H0 in Hrun. simpl in Hrun.
  set (verified := if Z.of_nat (length (rp_samples rp)) >? 0 then _ else _) in Hrun.
  assert (verified.1 = 0 /\ w_file verified.2 = w_file w) as [Hpass Hsame].
  { unfold verified. destruct (_ >? 0); [|done]. split.
    - apply gap_verify_samples_pass; [done|]. rewrite Hsamples.
      destruct (samples_spec_inv (ranges (rp_plan rp)) size GAP_SAMPLE_TARGET
                  ltac:(lia) ltac:(unfold GAP_SAMPLE_TARGET; lia)) as [_ Hall].
      eapply Forall_impl; [exact Hall|]. simpl. intros s [Hs Hfree].
      assert (gap_blockb (w_file w) s = false) as Hdata.
      { destruct (gap_blockb (w_file w) s) eqn:Hgap; [|done].
        destruct Hfree. apply Hcovers. split; [done|].
        unfold gap_blockb in Hgap.
        apply orb_true_iff in Hgap as [Hmissing%Z.leb_le|Hblank]; [by right|by left]. }
      pose proof Hdata as Hthere. unfold gap_blockb in Hthere.
      apply orb_false_iff in Hthere as [Hthere%Z.leb_gt _].
      split_and!; [lia|lia|unfold DVD_VIDEO_LB_LEN in *; lia| |by apply Hgood].
      unfold full_blocks_of, DVD_VIDEO_LB_LEN in *.
      pose proof (Z.mul_div_le (Z.of_nat (length (w_file w))) 2048 ltac:(lia)). lia.
    - apply (gap_verify_samples_file P offset (rp_samples rp) (with_env w (rp_env rp))). }
  destruct verified as [vrc w2]. simpl in Hpass, Hsame. subst vrc. simpl in Hrun.
  destruct (gap_fill_from_plan_filled P disc offset size Himage Hoff Hsize Hint Hdisc
              Hrand g w2 (rp_plan rp) errorstrat (fun _ => False) Hord)
    as (fill_status & w3 & filled & Hfill & Hok & _).
  { eapply Forall_impl; [exact Hin|]. intros r (? & ? & ? & _). by split_and!. }
  { apply blocks_from_disc_none. }
  rewrite Hfill, (Hok Hwrites Halloc) in Hrun. simpl in Hrun.
  destruct (scan_existing_file_for_gaps _ _ _ _ _) as [vr|]; [|done].
  destruct (scan_ret vr =? 0); injection Hrun as <- <- _; by split.
Qed.

End RepairFacts.

(** X22.  With a drive that delivers the blocks of the disc image and no
    failing write, system call or allocation, a refresh of a file whose
    blocks that are no gaps hold what the disc holds returns 0, prints its
    report, and leaves the expected blocks of the file equal to the
    image. *)
Theorem refresh_repairs_file :
  forall {Env : Type} (P : platform Env) (disc : list byte) (g : globals) (w : world Env)
         (offset size : Z) (errorstrat : read_error_strategy_t),
    reads_bounded P -> reads_image P disc -> rand_nonneg P ->
    writes_complete P -> no_sys_faults P -> no_alloc_faults P ->
    0 <= offset -> 0 <= size -> offset + size <= INT_MAX ->
    (offset + size) * DVD_VIDEO_LB_LEN <= Z.of_nat (length disc) ->
    Z.of_nat (length (w_file w)) <= OFF_MAX ->
    (forall k, 0 <= k < size -> gap_blockb (w_file w) k = false ->
               block_of (w_file w) k = block_of disc (offset + k)) ->
    exists report w',
      DVDCopyBlocksFillGaps P g w offset size errorstrat = Some (0, Some report, w')
      /\ take (Z.to_nat (size * DVD_VIDEO_LB_LEN)) (w_file w')
         = read_at disc (size * DVD_VIDEO_LB_LEN) (offset * DVD_VIDEO_LB_LEN).
Proof.
  intros Env P disc g w offset size errorstrat Hreads Himage Hrand Hwrites Hsys Halloc
    Hoff Hsize Hint Hdisc Hlen Hgood.
  destruct (DVDCopyBlocksFillGaps_filled P disc g w offset size errorstrat Hreads Himage
              Hrand Hoff Hsize Hint Hdisc Hlen)
    as (rc & report & w' & Hrun & Hframe & Hfilled).
  destruct (DVDCopyBlocksFillGaps_succeeds P Hsys Halloc disc Himage Hrand Hwrites
              g w offset size errorstrat Hoff Hsize Hint Hdisc Hlen Hgood _ _ _ Hrun)
    as [-> [rep ->]].
  exists rep, w'. split; [done|].
  apply (restored_image disc (w_file w)); [done|done|done| |done].
  by apply Hfilled.
Qed.

(** ** Title VOB copier *)

Lemma foldr_add_snoc (l : list Z) x : foldr Z.add 0 (l ++ [x]) = foldr Z.add 0 l + x.
Proof. induction l as [|y l IH]; simpl; lia. Qed.

(** The offset of a part is the number of blocks of the parts before it. *)
Lemma title_vob_offset_blocks size_vob vob :
  1 <= vob <= 10 -> (Z.to_nat vob <= length size_vob)%nat ->
  (forall i, 0 <= i < vob - 1 ->
     0 <= arr_get size_vob i <= 2 ^ 30 /\ arr_get size_vob i mod DVD_VIDEO_LB_LEN = 0) ->
  exists offset,
    title_vob_offset size_vob vob = Some (inl offset)
    /\ 0 <= offset <= (vob - 1) * 2 ^ 19
    /\ offset * DVD_VIDEO_LB_LEN = bytes_before size_vob vob.
Proof.
  intros Hvob Hlen Hsizes. unfold title_vob_offset, bytes_before.
  match goal with
  | |- context [for_range_ret 0 (vob - 1) ?body 0] =>
      pose proof (for_range_ret_ind
        (fun i offset => 0 <= offset <= i * 2 ^ 19
                         /\ offset * DVD_VIDEO_LB_LEN
                            = foldr Z.add 0 (take (Z.to_nat i) size_vob))
        (fun _ : unit => False) body 0 (vob - 1) 0 ltac:(lia)
        ltac:(split; [lia|done])) as Hloop
  end.
  simpl in Hloop.
  specialize (Hloop ltac:(
    intros i offset Hi [Hoff Hsum];
    pose proof (Hsizes i Hi) as [Hsz Hmod];
    rewrite (int_wrap_small (arr_get size_vob i)) by (unfold INT_MIN, INT_MAX; lia);
    rewrite int_mod_nonneg by (unfold INT_MAX, DVD_VIDEO_LB_LEN; lia);
    rewrite Hmod; cbn [Z.eqb negb];
    rewrite int_div_nonneg by (unfold INT_MAX, DVD_VIDEO_LB_LEN; lia);
    assert (exists x, size_vob !! Z.to_nat i = Some x) as [x Hx]
      by (apply lookup_lt_is_Some_2; lia);
    assert (arr_get size_vob i = x) as Hget by (unfold arr_get; by rewrite Hx);
    rewrite Hget in *;
    replace (Z.to_nat (i + 1)) with (S (Z.to_nat i)) by lia;
    rewrite (take_S_r _ _ _ Hx), foldr_add_snoc, <- Hsum;
    unfold DVD_VIDEO_LB_LEN in *;
    pose proof (Z.div_mod x 2048 ltac:(lia)) as Hdiv;
    pose proof (Z.div_le_upper_bound x 2048 (2 ^ 19) ltac:(lia) ltac:(lia));
    pose proof (Z.div_pos x 2048 ltac:(lia) ltac:(lia));
    rewrite int_wrap_small by (unfold INT_MIN, INT_MAX; lia);
    split; lia)).
  destruct (for_range_ret _ _ _ _) as [[offset|[]]|]; [|done|done].
  exists offset. destruct Hloop as [Hoff Hsum]. split; [done|]. split; [lia|done].
Qed.

(** X23.  [DVDCopyTitleVobX] with [fill_gaps] off, a drive that delivers the
    image of the title set's VOBs and nothing failing: for a part from the
    first to the ninth of a title set of at most 99, for which the name
    fits [filename], whose size and the sizes of the parts before it are
    positive multiples of 2048 of at most 1 GiB, it returns 0 and leaves
    under the target name a regular file that holds exactly the bytes of
    the image that follow those of the parts before, whatever was there
    before. *)
Theorem DVDCopyTitleVobX_copies_part :
  forall {Env : Type} (P : platform Env) (disc : list byte) (g : globals)
         (title_set_info : TitleSetInfo.title_set_info_t) (title_set vob : Z)
         (target : target_t) (e : Env) (errorstrat : read_error_strategy_t),
    let ts := TitleSetInfo.get title_set_info title_set in
    let size_vob := TitleSetInfo.size_vob ts in
    reads_image P disc -> writes_complete P -> no_sys_faults P -> no_alloc_faults P ->
    fill_gaps g = false -> target <> Irregular ->
    1 <= title_set <= int_wrap (TitleSetInfo.number_of_title_sets title_set_info + 1) ->
    title_set <= 99 ->
    1 <= vob <= 9 -> vob <= TitleSetInfo.number_of_vob_files ts ->
    (Z.to_nat vob <= length size_vob)%nat ->
    (forall i, 0 <= i < vob ->
       0 < arr_get size_vob i <= 2 ^ 30 /\ arr_get size_vob i mod DVD_VIDEO_LB_LEN = 0) ->
    bytes_before size_vob vob + arr_get size_vob (vob - 1) <= Z.of_nat (length disc) ->
    exists e',
      DVDCopyTitleVobX P g title_set_info title_set vob target e errorstrat
      = Some (0, Regular (read_at disc (arr_get size_vob (vob - 1))
                                  (bytes_before size_vob vob)), e').
Proof.
  intros Env P disc g title_set_info title_set vob target e errorstrat ts size_vob
    Himage Hwrites Hsys Halloc Hg Htarget Hset Hset99 Hvob Hparts Hlen Hsizes Hdisc.
  unfold DVDCopyTitleVobX.
  destruct (sprintf_filename_fits title_set vob Hset99 ltac:(lia)) as (filename & ->).
  fold ts. fold size_vob.
  destruct (Z.ltb_spec (int_wrap (TitleSetInfo.number_of_title_sets title_set_info + 1))
              title_set); [lia|].
  destruct (Z.ltb_spec (TitleSetInfo.number_of_vob_files ts) vob); [lia|].
  pose proof (Hsizes 0 ltac:(lia)) as [Hfirst _].
  pose proof (Hsizes (vob - 1) ltac:(lia)) as [Hthis Hmod].
  destruct (Z.eqb_spec (arr_get size_vob 0) 0); [lia|].
  destruct (Z.eqb_spec (arr_get size_vob (vob - 1)) 0); [lia|].
  rewrite Z.rem_mod_nonneg, Z.quot_div_nonneg by (unfold DVD_VIDEO_LB_LEN; lia).
  rewrite Hmod. cbn [Z.eqb negb].
  destruct (Z.eqb_spec title_set 0); [lia|].
  set (size := arr_get size_vob (vob - 1) / DVD_VIDEO_LB_LEN).
  assert (1 <= size <= 2 ^ 19 /\ size * DVD_VIDEO_LB_LEN = arr_get size_vob (vob - 1))
    as [Hsize Hbytes].
  { unfold size, DVD_VIDEO_LB_LEN in *.
    pose proof (Z.div_mod (arr_get size_vob (vob - 1)) 2048 ltac:(lia)).
    pose proof (Z.div_le_upper_bound (arr_get size_vob (vob - 1)) 2048 (2 ^ 19)
                  ltac:(lia) ltac:(lia)).
    pose proof (Z.div_pos (arr_get size_vob (vob - 1)) 2048 ltac:(lia) ltac:(lia)).
    lia. }
  rewrite (int_wrap_small size) by (unfold INT_MIN, INT_MAX; lia).
  pose proof (Halloc e) as Ha. destruct (alloc_fault P e) as [f1 e1]. simpl in Ha. subst f1.
  destruct (title_vob_offset_blocks size_vob vob ltac:(lia) Hlen
              ltac:(intros i Hi; destruct (Hsizes i ltac:(lia)); split; [lia|done]))
    as (offset & -> & Hoffset & Hbefore).
  pose proof (Hsys e1) as Hs1. destruct (sys_fault P e1) as [f2 e2]. simpl in Hs1. subst f2.
  pose proof (Hsys e2) as Hs2. destruct (sys_fault P e2) as [f3 e3]. simpl in Hs2. subst f3.
  rewrite Hg.
  destruct (DVDCopyBlocks_fresh_file P disc g e3 offset size errorstrat Himage Hwrites Hg
              ltac:(lia) ltac:(lia) ltac:(unfold INT_MAX; lia)
              ltac:(unfold DVD_VIDEO_LB_LEN in *; lia)) as (w' & Hcopy & Hfile).
  rewrite Hbytes, Hbefore in Hfile.
  destruct target as [|file|]; [| |done]; rewrite Hcopy, Hfile; by eexists.
Qed.

(** * The properties at concrete inputs *)

(** The cells of chapters 3 to 5 in the spec's scenario, out of order and
    with one overlap. *)
Lemma sorted_aligned_cells_disjoint_witness :
  arr_get (sorted_aligned_cells [350; 100; 499; 200; 300] [499; 199; 550; 299; 349] 5).2 3
  < arr_get (sorted_aligned_cells [350; 100; 499; 200; 300] [499; 199; 550; 299; 349] 5).1 4.
Proof.
  apply sorted_aligned_cells_disjoint; [reflexivity | reflexivity | | lia | lia | lia].
  repeat constructor; unfold INT_MIN, INT_MAX; lia.
Defined.

(** Four insertions, the second merged into the first and the third empty. *)
Lemma gap_plan_ordered_disjoint_witness :
  ordered_disjoint
    (ranges (gap_plan_add_all (image_platform [] 512 0) tt empty_plan
               [(3, 2); (5, 1); (7, 0); (9, 4)]).1.2).
Proof.
  apply (proj1 (gap_plan_ordered_disjoint (image_platform [] 512 0))).
  repeat constructor; simpl; unfold SIZE_MAX; lia.
Defined.

(** Sampling a file of ten blocks whose blocks 2 to 4 are gaps. *)
Lemma gap_collect_samples_spec_witness :
  exists samples,
    gap_collect_samples (GapPlan [GapRange 2 3] 8) 10 GAP_SAMPLE_TARGET = Some samples
    /\ samples = samples_spec (ranges (GapPlan [GapRange 2 3] 8)) 10 GAP_SAMPLE_TARGET
    /\ (length samples <= 32)%nat
    /\ forall s, s ∈ samples ->
         0 <= s < 10 /\ ~ in_plan (ranges (GapPlan [GapRange 2 3] 8)) s.
Proof.
  apply gap_collect_samples_spec; [|unfold INT_MAX; lia].
  apply (plan_ok_snoc [] (GapRange 2 3)). split; [apply plan_ok_nil|].
  split; [repeat split; simpl; unfold SIZE_MAX; lia|].
  intros x Hx. by apply elem_of_nil in Hx.
Defined.

(** A drive that delivers one block to a request of two. *)
Lemma DVDCopyBlocks_skip_multiblock_witness :
  exists w',
    copy_chunk (image_platform disc1 1 0) STRATEGY_SKIP_MULTIBLOCK
      (0, 2, BUFFER_SIZE, World tt [] 0 [])
    = Some (Next (int_wrap (0 + Z.min BUFFER_SIZE 2), 2 - Z.min BUFFER_SIZE 2,
                  Z.min BUFFER_SIZE 2, w'))
    /\ w_file w'
       = w_file (World tt [] 0 []) ++ take (Z.to_nat (Z.max 1 0 * DVD_VIDEO_LB_LEN)) disc1
           ++ zeros ((Z.min BUFFER_SIZE 2 - Z.max 1 0) * DVD_VIDEO_LB_LEN).
Proof.
  apply (proj1 (DVDCopyBlocks_skip_multiblock (image_platform disc1 1 0)
                  (fun e n => eq_refl)))
    with (e1 := tt).
  - reflexivity.
  - lia.
  - unfold BUFFER_SIZE. lia.
  - vm_compute. reflexivity.
  - unfold BUFFER_SIZE. lia.
  - intros _. vm_compute. reflexivity.
Defined.

(** The scan of [file3] with four blocks expected. *)
Lemma scan_existing_file_for_gaps_spec_witness :
  exists sr,
    scan_existing_file_for_gaps (image_platform [] 512 0) tt file3 4 empty_plan = Some sr
    /\ scan_ret sr = 0
    /\ GapRange 1 2 ∈ ranges (scan_plan sr)
    /\ scan_blank_blocks sr = 2.
Proof.
  destruct (proj1 (scan_existing_file_for_gaps_spec (image_platform [] 512 0) tt file3 4
                     ltac:(unfold SIZE_MAX; lia)
                     ltac:(vm_compute; discriminate)))
    as (sr & Hsr & Hret & Hok).
  exists sr. split; [exact Hsr|].
  assert (scan_ret sr = 0) as H0.
  { destruct Hret as [H0|[_ [[[] H]|[[] H]]]]; [exact H0|discriminate H|discriminate H]. }
  destruct (Hok H0) as (_ & _ & _ & Hruns & Hcount).
  split; [exact H0|]. split.
  - apply Hruns.
    replace (Z.min (full_blocks_of file3) 4) with 3 by (vm_compute; reflexivity).
    unfold maximal_run, all_blank, left_maximal.
    split; [lia|]. split; [lia|]. split; [lia|]. split; [|split].
    + intros k Hk. assert (k = 1 \/ k = 2) as [->| ->] by lia; vm_compute; reflexivity.
    + right. vm_compute. reflexivity.
    + left. reflexivity.
  - rewrite Hcount. vm_compute. reflexivity.
Defined.

(** A drive that delivers an image of 524300 blocks, with no failing call:
    the first part receives the first cell, 1 GiB, the function returns 1
    at the second cell, and there is no second part. *)
Lemma DVDWriteCells_cap_at_cell_end_witness :
  exists files' e',
    DVDWriteCells (image_platform disc_524300 512 0)
      (Globals false GAP_STRATEGY_FORWARD 0 false)
      tt ∅ [0; 524289] [524288; 524299] 2 1 "out" "DISC"
    = Some (1, files', e')
    /\ files' !! "out/DISC/VIDEO_TS/VTS_01_1.VOB"
       = Some (read_at disc_524300 (MAX_VOB_SIZE * DVD_VIDEO_LB_LEN) 0)
    /\ files' !! "out/DISC/VIDEO_TS/VTS_01_2.VOB" = None.
Proof.
  destruct (DVDWriteCells_cap_at_cell_end (image_platform disc_524300 512 0)
              (Globals false GAP_STRATEGY_FORWARD 0 false) tt ∅ 1 "out" "DISC"
              (image_platform_reads_bounded _ _ _) eq_refl)
    as (files' & e' & Hrun & Hparts).
  exists files', e'. split; [exact Hrun|].
  destruct (Hparts disc_524300) as [Hfirst Hothers].
  - apply image_platform_reads_image. unfold BUFFER_SIZE. lia.
  - apply image_platform_writes_complete.
  - intros e. reflexivity.
  - intros e. reflexivity.
  - lia.
  - unfold disc_524300. rewrite length_replicate.
    unfold MAX_VOB_SIZE, DVD_VIDEO_LB_LEN. lia.
  - change (vob_targetname "out" "DISC" 1 1) with "out/DISC/VIDEO_TS/VTS_01_1.VOB"
      in Hfirst, Hothers.
    split; [exact Hfirst|].
    destruct (files' !! "out/DISC/VIDEO_TS/VTS_01_2.VOB") as [f|] eqn:Hsecond;
      [|reflexivity].
    apply Hothers in Hsecond; [|intros H; discriminate H].
    pose proof (lookup_empty (M := gmap string) (A := list byte)
                  "out/DISC/VIDEO_TS/VTS_01_2.VOB") as Hempty.
    unfold vob_files in Hsecond. rewrite Hempty in Hsecond. discriminate Hsecond.
Defined.


(** The same file refreshed from a disc that holds its first block and a
    second one. *)
Lemma refresh_gap_count_monotone_witness :
  exists rc report w',
    DVDCopyBlocksFillGaps (image_platform (disc1 ++ disc2) 512 0) refresh_forward
      (World tt disc1 0 []) 0 2 STRATEGY_ABORT = Some (rc, report, w')
    /\ blank_count (w_file w') 2 + missing_blocks (w_file w') 2
       <= blank_count (w_file (World tt disc1 0 [])) 2
          + missing_blocks (w_file (World tt disc1 0 [])) 2
    /\ (length (w_file (World tt disc1 0 [])) <= length (w_file w'))%nat.
Proof.
  apply (refresh_gap_count_monotone (image_platform (disc1 ++ disc2) 512 0) refresh_forward
           (World tt disc1 0 []) 0 2 STRATEGY_ABORT).
  - apply image_platform_reads_bounded.
  - unfold INT_MAX. lia.
  - vm_compute. discriminate.
Defined.

Lemma refresh_writes_only_gaps_witness :
  exists rc report w',
    DVDCopyBlocksFillGaps (image_platform (disc1 ++ disc2) 512 0) refresh_forward
      (World tt disc1 0 []) 0 2 STRATEGY_ABORT = Some (rc, report, w')
    /\ block_of (w_file w') 0 = block_of disc1 0.
Proof.
  destruct (refresh_writes_only_gaps (image_platform (disc1 ++ disc2) 512 0) refresh_forward
              (World tt disc1 0 []) 0 2 STRATEGY_ABORT
              (image_platform_reads_bounded _ _ _)
              ltac:(unfold INT_MAX; lia)
              ltac:(vm_compute; discriminate))
    as (rp & rc & report & w' & _ & Hrun & _ & Hkeep & _).
  exists rc, report, w'. split; [exact Hrun|].
  apply Hkeep; [vm_compute; split; [discriminate|reflexivity]|vm_compute; reflexivity].
Defined.

(** * The further properties at concrete inputs *)

Lemma gap_plan_insert_then_contains_witness :
  gap_plan_contains
    (gap_plan_add_all (image_platform [] 512 0) tt empty_plan [(3, 2); (5, 1); (9, 4)]).1.2 5
  = true
  <-> in_inserts [(3, 2); (5, 1); (9, 4)] 5.
Proof.
  apply gap_plan_insert_then_contains.
  - repeat constructor; simpl; unfold SIZE_MAX; lia.
  - simpl. lia.
  - reflexivity.
Defined.

Lemma gap_plan_count_within_capacity_witness :
  plan_count
    (gap_plan_add_all (image_platform [] 512 0) tt empty_plan [(3, 2); (7, 1)]).1.2
  <= capacity
       (gap_plan_add_all (image_platform [] 512 0) tt empty_plan [(3, 2); (7, 1)]).1.2.
Proof.
  apply gap_plan_count_within_capacity. simpl. unfold SIZE_MAX. lia.
Defined.

Lemma bsort_min_to_max_sorts_pairs_witness :
  sorted_upto (bsort_min_to_max [350; 100; 200] [499; 199; 299] 3).1 3
  /\ zip (bsort_min_to_max [350; 100; 200] [499; 199; 299] 3).1
         (bsort_min_to_max [350; 100; 200] [499; 199; 299] 3).2
     ≡ₚ zip [350; 100; 200] [499; 199; 299].
Proof. apply bsort_min_to_max_sorts_pairs; reflexivity. Defined.

Lemma bsort_max_to_min_sorts_pairs_witness :
  sorted_down_upto (bsort_max_to_min [2; 8; 5] [1; 2; 3] 3).1 3
  /\ zip (bsort_max_to_min [2; 8; 5] [1; 2; 3] 3).1 (bsort_max_to_min [2; 8; 5] [1; 2; 3] 3).2
     ≡ₚ zip [2; 8; 5] [1; 2; 3].
Proof. apply bsort_max_to_min_sorts_pairs; reflexivity. Defined.

(** Two title sets of 2000000 and 1600000 blocks. *)
Lemma CheckSizeArray_same_size_range_witness :
  (CheckSizeArray [2000000; 1600000] 0 1 = 1 \/ CheckSizeArray [2000000; 1600000] 0 1 = 0)
  /\ (CheckSizeArray [2000000; 1600000] 0 1 = 1
      <-> 0 < arr_get [2000000; 1600000] 1 <= arr_get [2000000; 1600000] 0
          /\ 2 * arr_get [2000000; 1600000] 0 < 3 * arr_get [2000000; 1600000] 1).
Proof.
  apply CheckSizeArray_same_size_range.
  - change (arr_get [2000000; 1600000] 0) with 2000000. lia.
  - change (arr_get [2000000; 1600000] 1) with 1600000. unfold INT_MAX. lia.
Defined.

Lemma CheckAudioSubChannels_on_rankings_witness :
  let found :=
    CheckAudioSubChannels (ranking (arr_get [2; 3]) 2).1 (ranking (arr_get [2; 3]) 2).2
      (ranking (arr_get [1; 4]) 2).1 (ranking (arr_get [1; 4]) 2).2
      (ranking (arr_get [6; 6]) 2).1 (ranking (arr_get [6; 6]) 2).2
      0 2 2 in
  (found = 3 <-> has_most (arr_get [2; 3]) 2 2 /\ has_most (arr_get [1; 4]) 2 2
                 /\ has_most (arr_get [6; 6]) 2 2)
  /\ (found = 0 <-> ~ has_most (arr_get [2; 3]) 2 2 /\ ~ has_most (arr_get [1; 4]) 2 2
                    /\ ~ has_most (arr_get [6; 6]) 2 2).
Proof. apply CheckAudioSubChannels_on_rankings. lia. Defined.

(** A disc of two title sets, the second four times the first. *)
Lemma DVDGetInfo_guesses_largest_witness :
  has_most (fun counter => arr_get [1000; 4000] counter) 2
    (main_title_set
       (DVDGetInfo (VmgInfo 1 [TitleEntry 2 1 12 1] 2
                      [VtsAttributes 0 1 [1] 0; VtsAttributes 2 2 [5; 1] 3])
                   [1000; 4000] 3 0)).
Proof.
  apply (DVDGetInfo_guesses_largest
           (VmgInfo 1 [TitleEntry 2 1 12 1] 2
              [VtsAttributes 0 1 [1] 0; VtsAttributes 2 2 [5; 1] 3]) [1000; 4000] 3 0).
  - simpl. lia.
  - right. vm_compute. discriminate.
Defined.

Lemma DVDMirrorChapters_title_most_chapters_witness :
  let info := TitlesInfo 2 3 [Titles 1 1 1 9 0 1 0 0 0; Titles 2 2 1 12 0 1 0 0 0;
                              Titles 3 2 2 12 0 1 0 0 0] in
  let t := DVDMirrorChapters_title info 0 in
  (t = 0
   /\ forall k, 1 <= k <= number_of_titles info -> in_main_title_set info k ->
        chapters (titles_get info (k - 1)) <= 0)
  \/ (1 <= t <= number_of_titles info
      /\ in_main_title_set info t
      /\ 0 < chapters (titles_get info (t - 1))
      /\ (forall k, 1 <= k <= number_of_titles info -> in_main_title_set info k ->
            chapters (titles_get info (k - 1)) <= chapters (titles_get info (t - 1)))
      /\ (forall k, 1 <= k < t -> in_main_title_set info k ->
            chapters (titles_get info (k - 1)) < chapters (titles_get info (t - 1)))).
Proof.
  intros info. apply (DVDMirrorChapters_title_most_chapters info).
  simpl. unfold INT_MAX. lia.
Defined.

Lemma DVDCopyBlocks_appends_exact_size_witness :
  exists rc w',
    DVDCopyBlocks (image_platform disc1 512 0) (Globals false GAP_STRATEGY_FORWARD 0 false)
      (World tt [] 0 []) 0 2 STRATEGY_SKIP_BLOCK = Some (rc, w')
    /\ (rc = 0 \/ rc = 1)
    /\ w_file (World tt [] 0 []) `prefix_of` w_file w'
    /\ (rc = 0 ->
        Z.of_nat (length (w_file w'))
        = Z.of_nat (length (w_file (World tt [] 0 []))) + 2 * DVD_VIDEO_LB_LEN).
Proof.
  apply (DVDCopyBlocks_appends_exact_size (image_platform disc1 512 0)).
  - apply image_platform_reads_bounded.
  - reflexivity.
  - lia.
  - reflexivity.
Defined.

Lemma DVDCopyBlocks_copies_image_witness :
  exists w',
    DVDCopyBlocks (image_platform disc1 512 0) (Globals false GAP_STRATEGY_FORWARD 0 false)
      (World tt [] 0 []) 0 1 STRATEGY_ABORT = Some (0, w')
    /\ w_file w'
       = w_file (World tt [] 0 [])
           ++ read_at disc1 (1 * DVD_VIDEO_LB_LEN) (0 * DVD_VIDEO_LB_LEN).
Proof.
  apply (DVDCopyBlocks_copies_image (image_platform disc1 512 0) disc1).
  - apply image_platform_reads_image. unfold BUFFER_SIZE. lia.
  - apply image_platform_writes_complete.
  - reflexivity.
  - lia.
  - lia.
  - unfold INT_MAX. lia.
  - vm_compute. discriminate.
  - reflexivity.
Defined.

(** A drive that delivers one block to a request of two. *)
Lemma copy_chunk_short_read_abort_skip_block_witness :
  (exists w',
      copy_chunk (image_platform disc1 1 0) STRATEGY_ABORT
        (0, 2, BUFFER_SIZE, World tt [] 0 []) = Some (Ret (1, w'))
      /\ w_file w' = w_file (World tt [] 0 [])
                       ++ take (Z.to_nat (Z.max 1 0 * DVD_VIDEO_LB_LEN)) disc1)
  /\ (exists w',
         copy_chunk (image_platform disc1 1 0) STRATEGY_SKIP_BLOCK
           (0, 2, BUFFER_SIZE, World tt [] 0 [])
         = Some (Next (int_wrap (0 + (Z.max 1 0 + 1)), 2 - (Z.max 1 0 + 1),
                       Z.min BUFFER_SIZE 2, w'))
         /\ w_file w' = w_file (World tt [] 0 [])
                          ++ take (Z.to_nat (Z.max 1 0 * DVD_VIDEO_LB_LEN)) disc1
                          ++ zeros DVD_VIDEO_LB_LEN).
Proof.
  apply (copy_chunk_short_read_abort_skip_block (image_platform disc1 1 0)
           (fun e n => eq_refl) 0 2 BUFFER_SIZE (World tt [] 0 []) 1 disc1 tt).
  - reflexivity.
  - lia.
  - unfold BUFFER_SIZE. lia.
  - vm_compute. reflexivity.
  - unfold BUFFER_SIZE. lia.
  - intros _. vm_compute. reflexivity.
Defined.

(** One cell of 524298 blocks, ten more than a part holds, on a drive that
    delivers an image of 524300 blocks. *)
Lemma DVDWriteCells_parts_capped_witness :
  exists rc files' e',
    DVDWriteCells (image_platform disc_524300 512 0)
      (Globals false GAP_STRATEGY_FORWARD 0 false)
      tt ∅ [0] [524298] 1 1 "out" "DISC" = Some (rc, files', e')
    /\ (rc = 0 \/ rc = 1)
    /\ (rc = 0 ->
        forall (v : string) f, files' !! v = Some f ->
          (∅ : vob_files) !! v = Some f
          \/ Z.of_nat (length f) <= MAX_VOB_SIZE * DVD_VIDEO_LB_LEN).
Proof.
  apply (DVDWriteCells_parts_capped (image_platform disc_524300 512 0)).
  - apply image_platform_reads_bounded.
  - reflexivity.
  - intros i Hi. replace i with 0 by lia. vm_compute.
    repeat split; (lia || discriminate).
Defined.

Lemma refresh_without_gaps_keeps_file_witness :
  exists rc report w',
    DVDCopyBlocksFillGaps (image_platform disc1 512 0) refresh_forward
      (World tt disc1 0 []) 0 1 STRATEGY_ABORT = Some (rc, report, w')
    /\ w_file w' = w_file (World tt disc1 0 [])
    /\ w_writes w' = w_writes (World tt disc1 0 []).
Proof.
  apply (refresh_without_gaps_keeps_file (image_platform disc1 512 0)).
  - apply image_platform_reads_bounded.
  - unfold INT_MAX. lia.
  - vm_compute. discriminate.
  - intros k Hk. assert (k = 0) as -> by lia. vm_compute. reflexivity.
Defined.

Lemma refresh_fills_gaps_from_disc_witness :
  exists rc report w',
    DVDCopyBlocksFillGaps (image_platform disc2 512 0) refresh_forward
      (World tt (zeros 2048) 0 []) 0 2 STRATEGY_ABORT = Some (rc, report, w')
    /\ (rc = 0 ->
        2 * DVD_VIDEO_LB_LEN <= Z.of_nat (length (w_file w'))
        /\ forall k, gap_block (w_file (World tt (zeros 2048) 0 [])) 2 k ->
             block_of (w_file w') k = block_of disc2 (0 + k)).
Proof.
  apply (refresh_fills_gaps_from_disc (image_platform disc2 512 0) disc2).
  - apply image_platform_reads_bounded.
  - apply image_platform_reads_image. unfold BUFFER_SIZE. lia.
  - apply image_platform_rand_nonneg. lia.
  - lia.
  - lia.
  - unfold INT_MAX. lia.
  - vm_compute. discriminate.
  - vm_compute. discriminate.
Defined.

Lemma refresh_restores_image_witness :
  exists rc report w',
    DVDCopyBlocksFillGaps (image_platform disc2 512 0) refresh_forward
      (World tt (take 2048 disc2) 0 []) 0 2 STRATEGY_ABORT = Some (rc, report, w')
    /\ (rc = 0 ->
        take (Z.to_nat (2 * DVD_VIDEO_LB_LEN)) (w_file w')
        = read_at disc2 (2 * DVD_VIDEO_LB_LEN) (0 * DVD_VIDEO_LB_LEN)).
Proof.
  apply (refresh_restores_image (image_platform disc2 512 0) disc2).
  - apply image_platform_reads_bounded.
  - apply image_platform_reads_image. unfold BUFFER_SIZE. lia.
  - apply image_platform_rand_nonneg. lia.
  - lia.
  - lia.
  - unfold INT_MAX. lia.
  - vm_compute. discriminate.
  - vm_compute. discriminate.
  - intros k Hk. assert (k = 0 \/ k = 1) as [-> | ->] by lia.
    + intros _. vm_compute. reflexivity.
    + vm_compute. discriminate.
Defined.

Lemma DVDCmpBlocks_zero_iff_same_witness :
  exists rc w',
    DVDCmpBlocks (image_platform disc1 512 0) (plain_reader 1000)
      (Z.to_nat (BUFFER_SIZE * DVD_VIDEO_LB_LEN + 1)) (World tt disc1 0 []) 0 1
    = Some (rc, w')
    /\ (rc = 0 \/ rc = 1)
    /\ (rc = 0 <->
        drop (Z.to_nat (0 * DVD_VIDEO_LB_LEN)) (w_file (World tt disc1 0 []))
        = read_at disc1 (1 * DVD_VIDEO_LB_LEN) (0 * DVD_VIDEO_LB_LEN)).
Proof.
  apply (DVDCmpBlocks_zero_iff_same (image_platform disc1 512 0) (plain_reader 1000) disc1).
  - apply image_platform_reads_image. unfold BUFFER_SIZE. lia.
  - apply plain_reader_ok.
  - lia.
  - lia.
  - unfold INT_MAX. lia.
  - vm_compute. discriminate.
  - unfold BUFFER_SIZE, DVD_VIDEO_LB_LEN. lia.
Defined.

Lemma DVDCopyBlocks_then_DVDCmpBlocks_witness :
  exists w1 rc w2,
    DVDCopyBlocks (image_platform disc2 512 0) (Globals false GAP_STRATEGY_FORWARD 0 false)
      (World tt [] 0 []) 0 2 STRATEGY_ABORT = Some (0, w1)
    /\ DVDCmpBlocks (image_platform disc2 512 0) (plain_reader 1000)
         (Z.to_nat (BUFFER_SIZE * DVD_VIDEO_LB_LEN + 1)) w1 0 2 = Some (rc, w2)
    /\ (0 = 0 -> rc = 0)
    /\ (0 < 0 -> 0 < 2 -> rc = 1).
Proof.
  apply (DVDCopyBlocks_then_DVDCmpBlocks (image_platform disc2 512 0) (plain_reader 1000)
           disc2).
  - apply image_platform_reads_image. unfold BUFFER_SIZE. lia.
  - apply image_platform_writes_complete.
  - apply plain_reader_ok.
  - reflexivity.
  - lia.
  - lia.
  - unfold INT_MAX. lia.
  - vm_compute. discriminate.
  - unfold BUFFER_SIZE, DVD_VIDEO_LB_LEN. lia.
Defined.

Lemma DVDCmpTitleVobX_later_part_fails_witness :
  exists gm' e',
    DVDCmpTitleVobX (image_platform disc2 512 0) (plain_reader 1000)
      (Z.to_nat (BUFFER_SIZE * DVD_VIDEO_LB_LEN + 1)) true
      (TitleSetInfo.Info 1
         [TitleSetInfo.TitleSet 0 0 0 [];
          TitleSetInfo.TitleSet 0 0 2 [2048; 2048; 0; 0; 0; 0; 0; 0; 0; 0]])
      1 2 (Some (drop 2048 disc2)) (GapMap.State [] 0 0) tt
    = Some (1, gm', e').
Proof.
  apply (DVDCmpTitleVobX_later_part_fails (image_platform disc2 512 0) (plain_reader 1000)).
  - apply plain_reader_ok.
  - lia.
  - lia.
  - intros i Hi. assert (i = 0 \/ i = 1) as [-> | ->] by lia; vm_compute; split; discriminate.
  - unfold BUFFER_SIZE, DVD_VIDEO_LB_LEN. lia.
Defined.

Lemma DVDCmpTitleVobX_first_part_witness :
  exists rc gm' e',
    DVDCmpTitleVobX (image_platform disc1 512 0) (plain_reader 1000)
      (Z.to_nat (BUFFER_SIZE * DVD_VIDEO_LB_LEN + 1)) false
      (TitleSetInfo.Info 1
         [TitleSetInfo.TitleSet 0 0 0 [];
          TitleSetInfo.TitleSet 0 0 1 [2048; 0; 0; 0; 0; 0; 0; 0; 0; 0]])
      1 1 (Some disc1) (GapMap.State [] 0 0) tt
    = Some (rc, gm', e')
    /\ (rc = 0 \/ rc = 1)
    /\ (rc = 0 <-> Some disc1 = Some (read_at disc1 (1 * DVD_VIDEO_LB_LEN) 0)).
Proof.
  apply (DVDCmpTitleVobX_first_part (image_platform disc1 512 0) (plain_reader 1000) disc1).
  - apply image_platform_reads_image. unfold BUFFER_SIZE. lia.
  - apply plain_reader_ok.
  - intros e. reflexivity.
  - intros e. reflexivity.
  - lia.
  - vm_compute. discriminate.
  - vm_compute. discriminate.
  - reflexivity.
  - lia.
  - vm_compute. discriminate.
  - unfold BUFFER_SIZE, DVD_VIDEO_LB_LEN. lia.
Defined.

Lemma refresh_repairs_file_witness :
  exists report w',
    DVDCopyBlocksFillGaps (image_platform disc2 512 0) refresh_forward
      (World tt (take 2048 disc2) 0 []) 0 2 STRATEGY_ABORT = Some (0, Some report, w')
    /\ take (Z.to_nat (2 * DVD_VIDEO_LB_LEN)) (w_file w')
       = read_at disc2 (2 * DVD_VIDEO_LB_LEN) (0 * DVD_VIDEO_LB_LEN).
Proof.
  apply (refresh_repairs_file (image_platform disc2 512 0) disc2).
  - apply image_platform_reads_bounded.
  - apply image_platform_reads_image. unfold BUFFER_SIZE. lia.
  - apply image_platform_rand_nonneg. lia.
  - apply image_platform_writes_complete.
  - intros e. reflexivity.
  - intros e. reflexivity.
  - lia.
  - lia.
  - unfold INT_MAX. lia.
  - vm_compute. discriminate.
  - vm_compute. discriminate.
  - intros k Hk. assert (k = 0 \/ k = 1) as [-> | ->] by lia.
    + intros _. vm_compute. reflexivity.
    + vm_compute. discriminate.
Defined.

Lemma DVDCopyTitleVobX_copies_part_witness :
  exists e',
    DVDCopyTitleVobX (image_platform disc2 512 0) (Globals false GAP_STRATEGY_FORWARD 0 false)
      (TitleSetInfo.Info 1
         [TitleSetInfo.TitleSet 0 0 0 [];
          TitleSetInfo.TitleSet 0 0 2 [2048; 2048; 0; 0; 0; 0; 0; 0; 0; 0]])
      1 2 Absent tt STRATEGY_ABORT
    = Some (0, Regular (read_at disc2 2048 2048), e').
Proof.
  apply (DVDCopyTitleVobX_copies_part (image_platform disc2 512 0) disc2
           (Globals false GAP_STRATEGY_FORWARD 0 false)
           (TitleSetInfo.Info 1
              [TitleSetInfo.TitleSet 0 0 0 [];
               TitleSetInfo.TitleSet 0 0 2 [2048; 2048; 0; 0; 0; 0; 0; 0; 0; 0]])
           1 2 Absent tt STRATEGY_ABORT).
  - apply image_platform_reads_image. unfold BUFFER_SIZE. lia.
  - apply image_platform_writes_complete.
  - intros e. reflexivity.
  - intros e. reflexivity.
  - reflexivity.
  - discriminate.
  - vm_compute. split; discriminate.
  - lia.
  - lia.
  - vm_compute. discriminate.
  - vm_compute. lia.
  - intros i Hi. assert (i = 0 \/ i = 1) as [-> | ->] by lia; vm_compute; done.
  - vm_compute. discriminate.
Defined.
